(** * Semantic vector analysis engine of the graph page (ConfigMgmt.tsx)

    A shallow embedding of the projector, the normalizer, the three
    clustering strategies and the insight aggregation of
    [src/pages/ConfigMgmt.tsx], with the properties of the specification
    stated over it.

    JavaScript numbers are IEEE-754 binary64 values: they are embedded as
    Rocq's primitive floats.  Array indices, counters and cluster labels
    are integers in the source and are embedded as [nat] or [Z].  The
    K-Means iteration is written over the operations it uses, and the
    power iteration is written a second time over them, so that both can
    also be read over the real numbers, to state what holds of them in
    exact arithmetic. *)

From Stdlib Require Import ZArith Bool Lia String DecimalString Floats Reals Lra List Sorted Permutation.
Import ListNotations.

Set Implicit Arguments.

(** ** JavaScript numbers and arrays *)

Module Js.

(** [Number.isFinite(x)] for a value that is a number. *)
Definition isFinite (x : float) : bool := PrimFloat.is_finite x.

(** Truthiness of a number: [0], [-0] and [NaN] are falsy. *)
Definition truthy (x : float) : bool :=
  negb (PrimFloat.is_zero x || PrimFloat.is_nan x).

(** [x || y] on numbers. *)
Definition or (x y : float) : float := if truthy x then x else y.

(** An array length or a counter as a number (exact below [2^53]). *)
Definition ofNat (n : nat) : float :=
  SF2Prim (binary_normalize prec emax (Z.of_nat n) 0 false).

(** An integer as a number, rounded to nearest when it has more than 53
    significant bits. *)
Definition ofZ (z : Z) : float :=
  SF2Prim (binary_normalize prec emax z 0 false).

(** [Math.floor(x)] of a finite number, as an integer. *)
Definition floor (x : float) : Z :=
  match Prim2SF x with
  | S754_finite s m e => Z.shiftl (if s then Zneg m else Zpos m) e
  | _ => 0
  end.

(** [Number(x.toFixed(digits))].  [toFixed] picks the integer [n] with
    [n / 10^digits] closest to [|x|] (the larger one on a tie) and prints
    it with [digits] decimals; [Number] reads the decimal back as the
    nearest double.  From [1e21] on, and for [NaN] and the infinities,
    [toFixed] prints the number itself. *)
Definition toFixed (digits : nat) (x : float) : float :=
  match Prim2SF x with
  | S754_finite s m e =>
      let scale := (10 ^ Z.of_nat digits)%Z in
      (* |x| = num / den *)
      let num := if (0 <=? e)%Z then (Zpos m * 2 ^ e)%Z else Zpos m in
      let den := if (0 <=? e)%Z then 1%Z else (2 ^ (- e))%Z in
      if (10 ^ 21 * den <=? num)%Z then x
      else
        let n := ((2 * scale * num + den) / (2 * den))%Z in
        let r :=
          match n, scale with
          | Zpos p, Zpos q =>
              SF2Prim (SFdiv prec emax (S754_finite false p 0) (S754_finite false q 0))
          | _, _ => PrimFloat.zero
          end in
        if s then PrimFloat.opp r else r
  | S754_zero _ => PrimFloat.zero
  | _ => x
  end.

Definition toFixed3 : float -> float := toFixed 3.

(** [a[i] = v] for [i] inside the array.  Every use below writes at an
    index smaller than the length of the array (the loop bound or the
    index set it ranges over); outside, the list is left as it is. *)
Fixpoint set {A : Type} (i : nat) (v : A) (a : list A) : list A :=
  match a, i with
  | [], _ => []
  | _ :: r, O => v :: r
  | x :: r, S j => x :: set j v r
  end.

(** [a[i] += v] on an array of numbers.  Inside the array the entry is
    increased; at [i >= a.length] the entry read is [undefined], the sum
    is [NaN], and the assignment extends the array up to index [i]
    (the entries skipped are holes, which read as [undefined] and behave
    as [NaN] in arithmetic). *)
Fixpoint addAt (i : nat) (v : float) (a : list float) : list float :=
  match a, i with
  | [], O => [PrimFloat.nan]
  | [], S j => PrimFloat.nan :: addAt j v []
  | x :: r, O => PrimFloat.add x v :: r
  | x :: r, S j => x :: addAt j v r
  end.

(** [a.forEach((x, idx) => ...)] and [a.reduce((acc, x, idx) => ..., init)]:
    a left fold that also passes the index. *)
Fixpoint foldIdxFrom {A S : Type} (f : S -> A -> nat -> S) (i : nat) (a : list A) (s : S) : S :=
  match a with
  | [] => s
  | x :: r => foldIdxFrom f (Datatypes.S i) r (f s x i)
  end.

Definition foldIdx {A S : Type} (f : S -> A -> nat -> S) (a : list A) (s : S) : S :=
  foldIdxFrom f 0 a s.

(** [a.map((x, idx) => ...)]. *)
Fixpoint mapIdxFrom {A B : Type} (f : A -> nat -> B) (i : nat) (a : list A) : list B :=
  match a with
  | [] => []
  | x :: r => f x i :: mapIdxFrom f (Datatypes.S i) r
  end.

Definition mapIdx {A B : Type} (f : A -> nat -> B) (a : list A) : list B :=
  mapIdxFrom f 0 a.

(** [for (let i = 0; i < n; i += 1) body], the body acting on a state. *)
Definition forRange {S : Type} (lo n : nat) (body : nat -> S -> S) (s : S) : S :=
  fold_left (fun st i => body i st) (seq lo n) s.

End Js.

(** ** The seeded generator *)

(** Operands of the bitwise operators are read as 32-bit integers:
    [ToInt32] for [^], [<<], [>>] and [&], [ToUint32] for [>>> 0]. *)
Definition toUint32 (z : Z) : Z := (z mod 2 ^ 32)%Z.

Definition toInt32 (z : Z) : Z :=
  let m := (z mod 2 ^ 32)%Z in if (m <? 2 ^ 31)%Z then m else (m - 2 ^ 32)%Z.

(** [createSeededRandom(seed)] returns a closure over the variable [s];
    the embedding passes [s] explicitly.  [createSeededRandom seed] is the
    initial value of [s] and [nextRandom s] is one call of the closure: the
    number returned and the new value of [s].  Since [&] yields a signed
    32-bit integer, the number returned lies in [-0.5, 0.5). *)
Definition createSeededRandom (seed : Z) : Z := seed.

Definition nextRandom (s : Z) : float * Z :=
  let s1 := toUint32 (Z.lxor (toInt32 s) (toInt32 (Z.shiftl (toInt32 s) 13))) in
  let s2 := toUint32 (Z.lxor (toInt32 s1) (Z.shiftr (toInt32 s1) 17)) in
  let s3 := toUint32 (Z.lxor (toInt32 s2) (toInt32 (Z.shiftl (toInt32 s2) 5))) in
  (PrimFloat.div (Js.ofZ (Z.land (toInt32 s3) (toInt32 4294967295))) 4294967296%float, s3).

(** ** Data model *)

(** A slot of an embedding array as [extractValidEmbeddings] may meet it
    at run time: a value, or the empty slot of a sparse array
    ([new Array(2)], [[1, , 3]]).  An empty slot counts in [length], but
    [map] and [filter] do not call their callback for it.  The function
    only applies [Number(value)] to a value, so a string or an object is
    represented by the number that coercion yields for it ([NaN] for a
    non-numeric string or a plain object).  The values of this type are
    those that [Number] converts; an entry on which [Number] throws is an
    [Unconvertible] entry of [RawEntry] below. *)
Inductive JsValue : Type :=
| JsNumber (x : float)
| JsUndefined
| JsNull
| JsBoolean (b : bool)
| JsOther (coerced : float)
| JsHole.

(** [Number(value)]; an empty slot read as a value is [undefined]. *)
Definition Number (value : JsValue) : float :=
  match value with
  | JsNumber x => x
  | JsUndefined => PrimFloat.nan
  | JsNull => PrimFloat.zero
  | JsBoolean b => if b then PrimFloat.one else PrimFloat.zero
  | JsOther coerced => coerced
  | JsHole => PrimFloat.nan
  end.

(** [embedding.map(callback)] on an array that may be sparse: the callback
    is not called for an empty slot, and the slot is empty in the result
    ([None]). *)
Definition mapEntries {B : Type} (callback : JsValue -> B) (embedding : list JsValue)
  : list (option B) :=
  map (fun slot => match slot with JsHole => None | value => Some (callback value) end)
      embedding.

(** [.filter(callback)]: the elements for which the callback holds, in
    order; empty slots are skipped, so that the result is dense. *)
Fixpoint filterEntries {B : Type} (callback : B -> bool) (a : list (option B)) : list B :=
  match a with
  | [] => []
  | None :: rest => filterEntries callback rest
  | Some value :: rest =>
      if callback value then value :: filterEntries callback rest
      else filterEntries callback rest
  end.

(** What the clustering functions read of an item of [data]:
    [item?.embedding].  [None] stands for every value that fails
    [Array.isArray] (a missing or [null] embedding, a non-array, or an item
    that is itself [null] or [undefined]). *)
Definition RuntimeNode : Type := option (list JsValue).

(** [SemanticNode] as its TypeScript type declares it, with the fields
    that the engine reads (the other fields are display text).  The
    embedding is a dense array of numbers; a record that has no embedding
    at run time is [None] in a raw batch of the Projector
    ([projectTo2DRaw]). *)
Record SemanticNode : Type := {
  key : string;
  region : string;
  embedding : list float;
  volatility : float;
  velocity : float
}.

(** A well-typed node as the clustering functions see it. *)
Definition runtimeNode (node : SemanticNode) : RuntimeNode :=
  Some (map JsNumber (embedding node)).

Record ProjectedNode : Type := {
  node : SemanticNode;
  x : float;
  y : float;
  clusterId : Z
}.

Record ClusteringResult : Type := {
  labels : list Z;
  centroids : list (list float);
  iterations : option nat;
  inertia : option float;
  noiseCount : option nat
}.

Record ClusterInsight : Type := {
  id : Z;
  size : nat;
  avgVolatility : float;
  avgVelocity : float;
  sampleKeys : list string
}.

(** ** Arithmetic shared by the algorithms

    [euclideanDistance] and the K-Means iteration are written once over the
    operations they use, so that the same text can be read over the
    doubles of the source ([floatOps]) and over exact real arithmetic. *)

Record NumOps (T : Type) : Type := {
  zero : T;
  (** what arithmetic makes of a missing operand ([undefined]): [NaN] *)
  undef : T;
  add : T -> T -> T;
  sub : T -> T -> T;
  mul : T -> T -> T;
  div : T -> T -> T;
  sqrt : T -> T;
  ltb : T -> T -> bool;
  (** [x < Infinity] *)
  ltInfinity : T -> bool;
  ofNat : nat -> T;
  one : T;
  (** truthiness of a number, for [x || y] *)
  truthy : T -> bool
}.

Definition floatOps : NumOps float := {|
  zero := PrimFloat.zero;
  undef := PrimFloat.nan;
  add := PrimFloat.add;
  sub := PrimFloat.sub;
  mul := PrimFloat.mul;
  div := PrimFloat.div;
  sqrt := PrimFloat.sqrt;
  ltb := PrimFloat.ltb;
  ltInfinity := fun x => PrimFloat.ltb x PrimFloat.infinity;
  ofNat := Js.ofNat;
  one := PrimFloat.one;
  truthy := Js.truthy
|}.

(** Exact arithmetic: the same operations over the real numbers, where
    nothing is rounded, nothing overflows, every number is below
    [Infinity] and no operand is missing ([undef] is never read on
    rows of equal length); the only falsy number is [0]. *)
Definition realOps : NumOps R := {|
  zero := 0%R;
  undef := 0%R;
  add := Rplus;
  sub := Rminus;
  mul := Rmult;
  div := Rdiv;
  sqrt := R_sqrt.sqrt;
  ltb := fun x y => if Rlt_dec x y then true else false;
  ltInfinity := fun _ => true;
  ofNat := INR;
  one := 1%R;
  truthy := fun x => if Req_dec_T x 0%R then false else true
|}.

Section Numeric.

Context {T : Type} (ops : NumOps T).

(** [function euclideanDistance(a, b)]: the loop runs over the indices of
    [a]; an index outside [b] reads [undefined]. *)
Definition euclideanDistance (a b : list T) : T :=
  sqrt ops
    (Js.forRange 0 (length a)
       (fun i sum =>
          let diff := sub ops (nth i a (undef ops)) (nth i b (undef ops)) in
          add ops sum (mul ops diff diff))
       (zero ops)).

(** *** The K-Means iteration (the [for (; iterations < maxIterations; ...)]
    loop of [runKMeans] and the inertia computed after it) *)

Section KMeans.

Variable vectors : list (list T).
Variable dimension : nat.

(** The scan [for (let cluster = 0; cluster < centroids.length; ...)]
    for row [i].  [bestDistance] starts as [Infinity], written [None]. *)
Definition nearestCentroid (centroids : list (list T)) (i : nat) : nat :=
  fst
    (Js.forRange 0 (length centroids)
       (fun cluster (best : nat * option T) =>
          let distance := euclideanDistance (nth i vectors []) (nth cluster centroids []) in
          let smaller :=
            match snd best with
            | None => ltInfinity ops distance
            | Some bestDistance => ltb ops distance bestDistance
            end in
          if smaller then (cluster, Some distance) else best)
       (0, None)).

(** The assignment pass: the new labels and [assignmentsChanged]. *)
Definition assignLabels (centroids : list (list T)) (labels : list nat) : list nat * bool :=
  Js.forRange 0 (length vectors)
    (fun i (st : list nat * bool) =>
       let bestCluster := nearestCentroid centroids i in
       if Nat.eqb (nth i (fst st) 0) bestCluster then st
       else (Js.set i bestCluster (fst st), true))
    (labels, false).

(** [sums] and [counts] of the update pass. *)
Definition accumulate (nclusters : nat) (labels : list nat) : list (list T) * list nat :=
  Js.forRange 0 (length vectors)
    (fun i (st : list (list T) * list nat) =>
       let cluster := nth i labels 0 in
       let counts := Js.set cluster (S (nth cluster (snd st) 0)) (snd st) in
       let sums :=
         Js.forRange 0 dimension
           (fun dim sums =>
              Js.set cluster
                (Js.set dim
                   (add ops (nth dim (nth cluster sums []) (undef ops))
                            (nth dim (nth i vectors []) (undef ops)))
                   (nth cluster sums []))
                sums)
           (fst st) in
       (sums, counts))
    (repeat (repeat (zero ops) dimension) nclusters, repeat 0 nclusters).

(** The centroid update: a cluster without members keeps its centroid. *)
Definition updateCentroids (centroids : list (list T)) (labels : list nat) : list (list T) :=
  let '(sums, counts) := accumulate (length centroids) labels in
  Js.forRange 0 (length centroids)
    (fun cluster centroids =>
       if Nat.eqb (nth cluster counts 0) 0 then centroids
       else
         Js.forRange 0 dimension
           (fun dim centroids =>
              Js.set cluster
                (Js.set dim
                   (div ops (nth dim (nth cluster sums []) (undef ops))
                            (ofNat ops (nth cluster counts 0)))
                   (nth cluster centroids []))
                centroids)
           centroids)
    centroids.

(** The loop itself; [remaining] is [maxIterations - iterations]. *)
Fixpoint kmeansLoop (remaining iterations : nat) (labels : list nat) (centroids : list (list T))
  : list nat * list (list T) * nat :=
  match remaining with
  | O => (labels, centroids, iterations)
  | S remaining' =>
      let '(labels', assignmentsChanged) := assignLabels centroids labels in
      if assignmentsChanged
      then kmeansLoop remaining' (S iterations) labels' (updateCentroids centroids labels')
      else (labels', centroids, iterations)
  end.

(** [inertia += euclideanDistance(vectors[i], centroids[labels[i]]) ** 2];
    the square is taken as a product. *)
Definition sumSquaredDistances (labels : list nat) (centroids : list (list T)) : T :=
  Js.forRange 0 (length vectors)
    (fun i inertia =>
       let d := euclideanDistance (nth i vectors []) (nth (nth i labels 0) centroids []) in
       add ops inertia (mul ops d d))
    (zero ops).

End KMeans.

End Numeric.

(** ** VectorNormalizer: [extractValidEmbeddings] *)

Record ValidEmbeddings : Type := {
  indices : list nat;
  vectors : list (list float);
  dimension : nat
}.

(** [const normalized = embedding.map(...).filter(...)]: the entries
    coerced to finite numbers. *)
Definition normalizedEntries (embedding : list JsValue) : list float :=
  filterEntries Js.isFinite
    (mapEntries (fun value =>
                   let num := Number value in
                   if Js.isFinite num then num else PrimFloat.zero)
                embedding).

(** The body of [data.forEach((item, idx) => ...)] from
    [if (normalized.length === 0)] on; each early [return] leaves the
    arrays as they are, and keeps [dimension] when it has been assigned
    before the [return]. *)
Definition extractRow (st : ValidEmbeddings) (normalized : list float) (idx : nat)
  : ValidEmbeddings :=
  if Nat.eqb (length normalized) 0 then st
  else
    let dimension' :=
      if Nat.eqb (dimension st) 0 then length normalized else dimension st in
    let st' := {| indices := indices st; vectors := vectors st; dimension := dimension' |} in
    if Nat.eqb dimension' 0 then st'
    else
      let vector :=
        if Nat.eqb (length normalized) dimension' then normalized
        else
          map (fun i =>
                 match nth_error normalized i with
                 | Some value => if Js.isFinite value then value else PrimFloat.zero
                 | None => PrimFloat.zero
                 end)
              (seq 0 dimension') in
      if negb (forallb Js.isFinite vector) then st'
      else
        {| indices := indices st ++ [idx];
           vectors := vectors st ++ [vector];
           dimension := dimension' |}.

(** The body of [data.forEach((item, idx) => ...)]. *)
Definition extractItem (st : ValidEmbeddings) (item : RuntimeNode) (idx : nat) : ValidEmbeddings :=
  match item with
  | None => st
  | Some embedding =>
      if Nat.eqb (length embedding) 0 then st
      else extractRow st (normalizedEntries embedding) idx
  end.

Definition extractValidEmbeddings (data : list RuntimeNode) : ValidEmbeddings :=
  Js.foldIdx extractItem data {| indices := []; vectors := []; dimension := 0 |}.

(** *** Entries that [Number] cannot convert

    [Number(value)] throws for a Symbol (a [TypeError]) and for an object
    whose conversion throws ([valueOf], [toString] or
    [Symbol.toPrimitive]).  The function catches nothing, so the call ends
    with that exception and returns nothing.  [RawNode] is an item of
    [data] whose entries may be of that kind; [RuntimeNode] above is an
    item all of whose entries [Number] converts. *)
Inductive RawEntry : Type :=
| Convertible (value : JsValue)
| Unconvertible.

Definition RawNode : Type := option (list RawEntry).

(** How a call ends: with a value, or with an exception. *)
Inductive Completion (A : Type) : Type :=
| Returned (a : A)
| Thrown.

Arguments Returned {A} a.
Arguments Thrown {A}.

(** The calls of [Number(value)] that [embedding.map(...)] makes, in the
    order of the entries: the first entry that cannot be converted throws.
    ([map] makes no call for an empty slot, which is [Convertible JsHole].) *)
Fixpoint convertEntries (embedding : list RawEntry) : Completion (list JsValue) :=
  match embedding with
  | [] => Returned []
  | Unconvertible :: _ => Thrown
  | Convertible value :: rest =>
      match convertEntries rest with
      | Returned values => Returned (value :: values)
      | Thrown => Thrown
      end
  end.

(** The body of [data.forEach((item, idx) => ...)] on a raw item. *)
Definition extractItemRaw (st : ValidEmbeddings) (item : RawNode) (idx : nat)
  : Completion ValidEmbeddings :=
  match item with
  | None => Returned st
  | Some embedding =>
      if Nat.eqb (length embedding) 0 then Returned st
      else
        match convertEntries embedding with
        | Returned values => Returned (extractRow st (normalizedEntries values) idx)
        | Thrown => Thrown
        end
  end.

(** [extractValidEmbeddings(data)] on raw items: an exception thrown in the
    callback ends [forEach] and the call. *)
Definition extractValidEmbeddingsRaw (data : list RawNode) : Completion ValidEmbeddings :=
  Js.foldIdx
    (fun completion item idx =>
       match completion with
       | Returned st => extractItemRaw st item idx
       | Thrown => Thrown
       end)
    data (Returned {| indices := []; vectors := []; dimension := 0 |}).

(** [const fullLabels = new Array(data.length).fill(-1);
     indices.forEach((dataIdx, vectorIdx) => { fullLabels[dataIdx] = labels[vectorIdx]; })],
    the last step of the three clustering functions. *)
Definition fullLabels (dataLength : nat) (indices : list nat) (labels : list Z) : list Z :=
  Js.foldIdx
    (fun full dataIdx vectorIdx => Js.set dataIdx (nth vectorIdx labels (-1)%Z) full)
    indices (repeat (-1)%Z dataLength).

(** ** ClusterEngine: K-Means *)

(** The [while] loop choosing the initial centroids.  [attempts] is
    [maxAttempts - safetyCounter], [s] the state of the generator and
    [usedIndices] the set of indices drawn so far.  An index outside
    [vectors] (the generator also returns negative numbers) reads
    [undefined] and is skipped. *)
Fixpoint pickCentroids (vectors : list (list float)) (targetCentroids : Z) (attempts : nat)
    (s : Z) (usedIndices : list Z) (centroids : list (list float)) : list (list float) :=
  match attempts with
  | O => centroids
  | S attempts' =>
      if (Z.of_nat (length centroids) <? targetCentroids)%Z then
        let '(r, s') := nextRandom s in
        let index := Js.floor (PrimFloat.mul r (Js.ofNat (length vectors))) in
        if existsb (Z.eqb index) usedIndices
        then pickCentroids vectors targetCentroids attempts' s' usedIndices centroids
        else
          let usedIndices' := index :: usedIndices in
          match (if (index <? 0)%Z then None else nth_error vectors (Z.to_nat index)) with
          | None => pickCentroids vectors targetCentroids attempts' s' usedIndices' centroids
          | Some candidate =>
              if Nat.eqb (length candidate) 0
              then pickCentroids vectors targetCentroids attempts' s' usedIndices' centroids
              else pickCentroids vectors targetCentroids attempts' s' usedIndices'
                     (centroids ++ [candidate])
          end
      else centroids
  end.

(** The initial centroids of [runKMeans]: the generator is seeded with
    1993, [targetCentroids] is [Math.min(k, vectors.length)] and
    [maxAttempts] is [targetCentroids === 0 ? 0 : vectors.length * 4]. *)
Definition initialCentroids (vectors : list (list float)) (k : Z) : list (list float) :=
  let rand := createSeededRandom 1993 in
  let targetCentroids := Z.min k (Z.of_nat (length vectors)) in
  let maxAttempts := if (targetCentroids =? 0)%Z then 0 else length vectors * 4 in
  pickCentroids vectors targetCentroids maxAttempts rand [] [].

Definition allNoise (dataLength : nat) : list Z := repeat (-1)%Z dataLength.

(** [function runKMeans(data, k, maxIterations = 40)]; [k] is an integer. *)
Definition runKMeans (data : list RuntimeNode) (k : Z) (maxIterations : nat) : ClusteringResult :=
  if Nat.eqb (length data) 0 then
    {| labels := []; centroids := []; iterations := Some 0; inertia := Some PrimFloat.zero;
       noiseCount := None |}
  else
    let valid := extractValidEmbeddings data in
    if Nat.eqb (length (vectors valid)) 0 || Nat.eqb (dimension valid) 0 then
      {| labels := allNoise (length data); centroids := []; iterations := Some 0;
         inertia := Some PrimFloat.zero; noiseCount := None |}
    else
      let centroids0 := initialCentroids (vectors valid) k in
      if Nat.eqb (length centroids0) 0 then
        {| labels := allNoise (length data); centroids := []; iterations := Some 0;
           inertia := Some PrimFloat.zero; noiseCount := None |}
      else
        let '(labels', centroids', iterations') :=
          kmeansLoop floatOps (vectors valid) (dimension valid) maxIterations 0
            (repeat 0 (length (vectors valid))) centroids0 in
        let inertia' := sumSquaredDistances floatOps (vectors valid) labels' centroids' in
        {| labels := fullLabels (length data) (indices valid) (map Z.of_nat labels');
           centroids := centroids';
           iterations := Some iterations';
           inertia := Some (Js.toFixed3 inertia');
           noiseCount := None |}.

Definition defaultMaxIterations : nat := 40.

(** ** ClusterEngine: average-linkage agglomerative clustering *)

(** The mean of the rows [members] of [vectors], as the three places that
    compute a centroid from member indices write it: a zero vector of
    length [dimension], [centroid[dim] += value] for every entry of every
    member, then [centroid[dim] /= members.length] for every [dim]. *)
Definition centroidOf (vectors : list (list float)) (dimension : nat) (members : list nat)
  : list float :=
  let centroid :=
    fold_left
      (fun centroid index =>
         Js.foldIdx (fun centroid value dim => Js.addAt dim value centroid)
           (nth index vectors []) centroid)
      members (repeat PrimFloat.zero dimension) in
  map (fun c => PrimFloat.div c (Js.ofNat (length members))) centroid.

(** [clusterA.join("-")] for an array of indices. *)
Definition joinIndices (cluster : list nat) : string :=
  String.concat "-" (map (fun n => NilEmpty.string_of_uint (Nat.to_uint n)) cluster).

(** [distanceCache], a [Map<string, number>]. *)
Definition DistanceCache : Type := list (string * float).

Definition cacheGet (cache : DistanceCache) (k : string) : option float :=
  option_map snd (find (fun entry => String.eqb (fst entry) k) cache).

Section Agglomerative.

Variable vectors : list (list float).

(** [clusterDistance(clusterA, clusterB)], with the cache passed through. *)
Definition clusterDistance (cache : DistanceCache) (clusterA clusterB : list nat)
  : float * DistanceCache :=
  let k := (joinIndices clusterA ++ "::" ++ joinIndices clusterB)%string in
  match cacheGet cache k with
  | Some distance => (distance, cache)
  | None =>
      let '(sum, count) :=
        fold_left
          (fun acc indexA =>
             fold_left
               (fun (acc : float * nat) indexB =>
                  (PrimFloat.add (fst acc)
                     (euclideanDistance floatOps (nth indexA vectors []) (nth indexB vectors [])),
                   S (snd acc)))
               clusterB acc)
          clusterA (PrimFloat.zero, 0) in
      let distance := PrimFloat.div sum (Js.or (Js.ofNat count) PrimFloat.one) in
      (distance, (k, distance) :: cache)
  end.

(** The two nested [for] loops that look for the closest pair. *)
Definition closestPair (clusters : list (list nat)) (cache : DistanceCache)
  : nat * nat * float * DistanceCache :=
  Js.forRange 0 (length clusters)
    (fun i st =>
       Js.forRange (i + 1) (length clusters - (i + 1))
         (fun j (st : nat * nat * float * DistanceCache) =>
            let '(bestI, bestJ, bestDistance, cache) := st in
            let '(distance, cache') := clusterDistance cache (nth i clusters []) (nth j clusters []) in
            if PrimFloat.ltb distance bestDistance
            then (i, j, distance, cache')
            else (bestI, bestJ, bestDistance, cache'))
         st)
    (0, 1, PrimFloat.infinity, cache).

(** [clusters.splice(bestJ, 1); clusters.splice(bestI, 1, merged)]. *)
Definition mergeClusters (clusters : list (list nat)) (bestI bestJ : nat) : list (list nat) :=
  let merged := nth bestI clusters [] ++ nth bestJ clusters [] in
  let clusters1 := firstn bestJ clusters ++ skipn (bestJ + 1) clusters in
  firstn bestI clusters1 ++ [merged] ++ skipn (bestI + 1) clusters1.

(** [while (clusters.length > targetClusters)]; every turn removes one
    cluster, so [fuel] need not exceed the number of clusters. *)
Fixpoint mergeLoop (fuel : nat) (targetClusters : Z) (clusters : list (list nat))
    (cache : DistanceCache) : list (list nat) :=
  match fuel with
  | O => clusters
  | S fuel' =>
      if (targetClusters <? Z.of_nat (length clusters))%Z then
        let '(bestI, bestJ, _, cache') := closestPair clusters cache in
        mergeLoop fuel' targetClusters (mergeClusters clusters bestI bestJ) cache'
      else clusters
  end.

(** [clusters.forEach((cluster, clusterIdx) => cluster.forEach((nodeIdx) =>
    { labels[nodeIdx] = clusterIdx; }))]. *)
Definition clusterLabels (clusters : list (list nat)) : list nat :=
  Js.foldIdx
    (fun labels cluster clusterIdx =>
       fold_left (fun labels nodeIdx => Js.set nodeIdx clusterIdx labels) cluster labels)
    clusters (repeat 0 (length vectors)).

End Agglomerative.

(** [function runAgglomerative(data, targetClusters)]; [targetClusters] is
    an integer. *)
Definition runAgglomerative (data : list RuntimeNode) (targetClusters : Z) : ClusteringResult :=
  if Nat.eqb (length data) 0 then
    {| labels := []; centroids := []; iterations := None; inertia := None; noiseCount := None |}
  else
    let valid := extractValidEmbeddings data in
    if Nat.eqb (length (vectors valid)) 0 || Nat.eqb (dimension valid) 0 then
      {| labels := allNoise (length data); centroids := []; iterations := None;
         inertia := None; noiseCount := None |}
    else
      let clusters := Js.mapIdx (fun _ idx => [idx]) (vectors valid) in
      if (targetClusters <? 1)%Z then
        {| labels := allNoise (length data); centroids := []; iterations := None;
           inertia := None; noiseCount := None |}
      else
        let clusters' := mergeLoop (vectors valid) (length clusters) targetClusters clusters [] in
        let labels' := clusterLabels (vectors valid) clusters' in
        {| labels := fullLabels (length data) (indices valid) (map Z.of_nat labels');
           centroids := map (centroidOf (vectors valid) (dimension valid)) clusters';
           iterations := None; inertia := None; noiseCount := None |}.

(** ** ClusterEngine: DBSCAN *)

Section Dbscan.

Variable vectors : list (list float).
Variable eps : float.
Variable minPts : Z.

(** [regionQuery(pointIdx)]. *)
Definition regionQuery (pointIdx : nat) : list nat :=
  filter
    (fun i =>
       PrimFloat.leb
         (euclideanDistance floatOps (nth pointIdx vectors []) (nth i vectors [])) eps)
    (seq 0 (length vectors)).

(** [currentNeighbors.forEach((neighborIdx) =>
    { if (!seeds.includes(neighborIdx)) seeds.push(neighborIdx); })]. *)
Definition pushNew (seeds currentNeighbors : list nat) : list nat :=
  fold_left
    (fun seeds neighborIdx =>
       if existsb (Nat.eqb neighborIdx) seeds then seeds else seeds ++ [neighborIdx])
    currentNeighbors seeds.

(** [while (seeds.length > 0)]: [seeds] is the array, its last element
    the top of the stack.  At most [fuel] turns are taken. *)
Fixpoint expandCluster (fuel : nat) (clusterId : Z) (seeds : list nat)
    (labels : list Z) (visited : list bool) : list Z * list bool :=
  match fuel with
  | O => (labels, visited)
  | S fuel' =>
      match seeds with
      | [] => (labels, visited)
      | _ :: _ =>
          let current := last seeds 0 in
          let seeds1 := removelast seeds in
          let '(seeds2, visited2) :=
            if nth current visited false then (seeds1, visited)
            else
              let currentNeighbors := regionQuery current in
              ((if (minPts <=? Z.of_nat (length currentNeighbors))%Z
                then pushNew seeds1 currentNeighbors else seeds1),
               Js.set current true visited) in
          let labels2 :=
            if (nth current labels (-1) =? -1)%Z then Js.set current clusterId labels
            else labels in
          expandCluster fuel' clusterId seeds2 labels2 visited2
      end
  end.

(** A bound on the turns of the [while] loop: a turn either visits a new
    row, pushing at most [n] seeds, or only pops. *)
Definition expandFuel : nat := length vectors * length vectors + length vectors.

(** The body of [for (let i = 0; i < n; i += 1)]. *)
Definition dbscanVisit (i : nat) (st : list Z * list bool * Z) : list Z * list bool * Z :=
  let '(labels, visited, clusterId) := st in
  if nth i visited false then st
  else
    let visited1 := Js.set i true visited in
    let neighbors := regionQuery i in
    if (Z.of_nat (length neighbors) <? minPts)%Z
    then (Js.set i (-1)%Z labels, visited1, clusterId)
    else
      let '(labels2, visited2) :=
        expandCluster expandFuel clusterId neighbors (Js.set i clusterId labels) visited1 in
      (labels2, visited2, (clusterId + 1)%Z).

Definition dbscanLabels : list Z * list bool * Z :=
  Js.forRange 0 (length vectors) dbscanVisit
    (repeat (-1)%Z (length vectors), repeat false (length vectors), 0%Z).

(** The centroids: clusters without members are skipped. *)
Definition dbscanCentroids (dimension : nat) (labels : list Z) (clusterId : Z)
  : list (list float) :=
  Js.forRange 0 (Z.to_nat clusterId)
    (fun cluster centroids =>
       let members :=
         filter (fun i => (nth i labels (-1) =? Z.of_nat cluster)%Z) (seq 0 (length vectors)) in
       if Nat.eqb (length members) 0 then centroids
       else centroids ++ [centroidOf vectors dimension members])
    [].

End Dbscan.

(** [function runDbscan(data, eps, minPts)]; [minPts] is an integer. *)
Definition runDbscan (data : list RuntimeNode) (eps : float) (minPts : Z) : ClusteringResult :=
  if Nat.eqb (length data) 0 then
    {| labels := []; centroids := []; iterations := None; inertia := None;
       noiseCount := Some 0 |}
  else
    let valid := extractValidEmbeddings data in
    if Nat.eqb (length (vectors valid)) 0 || Nat.eqb (dimension valid) 0 then
      {| labels := allNoise (length data); centroids := []; iterations := None;
         inertia := None; noiseCount := Some (length data) |}
    else
      let '(labels', _, clusterId') := dbscanLabels (vectors valid) eps minPts in
      let full := fullLabels (length data) (indices valid) labels' in
      {| labels := full;
         centroids := dbscanCentroids (vectors valid) (dimension valid) labels' clusterId';
         iterations := None; inertia := None;
         noiseCount := Some (length (filter (fun label => (label =? -1)%Z) full)) |}.

(** ** Projector: [projectTo2D] *)

Record Point : Type := { px : float; py : float }.

Record Projection : Type := {
  components : list (list float);
  projected : list Point
}.

(** [dotProduct(vecA, vecB)]; [vecB[idx] ?? 0]. *)
Definition dotProduct (vecA vecB : list float) : float :=
  Js.foldIdx
    (fun acc val idx =>
       PrimFloat.add acc
         (PrimFloat.mul val (match nth_error vecB idx with Some b => b | None => PrimFloat.zero end)))
    vecA PrimFloat.zero.

(** [normalize(vec)] of [powerIteration]:
    [const norm = Math.sqrt(vec.reduce((acc, val) => acc + val * val, 0)) || 1;
     return vec.map((val) => val / norm)].  The divisor is the norm, or [1]
    when the norm is [0] or [NaN]. *)
Definition norm (vec : list float) : float :=
  Js.or
    (PrimFloat.sqrt
       (fold_left (fun acc val => PrimFloat.add acc (PrimFloat.mul val val)) vec PrimFloat.zero))
    PrimFloat.one.

Definition normalize (vec : list float) : list float :=
  map (fun val => PrimFloat.div val (norm vec)) vec.

(** [a[i][j] = v] and [a[i][j] += v] on an array of arrays of numbers. *)
Definition set2 (i j : nat) (v : float) (a : list (list float)) : list (list float) :=
  Js.set i (Js.set j v (nth i a [])) a.

Definition addAt2 (i j : nat) (v : float) (a : list (list float)) : list (list float) :=
  Js.set i (Js.addAt j v (nth i a [])) a.

Section PowerIteration.

(** [Math.random] is not seeded: the numbers it returns during a call are
    an input of the embedding, [random n] being the number returned by
    its [n]-th call (counted from 0). *)
Variable random : nat -> float.

(** [new Array(matrix.length).fill(0).map(() => Math.random())], after
    [drawn] earlier calls of [Math.random]. *)
Definition initialVector (n drawn : nat) : list float :=
  map (fun i => random (drawn + i)) (seq 0 n).

(** One turn of [for (let iter = 0; iter < iterations; iter += 1)]. *)
Definition powerStep (matrix orthogonalTo : list (list float)) (vector : list float)
  : list float :=
  let next :=
    Js.forRange 0 (length matrix)
      (fun i next =>
         Js.forRange 0 (length matrix)
           (fun j next =>
              Js.addAt i
                (PrimFloat.mul (nth j (nth i matrix []) PrimFloat.nan) (nth j vector PrimFloat.nan))
                next)
           next)
      (repeat PrimFloat.zero (length vector)) in
  let next :=
    fold_left
      (fun next basis =>
         let dot :=
           Js.foldIdx
             (fun acc val idx => PrimFloat.add acc (PrimFloat.mul val (nth idx basis PrimFloat.nan)))
             next PrimFloat.zero in
         Js.mapIdx (fun val k => PrimFloat.sub val (PrimFloat.mul dot (nth k basis PrimFloat.nan))) next)
      orthogonalTo next in
  normalize next.

(** [powerIteration(matrix, orthogonalTo = [], iterations = 120)]; [drawn]
    counts the calls of [Math.random] made so far.  The result is the
    eigenvalue, the eigenvector and the new count. *)
Definition powerIteration (matrix orthogonalTo : list (list float)) (iterations drawn : nat)
  : float * list float * nat :=
  let vector := initialVector (length matrix) drawn in
  let vector := normalize vector in
  let vector := Js.forRange 0 iterations (fun _ => powerStep matrix orthogonalTo) vector in
  let eigenvalue :=
    Js.foldIdx
      (fun acc val idx => PrimFloat.add acc (PrimFloat.mul val (dotProduct (nth idx matrix []) vector)))
      vector PrimFloat.zero in
  (eigenvalue, vector, drawn + length matrix).

(** The mean vector: [mean[idx] += value] over every entry of every
    embedding, then [mean[i] /= data.length] for [i < dimension]. *)
Definition meanVector (data : list SemanticNode) (dimension : nat) : list float :=
  let mean :=
    fold_left
      (fun mean node =>
         Js.foldIdx (fun mean value idx => Js.addAt idx value mean) (embedding node) mean)
      data (repeat PrimFloat.zero dimension) in
  Js.forRange 0 dimension
    (fun i mean =>
       Js.set i (PrimFloat.div (nth i mean PrimFloat.nan) (Js.ofNat (length data))) mean)
    mean.

(** [data.map((node) => node.embedding.map((value, idx) => value - mean[idx]))]. *)
Definition centerRows (data : list SemanticNode) (mean : list float) : list (list float) :=
  map (fun node =>
         Js.mapIdx (fun value idx => PrimFloat.sub value (nth idx mean PrimFloat.nan))
           (embedding node))
      data.

(** The covariance matrix: the upper triangle is summed over the centered
    rows, then divided by [data.length - 1 || 1] and mirrored. *)
Definition covarianceMatrix (centered : list (list float)) (dimension dataLength : nat)
  : list (list float) :=
  let covariance :=
    fold_left
      (fun covariance vector =>
         Js.forRange 0 dimension
           (fun i covariance =>
              Js.forRange i (dimension - i)
                (fun j covariance =>
                   addAt2 i j
                     (PrimFloat.mul (nth i vector PrimFloat.nan) (nth j vector PrimFloat.nan))
                     covariance)
                covariance)
           covariance)
      centered (repeat (repeat PrimFloat.zero dimension) dimension) in
  Js.forRange 0 dimension
    (fun i covariance =>
       Js.forRange i (dimension - i)
         (fun j covariance =>
            let value :=
              PrimFloat.div (nth j (nth i covariance []) PrimFloat.nan)
                (Js.or (PrimFloat.sub (Js.ofNat dataLength) PrimFloat.one) PrimFloat.one) in
            set2 j i value (set2 i j value covariance))
         covariance)
    covariance.

(** [function projectTo2D(data)]. *)
Definition projectTo2D (data : list SemanticNode) : Projection :=
  match data with
  | [] => {| components := []; projected := [] |}
  | first :: _ =>
      let dimension := length (embedding first) in
      let mean := meanVector data dimension in
      let centered := centerRows data mean in
      let covariance := covarianceMatrix centered dimension (length data) in
      let '(_, first, drawn) := powerIteration covariance [] 120 0 in
      let '(_, second, _) := powerIteration covariance [first] 120 drawn in
      let components := [first; second] in
      {| components := components;
         projected :=
           map (fun vector =>
                  {| px := dotProduct vector (nth 0 components []);
                     py := dotProduct vector (nth 1 components []) |})
               centered |}
  end.

End PowerIteration.

(** *** The power iteration over the operations it uses

    [dotProduct], [normalize] and [powerIteration] once more, written over
    the operations they use as [euclideanDistance] and the K-Means
    iteration are: at [floatOps] they are the functions above, at
    [realOps] the same computation in exact arithmetic. *)

Section PowerIterationOver.

Context {T : Type} (ops : NumOps T).

Variable random : nat -> T.

Fixpoint addAtOver (i : nat) (v : T) (a : list T) : list T :=
  match a, i with
  | [], O => [undef ops]
  | [], S j => undef ops :: addAtOver j v []
  | x :: r, O => add ops x v :: r
  | x :: r, S j => x :: addAtOver j v r
  end.

Definition dotProductOver (vecA vecB : list T) : T :=
  Js.foldIdx
    (fun acc val idx =>
       add ops acc
         (mul ops val (match nth_error vecB idx with Some b => b | None => zero ops end)))
    vecA (zero ops).

Definition normOver (vec : list T) : T :=
  let norm :=
    sqrt ops (fold_left (fun acc val => add ops acc (mul ops val val)) vec (zero ops)) in
  if truthy ops norm then norm else one ops.

Definition normalizeOver (vec : list T) : list T :=
  map (fun val => div ops val (normOver vec)) vec.

Definition initialVectorOver (n drawn : nat) : list T :=
  map (fun i => random (drawn + i)) (seq 0 n).

Definition powerStepOver (matrix orthogonalTo : list (list T)) (vector : list T) : list T :=
  let next :=
    Js.forRange 0 (length matrix)
      (fun i next =>
         Js.forRange 0 (length matrix)
           (fun j next =>
              addAtOver i
                (mul ops (nth j (nth i matrix []) (undef ops)) (nth j vector (undef ops)))
                next)
           next)
      (repeat (zero ops) (length vector)) in
  let next :=
    fold_left
      (fun next basis =>
         let dot :=
           Js.foldIdx
             (fun acc val idx => add ops acc (mul ops val (nth idx basis (undef ops))))
             next (zero ops) in
         Js.mapIdx (fun val k => sub ops val (mul ops dot (nth k basis (undef ops)))) next)
      orthogonalTo next in
  normalizeOver next.

Definition powerIterationOver (matrix orthogonalTo : list (list T)) (iterations drawn : nat)
  : T * list T * nat :=
  let vector := initialVectorOver (length matrix) drawn in
  let vector := normalizeOver vector in
  let vector := Js.forRange 0 iterations (fun _ => powerStepOver matrix orthogonalTo) vector in
  let eigenvalue :=
    Js.foldIdx
      (fun acc val idx =>
         add ops acc (mul ops val (dotProductOver (nth idx matrix []) vector)))
      vector (zero ops) in
  (eigenvalue, vector, drawn + length matrix).


End PowerIterationOver.

(** *** Records without an embedding

    [projectTo2D] tests nothing: it reads [data[0].embedding.length], then
    [node.embedding.forEach] for every record, and reading a property of
    [undefined] or [null] throws a [TypeError].  In a raw batch [None] is
    a record whose [embedding] is [undefined] or [null]; every record's
    embedding is read in the first loop, before anything is returned, and
    on records that all carry an array of numbers nothing throws. *)
Fixpoint presentRecords (data : list (option SemanticNode)) : Completion (list SemanticNode) :=
  match data with
  | [] => Returned []
  | None :: _ => Thrown
  | Some node :: rest =>
      match presentRecords rest with
      | Returned nodes => Returned (node :: nodes)
      | Thrown => Thrown
      end
  end.

Definition projectTo2DRaw (random : nat -> float) (data : list (option SemanticNode))
  : Completion Projection :=
  match presentRecords data with
  | Returned nodes => Returned (projectTo2D random nodes)
  | Thrown => Thrown
  end.

(** ** Enriched records and InsightAggregator *)

(** [enrichedNodes]: [projected[idx]?.x ?? 0] and [clustering.labels[idx] ?? -1]. *)
Definition enrichedNodes (baseNodes : list SemanticNode) (projected : list Point)
    (labels : list Z) : list ProjectedNode :=
  Js.mapIdx
    (fun node idx =>
       {| node := node;
          x := match nth_error projected idx with Some p => px p | None => PrimFloat.zero end;
          y := match nth_error projected idx with Some p => py p | None => PrimFloat.zero end;
          clusterId := match nth_error labels idx with Some label => label | None => (-1)%Z end |})
    baseNodes.

(** [const formatNumber = (value, digits = 2) => Number(value.toFixed(digits))]. *)
Definition formatNumber (value : float) (digits : nat) : float := Js.toFixed digits value.

(** [grouped], a [Map<number, ProjectedNode[]>]: the entries in insertion
    order.  [bucket.push(node); grouped.set(node.clusterId, bucket)] extends
    the bucket of a key already present where it stands, and appends an
    entry for a new key. *)
Fixpoint pushGrouped (grouped : list (Z * list ProjectedNode)) (n : ProjectedNode)
  : list (Z * list ProjectedNode) :=
  match grouped with
  | [] => [(clusterId n, [n])]
  | (k, bucket) :: rest =>
      if (k =? clusterId n)%Z then (k, bucket ++ [n]) :: rest
      else (k, bucket) :: pushGrouped rest n
  end.

Definition groupByCluster (nodes : list ProjectedNode) : list (Z * list ProjectedNode) :=
  fold_left pushGrouped nodes [].

(** The summary of one bucket (the fields [label] and [topRegions] are
    display text and are left out). *)
Definition insightOf (entry : Z * list ProjectedNode) : ClusterInsight :=
  let nodes := snd entry in
  let count := Js.or (Js.ofNat (length nodes)) PrimFloat.one in
  let avgVolatility' :=
    PrimFloat.div
      (fold_left (fun acc n => PrimFloat.add acc (volatility (node n))) nodes PrimFloat.zero) count in
  let avgVelocity' :=
    PrimFloat.div
      (fold_left (fun acc n => PrimFloat.add acc (velocity (node n))) nodes PrimFloat.zero) count in
  {| id := fst entry;
     size := length nodes;
     avgVolatility := formatNumber avgVolatility' 3;
     avgVelocity := formatNumber avgVelocity' 3;
     sampleKeys := map (fun n => key (node n)) (firstn 4 nodes) |}.

(** [insights.sort((a, b) => b.size - a.size)].  [Array.prototype.sort] is
    stable; the stable order is computed here by insertion from the right. *)
Fixpoint insertBySize (a : ClusterInsight) (sorted : list ClusterInsight) : list ClusterInsight :=
  match sorted with
  | [] => [a]
  | b :: rest => if size a <? size b then b :: insertBySize a rest else a :: b :: rest
  end.

Definition sortBySizeDesc (insights : list ClusterInsight) : list ClusterInsight :=
  fold_right insertBySize [] insights.

Definition clusterInsights (enriched : list ProjectedNode) : list ClusterInsight :=
  sortBySizeDesc (map insightOf (groupByCluster enriched)).


(** ** The memoized values of the [Graph] component *)

Inductive Algorithm : Type := kmeans | agglomerative | dbscan.

(** [const clustering = useMemo(...)]. *)
Definition clustering (algorithm : Algorithm) (baseNodes : list SemanticNode)
    (clusterCount : Z) (dbscanEps : float) (dbscanMinPts : Z) : ClusteringResult :=
  let safeClusterCount := Z.max 2 (Z.min clusterCount 24) in
  match algorithm with
  | kmeans => runKMeans (map runtimeNode baseNodes) safeClusterCount defaultMaxIterations
  | agglomerative => runAgglomerative (map runtimeNode baseNodes) safeClusterCount
  | dbscan => runDbscan (map runtimeNode baseNodes) dbscanEps dbscanMinPts
  end.

(** [enrichedNodes] as [Graph] computes it from [baseNodes] and its state,
    for the numbers [random] that [Math.random] returns. *)
Definition graphNodes (random : nat -> float) (algorithm : Algorithm)
    (baseNodes : list SemanticNode) (clusterCount : Z) (dbscanEps : float) (dbscanMinPts : Z)
  : list ProjectedNode :=
  enrichedNodes baseNodes
    (projected (projectTo2D random baseNodes))
    (labels (clustering algorithm baseNodes clusterCount dbscanEps dbscanMinPts)).

(** ** Definitions used to state the properties *)

Unset Implicit Arguments.

(** The entry kept for a value: [Number(value)], or [0] when that is not
    finite. *)
Definition coerceEntry (value : JsValue) : float :=
  let num := Number value in if Js.isFinite num then num else PrimFloat.zero.

(** The elements of an array: its slots that are not empty, in order. *)
Definition isHole (value : JsValue) : bool :=
  match value with JsHole => true | _ => false end.

Definition presentEntries (embedding : list JsValue) : list JsValue :=
  filter (fun value => negb (isHole value)) embedding.

(** The elements of the embedding of an item; none when the embedding is
    not an array. *)
Definition keptEntries (item : RuntimeNode) : list JsValue :=
  match item with
  | Some embedding => presentEntries embedding
  | None => []
  end.

(** The row built from the elements of an embedding once the dimension is
    [d]. *)
Definition coerceRow (d : nat) (elements : list JsValue) : list float :=
  let normalized := map coerceEntry elements in
  if Nat.eqb (length normalized) d then normalized
  else
    map (fun i =>
           match nth_error normalized i with
           | Some value => if Js.isFinite value then value else PrimFloat.zero
           | None => PrimFloat.zero
           end)
        (seq 0 d).

(** The positions of [data], counted from [i], whose embedding is an array
    with at least one element. *)
Fixpoint arrayPositions (i : nat) (data : list RuntimeNode) : list nat :=
  match data with
  | [] => []
  | item :: rest =>
      match keptEntries item with
      | [] => arrayPositions (S i) rest
      | _ :: _ => i :: arrayPositions (S i) rest
      end
  end.

(** The elements of the embeddings of [data] that are arrays with at least
    one element, in order. *)
Fixpoint arrayEmbeddings (data : list RuntimeNode) : list (list JsValue) :=
  match data with
  | [] => []
  | item :: rest =>
      match keptEntries item with
      | [] => arrayEmbeddings rest
      | v :: r => (v :: r) :: arrayEmbeddings rest
      end
  end.

(** The dimension fixed by a batch: the number of elements of its first
    embedding that has one. *)
Definition firstDimension (data : list RuntimeNode) : nat :=
  match arrayEmbeddings data with
  | [] => 0
  | elements :: _ => length elements
  end.

(** An entry that is a number, and an embedding that the specification
    lists as dropped: missing, empty, or not a vector of numbers. *)
Definition isNumber (value : JsValue) : bool :=
  match value with JsNumber _ => true | _ => false end.

Definition listedAsDropped (item : RuntimeNode) : bool :=
  match item with
  | None => true
  | Some [] => true
  | Some embedding => negb (forallb isNumber embedding)
  end.

(** An item all of whose entries [Number] converts, as a raw item. *)
Definition rawNode (item : RuntimeNode) : RawNode :=
  option_map (map Convertible) item.

(** A well-typed batch for the clustering functions. *)
Definition batch (rows : list (list float)) : list RuntimeNode :=
  map (fun row => Some (map JsNumber row)) rows.

(** The batch of the trivial K-Means scenario. *)
Definition trivialBatch : list RuntimeNode :=
  batch [[0; 0]; [0; 0]; [10; 10]; [10; 10]]%float.

(** A well-typed record with the given embedding. *)
Definition record (embedding : list float) : SemanticNode :=
  {| key := ""; region := ""; embedding := embedding;
     volatility := PrimFloat.zero; velocity := PrimFloat.zero |}.

(** The dimensionality the Projector works with. *)
Definition projectorDimension (data : list SemanticNode) : nat :=
  match data with
  | [] => 0
  | first :: _ => length (embedding first)
  end.

(** Two sequences of numbers for [Math.random]. *)
Definition drawsA (n : nat) : float :=
  match n with 0 => 0.75 | 1 => 0.25 | _ => 0.5 end%float.

Definition drawsB (n : nat) : float :=
  match n with 0 => 0.25 | 1 => 0.75 | _ => 0.5 end%float.






(** The centred embedding of a record of a batch:
    [node.embedding.map((value, idx) => value - mean[idx])]. *)
Definition centeredRow (data : list SemanticNode) (node : SemanticNode) : list float :=
  Js.mapIdx
    (fun value idx =>
       PrimFloat.sub value (nth idx (meanVector data (projectorDimension data)) PrimFloat.nan))
    (embedding node).

(** What the clustering functions read of a raw record of the Projector. *)
Definition runtimeOf (item : option SemanticNode) : RuntimeNode :=
  match item with
  | Some node => runtimeNode node
  | None => None
  end.

(** The bucket of [grouped] under a key. *)
Fixpoint bucketOf (k : Z) (grouped : list (Z * list ProjectedNode)) : option (list ProjectedNode) :=
  match grouped with
  | [] => None
  | (k', bucket) :: rest => if (k' =? k)%Z then Some bucket else bucketOf k rest
  end.

(** The records of a list that carry a given cluster label. *)
Definition withLabel (k : Z) (nodes : list ProjectedNode) : list ProjectedNode :=
  filter (fun n => (clusterId n =? k)%Z) nodes.

(** "Not smaller than", on the sizes of two insights. *)
Definition sizeGe (a b : ClusterInsight) : Prop := size b <= size a.

(** What [grouped] holds after the records [nodes] have been pushed. *)
Definition groupedFor (nodes : list ProjectedNode) (grouped : list (Z * list ProjectedNode)) : Prop :=
  NoDup (map fst grouped) /\
  (forall k, In k (map fst grouped) <-> In k (map clusterId nodes)) /\
  (forall k, In k (map fst grouped) -> bucketOf k grouped = Some (withLabel k nodes)).

(** The label domain: every label is [-1] or a cluster index below the
    number of centroids returned. *)
Definition labelInDomain (clusters : nat) (label : Z) : Prop :=
  label = (-1)%Z \/ (0 <= label < Z.of_nat clusters)%Z.

Definition labelsInDomain (result : ClusteringResult) : Prop :=
  Forall (labelInDomain (length (centroids result))) (labels result).

(** The invariant of the DBSCAN loops over [n] rows: labels are [-1] or a
    cluster started so far, every cluster started has a member, and a row
    with a cluster label has been visited. *)
Definition dbscanInv (n : nat) (labels : list Z) (visited : list bool) (clusterId : Z) : Prop :=
  (0 <= clusterId)%Z /\
  length labels = n /\
  length visited = n /\
  Forall (fun l => l = (-1)%Z \/ (0 <= l < clusterId)%Z) labels /\
  (forall c, (0 <= c < clusterId)%Z -> In c labels) /\
  (forall i, nth i labels (-1)%Z <> (-1)%Z -> nth i visited false = true).

(** The rows not yet visited. *)
Definition unvisited (visited : list bool) : nat := length (filter negb visited).

(** The inertia [runKMeans] computes before rounding when its loop is
    capped at [cap] iterations, from the initial centroids [centroids0]. *)
Definition inertiaAfter {T : Type} (ops : NumOps T) (vectors : list (list T)) (dimension : nat)
    (centroids0 : list (list T)) (cap : nat) : T :=
  let '(labels', centroids', _) :=
    kmeansLoop ops vectors dimension cap 0 (repeat 0 (length vectors)) centroids0 in
  sumSquaredDistances ops vectors labels' centroids'.

(** The inertia of the initial assignment (the first assignment pass)
    against the initial centroids. *)
Definition initialAssignmentInertia {T : Type} (ops : NumOps T) (vectors : list (list T))
    (centroids0 : list (list T)) : T :=
  sumSquaredDistances ops vectors
    (fst (assignLabels ops vectors centroids0 (repeat 0 (length vectors)))) centroids0.

(** A finite sum of real numbers. *)
Fixpoint Rsum (f : nat -> R) (n : nat) : R :=
  match n with
  | O => 0%R
  | S m => (Rsum f m + f m)%R
  end.

(** The squared Euclidean distance of two rows of real numbers. *)
Definition squaredDistance (a b : list R) : R :=
  Rsum (fun dim => (nth dim a 0 - nth dim b 0) * (nth dim a 0 - nth dim b 0))%R (length a).

(** A K-Means state over [n] rows of length [d]: one label per row, each
    the index of a centroid, and centroids of length [d]. *)
Definition kmeansState (n d : nat) (labels : list nat) (centroids : list (list R)) : Prop :=
  length labels = n /\
  Forall (fun l => l < length centroids) labels /\
  0 < length centroids /\
  Forall (fun c => length c = d) centroids.

(** The number of rows below [t] that carry the label [k], and the sum of
    their entries in one dimension. *)
Fixpoint countLabel (labels : list nat) (k t : nat) : nat :=
  match t with
  | O => 0
  | S t' => countLabel labels k t' + (if Nat.eqb (nth t' labels 0) k then 1 else 0)
  end.

Definition sumLabel (vectors : list (list R)) (labels : list nat) (k dim t : nat) : R :=
  Rsum (fun i => if Nat.eqb (nth i labels 0) k then nth dim (nth i vectors []) 0%R else 0%R) t.

(** What the loops of [accumulate] have computed after [t] rows: the
    counts and the sums of the rows of each cluster. *)
Definition accumulated (vectors : list (list R)) (dimension : nat) (labels : list nat)
    (rows t : nat) (st : list (list R) * list nat) : Prop :=
  length (fst st) = rows /\ length (snd st) = rows /\
  forall k, k < rows ->
    nth k (snd st) 0 = countLabel labels k t /\
    length (nth k (fst st) []) = dimension /\
    forall dim, dim < dimension ->
      nth dim (nth k (fst st) []) 0%R = sumLabel vectors labels k dim t.

(** The centroid entry the update pass leaves in cluster [k], dimension
    [dim]: the mean of the members, or the old entry when there is none. *)
Definition updatedEntry (vectors : list (list R)) (labels : list nat) (centroids : list (list R))
    (k dim : nat) : R :=
  if Nat.eqb (countLabel labels k (length vectors)) 0
  then nth dim (nth k centroids []) 0%R
  else (sumLabel vectors labels k dim (length vectors) /
        INR (countLabel labels k (length vectors)))%R.

(** The inertia of a state of the K-Means loop. *)
Definition stateInertia (vectors : list (list R)) (st : list nat * list (list R) * nat) : R :=
  sumSquaredDistances realOps vectors (fst (fst st)) (snd (fst st)).


(** ** Definitions used to state the further properties *)

(** Whether the record at [idx] carries an array with at least one element
    as embedding (an array of empty slots only, such as [new Array(2)],
    has none): the records that [extractValidEmbeddings] does not skip. *)
Definition hasEmbedding (data : list RuntimeNode) (idx : nat) : bool :=
  match nth_error data idx with
  | Some item => negb (Nat.eqb (length (keptEntries item)) 0)
  | None => false
  end.

(** [clusters] partitions the rows [0 .. n-1] into non-empty clusters. *)
Definition isPartition (n : nat) (clusters : list (list nat)) : Prop :=
  Permutation (concat clusters) (seq 0 n) /\ Forall (fun cluster => cluster <> []) clusters.

(** A core row of DBSCAN: its eps-neighbourhood holds at least [minPts]
    rows. *)
Definition isCore (vectors : list (list float)) (eps : float) (minPts : Z) (q : nat) : bool :=
  (minPts <=? Z.of_nat (length (regionQuery vectors eps q)))%Z.

(** Row [p] is a core row or lies in the eps-neighbourhood of a core row. *)
Definition nearCore (vectors : list (list float)) (eps : float) (minPts : Z) (p : nat) : bool :=
  existsb
    (fun q =>
       isCore vectors eps minPts q &&
       (Nat.eqb q p || existsb (Nat.eqb p) (regionQuery vectors eps q)))
    (seq 0 (length vectors)).

(** The two halves of the DBSCAN invariant on noise: a labelled row is
    near a core row; and a core row visited so far is labelled, as is each
    of its neighbours unless it still waits in [seeds]. *)
Definition dbscanSound (vectors : list (list float)) (eps : float) (minPts : Z)
    (labels : list Z) : Prop :=
  forall p, p < length vectors ->
    nth p labels (-1)%Z <> (-1)%Z -> nearCore vectors eps minPts p = true.

Definition dbscanComplete (vectors : list (list float)) (eps : float) (minPts : Z)
    (seeds : list nat) (labels : list Z) (visited : list bool) : Prop :=
  forall q, q < length vectors -> nth q visited false = true ->
    isCore vectors eps minPts q = true ->
    nth q labels (-1)%Z <> (-1)%Z /\
    forall p, In p (regionQuery vectors eps q) ->
              nth p labels (-1)%Z <> (-1)%Z \/ In p seeds.

(** Splits a conjunction into its parts, leaving each part as it is. *)
Ltac splits := repeat match goal with |- _ /\ _ => split end.

(** ** Further memoized values of the [Graph] component *)

(** [new Set(labels).size]: the number of distinct labels. *)
Definition distinctCount (labels : list Z) : nat := length (nodup Z.eq_dec labels).

(** [clusterCountDisplay]: for DBSCAN the distinct labels other than [-1],
    for the other algorithms all distinct labels. *)
Definition clusterCountDisplay (algorithm : Algorithm) (clustering : ClusteringResult) : nat :=
  match algorithm with
  | dbscan =>
      distinctCount (filter (fun label => negb (label =? -1)%Z) (labels clustering))
  | _ => distinctCount (labels clustering)
  end.

(** ** The generator of the records: [generateSemanticNodes] *)

Set Warnings "-inexact-float".

(** [riskLevel: "低" | "中" | "高"]. *)
Inductive RiskLevel : Type := riskLow | riskMedium | riskHigh.

(** An entry of [themes], with the fields read for the fields of
    [SemanticNode] kept here ([name], [sector], [currency] and [samples] are
    display text).  A decimal literal denotes the double nearest to it, as
    in the source. *)
Record Theme : Type := {
  themeRegion : string;
  themeRisk : RiskLevel;
  center : list float;
  variance : float;
  prefixes : list string
}.

Definition themes : list Theme :=
  [
    {| themeRegion := "全球"%string; themeRisk := riskMedium;
       center := [1.4; 0.8; -0.3; 0.2; 0.5; -1.2; 0.9; 0.4]%float;
       variance := 0.45%float;
       prefixes := ["macro:gdp"; "macro:cpi"; "macro:ppi"]%string |};
    {| themeRegion := "北美"%string; themeRisk := riskMedium;
       center := [-0.6; 1.8; 0.4; -0.9; 0.3; 1.5; -0.2; 0.6]%float;
       variance := 0.4%float;
       prefixes := ["policy:fed"; "policy:rate"; "policy:bop"]%string |};
    {| themeRegion := "亚洲"%string; themeRisk := riskLow;
       center := [0.5; -1.2; 1.1; 0.8; -0.4; 0.3; -0.7; 1.2]%float;
       variance := 0.32%float;
       prefixes := ["bond:gov"; "bond:credit"; "bond:yld"]%string |};
    {| themeRegion := "全球"%string; themeRisk := riskHigh;
       center := [-1.1; -0.4; 1.8; -0.6; 1.1; 0.5; -1.4; 0.9]%float;
       variance := 0.55%float;
       prefixes := ["fx:usd"; "fx:oil"; "fx:metal"]%string |};
    {| themeRegion := "欧美"%string; themeRisk := riskMedium;
       center := [1.7; -0.2; -1.2; 0.6; 0.9; -0.5; 1.1; -0.7]%float;
       variance := 0.48%float;
       prefixes := ["eq:earnings"; "eq:valuation"; "eq:alpha"]%string |};
    {| themeRegion := "欧洲"%string; themeRisk := riskHigh;
       center := [-0.8; 1.3; -0.4; 1.6; -1.1; 0.8; -0.2; -0.6]%float;
       variance := 0.6%float;
       prefixes := ["alt:hedge"; "alt:pe"; "alt:reits"]%string |};
    {| themeRegion := "全球"%string; themeRisk := riskHigh;
       center := [0.9; 0.4; -1.5; 1.2; -0.3; -0.9; 0.7; -0.4]%float;
       variance := 0.5%float;
       prefixes := ["risk:stress"; "risk:liquidity"; "risk:credit"]%string |};
    {| themeRegion := "全球"%string; themeRisk := riskLow;
       center := [-0.3; 0.7; 1.3; -0.8; 1.5; 0.4; -0.5; 1.1]%float;
       variance := 0.35%float;
       prefixes := ["esg:score"; "esg:impact"; "esg:bond"]%string |};
    {| themeRegion := "亚洲"%string; themeRisk := riskMedium;
       center := [1.2; -1.1; 0.6; 1.4; -0.7; 0.3; 1.5; -1.2]%float;
       variance := 0.44%float;
       prefixes := ["chain:semi"; "chain:auto"; "chain:retail"]%string |};
    {| themeRegion := "亚太"%string; themeRisk := riskLow;
       center := [-1.3; 0.9; 0.5; -0.4; 1.6; -0.7; 0.4; 1.5]%float;
       variance := 0.3%float;
       prefixes := ["wm:portfolio"; "wm:fundflow"; "wm:client"]%string |}
  ].

(** [Math.ceil(x)] of a finite number, as an integer. *)
Definition ceil (x : float) : Z := (- Js.floor (PrimFloat.opp x))%Z.

(** [String(n).padStart(3, "0")] for a non-negative integer [n]. *)
Definition padStart3 (n : nat) : string :=
  let digits := NilZero.string_of_uint (Nat.to_uint n) in
  (String.concat "" (repeat "0" (3 - String.length digits)) ++ digits)%string.

(** [theme.prefixes[Math.floor(rand() * theme.prefixes.length)]] as the
    template literal of [id] prints it: an index outside the array reads
    [undefined]. *)
Definition pickPrefix (theme : Theme) (r : float) : string :=
  let index := Js.floor (PrimFloat.mul r (Js.ofNat (length (prefixes theme)))) in
  if (index <? 0)%Z then "undefined"%string
  else
    match nth_error (prefixes theme) (Z.to_nat index) with
    | Some prefix => prefix
    | None => "undefined"%string
    end.

(** [const perTheme = Math.ceil(count / themes.length)]. *)
Definition perTheme (count : nat) : nat :=
  Z.to_nat (ceil (PrimFloat.div (Js.ofNat count) (Js.ofNat (length themes)))).

Section Generator.

(** [Math.sin]. *)
Variable sin : float -> float.

(** One entry of [theme.center.map((value, dimIndex) => ...)], [r] being the
    number returned by [rand()]:
    [noise = (rand() - 0.5) * theme.variance * 2.4],
    [drift = Math.sin((themeIndex + 1) * (dimIndex + 1) * 0.37) * 0.08],
    [Number((value + noise + drift).toFixed(4))]. *)
Definition embeddingEntry (theme : Theme) (themeIndex dimIndex : nat) (value r : float)
  : float :=
  let noise :=
    PrimFloat.mul (PrimFloat.mul (PrimFloat.sub r 0.5%float) (variance theme))
      2.4%float in
  let drift :=
    PrimFloat.mul
      (sin (PrimFloat.mul
              (PrimFloat.mul (Js.ofNat (themeIndex + 1)) (Js.ofNat (dimIndex + 1)))
              0.37%float))
      0.08%float in
  Js.toFixed 4 (PrimFloat.add (PrimFloat.add value noise) drift).

(** The embedding of a record and the state of the generator after it. *)
Definition generateEmbedding (theme : Theme) (themeIndex : nat) (s : Z) : list float * Z :=
  Js.foldIdx
    (fun (acc : list float * Z) value dimIndex =>
       let '(r, s') := nextRandom (snd acc) in
       (fst acc ++ [embeddingEntry theme themeIndex dimIndex value r], s'))
    (center theme) ([], s).

(** One record: the body of the [for] loop after the [break] test.  The
    calls of [rand()] are taken in the order of the source: the prefix, the
    sample, the entries of the embedding, the risk level (one call unless
    the risk of the theme is ["中"]), the volatility, the velocity, and the
    month and the day of [lastUpdated]. *)
Definition generateNode (theme : Theme) (themeIndex i : nat) (s : Z) : SemanticNode * Z :=
  let '(r, s) := nextRandom s in
  let prefix := pickPrefix theme r in
  let '(_, s) := nextRandom s in
  let '(embedding', s) := generateEmbedding theme themeIndex s in
  let s :=
    match themeRisk theme with
    | riskMedium => s
    | _ => snd (nextRandom s)
    end in
  let '(r, s) := nextRandom s in
  let volatility' :=
    Js.toFixed 3 (PrimFloat.add 0.25%float (PrimFloat.mul r 0.65%float)) in
  let '(r, s) := nextRandom s in
  let velocity' :=
    Js.toFixed 3 (PrimFloat.add 0.15%float (PrimFloat.mul r 0.58%float)) in
  let id := (prefix ++ "-" ++ padStart3 (i + 1))%string in
  let '(_, s) := nextRandom s in
  let '(_, s) := nextRandom s in
  ({| key := id; region := themeRegion theme; embedding := embedding';
      volatility := volatility'; velocity := velocity' |}, s).

(** [function generateSemanticNodes(count = 300, seed = 2025)]; [count] is
    a non-negative integer.  The state of the loops is the array [nodes],
    the state of the generator, and whether [break] has left the inner
    loop. *)
Definition generateSemanticNodes (count : nat) (seed : Z) : list SemanticNode :=
  fst
    (Js.foldIdx
       (fun (st : list SemanticNode * Z) theme themeIndex =>
          fst
            (Js.forRange 0 (perTheme count)
               (fun i (loop : list SemanticNode * Z * bool) =>
                  let '(nodes, s, stopped) := loop in
                  if stopped then loop
                  else if count <=? length nodes then (nodes, s, true)
                  else
                    let '(node, s') := generateNode theme themeIndex i s in
                    (nodes ++ [node], s', false))
               (st, false)))
       themes ([], createSeededRandom seed)).

End Generator.

Set Warnings "inexact-float".

(** The entry [a[i][j]] of an array of arrays of numbers reads as [NaN]
    (it holds [NaN], or it is missing and used in arithmetic). *)
Definition nanEntry (a : list (list float)) (i j : nat) : Prop :=
  Prim2SF (nth j (nth i a []) PrimFloat.nan) = S754_nan.

(** ** [chartSeries] *)

Definition palette : list string :=
  [ "#2563eb"; "#0ea5e9"; "#22c55e"; "#f97316"; "#a855f7"; "#ef4444"; "#14b8a6"; "#f59e0b";
    "#6366f1"; "#ec4899"; "#2dd4bf"; "#84cc16"; "#f43f5e"; "#8b5cf6"; "#0ea5e9" ]%string.

(** [clusterId === -1 ? "噪声点" : `簇 ${clusterId + 1}`], for an integer
    [clusterId]. *)
Definition clusterName (clusterId : Z) : string :=
  if (clusterId =? -1)%Z then "噪声点"%string
  else ("簇 " ++ NilZero.string_of_int (Z.to_int (clusterId + 1)))%string.

(** [clusterId === -1 ? "rgba(148, 163, 184, 0.65)"
                       : palette[clusterId % palette.length]]; [None] is
    [undefined], read at a negative remainder. *)
Definition clusterColor (clusterId : Z) : option string :=
  if (clusterId =? -1)%Z then Some "rgba(148, 163, 184, 0.65)"%string
  else
    let index := Z.rem clusterId (Z.of_nat (length palette)) in
    if (index <? 0)%Z then None else nth_error palette (Z.to_nat index).

(** A series of the scatter chart: its name, its data points (each datum
    repeats fields of a record), its colour, the average volatility that
    [symbolSize] reads, and the flag [large] (the other options are
    constants). *)
Record ChartSeries : Type := {
  seriesName : string;
  seriesData : list ProjectedNode;
  seriesColor : option string;
  seriesAvgVolatility : float;
  seriesLarge : bool
}.

Definition seriesOf (entry : Z * list ProjectedNode) : ChartSeries :=
  let clusterId := fst entry in
  let nodes := snd entry in
  {| seriesName := clusterName clusterId;
     seriesData := nodes;
     seriesColor := clusterColor clusterId;
     seriesAvgVolatility :=
       PrimFloat.div
         (fold_left (fun acc n => PrimFloat.add acc (volatility (node n))) nodes PrimFloat.zero)
         (Js.or (Js.ofNat (length nodes)) PrimFloat.one);
     seriesLarge := 80 <? length nodes |}.

(** [const chartSeries = useMemo(...)]: one series per entry of [groups], in
    insertion order. *)
Definition chartSeries (enriched : list ProjectedNode) : list ChartSeries :=
  map seriesOf (groupByCluster enriched).

(** ** The CSV lines of [handleExport] *)

(** The double quote character. *)
Definition doubleQuote : Ascii.ascii := Ascii.ascii_of_nat 34.

(** The [replace] of [handleExport], with the global pattern that matches
    a double quote and two double quotes as replacement: every double quote
    of [text] is doubled. *)
Fixpoint escapeQuotes (text : string) : string :=
  match text with
  | EmptyString => EmptyString
  | String c rest =>
      if Ascii.eqb c doubleQuote
      then String doubleQuote (String doubleQuote (escapeQuotes rest))
      else String c (escapeQuotes rest)
  end.

(** The cell written for a value, [text] being [String(value)]: the
    escaped text between two double quotes. *)
Definition csvCell (text : string) : string :=
  String doubleQuote (escapeQuotes text ++ String doubleQuote EmptyString).

(** [Object.values(row).map(...).join(",")]. *)
Definition csvRow (values : list string) : string :=
  String.concat "," (map csvCell values).

(** The comma. *)
Definition comma : Ascii.ascii := Ascii.ascii_of_nat 44.

(** A reader of a line of quoted cells, used to show that [csvRow] loses
    nothing: it expects a cell, is inside a cell, or has just read a double
    quote inside a cell. *)
Inductive ReaderState : Type :=
| expectCell
| inCell (cell : string)
| afterQuote (cell : string).

Fixpoint readCsvRow (state : ReaderState) (cells : list string) (line : string)
  : option (list string) :=
  match line with
  | EmptyString =>
      match state with
      | afterQuote cell => Some (cells ++ [cell])
      | expectCell => match cells with [] => Some [] | _ => None end
      | inCell _ => None
      end
  | String c rest =>
      match state with
      | expectCell => if Ascii.eqb c doubleQuote then readCsvRow (inCell "") cells rest else None
      | inCell cell =>
          if Ascii.eqb c doubleQuote then readCsvRow (afterQuote cell) cells rest
          else readCsvRow (inCell (cell ++ String c EmptyString)) cells rest
      | afterQuote cell =>
          if Ascii.eqb c doubleQuote
          then readCsvRow (inCell (cell ++ String doubleQuote EmptyString)) cells rest
          else if Ascii.eqb c comma then readCsvRow expectCell (cells ++ [cell]) rest
          else None
      end
  end.

(** The DBSCAN invariant on shared clusters, between two clusters: every
    neighbour of a visited core row has been visited, and carries the label
    of that row when it is a core row too. *)
Definition dbscanLinked (vectors : list (list float)) (eps : float) (minPts : Z)
    (labels : list Z) (visited : list bool) : Prop :=
  forall q p, q < length vectors -> nth q visited false = true ->
    isCore vectors eps minPts q = true -> In p (regionQuery vectors eps q) ->
    nth p visited false = true /\
    (isCore vectors eps minPts p = true -> nth p labels (-1)%Z = nth q labels (-1)%Z).

(** The same while cluster [clusterId] grows from the state
    [(labels0, visited0)]: a row visited since then is labelled [clusterId],
    labels already given stay, and a neighbour of a core row visited since
    then has been visited or waits in [seeds]. *)
Definition dbscanGrowing (vectors : list (list float)) (eps : float) (minPts : Z)
    (clusterId : Z) (labels0 : list Z) (visited0 : list bool)
    (seeds : list nat) (labels : list Z) (visited : list bool) : Prop :=
  (forall r, nth r visited false = true ->
             nth r visited0 false = true \/ nth r labels (-1)%Z = clusterId) /\
  (forall r, nth r visited0 false = true -> nth r visited false = true) /\
  (forall r, nth r labels0 (-1)%Z <> (-1)%Z -> nth r labels (-1)%Z = nth r labels0 (-1)%Z) /\
  (forall q p, q < length vectors -> nth q visited false = true ->
     nth q visited0 false = false -> isCore vectors eps minPts q = true ->
     In p (regionQuery vectors eps q) ->
     nth p visited false = true \/ In p seeds).

(** The DBSCAN invariant on border rows: a labelled row is a core row or
    lies within eps of a core row that carries the same label; and every
    seed of the growing cluster lies within eps of a core row of that
    cluster. *)
Definition dbscanAttached (vectors : list (list float)) (eps : float) (minPts : Z)
    (labels : list Z) : Prop :=
  forall p, p < length vectors -> nth p labels (-1)%Z <> (-1)%Z ->
    exists q, q < length vectors /\ isCore vectors eps minPts q = true /\
              (q = p \/ In p (regionQuery vectors eps q)) /\
              nth q labels (-1)%Z = nth p labels (-1)%Z.

Definition seedsAttached (vectors : list (list float)) (eps : float) (minPts : Z)
    (clusterId : Z) (labels : list Z) (seeds : list nat) : Prop :=
  forall s, In s seeds ->
    s < length vectors /\
    exists q, q < length vectors /\ isCore vectors eps minPts q = true /\
              In s (regionQuery vectors eps q) /\ nth q labels (-1)%Z = clusterId.
(** * Properties *)

(** ** Loops and array writes *)

Lemma set_length {A : Type} (i : nat) (v : A) (a : list A) :
  length (Js.set i v a) = length a.
Proof.
  revert i; induction a as [|x r IH]; intros [|j]; simpl; auto.
Qed.

Lemma set_nth {A : Type} (i j : nat) (v d : A) (a : list A) :
  nth j (Js.set i v a) d = if Nat.eqb j i && Nat.ltb i (length a) then v else nth j a d.
Proof.
  revert i j; induction a as [|x r IH]; intros [|i] [|j]; simpl; auto.
  destruct (Nat.eqb j i); reflexivity.
Qed.

Lemma set_In {A : Type} (i : nat) (v x : A) (a : list A) :
  In x (Js.set i v a) -> x = v \/ In x a.
Proof.
  revert i; induction a as [|y r IH]; intros [|j]; simpl; intuition.
  destruct (IH _ H0); auto.
Qed.

Lemma set_Forall {A : Type} (P : A -> Prop) (i : nat) (v : A) (a : list A) :
  P v -> Forall P a -> Forall P (Js.set i v a).
Proof.
  intros Hv Ha. apply Forall_forall. intros x Hx.
  destruct (set_In _ _ _ _ Hx) as [->|Hin]; auto.
  rewrite Forall_forall in Ha. auto.
Qed.

(** An invariant of a [for] loop that may mention the loop counter. *)
Lemma forRange_counter {S : Type} (P : nat -> S -> Prop) (lo n : nat)
    (body : nat -> S -> S) (s : S) :
  P lo s ->
  (forall i st, lo <= i < lo + n -> P i st -> P (Datatypes.S i) (body i st)) ->
  P (lo + n) (Js.forRange lo n body s).
Proof.
  unfold Js.forRange. revert lo s.
  induction n as [|n IH]; intros lo s H0 Hstep; simpl.
  - rewrite Nat.add_0_r. exact H0.
  - replace (lo + Datatypes.S n) with (Datatypes.S lo + n) by lia.
    apply IH.
    + apply Hstep; [lia | exact H0].
    + intros i st Hi. apply Hstep. lia.
Qed.

Lemma forRange_invariant {S : Type} (P : S -> Prop) (lo n : nat)
    (body : nat -> S -> S) (s : S) :
  P s ->
  (forall i st, lo <= i < lo + n -> P st -> P (body i st)) ->
  P (Js.forRange lo n body s).
Proof.
  intros H0 Hstep.
  apply (forRange_counter (fun _ st => P st)); auto.
Qed.

Lemma foldIdxFrom_invariant {A S : Type} (P : S -> Prop) (f : S -> A -> nat -> S)
    (i : nat) (a : list A) (s : S) :
  P s ->
  (forall st x j, In x a -> P st -> P (f st x j)) ->
  P (Js.foldIdxFrom f i a s).
Proof.
  revert i s. induction a as [|x r IH]; intros i s H0 Hstep; simpl; auto.
  apply IH.
  - apply Hstep; simpl; auto.
  - intros st y j Hy. apply Hstep. simpl; auto.
Qed.

Lemma fold_left_invariant {A S : Type} (P : S -> Prop) (f : S -> A -> S)
    (a : list A) (s : S) :
  P s ->
  (forall st x, In x a -> P st -> P (f st x)) ->
  P (fold_left f a s).
Proof.
  revert s. induction a as [|x r IH]; intros s H0 Hstep; simpl; auto.
  apply IH.
  - apply Hstep; simpl; auto.
  - intros st y Hy. apply Hstep. simpl; auto.
Qed.

Lemma mapIdxFrom_length {A B : Type} (f : A -> nat -> B) (i : nat) (a : list A) :
  length (Js.mapIdxFrom f i a) = length a.
Proof.
  revert i; induction a as [|x r IH]; intros i; simpl; auto.
Qed.

Lemma mapIdxFrom_nth_error {A B : Type} (f : A -> nat -> B) (i j : nat) (a : list A) :
  nth_error (Js.mapIdxFrom f i a) j
  = match nth_error a j with Some x => Some (f x (i + j)) | None => None end.
Proof.
  revert i j. induction a as [|x r IH]; intros i j; simpl.
  - destruct j; reflexivity.
  - destruct j as [|j]; simpl; [rewrite Nat.add_0_r; reflexivity|].
    rewrite IH. replace (S i + j) with (i + S j) by lia. reflexivity.
Qed.

(** ** VectorNormalizer *)

Lemma isFinite_zero : Js.isFinite PrimFloat.zero = true.
Proof. reflexivity. Qed.

Lemma coerceEntry_finite (value : JsValue) : Js.isFinite (coerceEntry value) = true.
Proof.
  unfold coerceEntry. destruct (Js.isFinite (Number value)) eqn:E; auto using isFinite_zero.
Qed.

Lemma filter_all {A : Type} (p : A -> bool) (l : list A) :
  forallb p l = true -> filter p l = l.
Proof.
  induction l as [|x r IH]; simpl; auto.
  intros H. apply andb_prop in H as [Hx Hr]. rewrite Hx, IH; auto.
Qed.

Lemma coerced_all_finite (embedding : list JsValue) :
  forallb Js.isFinite (map coerceEntry embedding) = true.
Proof.
  induction embedding as [|v r IH]; simpl; auto.
  rewrite coerceEntry_finite. exact IH.
Qed.

Lemma coerceRow_finite (d : nat) (embedding : list JsValue) :
  forallb Js.isFinite (coerceRow d embedding) = true.
Proof.
  unfold coerceRow. destruct (Nat.eqb _ d).
  - apply coerced_all_finite.
  - apply forallb_forall. intros v Hv. apply in_map_iff in Hv as [i [<- _]].
    destruct (nth_error _ i) as [value|]; auto using isFinite_zero.
    destruct (Js.isFinite value) eqn:E; auto using isFinite_zero.
Qed.

Lemma coerceRow_length (d : nat) (embedding : list JsValue) :
  length (coerceRow d embedding) = d.
Proof.
  unfold coerceRow. destruct (Nat.eqb _ d) eqn:E.
  - apply Nat.eqb_eq in E. exact E.
  - rewrite length_map, length_seq. reflexivity.
Qed.

(** [map] keeps the empty slots and [filter] skips them: what is left is
    the coerced elements, none of which the filter rejects. *)
Lemma normalizedEntries_present (embedding : list JsValue) :
  normalizedEntries embedding = map coerceEntry (presentEntries embedding).
Proof.
  unfold normalizedEntries, mapEntries, presentEntries.
  induction embedding as [|value rest IH]; [reflexivity|].
  cbn [map filterEntries filter].
  destruct value; cbn [isHole negb map]; try exact IH;
    match goal with
    | |- _ = coerceEntry ?v :: _ =>
        change (if Js.isFinite (Number v) then Number v else PrimFloat.zero)
          with (coerceEntry v)
    end;
    rewrite coerceEntry_finite, IH; reflexivity.
Qed.

Lemma extractRow_kept (st : ValidEmbeddings) (v : JsValue) (r : list JsValue) (idx : nat) :
  let d := if Nat.eqb (dimension st) 0 then length (v :: r) else dimension st in
  extractRow st (map coerceEntry (v :: r)) idx =
  {| indices := indices st ++ [idx];
     vectors := vectors st ++ [coerceRow d (v :: r)];
     dimension := d |}.
Proof.
  intros d. unfold extractRow.
  rewrite length_map.
  change (Nat.eqb (length (v :: r)) 0) with false. cbv iota.
  fold d.
  assert (Hd : Nat.eqb d 0 = false).
  { unfold d. destruct (Nat.eqb (dimension st) 0) eqn:E; auto. }
  cbv zeta. fold d. rewrite Hd.
  assert (Hrow :
    (if Nat.eqb (length (v :: r)) d then map coerceEntry (v :: r)
     else map (fun i => match nth_error (map coerceEntry (v :: r)) i with
                        | Some value => if Js.isFinite value then value else PrimFloat.zero
                        | None => PrimFloat.zero
                        end) (seq 0 d)) = coerceRow d (v :: r)).
  { unfold coerceRow. rewrite length_map. reflexivity. }
  rewrite Hrow. rewrite coerceRow_finite. reflexivity.
Qed.

(** What [extractItem] does to an item whose embedding is an array with at
    least one element: the row is always kept. *)
Lemma extractItem_array (st : ValidEmbeddings) (item : RuntimeNode) (v : JsValue)
    (r : list JsValue) (idx : nat) :
  keptEntries item = v :: r ->
  let d := if Nat.eqb (dimension st) 0 then length (v :: r) else dimension st in
  extractItem st item idx =
  {| indices := indices st ++ [idx];
     vectors := vectors st ++ [coerceRow d (v :: r)];
     dimension := d |}.
Proof.
  intros Hkept d. destruct item as [embedding|]; [|discriminate Hkept].
  cbn [keptEntries] in Hkept. unfold extractItem.
  destruct embedding as [|value rest]; [discriminate Hkept|].
  change (Nat.eqb (length (value :: rest)) 0) with false. cbv iota.
  rewrite normalizedEntries_present, Hkept. apply extractRow_kept.
Qed.

(** An item without an element is skipped: its embedding is not an array,
    is the empty array, or holds empty slots only. *)
Lemma extractItem_dropped (st : ValidEmbeddings) (item : RuntimeNode) (idx : nat) :
  keptEntries item = [] -> extractItem st item idx = st.
Proof.
  intros Hkept. destruct item as [embedding|]; [|reflexivity].
  cbn [keptEntries] in Hkept. unfold extractItem.
  destruct (Nat.eqb (length embedding) 0); [reflexivity|].
  rewrite normalizedEntries_present, Hkept. reflexivity.
Qed.

Lemma extract_indices_from (data : list RuntimeNode) (i : nat) (st : ValidEmbeddings) :
  indices (Js.foldIdxFrom extractItem i data st) = indices st ++ arrayPositions i data.
Proof.
  revert i st. induction data as [|item rest IH]; intros i st; simpl.
  - rewrite app_nil_r. reflexivity.
  - destruct (keptEntries item) as [|v r] eqn:Hkept.
    + rewrite IH, extractItem_dropped by exact Hkept. reflexivity.
    + rewrite IH, (extractItem_array st item v r i Hkept).
      simpl. rewrite <- app_assoc. reflexivity.
Qed.

Lemma extract_indices (data : list RuntimeNode) :
  indices (extractValidEmbeddings data) = arrayPositions 0 data.
Proof. unfold extractValidEmbeddings, Js.foldIdx. rewrite extract_indices_from. reflexivity. Qed.

Lemma arrayPositions_In (data : list RuntimeNode) (i idx : nat) :
  In idx (arrayPositions i data) <->
  i <= idx /\ exists item, nth_error data (idx - i) = Some item /\ keptEntries item <> [].
Proof.
  revert i. induction data as [|item rest IH]; intros i; simpl.
  - split; [tauto|]. intros [_ [e [H _]]]. destruct (idx - i); discriminate.
  - assert (Hrest : In idx (arrayPositions (S i) rest) <->
                    S i <= idx /\ exists item',
                      nth_error (item :: rest) (idx - i) = Some item' /\ keptEntries item' <> []).
    { rewrite IH. split; intros [Hle [e He]]; (split; [exact Hle|]); exists e.
      - replace (idx - i) with (S (idx - S i)) by lia. exact He.
      - replace (idx - i) with (S (idx - S i)) in He by lia. exact He. }
    assert (Hhere : forall e, nth_error (item :: rest) (i - i) = Some e <-> item = e).
    { intros e. rewrite Nat.sub_diag. simpl.
      split; intros H; [injection H; auto | rewrite H; reflexivity]. }
    destruct (keptEntries item) as [|v r] eqn:Hkept; simpl.
    + rewrite Hrest. split.
      * intros [Hle He]. split; [lia | exact He].
      * intros [Hle [e [He Hne]]]. destruct (Nat.eq_dec idx i) as [->|Hneq].
        -- apply Hhere in He. subst e. congruence.
        -- split; [lia|]. exists e. auto.
    + rewrite Hrest. split.
      * intros [<- | [Hle He]].
        -- split; [lia|]. exists item. split; [apply Hhere; reflexivity | congruence].
        -- split; [lia | exact He].
      * intros [Hle [e [He Hne]]]. destruct (Nat.eq_dec idx i) as [->|Hneq]; [auto|].
        right. split; [lia|]. exists e. auto.
Qed.

Lemma extract_vectors_from (data : list RuntimeNode) (i : nat) (st : ValidEmbeddings) :
  let d := if Nat.eqb (dimension st) 0 then firstDimension data else dimension st in
  vectors (Js.foldIdxFrom extractItem i data st) =
    vectors st ++ map (coerceRow d) (arrayEmbeddings data) /\
  dimension (Js.foldIdxFrom extractItem i data st) = d.
Proof.
  revert i st. induction data as [|item rest IH]; intros i st.
  - simpl. rewrite app_nil_r. split; [reflexivity|].
    unfold firstDimension. simpl. destruct (Nat.eqb (dimension st) 0) eqn:E; auto.
    apply Nat.eqb_eq in E. auto.
  - cbn [Js.foldIdxFrom].
    destruct (keptEntries item) as [|v r] eqn:Hkept.
    { rewrite (extractItem_dropped st) by exact Hkept.
      unfold firstDimension. cbn [arrayEmbeddings]. rewrite Hkept. apply IH. }
    specialize (IH (S i) (extractItem st item i)).
    rewrite (extractItem_array st item v r i Hkept) in *.
    cbn [vectors indices dimension] in IH.
    unfold firstDimension at 1 2. cbn [arrayEmbeddings]. rewrite Hkept. cbn [map].
    set (d := if Nat.eqb (dimension st) 0 then length (v :: r) else dimension st) in *.
    assert (Hd : Nat.eqb d 0 = false).
    { unfold d. destruct (Nat.eqb (dimension st) 0) eqn:E; auto. }
    rewrite Hd in IH. cbv zeta in *. destruct IH as [IHv IHd].
    rewrite IHv, IHd, <- app_assoc. auto.
Qed.

Lemma extract_vectors (data : list RuntimeNode) :
  vectors (extractValidEmbeddings data) = map (coerceRow (firstDimension data)) (arrayEmbeddings data) /\
  dimension (extractValidEmbeddings data) = firstDimension data.
Proof.
  unfold extractValidEmbeddings, Js.foldIdx.
  pose proof (extract_vectors_from data 0 {| indices := []; vectors := []; dimension := 0 |}) as H.
  cbn [vectors dimension Nat.eqb app] in H. exact H.
Qed.

Lemma arrayPositions_length (data : list RuntimeNode) (i : nat) :
  length (arrayPositions i data) = length (arrayEmbeddings data).
Proof.
  revert i. induction data as [|item rest IH]; intros i; simpl; auto.
  destruct (keptEntries item); simpl; auto.
Qed.

Lemma extract_lengths (data : list RuntimeNode) :
  length (vectors (extractValidEmbeddings data)) = length (indices (extractValidEmbeddings data)).
Proof.
  rewrite (proj1 (extract_vectors data)), extract_indices, length_map, arrayPositions_length.
  reflexivity.
Qed.

(** Every row of the normalized matrix has the length [dimension]. *)
Lemma extract_rows_dimension (data : list RuntimeNode) :
  Forall (fun row => length row = dimension (extractValidEmbeddings data))
    (vectors (extractValidEmbeddings data)).
Proof.
  destruct (extract_vectors data) as [-> ->].
  apply Forall_forall. intros row Hrow. apply in_map_iff in Hrow as [e [<- _]].
  apply coerceRow_length.
Qed.

(** Sparse arrays: an array of empty slots only is dropped, and the empty
    slot of [[1, , 3]] is left out, so that the record fixes the dimension
    [2] and the third entry of the next record is cut. *)
Lemma extractValidEmbeddings_sparse :
  extractValidEmbeddings
    [Some [JsHole; JsHole]; Some [JsNumber 1; JsHole; JsNumber 3];
     Some [JsNumber 1; JsNumber 2; JsNumber 3]]
  = {| indices := [1; 2]; vectors := [[1; 3]; [1; 2]]%float; dimension := 2 |}.
Proof. reflexivity. Qed.

(** C3, as stated, fails: an embedding that is an array of non-numeric
    values (here a non-numeric string or object and [undefined]) is listed
    as dropped by the specification, yet [extractValidEmbeddings] keeps the
    record, each entry coerced to [0]. *)
Lemma extractValidEmbeddings_keeps_non_numeric :
  let data : list RuntimeNode := [Some [JsOther PrimFloat.nan; JsUndefined]] in
  listedAsDropped (nth 0 data None) = true /\
  indices (extractValidEmbeddings data) = [0] /\
  vectors (extractValidEmbeddings data) = [[PrimFloat.zero; PrimFloat.zero]].
Proof. repeat split. Qed.

(** The call on raw items: an entry that [Number] cannot convert makes it
    throw, and without such an entry it returns what the function returns
    on the converted items. *)
Lemma convertEntries_thrown (embedding : list RawEntry) :
  convertEntries embedding = Thrown <-> In Unconvertible embedding.
Proof.
  induction embedding as [|entry rest IH]; simpl.
  - split; [discriminate | tauto].
  - destruct entry as [value|].
    + destruct (convertEntries rest).
      * split; [discriminate|]. intros [H|H]; [discriminate H|]. apply IH in H. discriminate H.
      * split; [|reflexivity]. intros _. right. apply IH. reflexivity.
    + split; auto.
Qed.

Lemma convertEntries_convertible (embedding : list JsValue) :
  convertEntries (map Convertible embedding) = Returned embedding.
Proof.
  induction embedding as [|value rest IH]; simpl; [reflexivity|]. rewrite IH. reflexivity.
Qed.

Lemma extractRaw_thrown_from (raw : list RawNode) (i : nat) :
  Js.foldIdxFrom
    (fun completion item idx =>
       match completion with
       | Returned st => extractItemRaw st item idx
       | Thrown => Thrown
       end) i raw Thrown = Thrown.
Proof. revert i. induction raw as [|item rest IH]; intros i; simpl; auto. Qed.

Lemma extractRaw_thrown_iff_from (raw : list RawNode) (i : nat) (st : ValidEmbeddings) :
  Js.foldIdxFrom
    (fun completion item idx =>
       match completion with
       | Returned st => extractItemRaw st item idx
       | Thrown => Thrown
       end) i raw (Returned st) = Thrown <->
  exists embedding, In (Some embedding) raw /\ In Unconvertible embedding.
Proof.
  revert i st. induction raw as [|item rest IH]; intros i st; cbn [Js.foldIdxFrom].
  - split; [discriminate | intros [e [[] _]]].
  - assert (Hskip : (exists embedding, In (Some embedding) rest /\ In Unconvertible embedding) ->
                    exists embedding, In (Some embedding) (item :: rest) /\
                                      In Unconvertible embedding).
    { intros [e [H1 H2]]. exists e. split; [right; exact H1 | exact H2]. }
    destruct item as [embedding|]; cbn [extractItemRaw].
    + destruct (convertEntries embedding) as [values|] eqn:Hconv.
      * assert (Hno : ~ In Unconvertible embedding).
        { intros H. apply convertEntries_thrown in H. congruence. }
        assert (Hiff : (exists e, In (Some e) (Some embedding :: rest) /\ In Unconvertible e) <->
                       exists e, In (Some e) rest /\ In Unconvertible e).
        { split; [|exact Hskip]. intros [e [[H|H] He]]; [|exists e; auto].
          injection H as <-. contradiction. }
        rewrite Hiff. destruct (Nat.eqb (length embedding) 0); apply IH.
      * assert (Hin : In Unconvertible embedding) by (apply convertEntries_thrown; exact Hconv).
        destruct (Nat.eqb (length embedding) 0) eqn:E.
        -- apply Nat.eqb_eq in E. destruct embedding; [destruct Hin | discriminate E].
        -- rewrite extractRaw_thrown_from. split; [|reflexivity].
           intros _. exists embedding. split; [left; reflexivity | exact Hin].
    + rewrite IH. split; [exact Hskip|].
      intros [e [[H|H] He]]; [discriminate H | exists e; auto].
Qed.

Lemma extractRaw_convertible_from (data : list RuntimeNode) (i : nat) (st : ValidEmbeddings) :
  Js.foldIdxFrom
    (fun completion item idx =>
       match completion with
       | Returned st => extractItemRaw st item idx
       | Thrown => Thrown
       end) i (map rawNode data) (Returned st)
  = Returned (Js.foldIdxFrom extractItem i data st).
Proof.
  revert i st. induction data as [|item rest IH]; intros i st; cbn [map Js.foldIdxFrom].
  - reflexivity.
  - destruct item as [embedding|]; cbn [rawNode option_map extractItemRaw extractItem].
    + rewrite length_map, convertEntries_convertible.
      destruct (Nat.eqb (length embedding) 0); apply IH.
    + apply IH.
Qed.

(** C3, amended: a record is excluded from the normalized matrix exactly
    when its embedding is not an array or is an array without an element
    (the empty array, or empty slots only).  Every other record is kept, in
    order: the matrix has one row per index of the index map, the row of an
    embedding being its elements coerced by [Number] (an element that is
    not finite after coercion becomes [0]), cut or padded with [0] to the
    number of elements of the first kept embedding; all entries of the
    matrix are finite.  Nothing is dropped for an entry that [Number] cannot
    convert: the call throws exactly when some array holds such an entry,
    and returns the above on every other batch. *)
Theorem extractValidEmbeddings_drops_iff (data : list RuntimeNode) (raw : list RawNode)
    (idx : nat) :
  (In idx (indices (extractValidEmbeddings data)) <->
   exists embedding, nth_error data idx = Some (Some embedding) /\
                     presentEntries embedding <> []) /\
  vectors (extractValidEmbeddings data) =
    map (coerceRow (firstDimension data)) (arrayEmbeddings data) /\
  length (vectors (extractValidEmbeddings data)) = length (indices (extractValidEmbeddings data)) /\
  Forall (fun row => forallb Js.isFinite row = true) (vectors (extractValidEmbeddings data)) /\
  (extractValidEmbeddingsRaw raw = Thrown <->
   exists embedding, In (Some embedding) raw /\ In Unconvertible embedding) /\
  extractValidEmbeddingsRaw (map rawNode data) = Returned (extractValidEmbeddings data).
Proof.
  split; [|split; [|split; [|split; [|split]]]].
  - rewrite extract_indices, arrayPositions_In, Nat.sub_0_r. split.
    + intros [_ [[embedding|] [Hnth Hkept]]]; [|exfalso; apply Hkept; reflexivity].
      exists embedding. split; [exact Hnth | exact Hkept].
    + intros [embedding [Hnth Hkept]]. split; [lia|].
      exists (Some embedding). split; [exact Hnth | exact Hkept].
  - apply extract_vectors.
  - apply extract_lengths.
  - rewrite (proj1 (extract_vectors data)). apply Forall_forall.
    intros row Hrow. apply in_map_iff in Hrow as [e [<- _]]. apply coerceRow_finite.
  - apply extractRaw_thrown_iff_from.
  - apply extractRaw_convertible_from.
Qed.

(** ** Agglomerative clustering: the target below one *)

(** C4, as stated, fails: with a target below one the result is not the
    single cluster of target one; every row is labelled as noise. *)
Lemma runAgglomerative_target_zero_differs :
  let data := batch [[0; 0]; [1; 1]]%float in
  labels (runAgglomerative data 0) = [-1; -1]%Z /\
  labels (runAgglomerative data 1) = [0; 0]%Z /\
  runAgglomerative data 0 <> runAgglomerative data 1.
Proof.
  split; [reflexivity | split; [reflexivity|]].
  intros H. apply (f_equal labels) in H. vm_compute in H. discriminate H.
Qed.

(** C4, amended: the target cluster count is not clamped.  For every batch
    and every target below one, [runAgglomerative] returns the noise label
    [-1] for every record and no centroid. *)
Theorem runAgglomerative_target_below_one (data : list RuntimeNode) (targetClusters : Z) :
  (targetClusters < 1)%Z ->
  labels (runAgglomerative data targetClusters) = allNoise (length data) /\
  centroids (runAgglomerative data targetClusters) = [].
Proof.
  intros Ht. unfold runAgglomerative.
  destruct (Nat.eqb (length data) 0) eqn:E.
  - apply Nat.eqb_eq in E. rewrite E. split; reflexivity.
  - destruct (_ || _); [split; reflexivity|].
    apply Z.ltb_lt in Ht. rewrite Ht. split; reflexivity.
Qed.

Lemma runAgglomerative_target_below_one_witness :
  labels (runAgglomerative (batch [[0; 0]; [1; 1]]%float) 0) = allNoise 2 /\
  centroids (runAgglomerative (batch [[0; 0]; [1; 1]]%float) 0) = [].
Proof. apply (@runAgglomerative_target_below_one (batch [[0; 0]; [1; 1]]%float) 0). lia. Defined.

(** ** The trivial K-Means scenario *)

(** The generator returns the quotient of a signed 32-bit integer by
    [2^32]: [s & 0xffffffff] is a signed integer, although the three lines
    before it keep [s] unsigned with [>>> 0].  Its numbers lie in
    [[-0.5, 0.5)], and [Math.floor(rand() * n)], which the callers take for
    an index, is negative for the negative ones. *)
Lemma nextRandom_signed (s : Z) :
  exists z, (- 2 ^ 31 <= z < 2 ^ 31)%Z /\
            fst (nextRandom s) = PrimFloat.div (Js.ofZ z) 4294967296%float.
Proof.
  unfold nextRandom. cbv zeta. cbn [fst].
  eexists. split; [|reflexivity].
  change (toInt32 4294967295) with (-1)%Z. rewrite Z.land_m1_r.
  unfold toInt32.
  match goal with |- context [(?a mod 2 ^ 32)%Z] =>
    pose proof (Z.mod_pos_bound a (2 ^ 32) ltac:(lia)) as Hb;
    destruct ((a mod 2 ^ 32 <? 2 ^ 31)%Z) eqn:E end.
  - apply Z.ltb_lt in E. lia.
  - apply Z.ltb_ge in E. lia.
Qed.

(** The third number drawn by [runKMeans] (seed 1993) is negative, and the
    index computed from it for four rows is [-2]. *)
Lemma nextRandom_negative_draw :
  let s3 := snd (nextRandom (snd (nextRandom (createSeededRandom 1993)))) in
  PrimFloat.ltb (fst (nextRandom s3)) PrimFloat.zero = true /\
  Js.floor (PrimFloat.mul (fst (nextRandom s3)) (Js.ofNat 4)) = (-2)%Z.
Proof. vm_compute. split; reflexivity. Qed.

(** C8, the scenario on the code: on the batch
    [[0,0], [0,0], [10,10], [10,10]] with [k = 2] the inertia is not [0],
    [[10, 10]] is not a centroid, and no record is in a second cluster. *)
Lemma runKMeans_trivial_not_separated :
  let r := runKMeans trivialBatch 2 defaultMaxIterations in
  ~ (inertia r = Some PrimFloat.zero) /\
  ~ In [10; 10]%float (centroids r) /\
  ~ In 1%Z (labels r).
Proof.
  vm_compute. repeat split.
  - intros H.
    apply (f_equal (fun o => match o with Some v => PrimFloat.is_zero v | None => false end)) in H.
    vm_compute in H. discriminate H.
  - intros [H|[H|[]]];
      apply (f_equal (fun l => match l with v :: _ => PrimFloat.is_zero v | [] => false end)) in H;
      vm_compute in H; discriminate H.
  - intros [H|[H|[H|[H|[]]]]]; discriminate H.
Qed.

(** C8, the scenario evaluated: on the batch
    [[0,0], [0,0], [10,10], [10,10]] with [k = 2], where the specification
    expects two clusters of two records, the centroids [[0, 0]] and
    [[10, 10]] and inertia [0], [runKMeans] returns one cluster of four
    records, the centroids [[0, 0]] and [[0, 0]], and inertia [400].  The
    numbers of the generator lie in [[-0.5, 0.5)] ([nextRandom_signed]), so
    that the indices drawn for four rows are [0], [0], [-2], [1]: only rows
    of the first half are ever drawn, rows 0 and 1 become the initial
    centroids, both [[0, 0]], and the first assignment pass changes
    nothing. *)
Theorem runKMeans_trivial_scenario :
  runKMeans trivialBatch 2 defaultMaxIterations =
  {| labels := [0; 0; 0; 0]%Z;
     centroids := [[0; 0]; [0; 0]]%float;
     iterations := Some 0;
     inertia := Some 400%float;
     noiseCount := None |}.
Proof. vm_compute. reflexivity. Qed.

(** ** Projector *)

Lemma addAt_length (i : nat) (v : float) (a : list float) :
  i < length a -> length (Js.addAt i v a) = length a.
Proof.
  revert i; induction a as [|x r IH]; intros [|j]; simpl; intros H; try lia.
  rewrite IH; [reflexivity | lia].
Qed.

Lemma normalize_length (vec : list float) : length (normalize vec) = length vec.
Proof. unfold normalize. apply length_map. Qed.

Lemma powerStep_length (matrix orthogonalTo : list (list float)) (vector : list float) :
  length vector = length matrix ->
  length (powerStep matrix orthogonalTo vector) = length matrix.
Proof.
  intros Hlen. unfold powerStep. rewrite normalize_length.
  apply fold_left_invariant.
  - apply forRange_invariant.
    + rewrite repeat_length. exact Hlen.
    + intros i next Hi Hnext. apply forRange_invariant; [exact Hnext|].
      intros j next' _ Hnext'. rewrite addAt_length; [exact Hnext' | lia].
  - intros next basis _ Hnext. unfold Js.mapIdx. rewrite mapIdxFrom_length. exact Hnext.
Qed.

Lemma powerIteration_result (random : nat -> float) (matrix orthogonalTo : list (list float))
    (iterations drawn : nat) :
  exists eigenvalue vector,
    powerIteration random matrix orthogonalTo iterations drawn =
      (eigenvalue, vector, drawn + length matrix) /\
    length vector = length matrix /\
    exists working, vector = normalize working.
Proof.
  unfold powerIteration. eexists. eexists. split; [reflexivity|].
  destruct iterations as [|n].
  - split.
    + unfold Js.forRange; simpl. rewrite normalize_length.
      unfold initialVector. rewrite length_map, length_seq. reflexivity.
    + eexists. reflexivity.
  - split.
    + apply forRange_invariant.
      * rewrite normalize_length. unfold initialVector. rewrite length_map, length_seq. reflexivity.
      * intros i vector _ Hvec. apply powerStep_length. exact Hvec.
    + unfold Js.forRange. rewrite seq_S, fold_left_app. simpl.
      unfold powerStep at 1. eexists. reflexivity.
Qed.

Lemma covarianceMatrix_length (centered : list (list float)) (dimension dataLength : nat) :
  length (covarianceMatrix centered dimension dataLength) = dimension.
Proof.
  unfold covarianceMatrix.
  apply forRange_invariant.
  - apply fold_left_invariant.
    + apply repeat_length.
    + intros cov vector _ Hcov.
      apply forRange_invariant; [exact Hcov|].
      intros i cov' _ Hcov'. apply forRange_invariant; [exact Hcov'|].
      intros j cov'' _ Hcov''. unfold addAt2. rewrite set_length. exact Hcov''.
  - intros i cov _ Hcov. apply forRange_invariant; [exact Hcov|].
    intros j cov' _ Hcov'. unfold set2. rewrite !set_length. exact Hcov'.
Qed.

(** The shape of the result of [projectTo2D] on a non-empty batch. *)
Lemma projectTo2D_shape (random : nat -> float) (first : SemanticNode) (rest : list SemanticNode) :
  exists c1 c2 w1 w2,
    components (projectTo2D random (first :: rest)) = [c1; c2] /\
    length c1 = length (embedding first) /\
    length c2 = length (embedding first) /\
    c1 = normalize w1 /\ c2 = normalize w2 /\
    length (projected (projectTo2D random (first :: rest))) = S (length rest).
Proof.
  unfold projectTo2D.
  set (dimension := length (embedding first)).
  set (mean := meanVector (first :: rest) dimension).
  set (centered := centerRows (first :: rest) mean).
  set (covariance := covarianceMatrix centered dimension (length (first :: rest))).
  destruct (powerIteration_result random covariance [] 120 0)
    as [e1 [c1 [H1 [L1 [w1 N1]]]]].
  rewrite H1.
  destruct (powerIteration_result random covariance [c1] 120 (0 + length covariance))
    as [e2 [c2 [H2 [L2 [w2 N2]]]]].
  rewrite H2. cbn [components projected].
  exists c1, c2, w1, w2.
  unfold covariance in L1, L2. rewrite covarianceMatrix_length in L1, L2.
  repeat split; auto.
  rewrite length_map. unfold centered, centerRows. rewrite length_map. reflexivity.
Qed.

Lemma presentRecords_thrown (raw : list (option SemanticNode)) :
  presentRecords raw = Thrown <-> In None raw.
Proof.
  induction raw as [|item rest IH]; simpl.
  - split; [discriminate | tauto].
  - destruct item as [node|].
    + destruct (presentRecords rest).
      * split; [discriminate|]. intros [H|H]; [discriminate H|]. apply IH in H. discriminate H.
      * split; [|reflexivity]. intros _. right. apply IH. reflexivity.
    + split; auto.
Qed.

Lemma presentRecords_present (data : list SemanticNode) :
  presentRecords (map Some data) = Returned data.
Proof. induction data as [|node rest IH]; simpl; [reflexivity|]. rewrite IH. reflexivity. Qed.

(** The points of [projectTo2D]: the centred embedding of each record
    against the two components returned. *)
Lemma projectTo2D_points (random : nat -> float) (first : SemanticNode)
    (rest : list SemanticNode) :
  exists c1 c2,
    components (projectTo2D random (first :: rest)) = [c1; c2] /\
    length c1 = length (embedding first) /\
    length c2 = length (embedding first) /\
    projected (projectTo2D random (first :: rest))
    = map (fun node =>
             {| px := dotProduct (centeredRow (first :: rest) node) c1;
                py := dotProduct (centeredRow (first :: rest) node) c2 |})
          (first :: rest).
Proof.
  destruct (projectTo2D_shape random first rest)
    as [c1 [c2 [w1 [w2 [Hc [L1 [L2 _]]]]]]].
  exists c1, c2. split; [exact Hc|]. split; [exact L1|]. split; [exact L2|].
  revert Hc. unfold projectTo2D.
  destruct (powerIteration random _ [] 120 0) as [[e1 v1] drawn].
  destruct (powerIteration random _ [v1] 120 drawn) as [[e2 v2] drawn'].
  cbn [components projected nth]. intros Hc. injection Hc as <- <-.
  unfold centerRows. rewrite map_map. reflexivity.
Qed.

(** C10, as stated, fails: a record without an embedding is dropped by the
    normalizer, but the Projector does not project it and does not drop
    it; the call throws. *)
Lemma projectTo2D_throws_without_embedding :
  let raw := [Some (record [1; 2]%float); None] in
  indices (extractValidEmbeddings (map runtimeOf raw)) = [0] /\
  projectTo2DRaw drawsA raw = Thrown.
Proof. split; reflexivity. Qed.

(** C10, amended: the Projector validates and drops nothing.  On every
    batch whose records all carry an array of numbers as embedding (of any
    length, also empty, shorter or longer than the first one), and for
    every sequence of numbers returned by [Math.random], [projectTo2D]
    returns exactly one point per record, in order; on a non-empty batch it
    returns two basis vectors with as many entries as the first record's
    embedding, and the point of a record is its embedding, centred entry by
    entry on the mean, multiplied with the first and with the second basis
    vector.  A record with an empty embedding, which the normalizer drops,
    gets the point [(0, 0)].  A record without an embedding is not
    projected: the call throws, exactly when the batch holds such a
    record. *)
Theorem projectTo2D_one_point_per_record (random : nat -> float) (data : list SemanticNode)
    (raw : list (option SemanticNode)) :
  (projectTo2DRaw random raw = Thrown <-> In None raw) /\
  projectTo2DRaw random (map Some data) = Returned (projectTo2D random data) /\
  length (projected (projectTo2D random data)) = length data /\
  match data with
  | [] => components (projectTo2D random data) = []
  | first :: _ =>
      exists c1 c2,
        components (projectTo2D random data) = [c1; c2] /\
        length c1 = length (embedding first) /\
        length c2 = length (embedding first) /\
        forall i node, nth_error data i = Some node ->
          nth_error (projected (projectTo2D random data)) i
          = Some {| px := dotProduct (centeredRow data node) c1;
                    py := dotProduct (centeredRow data node) c2 |} /\
          (embedding node = [] ->
           nth_error (projected (projectTo2D random data)) i
           = Some {| px := PrimFloat.zero; py := PrimFloat.zero |})
  end.
Proof.
  split; [|split; [|split]].
  - unfold projectTo2DRaw. rewrite <- presentRecords_thrown.
    destruct (presentRecords raw); split; intros H; (discriminate H || reflexivity).
  - unfold projectTo2DRaw. rewrite presentRecords_present. reflexivity.
  - destruct data as [|first rest]; [reflexivity|].
    destruct (projectTo2D_points random first rest) as [c1 [c2 [_ [_ [_ Hp]]]]].
    rewrite Hp, length_map. reflexivity.
  - destruct data as [|first rest]; [reflexivity|].
    destruct (projectTo2D_points random first rest) as [c1 [c2 [Hc [L1 [L2 Hp]]]]].
    exists c1, c2. split; [exact Hc|]. split; [exact L1|]. split; [exact L2|].
    intros i node Hnode.
    assert (Hpoint : nth_error (projected (projectTo2D random (first :: rest))) i
                     = Some {| px := dotProduct (centeredRow (first :: rest) node) c1;
                               py := dotProduct (centeredRow (first :: rest) node) c2 |}).
    { rewrite Hp, nth_error_map, Hnode. reflexivity. }
    split; [exact Hpoint|].
    intros Hempty. rewrite Hpoint. unfold centeredRow. rewrite Hempty. reflexivity.
Qed.

(** A record with an empty embedding is dropped by the normalizer and
    still gets a point from the Projector. *)
Lemma projectTo2D_projects_dropped_record :
  let data := [record [1; 2]; record []; record [3; 4]]%float in
  indices (extractValidEmbeddings (map runtimeNode data)) = [0; 2] /\
  length (projected (projectTo2D drawsA data)) = 3.
Proof. vm_compute. split; reflexivity. Qed.

(** *** Dependence on [Math.random] *)

Lemma initialVector_ext (random random' : nat -> float) (n drawn : nat) :
  (forall i, drawn <= i < drawn + n -> random i = random' i) ->
  initialVector random n drawn = initialVector random' n drawn.
Proof.
  intros H. unfold initialVector. apply map_ext_in.
  intros i Hi. apply in_seq in Hi. apply H. lia.
Qed.

Lemma powerIteration_ext (random random' : nat -> float) (matrix orthogonalTo : list (list float))
    (iterations drawn : nat) :
  (forall i, drawn <= i < drawn + length matrix -> random i = random' i) ->
  powerIteration random matrix orthogonalTo iterations drawn =
  powerIteration random' matrix orthogonalTo iterations drawn.
Proof.
  intros H. unfold powerIteration. rewrite (@initialVector_ext random random' _ _ H). reflexivity.
Qed.

Lemma projectTo2D_ext (random random' : nat -> float) (data : list SemanticNode) :
  (forall n, n < 2 * projectorDimension data -> random n = random' n) ->
  projectTo2D random data = projectTo2D random' data.
Proof.
  destruct data as [|first rest]; [reflexivity|].
  cbn [projectorDimension]. intros H. unfold projectTo2D.
  set (dimension := length (embedding first)) in *.
  set (mean := meanVector (first :: rest) dimension).
  set (centered := centerRows (first :: rest) mean).
  set (covariance := covarianceMatrix centered dimension (length (first :: rest))).
  assert (Hlen : length covariance = dimension) by apply covarianceMatrix_length.
  rewrite (@powerIteration_ext random random' covariance [] 120 0)
    by (intros i Hi; apply H; lia).
  destruct (powerIteration_result random' covariance [] 120 0) as [e1 [c1 [H1 _]]].
  rewrite H1.
  rewrite (@powerIteration_ext random random' covariance [c1] 120 (0 + length covariance))
    by (intros i Hi; apply H; lia).
  reflexivity.
Qed.

(** C2, as stated, fails for the Projector: [projectTo2D] has no seed among
    its inputs and draws its initial vectors from [Math.random], so two runs
    on the same batch start from different vectors and return different
    basis vectors and points. *)
Lemma projectTo2D_not_reproducible :
  let data := [record [0; 1]; record [1; 0]; record [1; 1]; record [0; 0]]%float in
  initialVector drawsA (projectorDimension data) 0 <>
  initialVector drawsB (projectorDimension data) 0 /\
  projectTo2D drawsA data <> projectTo2D drawsB data.
Proof.
  split; intros H.
  - apply (f_equal (fun v => PrimFloat.eqb (nth 0 v PrimFloat.zero) 0.75%float)) in H.
    vm_compute in H. discriminate H.
  - apply (f_equal (fun p =>
             PrimFloat.ltb (nth 0 (nth 0 (components p) []) PrimFloat.zero) 0.5%float)) in H.
    vm_compute in H. discriminate H.
Qed.

(** C2, amended: neither computation takes a seed.  K-Means always seeds
    its generator with 1993, so the clustering is a function of the batch
    and the parameters alone.  The Projector's initial vectors are the
    numbers returned by [Math.random] (the first [d] for the first
    component, the next [d] for the second, [d] being the length of the
    first embedding); its output is determined by the batch and these
    [2 d] numbers.  Hence two runs of the page on the same batch and
    parameters in which [Math.random] returns the same first [2 d] numbers
    produce identical enriched records. *)
Theorem graphNodes_determined_by_draws (random random' : nat -> float) (algorithm : Algorithm)
    (baseNodes : list SemanticNode) (clusterCount : Z) (dbscanEps : float) (dbscanMinPts : Z) :
  (forall n, n < 2 * projectorDimension baseNodes -> random n = random' n) ->
  projectTo2D random baseNodes = projectTo2D random' baseNodes /\
  graphNodes random algorithm baseNodes clusterCount dbscanEps dbscanMinPts =
  graphNodes random' algorithm baseNodes clusterCount dbscanEps dbscanMinPts.
Proof.
  intros H. pose proof (@projectTo2D_ext random random' baseNodes H) as Hp.
  split; [exact Hp|]. unfold graphNodes. rewrite Hp. reflexivity.
Qed.

Lemma graphNodes_determined_by_draws_witness :
  let data := [record [0; 1]; record [1; 0]; record [1; 1]; record [0; 0]]%float in
  let random' := fun n => if Nat.ltb n 4 then drawsA n else PrimFloat.zero in
  projectTo2D drawsA data = projectTo2D random' data /\
  graphNodes drawsA kmeans data 8 1.5%float 8 = graphNodes random' kmeans data 8 1.5%float 8.
Proof.
  apply (@graphNodes_determined_by_draws drawsA
           (fun n => if Nat.ltb n 4 then drawsA n else PrimFloat.zero)).
  intros n Hn. cbn in Hn.
  destruct n as [|[|[|[|n]]]]; [reflexivity..|lia].
Defined.

(** *** The basis vectors *)





(** ** InsightAggregator *)

Lemma pushGrouped_keys (grouped : list (Z * list ProjectedNode)) (n : ProjectedNode) :
  map fst (pushGrouped grouped n) =
  if existsb (Z.eqb (clusterId n)) (map fst grouped) then map fst grouped
  else map fst grouped ++ [clusterId n].
Proof.
  induction grouped as [|[k bucket] rest IH]; simpl; [reflexivity|].
  rewrite (Z.eqb_sym (clusterId n) k).
  destruct (k =? clusterId n)%Z; simpl; [reflexivity|].
  rewrite IH. destruct (existsb _ _); reflexivity.
Qed.

Lemma pushGrouped_bucket (grouped : list (Z * list ProjectedNode)) (n : ProjectedNode) (k : Z) :
  bucketOf k (pushGrouped grouped n) =
  if (clusterId n =? k)%Z
  then Some (match bucketOf k grouped with Some bucket => bucket ++ [n] | None => [n] end)
  else bucketOf k grouped.
Proof.
  induction grouped as [|[k' bucket] rest IH]; simpl.
  - destruct (clusterId n =? k)%Z; reflexivity.
  - destruct (k' =? clusterId n)%Z eqn:E1; simpl.
    + apply Z.eqb_eq in E1. subst k'.
      destruct (clusterId n =? k)%Z; reflexivity.
    + destruct (k' =? k)%Z eqn:E2.
      * apply Z.eqb_eq in E2. subst k'. rewrite Z.eqb_sym, E1. reflexivity.
      * exact IH.
Qed.

Lemma existsb_Zeqb (k : Z) (l : list Z) : existsb (Z.eqb k) l = true <-> In k l.
Proof.
  rewrite existsb_exists. split.
  - intros [x [Hx E]]. apply Z.eqb_eq in E. subst. exact Hx.
  - intros H. exists k. split; [exact H | apply Z.eqb_refl].
Qed.

Lemma withLabel_app (k : Z) (nodes : list ProjectedNode) (n : ProjectedNode) :
  withLabel k (nodes ++ [n]) =
  if (clusterId n =? k)%Z then withLabel k nodes ++ [n] else withLabel k nodes.
Proof.
  unfold withLabel. rewrite filter_app. simpl.
  destruct (clusterId n =? k)%Z; [reflexivity | apply app_nil_r].
Qed.

Lemma withLabel_nil (k : Z) (nodes : list ProjectedNode) :
  ~ In k (map clusterId nodes) -> withLabel k nodes = [].
Proof.
  induction nodes as [|m r IH]; simpl; [reflexivity|].
  intros H. destruct (clusterId m =? k)%Z eqn:E.
  - apply Z.eqb_eq in E. tauto.
  - apply IH. tauto.
Qed.

Lemma groupedFor_push (nodes : list ProjectedNode) (grouped : list (Z * list ProjectedNode))
    (n : ProjectedNode) :
  groupedFor nodes grouped -> groupedFor (nodes ++ [n]) (pushGrouped grouped n).
Proof.
  intros [Hnd [Hkeys Hbuckets]]. unfold groupedFor.
  rewrite pushGrouped_keys.
  destruct (existsb (Z.eqb (clusterId n)) (map fst grouped)) eqn:E.
  - apply existsb_Zeqb in E. split; [exact Hnd|]. split.
    + intros k. rewrite map_app, in_app_iff, Hkeys. simpl.
      split; [tauto|]. intros [H|[<-|[]]]; [exact H | apply Hkeys; exact E].
    + intros k Hk. rewrite pushGrouped_bucket, withLabel_app, (Hbuckets k Hk).
      destruct (clusterId n =? k)%Z; reflexivity.
  - assert (Hnew : ~ In (clusterId n) (map fst grouped)).
    { intros H. apply existsb_Zeqb in H. congruence. }
    split; [|split].
    + apply NoDup_app; [exact Hnd | repeat constructor; simpl; tauto |].
      intros k Hk [<-|[]]. exact (Hnew Hk).
    + intros k. rewrite map_app, !in_app_iff, Hkeys. simpl. tauto.
    + intros k Hk. rewrite pushGrouped_bucket, withLabel_app.
      destruct (clusterId n =? k)%Z eqn:Ek.
      * apply Z.eqb_eq in Ek. subst k.
        rewrite withLabel_nil by (rewrite <- Hkeys; exact Hnew).
        destruct (bucketOf (clusterId n) grouped) eqn:Eb; [|reflexivity].
        exfalso. apply Hnew. clear - Eb.
        induction grouped as [|[k' b'] rest IH]; simpl in *; [discriminate|].
        destruct (k' =? clusterId n)%Z eqn:E; [left; apply Z.eqb_eq; exact E | right; auto].
      * apply in_app_iff in Hk as [Hk|[Hk|[]]].
        -- apply Hbuckets. exact Hk.
        -- subst k. rewrite Z.eqb_refl in Ek. discriminate.
Qed.

Lemma groupedFor_fold (nodes prefix : list ProjectedNode) (grouped : list (Z * list ProjectedNode)) :
  groupedFor prefix grouped -> groupedFor (prefix ++ nodes) (fold_left pushGrouped nodes grouped).
Proof.
  revert prefix grouped. induction nodes as [|n r IH]; intros prefix grouped H; simpl.
  - rewrite app_nil_r. exact H.
  - replace (prefix ++ n :: r) with ((prefix ++ [n]) ++ r) by (rewrite <- app_assoc; reflexivity).
    apply IH. apply groupedFor_push. exact H.
Qed.

Lemma groupByCluster_spec (nodes : list ProjectedNode) : groupedFor nodes (groupByCluster nodes).
Proof.
  apply (@groupedFor_fold nodes [] []).
  repeat split; simpl; try tauto. constructor.
Qed.

Lemma bucketOf_In (grouped : list (Z * list ProjectedNode)) (k : Z) (bucket : list ProjectedNode) :
  NoDup (map fst grouped) -> In (k, bucket) grouped -> bucketOf k grouped = Some bucket.
Proof.
  induction grouped as [|[k' b'] rest IH]; simpl; [tauto|].
  intros Hnd [H|H].
  - injection H as -> ->. rewrite Z.eqb_refl. reflexivity.
  - inversion Hnd as [|? ? Hnotin Hnd']. subst.
    destruct (k' =? k)%Z eqn:E.
    + apply Z.eqb_eq in E. subst k'. exfalso. apply Hnotin.
      apply in_map_iff. exists (k, bucket). auto.
    + apply IH; assumption.
Qed.

Lemma insertBySize_perm (a : ClusterInsight) (sorted : list ClusterInsight) :
  Permutation (insertBySize a sorted) (a :: sorted).
Proof.
  induction sorted as [|b rest IH]; simpl; [reflexivity|].
  destruct (size a <? size b); [|reflexivity].
  rewrite IH. apply perm_swap.
Qed.

Lemma sortBySizeDesc_perm (insights : list ClusterInsight) :
  Permutation (sortBySizeDesc insights) insights.
Proof.
  induction insights as [|a rest IH]; simpl; [reflexivity|].
  rewrite insertBySize_perm. constructor. exact IH.
Qed.

Lemma insertBySize_sorted (a : ClusterInsight) (sorted : list ClusterInsight) :
  Sorted sizeGe sorted -> Sorted sizeGe (insertBySize a sorted).
Proof.
  induction sorted as [|b rest IH]; simpl; intros Hs.
  - repeat constructor.
  - destruct (size a <? size b) eqn:E.
    + inversion Hs as [|? ? Hrest Hhd]. subst.
      constructor; [apply IH; exact Hrest|].
      apply Nat.ltb_lt in E.
      destruct rest as [|c rest']; simpl.
      * constructor. unfold sizeGe. lia.
      * destruct (size a <? size c); constructor.
        -- inversion Hhd. assumption.
        -- unfold sizeGe. lia.
    + apply Nat.ltb_ge in E. constructor; [exact Hs|]. constructor. exact E.
Qed.

Lemma sortBySizeDesc_sorted (insights : list ClusterInsight) :
  StronglySorted sizeGe (sortBySizeDesc insights).
Proof.
  apply Sorted_StronglySorted.
  - intros a b c Hab Hbc. unfold sizeGe in *. lia.
  - induction insights as [|a rest IH]; simpl; [constructor|].
    apply insertBySize_sorted. exact IH.
Qed.

(** C9: for every list of enriched records [clusterInsights] returns
    exactly one insight per distinct cluster label present (the noise
    label [-1] included): the ids of the insights are pairwise different
    and are the labels that occur; the size of each insight is the number
    of records with its label; and the list is sorted by size in
    descending order. *)
Theorem clusterInsights_one_per_label (enriched : list ProjectedNode) :
  NoDup (map id (clusterInsights enriched)) /\
  (forall k, In k (map id (clusterInsights enriched)) <-> In k (map clusterId enriched)) /\
  (forall insight, In insight (clusterInsights enriched) ->
     size insight = length (withLabel (id insight) enriched)) /\
  StronglySorted sizeGe (clusterInsights enriched).
Proof.
  destruct (groupByCluster_spec enriched) as [Hnd [Hkeys Hbuckets]].
  unfold clusterInsights.
  set (grouped := groupByCluster enriched) in *.
  assert (Hids : Permutation (map id (sortBySizeDesc (map insightOf grouped))) (map fst grouped)).
  { rewrite (Permutation_map id (sortBySizeDesc_perm _)), map_map. reflexivity. }
  split; [|split; [|split]].
  - apply (Permutation_NoDup (Permutation_sym Hids)). exact Hnd.
  - intros k. rewrite <- Hkeys. split; intros H.
    + apply (Permutation_in _ Hids). exact H.
    + apply (Permutation_in _ (Permutation_sym Hids)). exact H.
  - intros insight Hin.
    apply (Permutation_in _ (sortBySizeDesc_perm _)) in Hin.
    apply in_map_iff in Hin as [[k bucket] [<- Hentry]]. simpl.
    pose proof (@bucketOf_In _ _ _ Hnd Hentry) as Hb.
    rewrite Hbuckets in Hb by (apply in_map_iff; exists (k, bucket); auto).
    injection Hb as <-. reflexivity.
  - apply sortBySizeDesc_sorted.
Qed.

(** ** DBSCAN with a negative radius *)

Lemma binary_round_aux_sign (mx ex : Z) (lx : location) :
  match binary_round_aux prec emax false mx ex lx with
  | S754_zero s | S754_infinity s | S754_finite s _ _ => s = false
  | S754_nan => True
  end.
Proof.
  unfold binary_round_aux.
  destruct (shr_fexp prec emax mx ex lx) as [mrs' e'].
  destruct (shr_fexp prec emax _ e' loc_Exact) as [mrs'' e''].
  destruct (shr_m mrs''); [reflexivity | | exact I].
  destruct (Z.leb e'' _); reflexivity.
Qed.

Lemma SFsqrt_sign (x : spec_float) :
  match SFsqrt prec emax x with
  | S754_infinity s | S754_finite s _ _ => s = false
  | S754_zero _ | S754_nan => True
  end.
Proof.
  destruct x as [s|[|]| |[|] m e]; simpl; auto.
  destruct (SFsqrt_core_binary prec emax (Zpos m) e) as [[mz ez] lz].
  pose proof (binary_round_aux_sign mz ez lz) as H.
  destruct (binary_round_aux prec emax false mz ez lz); auto.
Qed.

(** A square root is never below a negative number, nor equal to it. *)
Lemma sqrt_not_leb_negative (x eps : float) :
  PrimFloat.ltb eps PrimFloat.zero = true ->
  PrimFloat.leb (PrimFloat.sqrt x) eps = false.
Proof.
  intros H. rewrite ltb_spec in H. rewrite leb_spec, sqrt_spec.
  change (Prim2SF PrimFloat.zero) with (S754_zero false) in H.
  pose proof (SFsqrt_sign (Prim2SF x)) as Hs. unfold SF64sqrt.
  destruct (Prim2SF eps) as [se|[|]| |[|] me ee]; try discriminate H;
    destruct (SFsqrt prec emax (Prim2SF x)) as [sx|sx| |sx mx ex];
    try subst sx; reflexivity.
Qed.

Lemma euclideanDistance_not_within_negative (a b : list float) (eps : float) :
  PrimFloat.ltb eps PrimFloat.zero = true ->
  PrimFloat.leb (euclideanDistance floatOps a b) eps = false.
Proof.
  intros H. unfold euclideanDistance. cbn [sqrt floatOps].
  apply sqrt_not_leb_negative. exact H.
Qed.

Lemma regionQuery_negative (vectors : list (list float)) (eps : float) (pointIdx : nat) :
  PrimFloat.ltb eps PrimFloat.zero = true -> regionQuery vectors eps pointIdx = [].
Proof.
  intros H. unfold regionQuery.
  induction (seq 0 (length vectors)) as [|i r IH]; cbn [filter]; [reflexivity|].
  rewrite (euclideanDistance_not_within_negative _ _ _ H). exact IH.
Qed.

Lemma set_repeat {A : Type} (i n : nat) (v : A) : Js.set i v (repeat v n) = repeat v n.
Proof.
  revert i. induction n as [|n IH]; intros [|i]; simpl; auto.
  rewrite IH. reflexivity.
Qed.

Lemma dbscanLabels_negative (vectors : list (list float)) (eps : float) (minPts : Z) :
  PrimFloat.ltb eps PrimFloat.zero = true -> (1 <= minPts)%Z ->
  exists visited,
    dbscanLabels vectors eps minPts = (repeat (-1)%Z (length vectors), visited, 0%Z).
Proof.
  intros Heps Hmin. unfold dbscanLabels.
  apply (forRange_invariant
           (fun st => exists visited, st = (repeat (-1)%Z (length vectors), visited, 0%Z))).
  - eexists. reflexivity.
  - intros i st _ [visited ->]. unfold dbscanVisit.
    destruct (nth i visited false); [eexists; reflexivity|].
    rewrite (regionQuery_negative _ _ _ Heps). simpl length.
    assert (Hlt : (Z.of_nat 0 <? minPts)%Z = true) by (apply Z.ltb_lt; lia).
    rewrite Hlt, set_repeat. eexists. reflexivity.
Qed.

Lemma fullLabels_noise (dataLength n : nat) (indices : list nat) :
  fullLabels dataLength indices (repeat (-1)%Z n) = allNoise dataLength.
Proof.
  unfold fullLabels, Js.foldIdx, allNoise.
  apply foldIdxFrom_invariant; [reflexivity|].
  intros full dataIdx vectorIdx _ ->. rewrite nth_repeat. apply set_repeat.
Qed.

Lemma count_allNoise (n : nat) :
  length (filter (fun label => (label =? -1)%Z) (allNoise n)) = n.
Proof.
  unfold allNoise. induction n as [|n IH]; simpl; auto.
Qed.

(** C1, as stated, fails: [runDbscan] has no guard on its parameters.
    With [minPts <= 0] every row is a core point, and with [eps = 0] and
    [minPts = 1] every row is within the radius of itself: in both cases
    each of the two rows below gets a cluster of its own, and no row is
    noise. *)
Lemma runDbscan_non_positive_not_noise :
  let data := batch [[0; 0]; [100; 100]]%float in
  labels (runDbscan data 1%float 0) = [0; 1]%Z /\
  noiseCount (runDbscan data 1%float 0) = Some 0 /\
  labels (runDbscan data 0%float 1) = [0; 1]%Z /\
  noiseCount (runDbscan data 0%float 1) = Some 0.
Proof. vm_compute. repeat split. Qed.

(** C1, amended: for every batch, if DBSCAN is invoked with [eps < 0] and
    [minPts >= 1], every record is labelled [-1], no centroid is returned
    and [noiseCount] is the number of input records (no distance is below a
    negative radius, so every neighbourhood is empty). *)
Theorem runDbscan_negative_eps_all_noise (data : list RuntimeNode) (eps : float) (minPts : Z) :
  PrimFloat.ltb eps PrimFloat.zero = true -> (1 <= minPts)%Z ->
  labels (runDbscan data eps minPts) = allNoise (length data) /\
  centroids (runDbscan data eps minPts) = [] /\
  noiseCount (runDbscan data eps minPts) = Some (length data).
Proof.
  intros Heps Hmin. unfold runDbscan.
  destruct (Nat.eqb (length data) 0) eqn:E.
  - apply Nat.eqb_eq in E. rewrite E. repeat split.
  - destruct (_ || _); [repeat split|].
    destruct (dbscanLabels_negative (vectors (extractValidEmbeddings data)) eps minPts Heps Hmin)
      as [visited ->].
    cbn [labels centroids noiseCount].
    rewrite fullLabels_noise, count_allNoise. repeat split.
Qed.

Lemma runDbscan_negative_eps_all_noise_witness :
  labels (runDbscan (batch [[0; 0]; [0; 0]; [1; 0]]%float) (-1)%float 1) = allNoise 3 /\
  centroids (runDbscan (batch [[0; 0]; [0; 0]; [1; 0]]%float) (-1)%float 1) = [] /\
  noiseCount (runDbscan (batch [[0; 0]; [0; 0]; [1; 0]]%float) (-1)%float 1) = Some 3.
Proof.
  apply (@runDbscan_negative_eps_all_noise (batch [[0; 0]; [0; 0]; [1; 0]]%float) (-1)%float 1).
  - reflexivity.
  - lia.
Defined.

(** ** The label domain *)

Lemma foldIdxFrom_bounded {A S : Type} (P : S -> Prop) (f : S -> A -> nat -> S)
    (i : nat) (a : list A) (s : S) :
  P s ->
  (forall st x j, In x a -> i <= j < i + length a -> P st -> P (f st x j)) ->
  P (Js.foldIdxFrom f i a s).
Proof.
  revert i s. induction a as [|x r IH]; intros i s H0 Hstep; simpl; auto.
  apply IH.
  - apply Hstep; simpl; auto. lia.
  - intros st y j Hy Hj. apply Hstep; simpl; auto. lia.
Qed.

Lemma fullLabels_Forall (P : Z -> Prop) (dataLength : nat) (indices : list nat) (labels : list Z) :
  P (-1)%Z -> Forall P labels -> Forall P (fullLabels dataLength indices labels).
Proof.
  intros Hnoise Hlabels. unfold fullLabels, Js.foldIdx.
  apply foldIdxFrom_invariant.
  - apply Forall_forall. intros l Hl. apply repeat_spec in Hl. subst. exact Hnoise.
  - intros full dataIdx vectorIdx _ Hfull. apply set_Forall; [|exact Hfull].
    destruct (Nat.lt_ge_cases vectorIdx (length labels)) as [Hlt|Hge].
    + rewrite Forall_forall in Hlabels. apply Hlabels. apply nth_In. exact Hlt.
    + rewrite nth_overflow by exact Hge. exact Hnoise.
Qed.

Lemma labelInDomain_of_nat (clusters label : nat) :
  label < clusters -> labelInDomain clusters (Z.of_nat label).
Proof. intros H. right. lia. Qed.

Lemma allNoise_inDomain (clusters n : nat) : Forall (labelInDomain clusters) (allNoise n).
Proof.
  apply Forall_forall. intros l Hl. apply repeat_spec in Hl. left. exact Hl.
Qed.

(** *** K-Means *)

Section KMeansLabels.

Context {T : Type} (ops : NumOps T).
Variable vectors : list (list T).
Variable dimension : nat.

Lemma nearestCentroid_bound (centroids : list (list T)) (i : nat) :
  0 < length centroids -> nearestCentroid ops vectors centroids i < length centroids.
Proof.
  intros Hpos. unfold nearestCentroid.
  apply (forRange_invariant (fun best : nat * option T => fst best < length centroids)).
  - exact Hpos.
  - intros cluster best Hc Hbest.
    destruct (match snd best with
              | Some bestDistance => ltb ops _ bestDistance
              | None => ltInfinity ops _
              end); [simpl; lia | exact Hbest].
Qed.

Lemma assignLabels_bound (centroids : list (list T)) (labels : list nat) :
  0 < length centroids ->
  Forall (fun l => l < length centroids) labels ->
  Forall (fun l => l < length centroids) (fst (assignLabels ops vectors centroids labels)).
Proof.
  intros Hpos Hlabels. unfold assignLabels.
  apply (forRange_invariant
           (fun st : list nat * bool => Forall (fun l => l < length centroids) (fst st))).
  - exact Hlabels.
  - intros i st _ Hst. destruct (Nat.eqb _ _); [exact Hst|].
    cbn [fst]. apply set_Forall; [|exact Hst].
    apply nearestCentroid_bound. exact Hpos.
Qed.

Lemma updateCentroids_length (centroids : list (list T)) (labels : list nat) :
  length (updateCentroids ops vectors dimension centroids labels) = length centroids.
Proof.
  unfold updateCentroids.
  destruct (accumulate ops vectors dimension (length centroids) labels) as [sums counts].
  apply (forRange_invariant (fun c : list (list T) => length c = length centroids)).
  - reflexivity.
  - intros cluster c _ Hc. destruct (Nat.eqb _ 0); [exact Hc|].
    apply forRange_invariant; [exact Hc|].
    intros dim c' _ Hc'. rewrite set_length. exact Hc'.
Qed.

Lemma kmeansLoop_bound (remaining iterations : nat) (labels : list nat)
    (centroids : list (list T)) :
  0 < length centroids ->
  Forall (fun l => l < length centroids) labels ->
  let '(labels', centroids', _) :=
    kmeansLoop ops vectors dimension remaining iterations labels centroids in
  length centroids' = length centroids /\
  Forall (fun l => l < length centroids') labels'.
Proof.
  revert iterations labels centroids.
  induction remaining as [|r IH]; intros iterations labels centroids Hpos Hlabels.
  - simpl. auto.
  - cbn [kmeansLoop].
    pose proof (assignLabels_bound centroids labels Hpos Hlabels) as Hassign.
    destruct (assignLabels ops vectors centroids labels) as [labels1 changed].
    cbn [fst] in Hassign.
    destruct changed; [|auto].
    specialize (IH (S iterations) labels1
                  (updateCentroids ops vectors dimension centroids labels1)).
    rewrite updateCentroids_length in IH. specialize (IH Hpos Hassign).
    destruct (kmeansLoop _ _ _ _ _ _ _) as [[labels' centroids'] iterations'].
    exact IH.
Qed.

End KMeansLabels.

Lemma runKMeans_labelsInDomain (data : list RuntimeNode) (k : Z) (maxIterations : nat) :
  labelsInDomain (runKMeans data k maxIterations).
Proof.
  unfold labelsInDomain, runKMeans.
  destruct (Nat.eqb (length data) 0); [constructor|].
  destruct (_ || _); [apply allNoise_inDomain|].
  set (valid := extractValidEmbeddings data).
  set (centroids0 := initialCentroids _ _).
  destruct (Nat.eqb (length centroids0) 0) eqn:E; [apply allNoise_inDomain|].
  apply Nat.eqb_neq in E.
  assert (Hpos : 0 < length centroids0) by lia.
  assert (Hzero : Forall (fun l => l < length centroids0) (repeat 0 (length (vectors valid)))).
  { apply Forall_forall. intros l Hl. apply repeat_spec in Hl. subst. exact Hpos. }
  pose proof (kmeansLoop_bound floatOps (vectors valid) (dimension valid) maxIterations 0
                (repeat 0 (length (vectors valid))) centroids0 Hpos Hzero) as H.
  destruct (kmeansLoop _ _ _ _ _ _ _) as [[labels' centroids'] iterations'].
  destruct H as [_ Hlabels]. cbn [labels centroids].
  apply fullLabels_Forall; [left; reflexivity|].
  apply Forall_forall. intros l Hl. apply in_map_iff in Hl as [n [<- Hn]].
  apply labelInDomain_of_nat. rewrite Forall_forall in Hlabels. auto.
Qed.

(** The initial centroids are rows of the matrix, and the inertia
    reported is the rounding to three decimals of the sum of squared
    distances reached by the loop. *)
Lemma pickCentroids_rows (P : list float -> Prop) (vectors : list (list float))
    (targetCentroids : Z) (attempts : nat) (s : Z) (usedIndices : list Z)
    (centroids : list (list float)) :
  Forall P vectors -> Forall P centroids ->
  Forall P (pickCentroids vectors targetCentroids attempts s usedIndices centroids).
Proof.
  intros Hv. revert s usedIndices centroids.
  induction attempts as [|attempts IH]; intros s usedIndices centroids Hc; simpl; auto.
  destruct (Z.of_nat (length centroids) <? targetCentroids)%Z; [|exact Hc].
  destruct (nextRandom s) as [r s'].
  destruct (existsb _ usedIndices); [apply IH; exact Hc|].
  destruct (Js.floor _ <? 0)%Z; [apply IH; exact Hc|].
  destruct (nth_error vectors _) as [candidate|] eqn:E; [|apply IH; exact Hc].
  destruct (Nat.eqb (length candidate) 0); [apply IH; exact Hc|].
  apply IH. apply Forall_app. split; [exact Hc|].
  constructor; [|constructor].
  rewrite Forall_forall in Hv. apply Hv. apply nth_error_In in E. exact E.
Qed.

Lemma initialCentroids_rows (data : list RuntimeNode) (k : Z) :
  Forall (fun c => length c = dimension (extractValidEmbeddings data))
    (initialCentroids (vectors (extractValidEmbeddings data)) k).
Proof.
  unfold initialCentroids. apply pickCentroids_rows; [apply extract_rows_dimension | constructor].
Qed.

Lemma firstDimension_pos (data : list RuntimeNode) :
  arrayEmbeddings data <> [] -> firstDimension data <> 0.
Proof.
  unfold firstDimension.
  induction data as [|item rest IH]; simpl; auto.
  destruct (keptEntries item); simpl; auto.
Qed.

Lemma runKMeans_inertia (data : list RuntimeNode) (k : Z) (maxIterations : nat) :
  initialCentroids (vectors (extractValidEmbeddings data)) k <> [] ->
  inertia (runKMeans data k maxIterations) =
  Some (Js.toFixed3
          (inertiaAfter floatOps (vectors (extractValidEmbeddings data))
             (dimension (extractValidEmbeddings data))
             (initialCentroids (vectors (extractValidEmbeddings data)) k) maxIterations)).
Proof.
  intros Hne. unfold runKMeans.
  destruct (extract_vectors data) as [Hv Hd].
  set (valid := extractValidEmbeddings data) in *.
  assert (Hvec : vectors valid <> []).
  { intros E. apply Hne. rewrite E. unfold initialCentroids. simpl.
    destruct (Z.min k 0 =? 0)%Z; reflexivity. }
  assert (Hdata : Nat.eqb (length data) 0 = false).
  { destruct (Nat.eqb (length data) 0) eqn:E; [|reflexivity].
    apply Nat.eqb_eq in E. apply length_zero_iff_nil in E.
    exfalso. apply Hvec. unfold valid. rewrite E. reflexivity. }
  assert (Hlen : Nat.eqb (length (vectors valid)) 0 = false).
  { destruct (vectors valid); [congruence | reflexivity]. }
  assert (Hdim : Nat.eqb (dimension valid) 0 = false).
  { apply Nat.eqb_neq. rewrite Hd. apply firstDimension_pos.
    intros E. apply Hvec. rewrite Hv, E. reflexivity. }
  rewrite Hdata, Hlen, Hdim. cbn [orb].
  destruct (Nat.eqb (length (initialCentroids (vectors valid) k)) 0) eqn:E.
  { apply Nat.eqb_eq in E.
    destruct (initialCentroids (vectors valid) k); [congruence | discriminate E]. }
  unfold inertiaAfter.
  destruct (kmeansLoop _ _ _ _ _ _ _) as [[labels' centroids'] iterations'].
  reflexivity.
Qed.

(** *** Agglomerative clustering *)

Lemma mergeClusters_nonempty (clusters : list (list nat)) (bestI bestJ : nat) :
  0 < length (mergeClusters clusters bestI bestJ).
Proof.
  unfold mergeClusters. rewrite !length_app. simpl. lia.
Qed.

Lemma mergeLoop_nonempty (vectors : list (list float)) (fuel : nat) (targetClusters : Z)
    (clusters : list (list nat)) (cache : DistanceCache) :
  0 < length clusters ->
  0 < length (mergeLoop vectors fuel targetClusters clusters cache).
Proof.
  revert clusters cache. induction fuel as [|fuel IH]; intros clusters cache Hpos; simpl; auto.
  destruct (targetClusters <? _)%Z; [|exact Hpos].
  destruct (closestPair vectors clusters cache) as [[[bestI bestJ] d] cache'].
  apply IH. apply mergeClusters_nonempty.
Qed.

Lemma clusterLabels_bound (vectors : list (list float)) (clusters : list (list nat)) :
  0 < length clusters ->
  Forall (fun l => l < length clusters) (clusterLabels vectors clusters).
Proof.
  intros Hpos. unfold clusterLabels, Js.foldIdx.
  apply foldIdxFrom_bounded.
  - apply Forall_forall. intros l Hl. apply repeat_spec in Hl. subst. exact Hpos.
  - intros labels cluster clusterIdx _ Hidx Hlabels.
    apply fold_left_invariant; [exact Hlabels|].
    intros labels' nodeIdx _ Hlabels'. apply set_Forall; [lia | exact Hlabels'].
Qed.

Lemma runAgglomerative_labelsInDomain (data : list RuntimeNode) (targetClusters : Z) :
  labelsInDomain (runAgglomerative data targetClusters).
Proof.
  unfold labelsInDomain, runAgglomerative.
  destruct (Nat.eqb (length data) 0); [constructor|].
  destruct (Nat.eqb (length (vectors (extractValidEmbeddings data))) 0) eqn:E;
    [apply allNoise_inDomain|].
  destruct (Nat.eqb (dimension (extractValidEmbeddings data)) 0); [apply allNoise_inDomain|].
  cbn [orb].
  destruct (targetClusters <? 1)%Z; [apply allNoise_inDomain|].
  set (valid := extractValidEmbeddings data) in *.
  set (clusters := Js.mapIdx _ (vectors valid)).
  assert (Hpos : 0 < length clusters).
  { unfold clusters, Js.mapIdx. rewrite mapIdxFrom_length.
    apply Nat.eqb_neq in E. lia. }
  pose proof (mergeLoop_nonempty (vectors valid) (length clusters) targetClusters clusters []
                Hpos) as Hpos'.
  cbn [labels centroids]. rewrite length_map.
  apply fullLabels_Forall; [left; reflexivity|].
  apply Forall_forall. intros l Hl. apply in_map_iff in Hl as [n [<- Hn]].
  apply labelInDomain_of_nat.
  pose proof (clusterLabels_bound (vectors valid) _ Hpos') as Hb.
  rewrite Forall_forall in Hb. auto.
Qed.

(** *** DBSCAN *)

Lemma set_In_keep {A : Type} (a : list A) (i : nat) (v c d : A) :
  In c a -> nth i a d <> c -> In c (Js.set i v a).
Proof.
  revert i. induction a as [|x r IH]; intros [|j]; simpl; auto.
  - intros [->|H] Hne; [congruence | auto].
  - intros [->|H] Hne; auto.
Qed.

Lemma set_In_new {A : Type} (a : list A) (i : nat) (v : A) :
  i < length a -> In v (Js.set i v a).
Proof.
  revert i. induction a as [|x r IH]; intros [|j]; simpl; intros H; try lia; auto.
  right. apply IH. lia.
Qed.

Section DbscanLabels.

Variable vectors : list (list float).
Variable eps : float.
Variable minPts : Z.

Let n := length vectors.

Lemma dbscanInv_label (labels : list Z) (visited : list bool) (clusterId : Z) (current : nat) :
  (0 <= clusterId)%Z ->
  length labels = n ->
  length visited = n ->
  Forall (fun l => l = (-1)%Z \/ (0 <= l < clusterId + 1)%Z) labels ->
  (forall c, (0 <= c < clusterId)%Z -> In c labels) ->
  (forall i, nth i labels (-1)%Z <> (-1)%Z -> nth i visited false = true) ->
  nth current labels (-1)%Z = (-1)%Z ->
  current < n \/ In clusterId labels ->
  forall visited',
    (visited' = visited /\ nth current visited false = true \/
     visited' = Js.set current true visited) ->
    dbscanInv n (Js.set current clusterId labels) visited' (clusterId + 1).
Proof.
  intros Hcid Hll Hlv Hdom Hmem Hvis Hold Hnew visited' Hv.
  unfold dbscanInv. repeat split.
  - lia.
  - rewrite set_length. exact Hll.
  - destruct Hv as [[-> _]| ->]; [|rewrite set_length]; exact Hlv.
  - apply set_Forall; [right; lia | exact Hdom].
  - intros c Hc. destruct (Z.eq_dec c clusterId) as [->|Hne].
    + destruct Hnew as [Hlt|Hin].
      * apply set_In_new. rewrite Hll. exact Hlt.
      * apply set_In_keep with (d := (-1)%Z); [exact Hin | lia].
    + apply set_In_keep with (d := (-1)%Z); [apply Hmem; lia | lia].
  - intros j Hj. rewrite set_nth in Hj.
    destruct (Nat.eqb j current && Nat.ltb current (length labels)) eqn:E.
    + apply andb_prop in E as [E1 E2]. apply Nat.eqb_eq in E1. subst j.
      destruct Hv as [[-> Hc]| ->]; [exact Hc|].
      rewrite set_nth, Nat.eqb_refl. rewrite Hlv, <- Hll, E2. reflexivity.
    + specialize (Hvis j Hj).
      destruct Hv as [[-> _]| ->]; [exact Hvis|].
      rewrite set_nth, Hvis.
      destruct (Nat.eqb j current && Nat.ltb current (length visited)); reflexivity.
Qed.

Lemma dbscanInv_visit (labels : list Z) (visited : list bool) (clusterId : Z) (current : nat) :
  dbscanInv n labels visited clusterId ->
  dbscanInv n labels (Js.set current true visited) clusterId.
Proof.
  intros (H0 & Hll & Hlv & Hdom & Hmem & Hvis).
  unfold dbscanInv. repeat split; auto.
  - rewrite set_length. exact Hlv.
  - intros j Hj. rewrite set_nth, (Hvis j Hj).
    destruct (Nat.eqb j current && Nat.ltb current (length visited)); reflexivity.
Qed.

Lemma expandCluster_inv (fuel : nat) (clusterId : Z) (seeds : list nat)
    (labels : list Z) (visited : list bool) :
  (0 <= clusterId)%Z ->
  dbscanInv n labels visited (clusterId + 1) ->
  dbscanInv n
    (fst (expandCluster vectors eps minPts fuel clusterId seeds labels visited))
    (snd (expandCluster vectors eps minPts fuel clusterId seeds labels visited))
    (clusterId + 1).
Proof.
  intros Hcid. revert seeds labels visited.
  induction fuel as [|fuel IH]; intros seeds labels visited Hinv; [exact Hinv|].
  cbn [expandCluster].
  destruct seeds as [|s0 rest]; [exact Hinv|].
  set (current := last (s0 :: rest) 0).
  set (seeds1 := removelast (s0 :: rest)).
  assert (Hlabel : forall visited',
             nth current labels (-1)%Z = (-1)%Z ->
             (visited' = visited /\ nth current visited false = true \/
              visited' = Js.set current true visited) ->
             dbscanInv n (Js.set current clusterId labels) visited' (clusterId + 1)).
  { intros visited' Hold Hv. destruct Hinv as (_ & Hll & Hlv & Hdom & Hmem & Hvis).
    apply dbscanInv_label with (visited := visited); auto.
    - intros c Hc. apply Hmem. lia.
    - right. apply Hmem. lia. }
  destruct (nth current visited false) eqn:Ev.
  - destruct (nth current labels (-1) =? -1)%Z eqn:El.
    + apply IH. apply Z.eqb_eq in El. apply Hlabel; auto.
    + apply IH. exact Hinv.
  - destruct (nth current labels (-1) =? -1)%Z eqn:El.
    + apply IH. apply Z.eqb_eq in El. apply Hlabel; auto.
    + apply IH. apply dbscanInv_visit. exact Hinv.
Qed.

Lemma dbscanVisit_inv (i : nat) (labels : list Z) (visited : list bool) (clusterId : Z) :
  i < n ->
  dbscanInv n labels visited clusterId ->
  dbscanInv n
    (fst (fst (dbscanVisit vectors eps minPts i (labels, visited, clusterId))))
    (snd (fst (dbscanVisit vectors eps minPts i (labels, visited, clusterId))))
    (snd (dbscanVisit vectors eps minPts i (labels, visited, clusterId))).
Proof.
  intros Hi Hinv. unfold dbscanVisit.
  destruct (nth i visited false) eqn:Ev; [exact Hinv|].
  assert (Hold : nth i labels (-1)%Z = (-1)%Z).
  { destruct Hinv as (_ & _ & _ & _ & _ & Hvis).
    destruct (Z.eq_dec (nth i labels (-1)%Z) (-1)%Z) as [E|E]; [exact E|].
    rewrite (Hvis i E) in Ev. discriminate Ev. }
  destruct (Z.of_nat (length (regionQuery vectors eps i)) <? minPts)%Z.
  - (* noise: the label was already -1 *)
    destruct Hinv as (H0 & Hll & Hlv & Hdom & Hmem & Hvis).
    cbn [fst snd]. unfold dbscanInv. repeat split; auto.
    + rewrite set_length. exact Hll.
    + rewrite set_length. exact Hlv.
    + apply set_Forall; [left; reflexivity | exact Hdom].
    + intros c Hc. apply set_In_keep with (d := (-1)%Z); [auto | lia].
    + intros j Hj. rewrite set_nth in Hj.
      destruct (Nat.eqb j i && Nat.ltb i (length labels)); [congruence|].
      rewrite set_nth, (Hvis j Hj).
      destruct (Nat.eqb j i && Nat.ltb i (length visited)); reflexivity.
  - (* a new cluster *)
    assert (H0 : (0 <= clusterId)%Z) by (destruct Hinv; assumption).
    assert (Hstart : dbscanInv n (Js.set i clusterId labels) (Js.set i true visited)
                       (clusterId + 1)).
    { destruct Hinv as (_ & Hll & Hlv & Hdom & Hmem & Hvis).
      apply dbscanInv_label with (visited := visited); auto.
      eapply Forall_impl; [|exact Hdom]. intros l [Hl|Hl]; [left; exact Hl | right; lia]. }
    pose proof (expandCluster_inv (expandFuel vectors) clusterId (regionQuery vectors eps i)
                  _ _ H0 Hstart) as Hexp.
    destruct (expandCluster _ _ _ _ _ _ _ _) as [labels2 visited2].
    exact Hexp.
Qed.

Lemma dbscanLabels_inv :
  dbscanInv n
    (fst (fst (dbscanLabels vectors eps minPts)))
    (snd (fst (dbscanLabels vectors eps minPts)))
    (snd (dbscanLabels vectors eps minPts)).
Proof.
  unfold dbscanLabels.
  apply (forRange_invariant
           (fun st : list Z * list bool * Z => dbscanInv n (fst (fst st)) (snd (fst st)) (snd st))).
  - cbn [fst snd]. unfold dbscanInv. repeat split.
    + lia.
    + apply repeat_length.
    + apply repeat_length.
    + apply Forall_forall. intros l Hl. apply repeat_spec in Hl. left. exact Hl.
    + intros c Hc. lia.
    + intros i Hi. rewrite nth_repeat in Hi. congruence.
  - intros i [[labels visited] clusterId] Hi Hinv. cbn [fst snd] in Hinv.
    apply dbscanVisit_inv; [unfold n; lia | exact Hinv].
Qed.

Lemma dbscanCentroids_length (dimension : nat) (labels : list Z) (visited : list bool)
    (clusterId : Z) :
  dbscanInv n labels visited clusterId ->
  length (dbscanCentroids vectors dimension labels clusterId) = Z.to_nat clusterId.
Proof.
  intros (H0 & Hll & _ & _ & Hmem & _). unfold dbscanCentroids.
  apply (forRange_counter (fun i (st : list (list float)) => length st = i)).
  - reflexivity.
  - intros cluster st Hc Hst.
    assert (Hin : In (Z.of_nat cluster) labels) by (apply Hmem; lia).
    destruct (In_nth _ _ (-1)%Z Hin) as [idx [Hidx Hnth]].
    assert (Hmember : In idx (filter (fun i => (nth i labels (-1) =? Z.of_nat cluster)%Z)
                                (seq 0 (length vectors)))).
    { apply filter_In. split.
      - apply in_seq. fold n. lia.
      - rewrite Hnth. apply Z.eqb_refl. }
    destruct (filter _ _) as [|m ms]; [destruct Hmember|].
    cbn [length Nat.eqb]. rewrite length_app, Hst. simpl. lia.
Qed.

End DbscanLabels.

(** The label written at a position of the index map is the label of the
    row it stands for. *)
Lemma fullLabels_nth_from (labels : list Z) (indices : list nat) (i : nat) (full : list Z) :
  NoDup indices ->
  Forall (fun d => d < length full) indices ->
  forall j d, nth_error indices j = Some d ->
    nth d (Js.foldIdxFrom
             (fun full dataIdx vectorIdx => Js.set dataIdx (nth vectorIdx labels (-1)%Z) full)
             i indices full) (-1)%Z = nth (i + j) labels (-1)%Z.
Proof.
  revert i full. induction indices as [|d0 rest IH]; intros i full Hnd Hlt j d Hj.
  - destruct j; discriminate.
  - inversion Hnd as [|? ? Hnotin Hnd']. subst.
    inversion Hlt as [|? ? Hd0 Hlt']. subst.
    cbn [Js.foldIdxFrom]. destruct j as [|j].
    + injection Hj as <-. rewrite Nat.add_0_r.
      assert (Hkeep : forall (l : list nat) (k : nat) (f : list Z),
                 ~ In d0 l ->
                 nth d0 (Js.foldIdxFrom
                           (fun full dataIdx vectorIdx =>
                              Js.set dataIdx (nth vectorIdx labels (-1)%Z) full) k l f) (-1)%Z
                 = nth d0 f (-1)%Z).
      { induction l as [|x l IHl]; intros k f Hx; [reflexivity|].
        cbn [Js.foldIdxFrom]. rewrite IHl by (simpl in Hx; tauto).
        rewrite set_nth. destruct (Nat.eqb d0 x) eqn:E; [|reflexivity].
        apply Nat.eqb_eq in E. subst. simpl in Hx. tauto. }
      rewrite Hkeep by exact Hnotin.
      rewrite set_nth, Nat.eqb_refl.
      apply Nat.ltb_lt in Hd0. rewrite Hd0. reflexivity.
    + replace (i + S j) with (S i + j) by lia. apply IH; auto.
      eapply Forall_impl; [|exact Hlt']. intros a Ha. rewrite set_length. exact Ha.
Qed.

Lemma arrayPositions_bounds (data : list RuntimeNode) (i : nat) :
  Forall (fun d => i <= d < i + length data) (arrayPositions i data).
Proof.
  revert i. induction data as [|item rest IH]; intros i; simpl; [constructor|].
  assert (Hrest : Forall (fun d => i <= d < i + S (length rest)) (arrayPositions (S i) rest)).
  { eapply Forall_impl; [|apply IH]. intros d Hd. simpl in Hd. lia. }
  destruct (keptEntries item); auto.
  constructor; [lia | exact Hrest].
Qed.

Lemma arrayPositions_NoDup (data : list RuntimeNode) (i : nat) : NoDup (arrayPositions i data).
Proof.
  revert i. induction data as [|item rest IH]; intros i; simpl; [constructor|].
  destruct (keptEntries item); auto.
  constructor; [|apply IH].
  intros Hin. pose proof (arrayPositions_bounds rest (S i)) as Hb.
  rewrite Forall_forall in Hb. specialize (Hb i Hin). lia.
Qed.

Lemma fullLabels_covers (data : list RuntimeNode) (labels : list Z) (c : Z) :
  length labels = length (vectors (extractValidEmbeddings data)) ->
  In c labels ->
  In c (fullLabels (length data) (indices (extractValidEmbeddings data)) labels).
Proof.
  intros Hlen Hin.
  destruct (In_nth _ _ (-1)%Z Hin) as [j [Hj Hnth]].
  rewrite extract_lengths in Hlen. rewrite extract_indices in *.
  destruct (nth_error (arrayPositions 0 data) j) as [d|] eqn:Ed.
  2:{ apply nth_error_None in Ed. lia. }
  assert (Hbounds : Forall (fun d => d < length (repeat (-1)%Z (length data)))
                      (arrayPositions 0 data)).
  { eapply Forall_impl; [|apply arrayPositions_bounds].
    intros a Ha. rewrite repeat_length. simpl in Ha. lia. }
  pose proof (fullLabels_nth_from labels (arrayPositions 0 data) 0 _
                (arrayPositions_NoDup data 0) Hbounds j d Ed) as Hfull.
  simpl in Hfull. rewrite Hnth in Hfull.
  unfold fullLabels, Js.foldIdx. rewrite <- Hfull.
  apply nth_In.
  assert (Hflen : forall (l : list nat) (k : nat) (f : list Z),
             length (Js.foldIdxFrom
                       (fun full dataIdx vectorIdx =>
                          Js.set dataIdx (nth vectorIdx labels (-1)%Z) full) k l f)
             = length f).
  { induction l as [|x l IHl]; intros k f; [reflexivity|].
    cbn [Js.foldIdxFrom]. rewrite IHl, set_length. reflexivity. }
  rewrite Hflen.
  rewrite Forall_forall in Hbounds. apply Hbounds.
  apply nth_error_In with (n := j). exact Ed.
Qed.

Lemma runDbscan_labels (data : list RuntimeNode) (eps : float) (minPts : Z) :
  labelsInDomain (runDbscan data eps minPts) /\
  forall c, (0 <= c < Z.of_nat (length (centroids (runDbscan data eps minPts))))%Z ->
            In c (labels (runDbscan data eps minPts)).
Proof.
  unfold labelsInDomain, runDbscan.
  destruct (Nat.eqb (length data) 0).
  { split; [constructor | cbn; intros c Hc; lia]. }
  destruct (_ || _).
  { split; [apply allNoise_inDomain | cbn; intros c Hc; lia]. }
  set (valid := extractValidEmbeddings data).
  pose proof (dbscanLabels_inv (vectors valid) eps minPts) as Hinv.
  destruct (dbscanLabels (vectors valid) eps minPts) as [[labels' visited'] clusterId'].
  cbn [fst snd] in Hinv. cbn [labels centroids].
  rewrite (dbscanCentroids_length (vectors valid) (dimension valid) labels' visited' clusterId' Hinv).
  destruct Hinv as (H0 & Hll & _ & Hdom & Hmem & _).
  split.
  - apply fullLabels_Forall; [left; reflexivity|].
    eapply Forall_impl; [|exact Hdom].
    intros l [Hl|Hl]; [left; exact Hl | right; lia].
  - intros c Hc. apply fullLabels_covers; [exact Hll|].
    apply Hmem. lia.
Qed.

(** C7: for every batch and each of the three algorithms, every entry of
    the labels returned is [-1] or a non-negative integer smaller than the
    number of centroids returned; for DBSCAN, moreover, every cluster id
    [0 .. m-1], [m] the number of centroids returned, is the label of at
    least one record, so that the non-negative labels occurring are
    exactly that prefix. *)
Theorem cluster_labels_domain (data : list RuntimeNode) (k : Z) (maxIterations : nat)
    (targetClusters : Z) (eps : float) (minPts : Z) :
  labelsInDomain (runKMeans data k maxIterations) /\
  labelsInDomain (runAgglomerative data targetClusters) /\
  labelsInDomain (runDbscan data eps minPts) /\
  (forall c, (0 <= c)%Z ->
     (In c (labels (runDbscan data eps minPts)) <->
      (c < Z.of_nat (length (centroids (runDbscan data eps minPts))))%Z)).
Proof.
  split; [apply runKMeans_labelsInDomain|].
  split; [apply runAgglomerative_labelsInDomain|].
  destruct (runDbscan_labels data eps minPts) as [Hdom Hcover].
  split; [exact Hdom|].
  intros c Hc. split.
  - intros Hin. unfold labelsInDomain in Hdom. rewrite Forall_forall in Hdom.
    destruct (Hdom c Hin) as [Hl|Hl]; lia.
  - intros Hlt. apply Hcover. lia.
Qed.

(** ** The loops run to their end within the fuel given

    [mergeLoop] and [expandCluster] take a bound on the number of turns.
    The bounds passed by [runAgglomerative] and [dbscanVisit] are never
    reached: any larger bound gives the same result. *)

Lemma closestPair_bounds (vectors : list (list float)) (clusters : list (list nat))
    (cache : DistanceCache) :
  2 <= length clusters ->
  let '(bestI, bestJ, _, _) := closestPair vectors clusters cache in
  bestI < bestJ < length clusters.
Proof.
  intros Hlen. unfold closestPair.
  apply (forRange_invariant
           (fun st : nat * nat * float * DistanceCache =>
              let '(bestI, bestJ, _, _) := st in bestI < bestJ < length clusters)).
  - lia.
  - intros i st Hi Hst.
    apply (forRange_invariant
             (fun st : nat * nat * float * DistanceCache =>
                let '(bestI, bestJ, _, _) := st in bestI < bestJ < length clusters)).
    + exact Hst.
    + intros j [[[bestI bestJ] bestDistance] cache0] Hj Hst'.
      destruct (clusterDistance vectors cache0 (nth i clusters []) (nth j clusters []))
        as [distance cache'].
      destruct (PrimFloat.ltb distance bestDistance); [lia | exact Hst'].
Qed.

Lemma mergeClusters_length (clusters : list (list nat)) (bestI bestJ : nat) :
  bestI < bestJ < length clusters ->
  S (length (mergeClusters clusters bestI bestJ)) = length clusters.
Proof.
  intros H. unfold mergeClusters.
  rewrite !length_app, !length_firstn, !length_skipn, !length_app,
    !length_firstn, !length_skipn. simpl. lia.
Qed.

Lemma mergeLoop_fuel (vectors : list (list float)) (targetClusters : Z) (fuel fuel' : nat)
    (clusters : list (list nat)) (cache : DistanceCache) :
  (1 <= targetClusters)%Z ->
  length clusters <= fuel -> length clusters <= fuel' ->
  mergeLoop vectors fuel targetClusters clusters cache =
  mergeLoop vectors fuel' targetClusters clusters cache.
Proof.
  intros Ht. revert fuel' clusters cache.
  induction fuel as [|fuel IH]; intros fuel' clusters cache Hf Hf'.
  - destruct clusters; [|simpl in Hf; lia].
    destruct fuel'; simpl; [reflexivity|].
    destruct (targetClusters <? 0)%Z eqn:E; [apply Z.ltb_lt in E; lia | reflexivity].
  - destruct fuel' as [|fuel'].
    + destruct clusters; [|simpl in Hf'; lia]. simpl.
      destruct (targetClusters <? 0)%Z eqn:E; [apply Z.ltb_lt in E; lia | reflexivity].
    + cbn [mergeLoop].
      destruct (targetClusters <? Z.of_nat (length clusters))%Z eqn:E; [|reflexivity].
      apply Z.ltb_lt in E.
      pose proof (closestPair_bounds vectors clusters cache ltac:(lia)) as Hb.
      destruct (closestPair vectors clusters cache) as [[[bestI bestJ] d] cache'].
      pose proof (mergeClusters_length clusters bestI bestJ Hb) as Hl.
      apply IH; lia.
Qed.

(** The [while] loop of [runAgglomerative] ends because its condition
    fails, not because the bound is reached. *)
Lemma mergeLoop_done (vectors : list (list float)) (targetClusters : Z) (fuel : nat)
    (clusters : list (list nat)) (cache : DistanceCache) :
  (1 <= targetClusters)%Z ->
  length clusters <= fuel ->
  (targetClusters <? Z.of_nat (length (mergeLoop vectors fuel targetClusters clusters cache)))%Z
  = false.
Proof.
  intros Ht. revert clusters cache.
  induction fuel as [|fuel IH]; intros clusters cache Hf.
  - destruct clusters; [|simpl in Hf; lia]. simpl. apply Z.ltb_ge. lia.
  - cbn [mergeLoop].
    destruct (targetClusters <? Z.of_nat (length clusters))%Z eqn:E; [|exact E].
    apply Z.ltb_lt in E.
    pose proof (closestPair_bounds vectors clusters cache ltac:(lia)) as Hb.
    destruct (closestPair vectors clusters cache) as [[[bestI bestJ] d] cache'].
    pose proof (mergeClusters_length clusters bestI bestJ Hb) as Hl.
    apply IH. lia.
Qed.

Section DbscanFuel.

Variable vectors : list (list float).
Variable eps : float.
Variable minPts : Z.

Let n := length vectors.

Lemma regionQuery_bounds (pointIdx : nat) :
  Forall (fun i => i < n) (regionQuery vectors eps pointIdx) /\
  length (regionQuery vectors eps pointIdx) <= n.
Proof.
  unfold regionQuery. split.
  - apply Forall_forall. intros i Hi. apply filter_In in Hi as [Hi _].
    apply in_seq in Hi. unfold n. lia.
  - unfold n. etransitivity; [apply filter_length_le | rewrite length_seq; lia].
Qed.

Lemma pushNew_bounds (seeds currentNeighbors : list nat) :
  Forall (fun i => i < n) seeds -> Forall (fun i => i < n) currentNeighbors ->
  Forall (fun i => i < n) (pushNew seeds currentNeighbors) /\
  length (pushNew seeds currentNeighbors) <= length seeds + length currentNeighbors.
Proof.
  unfold pushNew. revert seeds.
  induction currentNeighbors as [|x r IH]; intros seeds Hs Hn; simpl.
  - split; [exact Hs | lia].
  - inversion Hn as [|? ? Hx Hr]. subst.
    destruct (existsb (Nat.eqb x) seeds).
    + destruct (IH seeds Hs Hr) as [H1 H2]. split; [exact H1 | lia].
    + assert (Hs' : Forall (fun i => i < n) (seeds ++ [x])).
      { apply Forall_app. split; [exact Hs | repeat constructor; exact Hx]. }
      destruct (IH (seeds ++ [x]) Hs' Hr) as [H1 H2].
      split; [exact H1|]. rewrite length_app in H2. simpl in H2. lia.
Qed.

Lemma unvisited_set (visited : list bool) (i : nat) :
  i < length visited -> nth i visited false = false ->
  S (unvisited (Js.set i true visited)) = unvisited visited.
Proof.
  unfold unvisited. revert i.
  induction visited as [|b r IH]; intros [|i]; simpl; intros Hi Hb; try lia.
  - subst b. reflexivity.
  - destruct b; simpl; rewrite <- (IH i) by (auto; lia); reflexivity.
Qed.

Lemma unvisited_le (visited : list bool) : unvisited visited <= length visited.
Proof. unfold unvisited. apply filter_length_le. Qed.

Lemma removelast_bounds (seeds : list nat) :
  seeds <> [] ->
  Forall (fun i => i < n) seeds ->
  last seeds 0 < n /\
  Forall (fun i => i < n) (removelast seeds) /\
  S (length (removelast seeds)) = length seeds.
Proof.
  intros Hne Hs.
  destruct (exists_last Hne) as [front [x ->]].
  rewrite last_last, removelast_last, length_app. simpl.
  apply Forall_app in Hs as [Hf Hx]. inversion Hx. subst.
  repeat split; auto. lia.
Qed.

Lemma expandCluster_fuel (fuel fuel' : nat) (clusterId : Z) (seeds : list nat)
    (labels : list Z) (visited : list bool) :
  Forall (fun i => i < n) seeds ->
  length visited = n ->
  length seeds + n * unvisited visited <= fuel ->
  length seeds + n * unvisited visited <= fuel' ->
  expandCluster vectors eps minPts fuel clusterId seeds labels visited =
  expandCluster vectors eps minPts fuel' clusterId seeds labels visited.
Proof.
  revert fuel' seeds labels visited.
  induction fuel as [|fuel IH]; intros fuel' seeds labels visited Hs Hlv Hf Hf'.
  - destruct seeds; [|simpl in Hf; lia]. destruct fuel'; reflexivity.
  - destruct fuel' as [|fuel'].
    + destruct seeds; [reflexivity | simpl in Hf'; lia].
    + cbn [expandCluster].
      destruct seeds as [|s0 rest]; [reflexivity|].
      destruct (removelast_bounds (s0 :: rest) ltac:(discriminate) Hs) as [Hcur [Hrest Hlen]].
      set (current := last (s0 :: rest) 0) in *.
      set (seeds1 := removelast (s0 :: rest)) in *.
      destruct (nth current visited false) eqn:Ev.
      * apply IH; auto; lia.
      * pose proof (unvisited_set visited current ltac:(lia) Ev) as Hu.
        destruct (regionQuery_bounds current) as [Hnb Hnl].
        destruct (pushNew_bounds seeds1 (regionQuery vectors eps current) Hrest Hnb)
          as [Hpb Hpl].
        destruct (minPts <=? _)%Z.
        -- apply IH; auto; [rewrite set_length; exact Hlv | nia | nia].
        -- apply IH; auto; [rewrite set_length; exact Hlv | nia | nia].
Qed.

(** The bound [expandFuel] used by [dbscanVisit] is enough whenever the
    row [i] is unvisited: a larger bound gives the same labels. *)
Lemma expandFuel_enough (i : nat) (extra : nat) (clusterId : Z)
    (labels : list Z) (visited : list bool) :
  i < n -> length visited = n -> nth i visited false = false ->
  expandCluster vectors eps minPts (expandFuel vectors + extra) clusterId
    (regionQuery vectors eps i) labels (Js.set i true visited) =
  expandCluster vectors eps minPts (expandFuel vectors) clusterId
    (regionQuery vectors eps i) labels (Js.set i true visited).
Proof.
  intros Hi Hlv Ev.
  destruct (regionQuery_bounds i) as [Hnb Hnl].
  pose proof (unvisited_set visited i ltac:(lia) Ev) as Hu.
  pose proof (unvisited_le visited) as Hle.
  assert (Hbound : length (regionQuery vectors eps i) + n * unvisited (Js.set i true visited)
                   <= expandFuel vectors).
  { unfold expandFuel. fold n. nia. }
  apply expandCluster_fuel; auto.
  - rewrite set_length. exact Hlv.
  - lia.
Qed.

End DbscanFuel.

(** ** K-Means over exact arithmetic: the inertia does not increase *)

Lemma forRange_ext {S : Type} (lo n : nat) (body body' : nat -> S -> S) (s : S) :
  (forall i st, body i st = body' i st) ->
  Js.forRange lo n body s = Js.forRange lo n body' s.
Proof.
  intros H. unfold Js.forRange. revert s.
  induction (seq lo n) as [|i r IH]; intros s; simpl; [reflexivity|].
  rewrite H. apply IH.
Qed.

Lemma forRange_S {S : Type} (lo n : nat) (body : nat -> S -> S) (s : S) :
  Js.forRange lo (Datatypes.S n) body s = body (lo + n) (Js.forRange lo n body s).
Proof.
  unfold Js.forRange. rewrite seq_S, fold_left_app. reflexivity.
Qed.

Section ExactKMeans.

Local Open Scope R_scope.

Lemma Rsum_ext (f g : nat -> R) (n : nat) :
  (forall i, (i < n)%nat -> f i = g i) -> Rsum f n = Rsum g n.
Proof.
  induction n as [|n IH]; intros H; simpl; [reflexivity|].
  rewrite IH by (intros i Hi; apply H; lia). rewrite H by lia. reflexivity.
Qed.

Lemma Rsum_le (f g : nat -> R) (n : nat) :
  (forall i, (i < n)%nat -> f i <= g i) -> Rsum f n <= Rsum g n.
Proof.
  induction n as [|n IH]; intros H; simpl; [lra|].
  assert (Rsum f n <= Rsum g n) by (apply IH; intros i Hi; apply H; lia).
  assert (f n <= g n) by (apply H; lia). lra.
Qed.

Lemma Rsum_nonneg (f : nat -> R) (n : nat) :
  (forall i, (i < n)%nat -> 0 <= f i) -> 0 <= Rsum f n.
Proof.
  induction n as [|n IH]; intros H; simpl; [lra|].
  assert (0 <= Rsum f n) by (apply IH; intros i Hi; apply H; lia).
  assert (0 <= f n) by (apply H; lia). lra.
Qed.

Lemma forRange_Rsum (f : nat -> R) (n : nat) :
  Js.forRange 0 n (fun i acc => acc + f i) 0 = Rsum f n.
Proof.
  unfold Js.forRange. induction n as [|n IH]; [reflexivity|].
  rewrite seq_S, fold_left_app, IH. reflexivity.
Qed.

Lemma squaredDistance_nonneg (a b : list R) : 0 <= squaredDistance a b.
Proof.
  unfold squaredDistance. apply Rsum_nonneg. intros i _. cbv beta.
  generalize (nth i a 0 - nth i b 0). intros x. nra.
Qed.

Lemma euclideanDistance_real (a b : list R) :
  euclideanDistance realOps a b = R_sqrt.sqrt (squaredDistance a b).
Proof.
  unfold euclideanDistance, squaredDistance. cbn [sqrt add sub mul zero undef realOps].
  rewrite (forRange_Rsum
             (fun i => (nth i a 0 - nth i b 0) * (nth i a 0 - nth i b 0)) (length a)).
  reflexivity.
Qed.

Lemma euclideanDistance_square (a b : list R) :
  euclideanDistance realOps a b * euclideanDistance realOps a b = squaredDistance a b.
Proof.
  rewrite euclideanDistance_real. apply sqrt_sqrt. apply squaredDistance_nonneg.
Qed.

Lemma euclideanDistance_nonneg (a b : list R) : 0 <= euclideanDistance realOps a b.
Proof. rewrite euclideanDistance_real. apply sqrt_pos. Qed.

Variable vectors : list (list R).
Variable dimension : nat.

Let n := length vectors.

(** The inertia as a double sum. *)
Lemma sumSquaredDistances_real (labels : list nat) (centroids : list (list R)) :
  sumSquaredDistances realOps vectors labels centroids =
  Rsum (fun i => squaredDistance (nth i vectors []) (nth (nth i labels 0%nat) centroids [])) n.
Proof.
  unfold sumSquaredDistances. cbn [add mul zero realOps].
  rewrite <- forRange_Rsum. fold n.
  apply forRange_ext. intros i acc. rewrite euclideanDistance_square. reflexivity.
Qed.

(** The nearest centroid is at least as close as every other one. *)
Lemma nearestCentroid_nearest (centroids : list (list R)) (i j : nat) :
  (j < length centroids)%nat ->
  euclideanDistance realOps (nth i vectors []) (nth (nearestCentroid realOps vectors centroids i) centroids [])
  <= euclideanDistance realOps (nth i vectors []) (nth j centroids []).
Proof.
  intros Hj. unfold nearestCentroid.
  set (dist := fun cluster => euclideanDistance realOps (nth i vectors []) (nth cluster centroids [])).
  assert (Hinv :
    forall k,
      (k <= length centroids)%nat ->
      let best := Js.forRange 0 k
        (fun cluster (best : nat * option R) =>
           let distance := dist cluster in
           let smaller := match snd best with
                          | None => ltInfinity realOps distance
                          | Some bestDistance => ltb realOps distance bestDistance
                          end in
           if smaller then (cluster, Some distance) else best) (0%nat, None) in
      (k = 0%nat /\ best = (0%nat, None)) \/
      (snd best = Some (dist (fst best)) /\ forall j', (j' < k)%nat -> dist (fst best) <= dist j')).
  { induction k as [|k IH]; intros Hk.
    - left. split; reflexivity.
    - right. unfold Js.forRange in *. rewrite seq_S, fold_left_app. cbn [fold_left Nat.add].
      specialize (IH ltac:(lia)). cbv zeta in IH.
      destruct IH as [[-> ->]|[Hsnd Hmin]].
      + cbn. split; [reflexivity|]. intros j' Hj'. replace j' with 0%nat by lia. lra.
      + set (best := fold_left _ (seq 0 k) (0%nat, None)) in *.
        rewrite Hsnd. cbn [ltb realOps].
        destruct (Rlt_dec (dist k) (dist (fst best))) as [Hlt|Hge]; cbn [fst snd].
        * split; [reflexivity|]. intros j' Hj'.
          destruct (Nat.eq_dec j' k) as [->|Hne]; [lra|].
          specialize (Hmin j' ltac:(lia)). lra.
        * split; [exact Hsnd|]. intros j' Hj'.
          destruct (Nat.eq_dec j' k) as [->|Hne]; [lra|].
          apply Hmin. lia. }
  specialize (Hinv (length centroids) (Nat.le_refl _)). cbv zeta in Hinv.
  destruct Hinv as [[H0 _]|[_ Hmin]]; [lia|].
  apply Hmin. exact Hj.
Qed.

(** After the assignment pass every row carries its nearest centroid. *)
Lemma assignLabels_nth (centroids : list (list R)) (labels : list nat) (i : nat) :
  length labels = n -> (i < n)%nat ->
  nth i (fst (assignLabels realOps vectors centroids labels)) 0%nat =
  nearestCentroid realOps vectors centroids i.
Proof.
  intros Hlen Hi. unfold assignLabels. fold n.
  assert (Hinv :
    forall k, (k <= n)%nat ->
      let st := Js.forRange 0 k
        (fun i (st : list nat * bool) =>
           let bestCluster := nearestCentroid realOps vectors centroids i in
           if Nat.eqb (nth i (fst st) 0%nat) bestCluster then st
           else (Js.set i bestCluster (fst st), true)) (labels, false) in
      length (fst st) = n /\
      forall i', (i' < k)%nat ->
        nth i' (fst st) 0%nat = nearestCentroid realOps vectors centroids i').
  { induction k as [|k IH]; intros Hk.
    - split; [exact Hlen | intros i' Hi'; lia].
    - unfold Js.forRange in *. rewrite seq_S, fold_left_app. cbn [fold_left Nat.add].
      specialize (IH ltac:(lia)). cbv zeta in IH. destruct IH as [IHlen IHnth].
      set (st := fold_left _ (seq 0 k) (labels, false)) in *.
      destruct (Nat.eqb (nth k (fst st) 0%nat) (nearestCentroid realOps vectors centroids k)) eqn:E.
      + split; [exact IHlen|]. intros i' Hi'.
        destruct (Nat.eq_dec i' k) as [->|Hne]; [apply Nat.eqb_eq; exact E | apply IHnth; lia].
      + cbn [fst]. split; [rewrite set_length; exact IHlen|]. intros i' Hi'.
        rewrite set_nth. destruct (Nat.eq_dec i' k) as [->|Hne].
        * rewrite Nat.eqb_refl. replace (Nat.ltb k (length (fst st))) with true; [reflexivity|].
          symmetry. apply Nat.ltb_lt. lia.
        * replace (Nat.eqb i' k) with false by (symmetry; apply Nat.eqb_neq; exact Hne).
          apply IHnth. lia. }
  specialize (Hinv n (Nat.le_refl _)). cbv zeta in Hinv. apply Hinv. exact Hi.
Qed.

Lemma assignLabels_length (centroids : list (list R)) (labels : list nat) :
  length (fst (assignLabels realOps vectors centroids labels)) = length labels.
Proof.
  unfold assignLabels.
  apply (forRange_invariant (fun st : list nat * bool => length (fst st) = length labels)).
  - reflexivity.
  - intros i st _ Hst. destruct (Nat.eqb _ _); [exact Hst|].
    cbn [fst]. rewrite set_length. exact Hst.
Qed.

(** The assignment pass does not increase the inertia. *)
Lemma assignLabels_inertia (labels : list nat) (centroids : list (list R)) :
  kmeansState n dimension labels centroids ->
  sumSquaredDistances realOps vectors
    (fst (assignLabels realOps vectors centroids labels)) centroids
  <= sumSquaredDistances realOps vectors labels centroids.
Proof.
  intros (Hlen & Hbound & Hpos & _).
  rewrite !sumSquaredDistances_real. apply Rsum_le. intros i Hi.
  rewrite assignLabels_nth by assumption.
  rewrite <- !euclideanDistance_square.
  assert (Hl : (nth i labels 0%nat < length centroids)%nat).
  { rewrite Forall_forall in Hbound. apply Hbound. apply nth_In. lia. }
  pose proof (nearestCentroid_nearest centroids i _ Hl) as Hnear.
  pose proof (euclideanDistance_nonneg (nth i vectors [])
                (nth (nearestCentroid realOps vectors centroids i) centroids [])) as H0.
  nra.
Qed.

End ExactKMeans.

Section ExactUpdate.

Local Open Scope R_scope.

Lemma nth_repeat_lt {A : Type} (a d : A) (k m : nat) : (k < m)%nat -> nth k (repeat a m) d = a.
Proof.
  revert k. induction m as [|m IH]; intros [|k] H; simpl; try lia; auto.
  apply IH. lia.
Qed.

(** A loop that rewrites the row [k] of a matrix entry by entry. *)
Lemma rowLoop (h : nat -> R -> R) (k d rows : nat) (matrix : list (list R)) :
  length matrix = rows -> (k < rows)%nat -> length (nth k matrix []) = d ->
  let matrix' :=
    Js.forRange 0 d
      (fun dim m => Js.set k (Js.set dim (h dim (nth dim (nth k m []) 0)) (nth k m [])) m)
      matrix in
  length matrix' = rows /\
  (forall k', k' <> k -> nth k' matrix' [] = nth k' matrix []) /\
  length (nth k matrix' []) = d /\
  (forall dim, (dim < d)%nat -> nth dim (nth k matrix' []) 0 = h dim (nth dim (nth k matrix []) 0)).
Proof.
  intros Hrows Hk Hd.
  assert (Hinv : forall e, (e <= d)%nat ->
    let m := Js.forRange 0 e
      (fun dim m => Js.set k (Js.set dim (h dim (nth dim (nth k m []) 0)) (nth k m [])) m)
      matrix in
    length m = rows /\
    (forall k', k' <> k -> nth k' m [] = nth k' matrix []) /\
    length (nth k m []) = d /\
    (forall dim, (dim < d)%nat ->
       nth dim (nth k m []) 0 =
       if Nat.ltb dim e then h dim (nth dim (nth k matrix []) 0)
       else nth dim (nth k matrix []) 0)).
  { induction e as [|e IH]; intros He.
    - cbv zeta. unfold Js.forRange. simpl. repeat split; auto.
    - specialize (IH ltac:(lia)). cbv zeta in *.
      unfold Js.forRange in *. rewrite seq_S, fold_left_app. cbn [fold_left Nat.add].
      set (m := fold_left _ (seq 0 e) matrix) in *.
      destruct IH as (IHr & IHo & IHd & IHv).
      assert (Hkm : Nat.ltb k (length m) = true) by (apply Nat.ltb_lt; lia).
      assert (Hed : Nat.ltb e (length (nth k m [])) = true) by (apply Nat.ltb_lt; lia).
      repeat split.
      + rewrite set_length. exact IHr.
      + intros k' Hk'. rewrite set_nth.
        replace (Nat.eqb k' k) with false by (symmetry; apply Nat.eqb_neq; exact Hk').
        apply IHo. exact Hk'.
      + rewrite set_nth, Nat.eqb_refl, Hkm. cbn [andb]. rewrite set_length. exact IHd.
      + intros dim Hdim. rewrite set_nth, Nat.eqb_refl, Hkm. cbn [andb].
        rewrite set_nth, Hed, andb_true_r.
        destruct (Nat.eq_dec dim e) as [->|Hne].
        * rewrite Nat.eqb_refl.
          replace (Nat.ltb e (S e)) with true by (symmetry; apply Nat.ltb_lt; lia).
          rewrite (IHv e Hdim), Nat.ltb_irrefl. reflexivity.
        * replace (Nat.eqb dim e) with false by (symmetry; apply Nat.eqb_neq; exact Hne).
          rewrite (IHv dim Hdim).
          destruct (Nat.ltb dim e) eqn:E1.
          -- apply Nat.ltb_lt in E1.
             replace (Nat.ltb dim (S e)) with true by (symmetry; apply Nat.ltb_lt; lia).
             reflexivity.
          -- apply Nat.ltb_ge in E1.
             replace (Nat.ltb dim (S e)) with false by (symmetry; apply Nat.ltb_ge; lia).
             reflexivity. }
  specialize (Hinv d (Nat.le_refl _)). cbv zeta in *.
  destruct Hinv as (H1 & H2 & H3 & H4). repeat split; auto.
  intros dim Hdim. rewrite (H4 dim Hdim).
  replace (Nat.ltb dim d) with true by (symmetry; apply Nat.ltb_lt; exact Hdim).
  reflexivity.
Qed.

Variable vectors : list (list R).
Variable dimension : nat.

Let n := length vectors.

Lemma accumulate_spec (labels : list nat) (rows : nat) :
  (forall i, (i < n)%nat -> (nth i labels 0 < rows)%nat) ->
  accumulated vectors dimension labels rows n (accumulate realOps vectors dimension rows labels).
Proof.
  intros Hlabels. unfold accumulate. fold n.
  apply (forRange_counter (accumulated vectors dimension labels rows)).
  - unfold accumulated. cbn [fst snd zero realOps]. rewrite !repeat_length.
    repeat split; auto.
    + rewrite nth_repeat_lt by assumption. reflexivity.
    + rewrite nth_repeat_lt by assumption. apply repeat_length.
    + intros dim Hdim. rewrite nth_repeat_lt by assumption.
      rewrite nth_repeat_lt by assumption. reflexivity.
  - intros t [sums counts] Ht (Hs & Hc & Hrows). cbn [fst snd] in *.
    set (cluster := nth t labels 0%nat).
    assert (Hcl : (cluster < rows)%nat) by (apply Hlabels; lia).
    destruct (Hrows cluster Hcl) as (_ & Hrowlen & _).
    pose proof (rowLoop (fun dim y => y + nth dim (nth t vectors []) 0)
                  cluster dimension rows sums Hs Hcl Hrowlen) as Hloop.
    cbv zeta in Hloop. cbn [add undef realOps].
    destruct Hloop as (L1 & L2 & L3 & L4).
    unfold accumulated. cbn [fst snd]. repeat split.
    + exact L1.
    + rewrite set_length. exact Hc.
    + rewrite set_nth. destruct (Hrows k H) as (Hcount & _ & _).
      cbn [countLabel]. fold cluster.
      destruct (Nat.eq_dec k cluster) as [->|Hne].
      * rewrite !Nat.eqb_refl.
        replace (Nat.ltb cluster (length counts)) with true
          by (symmetry; apply Nat.ltb_lt; lia).
        cbn [andb]. rewrite Hcount. lia.
      * replace (Nat.eqb k cluster) with false by (symmetry; apply Nat.eqb_neq; exact Hne).
        replace (Nat.eqb cluster k) with false
          by (symmetry; apply Nat.eqb_neq; intros E; apply Hne; symmetry; exact E).
        cbn [andb]. rewrite Hcount. lia.
    + destruct (Nat.eq_dec k cluster) as [->|Hne]; [exact L3|].
      rewrite (L2 k Hne). apply (Hrows k H).
    + intros dim Hdim. destruct (Hrows k H) as (_ & _ & Hsum).
      unfold sumLabel in *. cbn [Rsum]. fold cluster.
      destruct (Nat.eq_dec k cluster) as [->|Hne].
      * rewrite (L4 dim Hdim), Nat.eqb_refl, (Hsum dim Hdim). reflexivity.
      * rewrite (L2 k Hne).
        replace (Nat.eqb cluster k) with false
          by (symmetry; apply Nat.eqb_neq; intros E; apply Hne; symmetry; exact E).
        rewrite (Hsum dim Hdim). lra.
Qed.

End ExactUpdate.

Section ExactUpdateStep.

Local Open Scope R_scope.

Variable vectors : list (list R).
Variable dimension : nat.

Let n := length vectors.

Lemma updateCentroids_spec (labels : list nat) (centroids : list (list R)) :
  kmeansState n dimension labels centroids ->
  let centroids' := updateCentroids realOps vectors dimension centroids labels in
  length centroids' = length centroids /\
  forall k, (k < length centroids)%nat ->
    length (nth k centroids' []) = dimension /\
    forall dim, (dim < dimension)%nat ->
      nth dim (nth k centroids' []) 0 = updatedEntry vectors labels centroids k dim.
Proof.
  intros (Hlen & Hbound & Hpos & Hrows). cbv zeta.
  split; [apply updateCentroids_length|].
  unfold updateCentroids.
  assert (Hlabels : forall i, (i < n)%nat -> (nth i labels 0 < length centroids)%nat).
  { intros i Hi. rewrite Forall_forall in Hbound. apply Hbound. apply nth_In. lia. }
  pose proof (accumulate_spec vectors dimension labels (length centroids) Hlabels) as Hacc.
  destruct (accumulate realOps vectors dimension (length centroids) labels) as [sums counts].
  destruct Hacc as (Hs & Hc & Hk). cbn [fst snd] in *.
  set (K := length centroids) in *.
  assert (Hinv :
    forall kappa, (kappa <= K)%nat ->
      let cs := Js.forRange 0 kappa
        (fun cluster centroids0 =>
           if Nat.eqb (nth cluster counts 0%nat) 0 then centroids0
           else
             Js.forRange 0 dimension
               (fun dim centroids1 =>
                  Js.set cluster
                    (Js.set dim
                       (div realOps (nth dim (nth cluster sums []) (undef realOps))
                          (ofNat realOps (nth cluster counts 0%nat)))
                       (nth cluster centroids1 []))
                    centroids1)
               centroids0)
        centroids in
      length cs = K /\
      forall k, (k < K)%nat ->
        length (nth k cs []) = dimension /\
        forall dim, (dim < dimension)%nat ->
          nth dim (nth k cs []) 0 =
          if Nat.ltb k kappa then updatedEntry vectors labels centroids k dim
          else nth dim (nth k centroids []) 0).
  { induction kappa as [|kappa IH]; intros Hkappa.
    - cbv zeta. unfold Js.forRange. simpl. split; [reflexivity|].
      intros k Hk'. split; [|reflexivity].
      rewrite Forall_forall in Hrows. apply Hrows. apply nth_In. exact Hk'.
    - specialize (IH ltac:(lia)). cbv zeta in *.
      rewrite forRange_S. cbn [Nat.add].
      set (cs := Js.forRange 0 kappa _ centroids) in *.
      destruct IH as (IHlen & IHrows).
      destruct (Hk kappa ltac:(lia)) as (Hcount & _ & Hsum).
      assert (Hlt : forall k, Nat.ltb k (S kappa) = Nat.ltb k kappa || Nat.eqb k kappa).
      { intros k.
        destruct (Nat.ltb_spec k kappa), (Nat.eqb_spec k kappa), (Nat.ltb_spec k (S kappa));
          cbn [orb]; try reflexivity; lia. }
      destruct (Nat.eqb (nth kappa counts 0%nat) 0) eqn:E0.
      + split; [exact IHlen|]. intros k Hk'. destruct (IHrows k Hk') as (Hl & Hv).
        split; [exact Hl|]. intros dim Hdim. rewrite (Hv dim Hdim), Hlt.
        destruct (Nat.ltb k kappa); cbn [orb]; [reflexivity|].
        destruct (Nat.eqb k kappa) eqn:E2; [|reflexivity].
        apply Nat.eqb_eq in E2. subst k.
        unfold updatedEntry. rewrite <- Hcount, E0. reflexivity.
      + destruct (IHrows kappa ltac:(lia)) as (Hl & Hv).
        pose proof (rowLoop
                      (fun dim _ => nth dim (nth kappa sums []) 0 / INR (nth kappa counts 0%nat))
                      kappa dimension K cs IHlen ltac:(lia) Hl) as Hloop.
        cbv zeta in Hloop. cbn [div undef ofNat realOps].
        destruct Hloop as (L1 & L2 & L3 & L4).
        split; [exact L1|]. intros k Hk'.
        destruct (Nat.eq_dec k kappa) as [->|Hne].
        * split; [exact L3|]. intros dim Hdim.
          rewrite (L4 dim Hdim), Hlt, Nat.eqb_refl, orb_true_r.
          unfold updatedEntry. rewrite <- Hcount, E0, (Hsum dim Hdim). reflexivity.
        * rewrite (L2 k Hne). destruct (IHrows k Hk') as (Hl' & Hv').
          split; [exact Hl'|]. intros dim Hdim. rewrite (Hv' dim Hdim), Hlt.
          replace (Nat.eqb k kappa) with false by (symmetry; apply Nat.eqb_neq; exact Hne).
          rewrite orb_false_r. reflexivity. }
  specialize (Hinv K (Nat.le_refl _)). cbv zeta in Hinv. destruct Hinv as (_ & Hfinal).
  intros k Hk'. destruct (Hfinal k Hk') as (Hl & Hv). split; [exact Hl|].
  intros dim Hdim. rewrite (Hv dim Hdim).
  replace (Nat.ltb k K) with true by (symmetry; apply Nat.ltb_lt; exact Hk').
  reflexivity.
Qed.

End ExactUpdateStep.

Section ExactInertia.

Local Open Scope R_scope.

Lemma Rsum_plus (f g : nat -> R) (n : nat) :
  Rsum (fun i => f i + g i) n = Rsum f n + Rsum g n.
Proof. induction n as [|n IH]; simpl; [lra | rewrite IH; lra]. Qed.

Lemma Rsum_zero (n : nat) : Rsum (fun _ => 0) n = 0.
Proof. induction n as [|n IH]; simpl; [reflexivity | rewrite IH; lra]. Qed.

Lemma Rsum_swap (f : nat -> nat -> R) (n m : nat) :
  Rsum (fun i => Rsum (fun j => f i j) m) n = Rsum (fun j => Rsum (fun i => f i j) n) m.
Proof.
  induction n as [|n IH]; simpl.
  - rewrite Rsum_zero. reflexivity.
  - rewrite IH, <- Rsum_plus. reflexivity.
Qed.

Lemma Rsum_single (c rows : nat) (y : nat -> R) :
  (c < rows)%nat -> Rsum (fun k => if Nat.eqb c k then y k else 0) rows = y c.
Proof.
  induction rows as [|rows IH]; intros Hc; [lia|]. simpl.
  destruct (Nat.eqb_spec c rows) as [->|Hne].
  - rewrite (Rsum_ext _ (fun _ => 0)), Rsum_zero; [lra|].
    intros i Hi. destruct (Nat.eqb_spec rows i); [lia | reflexivity].
  - rewrite IH by lia. lra.
Qed.

(** A sum over the rows, regrouped by the label of the row. *)
Lemma Rsum_regroup (label : nat -> nat) (rows : nat) (h : nat -> nat -> R) (n : nat) :
  (forall i, (i < n)%nat -> (label i < rows)%nat) ->
  Rsum (fun i => h i (label i)) n =
  Rsum (fun k => Rsum (fun i => if Nat.eqb (label i) k then h i k else 0) n) rows.
Proof.
  induction n as [|n IH]; intros Hl; simpl.
  - rewrite Rsum_zero. reflexivity.
  - rewrite IH by (intros i Hi; apply Hl; lia).
    rewrite Rsum_plus. f_equal.
    rewrite (Rsum_single (label n) rows (fun k => h n k)) by (apply Hl; lia). reflexivity.
Qed.

Variable vectors : list (list R).
Variable dimension : nat.
Hypothesis vectors_dimension : Forall (fun v => length v = dimension) vectors.

Let n := length vectors.

(** In one dimension: replacing the entry of each cluster by the mean of
    its members does not increase the sum of squared differences. *)
Lemma mean_minimizes (labels : list nat) (rows dim : nat) (a m : nat -> R) :
  (forall i, (i < n)%nat -> (nth i labels 0 < rows)%nat) ->
  (forall k, (k < rows)%nat ->
     m k = if Nat.eqb (countLabel labels k n) 0 then a k
           else sumLabel vectors labels k dim n / INR (countLabel labels k n)) ->
  Rsum (fun i => (nth dim (nth i vectors []) 0 - m (nth i labels 0%nat)) *
                 (nth dim (nth i vectors []) 0 - m (nth i labels 0%nat))) n
  <= Rsum (fun i => (nth dim (nth i vectors []) 0 - a (nth i labels 0%nat)) *
                    (nth dim (nth i vectors []) 0 - a (nth i labels 0%nat))) n.
Proof.
  intros Hl Hm.
  set (x := fun i => nth dim (nth i vectors []) 0).
  set (l := fun i => nth i labels 0%nat).
  set (g := fun i k => (m k - a k) * (2 * x i - m k - a k)).
  assert (Hsplit :
    Rsum (fun i => (x i - a (l i)) * (x i - a (l i))) n =
    Rsum (fun i => (x i - m (l i)) * (x i - m (l i))) n + Rsum (fun i => g i (l i)) n).
  { rewrite <- Rsum_plus. apply Rsum_ext. intros i _. unfold g. ring. }
  change (Rsum (fun i => (x i - m (l i)) * (x i - m (l i))) n
          <= Rsum (fun i => (x i - a (l i)) * (x i - a (l i))) n).
  rewrite Hsplit.
  assert (Hpos : 0 <= Rsum (fun i => g i (l i)) n).
  { rewrite (Rsum_regroup l rows g n Hl).
    apply Rsum_nonneg. intros k Hk.
    assert (Hterm : forall t,
      Rsum (fun i => if Nat.eqb (l i) k then g i k else 0) t =
      (m k - a k) * (2 * sumLabel vectors labels k dim t - (m k + a k) * INR (countLabel labels k t))).
    { induction t as [|t IHt].
      - unfold sumLabel. simpl. lra.
      - unfold sumLabel in *. cbn [Rsum countLabel]. rewrite IHt. fold (l t).
        destruct (Nat.eqb (l t) k).
        + rewrite plus_INR. unfold g, x. simpl INR. ring.
        + rewrite plus_INR. simpl INR. ring. }
    rewrite Hterm, (Hm k Hk).
    destruct (Nat.eqb_spec (countLabel labels k n) 0) as [E|E].
    - replace (a k - a k) with 0 by ring. lra.
    - assert (Hc : 0 < INR (countLabel labels k n)) by (apply lt_0_INR; lia).
      set (C := INR (countLabel labels k n)) in *.
      set (S := sumLabel vectors labels k dim n).
      replace ((S / C - a k) * (2 * S - (S / C + a k) * C))
        with (C * ((S / C - a k) * (S / C - a k))) by (field; lra).
      apply Rmult_le_pos; [lra|]. generalize (S / C - a k). intros z. nra. }
  lra.
Qed.

(** The update pass does not increase the inertia. *)
Lemma updateCentroids_inertia (labels : list nat) (centroids : list (list R)) :
  kmeansState n dimension labels centroids ->
  sumSquaredDistances realOps vectors labels
    (updateCentroids realOps vectors dimension centroids labels)
  <= sumSquaredDistances realOps vectors labels centroids.
Proof.
  intros Hstate.
  pose proof (updateCentroids_spec vectors dimension labels centroids Hstate) as Hspec.
  cbv zeta in Hspec. destruct Hspec as (Hlen' & Hentries).
  destruct Hstate as (Hlen & Hbound & Hpos & Hrows).
  set (centroids' := updateCentroids realOps vectors dimension centroids labels) in *.
  assert (Hlabels : forall i, (i < n)%nat -> (nth i labels 0 < length centroids)%nat).
  { intros i Hi. rewrite Forall_forall in Hbound. apply Hbound. apply nth_In. lia. }
  assert (Hdouble : forall cs,
    sumSquaredDistances realOps vectors labels cs =
    Rsum (fun dim =>
            Rsum (fun i =>
                    (nth dim (nth i vectors []) 0 - nth dim (nth (nth i labels 0%nat) cs []) 0) *
                    (nth dim (nth i vectors []) 0 - nth dim (nth (nth i labels 0%nat) cs []) 0))
                 n) dimension).
  { intros cs. rewrite sumSquaredDistances_real. fold n.
    rewrite <- Rsum_swap. apply Rsum_ext. intros i Hi. unfold squaredDistance.
    replace (length (nth i vectors [])) with dimension; [reflexivity|].
    symmetry. rewrite Forall_forall in vectors_dimension. apply vectors_dimension.
    apply nth_In. exact Hi. }
  rewrite !Hdouble. apply Rsum_le. intros dim Hdim.
  apply (mean_minimizes labels (length centroids) dim
           (fun k => nth dim (nth k centroids []) 0)
           (fun k => nth dim (nth k centroids' []) 0) Hlabels).
  intros k Hk. destruct (Hentries k Hk) as (_ & Hv).
  rewrite (Hv dim Hdim). reflexivity.
Qed.

Lemma kmeansState_assign (labels : list nat) (centroids : list (list R)) :
  kmeansState n dimension labels centroids ->
  kmeansState n dimension (fst (assignLabels realOps vectors centroids labels)) centroids.
Proof.
  intros (Hlen & Hbound & Hpos & Hrows). unfold kmeansState. repeat split; auto.
  - rewrite assignLabels_length. exact Hlen.
  - apply assignLabels_bound; assumption.
Qed.

Lemma kmeansState_update (labels : list nat) (centroids : list (list R)) :
  kmeansState n dimension labels centroids ->
  kmeansState n dimension labels (updateCentroids realOps vectors dimension centroids labels).
Proof.
  intros Hstate.
  pose proof (updateCentroids_spec vectors dimension labels centroids Hstate) as Hspec.
  cbv zeta in Hspec. destruct Hspec as (Hlen' & Hentries).
  destruct Hstate as (Hlen & Hbound & Hpos & Hrows).
  unfold kmeansState. rewrite Hlen'. repeat split; auto.
  apply Forall_forall. intros c Hc.
  destruct (In_nth _ _ [] Hc) as [k [Hk <-]].
  apply Hentries. lia.
Qed.

(** One more turn allowed to the loop does not increase the inertia. *)
Lemma kmeansLoop_inertia (remaining iterations : nat) (labels : list nat)
    (centroids : list (list R)) :
  kmeansState n dimension labels centroids ->
  stateInertia vectors (kmeansLoop realOps vectors dimension (S remaining) iterations labels centroids)
  <= stateInertia vectors (kmeansLoop realOps vectors dimension remaining iterations labels centroids).
Proof.
  revert iterations labels centroids.
  induction remaining as [|r IH]; intros iterations labels centroids Hstate.
  - cbn [kmeansLoop].
    pose proof (assignLabels_inertia vectors dimension labels centroids Hstate) as Hassign.
    pose proof (kmeansState_assign labels centroids Hstate) as Hstate'.
    pose proof (updateCentroids_inertia _ centroids Hstate') as Hupdate.
    destruct (assignLabels realOps vectors centroids labels) as [labels' changed].
    cbn [fst] in *. destruct changed; unfold stateInertia; cbn [fst snd]; lra.
  - cbn [kmeansLoop].
    pose proof (kmeansState_assign labels centroids Hstate) as Hstate'.
    pose proof (kmeansState_update _ centroids Hstate') as Hstate''.
    destruct (assignLabels realOps vectors centroids labels) as [labels' changed].
    cbn [fst] in *. destruct changed; [|lra].
    specialize (IH (S iterations) labels'
                  (updateCentroids realOps vectors dimension centroids labels') Hstate'').
    cbn [kmeansLoop] in IH. exact IH.
Qed.

(** From its first turn on, the loop is below the inertia of the initial
    assignment against the initial centroids. *)
Lemma kmeansLoop_below_initial (remaining iterations : nat) (labels : list nat)
    (centroids : list (list R)) :
  kmeansState n dimension labels centroids ->
  stateInertia vectors (kmeansLoop realOps vectors dimension (S remaining) iterations labels centroids)
  <= sumSquaredDistances realOps vectors
       (fst (assignLabels realOps vectors centroids labels)) centroids.
Proof.
  intros Hstate. induction remaining as [|r IH].
  - cbn [kmeansLoop].
    pose proof (kmeansState_assign labels centroids Hstate) as Hstate'.
    pose proof (updateCentroids_inertia _ centroids Hstate') as Hupdate.
    destruct (assignLabels realOps vectors centroids labels) as [labels' changed].
    cbn [fst] in *. destruct changed; unfold stateInertia; cbn [fst snd]; lra.
  - pose proof (kmeansLoop_inertia (S r) iterations labels centroids Hstate). lra.
Qed.

End ExactInertia.

(** C5, as stated, fails on the doubles of the source.  On the rows [0],
    [2^1023], [2^1023] with [k = 2] the initial centroids are the rows 0
    and 1 and the initial assignment has inertia [0]; the first update
    computes the mean of the two equal rows as [Infinity / 2], after which
    the inertia is [Infinity], the value reported.  On the rows [0],
    [0.03125] with [k = 1] nothing moves, and the inertia reported,
    [0.001] (the double [0x1.0624dd2f1a9fcp-10]), is the rounding to three
    decimals of the initial one, [0.0009765625], and exceeds it. *)
Lemma runKMeans_inertia_increases :
  let overflow := batch [[0]; [0x1p1023]; [0x1p1023]]%float in
  let rows := vectors (extractValidEmbeddings overflow) in
  let rounded := batch [[0]; [0.03125]]%float in
  let rows' := vectors (extractValidEmbeddings rounded) in
  initialAssignmentInertia floatOps rows (initialCentroids rows 2) = 0%float /\
  inertiaAfter floatOps rows 1 (initialCentroids rows 2) 1 = PrimFloat.infinity /\
  inertia (runKMeans overflow 2 defaultMaxIterations) = Some PrimFloat.infinity /\
  initialAssignmentInertia floatOps rows' (initialCentroids rows' 1) = 0.0009765625%float /\
  inertia (runKMeans rounded 1 defaultMaxIterations) = Some 0x1.0624dd2f1a9fcp-10%float /\
  PrimFloat.leb 0x1.0624dd2f1a9fcp-10%float 0.0009765625%float = false.
Proof. vm_compute. repeat split. Qed.

(** C5, amended: in exact arithmetic (the K-Means iteration of [runKMeans]
    read over the real numbers, on rows and initial centroids of one
    length) the sum of squared distances from each row to its assigned
    centroid is non-increasing: with one more iteration allowed it is at
    most what it was, and from the first iteration on it is at most the
    inertia of the initial assignment against the initial centroids.  (In
    doubles the sums are rounded, can overflow, and the value reported is
    further rounded to three decimals.) *)
Theorem kmeans_inertia_nonincreasing (vectors : list (list R)) (dimension : nat)
    (centroids0 : list (list R)) (cap : nat) :
  Forall (fun v => length v = dimension) vectors ->
  Forall (fun c => length c = dimension) centroids0 ->
  centroids0 <> [] ->
  (inertiaAfter realOps vectors dimension centroids0 (S cap)
   <= inertiaAfter realOps vectors dimension centroids0 cap)%R /\
  (inertiaAfter realOps vectors dimension centroids0 (S cap)
   <= initialAssignmentInertia realOps vectors centroids0)%R.
Proof.
  intros Hvectors Hcentroids Hne.
  assert (Hstate : kmeansState (length vectors) dimension (repeat 0 (length vectors)) centroids0).
  { assert (Hpos : 0 < length centroids0) by (destruct centroids0; [congruence | simpl; lia]).
    unfold kmeansState. repeat split; auto.
    - apply repeat_length.
    - apply Forall_forall. intros l Hl. apply repeat_spec in Hl. subst. exact Hpos. }
  pose proof (kmeansLoop_inertia vectors dimension Hvectors cap 0 _ _ Hstate) as Hstep.
  pose proof (kmeansLoop_below_initial vectors dimension Hvectors cap 0 _ _ Hstate) as Hinit.
  unfold inertiaAfter, initialAssignmentInertia, stateInertia in *.
  destruct (kmeansLoop realOps vectors dimension (S cap) 0 _ centroids0) as [[l1 c1] i1].
  destruct (kmeansLoop realOps vectors dimension cap 0 _ centroids0) as [[l2 c2] i2].
  cbn [fst snd] in *. split; assumption.
Qed.

Lemma kmeans_inertia_nonincreasing_witness :
  (inertiaAfter realOps [[0]; [1]; [5]]%R 1 [[0]; [1]]%R 2
   <= inertiaAfter realOps [[0]; [1]; [5]]%R 1 [[0]; [1]]%R 1)%R /\
  (inertiaAfter realOps [[0]; [1]; [5]]%R 1 [[0]; [1]]%R 2
   <= initialAssignmentInertia realOps [[0]; [1]; [5]]%R [[0]; [1]]%R)%R.
Proof.
  apply (kmeans_inertia_nonincreasing [[0]; [1]; [5]]%R 1 [[0]; [1]]%R 1).
  - repeat constructor.
  - repeat constructor.
  - discriminate.
Defined.

(** ** The basis vectors in exact arithmetic *)

(** At [floatOps] the power iteration written over its operations is the
    power iteration of the source. *)
Lemma powerIterationOver_float (random : nat -> float) (matrix orthogonalTo : list (list float))
    (iterations drawn : nat) :
  powerIterationOver floatOps random matrix orthogonalTo iterations drawn
  = powerIteration random matrix orthogonalTo iterations drawn.
Proof. reflexivity. Qed.

Section ExactPowerIteration.

Local Open Scope R_scope.

























End ExactPowerIteration.




(** * Further properties of the engine *)

(** ** One label per record, centroids of the matrix dimension *)

Lemma fullLabels_length (dataLength : nat) (indices : list nat) (labels : list Z) :
  length (fullLabels dataLength indices labels) = dataLength.
Proof.
  unfold fullLabels, Js.foldIdx.
  apply (foldIdxFrom_invariant (fun full : list Z => length full = dataLength)).
  - apply repeat_length.
  - intros full dataIdx vectorIdx _ Hfull. rewrite set_length. exact Hfull.
Qed.

Lemma allNoise_length (n : nat) : length (allNoise n) = n.
Proof. apply repeat_length. Qed.

Lemma runKMeans_labels_length (data : list RuntimeNode) (k : Z) (maxIterations : nat) :
  length (labels (runKMeans data k maxIterations)) = length data.
Proof.
  unfold runKMeans.
  destruct (Nat.eqb (length data) 0) eqn:E.
  { apply Nat.eqb_eq in E. rewrite E. reflexivity. }
  destruct (_ || _); [apply allNoise_length|].
  destruct (Nat.eqb (length (initialCentroids _ _)) 0); [apply allNoise_length|].
  destruct (kmeansLoop _ _ _ _ _ _ _) as [[labels' centroids'] iterations'].
  apply fullLabels_length.
Qed.

Lemma runAgglomerative_labels_length (data : list RuntimeNode) (targetClusters : Z) :
  length (labels (runAgglomerative data targetClusters)) = length data.
Proof.
  unfold runAgglomerative.
  destruct (Nat.eqb (length data) 0) eqn:E.
  { apply Nat.eqb_eq in E. rewrite E. reflexivity. }
  destruct (_ || _); [apply allNoise_length|].
  destruct (targetClusters <? 1)%Z; [apply allNoise_length|].
  apply fullLabels_length.
Qed.

Lemma runDbscan_labels_length (data : list RuntimeNode) (eps : float) (minPts : Z) :
  length (labels (runDbscan data eps minPts)) = length data.
Proof.
  unfold runDbscan.
  destruct (Nat.eqb (length data) 0) eqn:E.
  { apply Nat.eqb_eq in E. rewrite E. reflexivity. }
  destruct (_ || _); [apply allNoise_length|].
  destruct (dbscanLabels _ _ _) as [[labels' visited'] clusterId'].
  apply fullLabels_length.
Qed.

(** X1: each of the three clustering functions returns exactly one label
    per input record, dropped records included. *)
Theorem clustering_one_label_per_record (data : list RuntimeNode) (k : Z) (maxIterations : nat)
    (targetClusters : Z) (eps : float) (minPts : Z) :
  length (labels (runKMeans data k maxIterations)) = length data /\
  length (labels (runAgglomerative data targetClusters)) = length data /\
  length (labels (runDbscan data eps minPts)) = length data.
Proof.
  split; [apply runKMeans_labels_length|].
  split; [apply runAgglomerative_labels_length | apply runDbscan_labels_length].
Qed.

Lemma addAt_rows_length (row : list float) (centroid : list float) :
  length row <= length centroid ->
  length (Js.foldIdx (fun centroid value dim => Js.addAt dim value centroid) row centroid)
  = length centroid.
Proof.
  intros Hle. unfold Js.foldIdx.
  apply (foldIdxFrom_bounded (fun c : list float => length c = length centroid)).
  - reflexivity.
  - intros c value dim _ Hdim Hc. rewrite addAt_length; [exact Hc | lia].
Qed.

Lemma centroidOf_length (vectors : list (list float)) (d : nat) (members : list nat) :
  Forall (fun row => length row = d) vectors ->
  length (centroidOf vectors d members) = d.
Proof.
  intros Hrows. unfold centroidOf. rewrite length_map.
  apply (fold_left_invariant (fun c : list float => length c = d)).
  - apply repeat_length.
  - intros c index _ Hc.
    rewrite addAt_rows_length; [exact Hc|].
    destruct (Nat.lt_ge_cases index (length vectors)) as [Hlt|Hge].
    + rewrite Forall_forall in Hrows. rewrite (Hrows (nth index vectors [])); [lia|].
      apply nth_In. exact Hlt.
    + rewrite nth_overflow by exact Hge. simpl. lia.
Qed.

Section KMeansShape.

Context {T : Type} (ops : NumOps T).
Variable vectors : list (list T).
Variable dimension : nat.

Lemma updateCentroids_rows (centroids : list (list T)) (labels : list nat) :
  Forall (fun c => length c = dimension) centroids ->
  Forall (fun c => length c = dimension)
    (updateCentroids ops vectors dimension centroids labels).
Proof.
  intros Hrows. unfold updateCentroids.
  destruct (accumulate ops vectors dimension (length centroids) labels) as [sums counts].
  apply (forRange_invariant
           (fun cs : list (list T) =>
              length cs = length centroids /\ Forall (fun c => length c = dimension) cs)).
  - split; [reflexivity | exact Hrows].
  - intros cluster cs Hcluster [Hlen Hcs]. destruct (Nat.eqb _ 0); [split; assumption|].
    apply forRange_invariant; [split; assumption|].
    intros dim cs' _ [Hlen' Hcs']. split; [rewrite set_length; exact Hlen'|].
    apply set_Forall; [|exact Hcs'].
    rewrite set_length. rewrite Forall_forall in Hcs'. apply Hcs'. apply nth_In. lia.
Qed.

Lemma kmeansLoop_shape (remaining iterations : nat) (labels : list nat)
    (centroids : list (list T)) :
  Forall (fun c => length c = dimension) centroids ->
  Forall (fun c => length c = dimension)
    (snd (fst (kmeansLoop ops vectors dimension remaining iterations labels centroids))) /\
  length (snd (fst (kmeansLoop ops vectors dimension remaining iterations labels centroids)))
  = length centroids /\
  iterations <= snd (kmeansLoop ops vectors dimension remaining iterations labels centroids)
             <= iterations + remaining.
Proof.
  revert iterations labels centroids.
  induction remaining as [|r IH]; intros iterations labels centroids Hrows.
  - simpl. repeat split; auto; lia.
  - cbn [kmeansLoop].
    destruct (assignLabels ops vectors centroids labels) as [labels1 changed].
    destruct changed.
    + specialize (IH (S iterations) labels1
                    (updateCentroids ops vectors dimension centroids labels1)
                    (updateCentroids_rows centroids labels1 Hrows)).
      rewrite updateCentroids_length in IH.
      destruct IH as (H1 & H2 & H3). repeat split; auto; lia.
    + simpl. repeat split; auto; lia.
Qed.

End KMeansShape.

Lemma pickCentroids_count (vectors : list (list float)) (targetCentroids : Z) (attempts : nat)
    (s : Z) (usedIndices : list Z) (centroids : list (list float)) :
  (Z.of_nat (length (pickCentroids vectors targetCentroids attempts s usedIndices centroids))
   <= Z.max (Z.of_nat (length centroids)) targetCentroids)%Z.
Proof.
  revert s usedIndices centroids.
  induction attempts as [|attempts IH]; intros s usedIndices centroids; simpl; [lia|].
  destruct (Z.of_nat (length centroids) <? targetCentroids)%Z eqn:E; [|lia].
  apply Z.ltb_lt in E.
  destruct (nextRandom s) as [r s'].
  destruct (existsb _ usedIndices); [etransitivity; [apply IH | lia]|].
  destruct (Js.floor _ <? 0)%Z; [etransitivity; [apply IH | lia]|].
  destruct (nth_error vectors _) as [candidate|]; [|etransitivity; [apply IH | lia]].
  destruct (Nat.eqb (length candidate) 0); [etransitivity; [apply IH | lia]|].
  etransitivity; [apply IH|]. rewrite length_app. simpl. lia.
Qed.

Lemma initialCentroids_count (vectors : list (list float)) (k : Z) :
  (Z.of_nat (length (initialCentroids vectors k))
   <= Z.max 0 (Z.min k (Z.of_nat (length vectors))))%Z.
Proof.
  unfold initialCentroids.
  pose proof (pickCentroids_count vectors (Z.min k (Z.of_nat (length vectors)))
                (if (Z.min k (Z.of_nat (length vectors)) =? 0)%Z then 0
                 else length vectors * 4)
                (createSeededRandom 1993) [] []) as H.
  simpl length in H. exact H.
Qed.

(** X2: [runKMeans] returns at most [min(k, n)] centroids, [n] being the
    number of rows of the normalized matrix, and performs at most
    [maxIterations] iterations. *)
Theorem runKMeans_bounds (data : list RuntimeNode) (k : Z) (maxIterations : nat) :
  (Z.of_nat (length (centroids (runKMeans data k maxIterations)))
   <= Z.max 0 (Z.min k (Z.of_nat (length (vectors (extractValidEmbeddings data))))))%Z /\
  exists performed, iterations (runKMeans data k maxIterations) = Some performed /\
                    performed <= maxIterations.
Proof.
  unfold runKMeans.
  destruct (Nat.eqb (length data) 0) eqn:E.
  { cbn [centroids iterations length]. split; [lia|]. exists 0. split; [reflexivity | lia]. }
  destruct (_ || _).
  { cbn [centroids iterations length]. split; [lia|]. exists 0. split; [reflexivity | lia]. }
  set (valid := extractValidEmbeddings data).
  pose proof (initialCentroids_count (vectors valid) k) as Hcount.
  destruct (Nat.eqb (length (initialCentroids (vectors valid) k)) 0) eqn:E0.
  { cbn [centroids iterations length]. split; [lia|]. exists 0. split; [reflexivity | lia]. }
  pose proof (kmeansLoop_shape floatOps (vectors valid) (dimension valid) maxIterations 0
                (repeat 0 (length (vectors valid))) (initialCentroids (vectors valid) k)
                (initialCentroids_rows data k)) as (_ & Hlen & Hit).
  destruct (kmeansLoop _ _ _ _ _ _ _) as [[labels' centroids'] iterations'].
  cbn [fst snd] in *. cbn [centroids iterations].
  split; [rewrite Hlen; exact Hcount|].
  exists iterations'. split; [reflexivity | lia].
Qed.

(** X3: with [k <= 0], [runKMeans] clusters nothing: it returns no
    centroid and the label [-1] for every record, after 0 iterations. *)
Theorem runKMeans_no_cluster_requested (data : list RuntimeNode) (k : Z) (maxIterations : nat)
    (Hk : (k <= 0)%Z) :
  labels (runKMeans data k maxIterations) = allNoise (length data) /\
  centroids (runKMeans data k maxIterations) = [] /\
  iterations (runKMeans data k maxIterations) = Some 0.
Proof.
  unfold runKMeans.
  destruct (Nat.eqb (length data) 0) eqn:E.
  { apply Nat.eqb_eq in E. rewrite E. repeat split. }
  destruct (_ || _); [repeat split|].
  pose proof (initialCentroids_count (vectors (extractValidEmbeddings data)) k) as Hcount.
  destruct (Nat.eqb (length (initialCentroids _ _)) 0) eqn:E0; [repeat split|].
  apply Nat.eqb_neq in E0. exfalso. lia.
Qed.

Lemma runKMeans_no_cluster_requested_witness :
  labels (runKMeans (batch [[0; 0]; [1; 1]]%float) 0 40) = allNoise 2 /\
  centroids (runKMeans (batch [[0; 0]; [1; 1]]%float) 0 40) = [] /\
  iterations (runKMeans (batch [[0; 0]; [1; 1]]%float) 0 40) = Some 0.
Proof.
  apply (runKMeans_no_cluster_requested (batch [[0; 0]; [1; 1]]%float) 0 40). lia.
Defined.

(** X4: every centroid returned by the three clustering functions has
    exactly [dimension] entries, the dimension of the normalized matrix. *)
Theorem centroids_have_matrix_dimension (data : list RuntimeNode) (k : Z) (maxIterations : nat)
    (targetClusters : Z) (eps : float) (minPts : Z) :
  let d := dimension (extractValidEmbeddings data) in
  Forall (fun c => length c = d) (centroids (runKMeans data k maxIterations)) /\
  Forall (fun c => length c = d) (centroids (runAgglomerative data targetClusters)) /\
  Forall (fun c => length c = d) (centroids (runDbscan data eps minPts)).
Proof.
  intros d. pose proof (extract_rows_dimension data) as Hrows. fold d in Hrows.
  split; [|split].
  - unfold runKMeans.
    destruct (Nat.eqb (length data) 0); [constructor|].
    destruct (_ || _); [constructor|].
    destruct (Nat.eqb (length (initialCentroids _ _)) 0); [constructor|].
    pose proof (kmeansLoop_shape floatOps (vectors (extractValidEmbeddings data)) d
                  maxIterations 0
                  (repeat 0 (length (vectors (extractValidEmbeddings data))))
                  (initialCentroids (vectors (extractValidEmbeddings data)) k)
                  (initialCentroids_rows data k)) as (Hshape & _ & _).
    fold d. destruct (kmeansLoop _ _ _ _ _ _ _) as [[labels' centroids'] iterations'].
    exact Hshape.
  - unfold runAgglomerative.
    destruct (Nat.eqb (length data) 0); [constructor|].
    destruct (_ || _); [constructor|].
    destruct (targetClusters <? 1)%Z; [constructor|].
    cbn [centroids]. apply Forall_forall. intros c Hc.
    apply in_map_iff in Hc as [cluster [<- _]].
    apply centroidOf_length. exact Hrows.
  - unfold runDbscan.
    destruct (Nat.eqb (length data) 0); [constructor|].
    destruct (_ || _); [constructor|].
    destruct (dbscanLabels _ _ _) as [[labels' visited'] clusterId'].
    cbn [centroids]. unfold dbscanCentroids.
    apply forRange_invariant; [constructor|].
    intros cluster cs _ Hcs. destruct (Nat.eqb _ 0); [exact Hcs|].
    apply Forall_app. split; [exact Hcs|]. constructor; [|constructor].
    apply centroidOf_length. exact Hrows.
Qed.

(** ** The label [-1] of K-Means and of the agglomerative clustering *)

Lemma hasEmbedding_indices (data : list RuntimeNode) (idx : nat) :
  In idx (indices (extractValidEmbeddings data)) <-> hasEmbedding data idx = true.
Proof.
  rewrite extract_indices, arrayPositions_In. unfold hasEmbedding.
  rewrite Nat.sub_0_r. split.
  - intros [_ [item [Hnth Hne]]]. rewrite Hnth.
    destruct (keptEntries item); [contradiction | reflexivity].
  - intros H. split; [lia|].
    destruct (nth_error data idx) as [item|]; [|discriminate H].
    exists item. split; [reflexivity|].
    intros Hnil. rewrite Hnil in H. discriminate H.
Qed.

Lemma fullLabels_skipped_from (labels : list Z) (indices : list nat) (i d : nat)
    (full : list Z) (default : Z) :
  ~ In d indices ->
  nth d (Js.foldIdxFrom
           (fun full dataIdx vectorIdx => Js.set dataIdx (nth vectorIdx labels (-1)%Z) full)
           i indices full) default = nth d full default.
Proof.
  revert i full. induction indices as [|x r IH]; intros i full Hnot; simpl; [reflexivity|].
  rewrite IH by (intros H; apply Hnot; right; exact H).
  rewrite set_nth. destruct (Nat.eqb d x) eqn:E; [|reflexivity].
  apply Nat.eqb_eq in E. exfalso. apply Hnot. left. congruence.
Qed.

(** The label of a record: [-1] when it is not a row of the matrix, the
    label of its row otherwise. *)
Lemma fullLabels_spec (data : list RuntimeNode) (labels : list Z) (idx : nat) :
  length labels = length (vectors (extractValidEmbeddings data)) ->
  idx < length data ->
  (hasEmbedding data idx = false /\
   nth idx (fullLabels (length data) (indices (extractValidEmbeddings data)) labels) 0%Z
   = (-1)%Z) \/
  (hasEmbedding data idx = true /\
   exists row, nth_error (indices (extractValidEmbeddings data)) row = Some idx /\
               row < length labels /\
               nth idx (fullLabels (length data) (indices (extractValidEmbeddings data)) labels)
                 0%Z = nth row labels 0%Z).
Proof.
  intros Hlen Hidx.
  destruct (hasEmbedding data idx) eqn:E.
  - right. split; [reflexivity|].
    apply hasEmbedding_indices in E.
    destruct (In_nth_error _ _ E) as [row Hrow]. exists row. split; [exact Hrow|].
    assert (Hlt : row < length labels).
    { rewrite Hlen, extract_lengths. apply nth_error_Some. congruence. }
    split; [exact Hlt|].
    rewrite (nth_indep _ 0%Z (-1)%Z) by (rewrite fullLabels_length; exact Hidx).
    unfold fullLabels, Js.foldIdx.
    rewrite (fullLabels_nth_from labels (indices (extractValidEmbeddings data)) 0
               (repeat (-1)%Z (length data))) with (j := row).
    + simpl. apply nth_indep. exact Hlt.
    + rewrite extract_indices. apply arrayPositions_NoDup.
    + rewrite extract_indices, repeat_length.
      pose proof (arrayPositions_bounds data 0) as Hb.
      eapply Forall_impl; [|exact Hb]. simpl. intros a Ha. lia.
    + exact Hrow.
  - left. split; [reflexivity|].
    unfold fullLabels, Js.foldIdx. rewrite fullLabels_skipped_from.
    + apply nth_repeat_lt. exact Hidx.
    + intros H. apply hasEmbedding_indices in H. congruence.
Qed.

Section KMeansLabels.

Context {T : Type} (ops : NumOps T).
Variable vectors : list (list T).
Variable dimension : nat.

Lemma assignLabels_keeps_length (centroids : list (list T)) (labels : list nat) :
  length (fst (assignLabels ops vectors centroids labels)) = length labels.
Proof.
  unfold assignLabels.
  apply (forRange_invariant (fun st : list nat * bool => length (fst st) = length labels)).
  - reflexivity.
  - intros i st _ Hst. destruct (Nat.eqb _ _); [exact Hst|].
    cbn [fst]. rewrite set_length. exact Hst.
Qed.

Lemma kmeansLoop_keeps_length (remaining iterations : nat) (labels : list nat)
    (centroids : list (list T)) :
  length (fst (fst (kmeansLoop ops vectors dimension remaining iterations labels centroids)))
  = length labels.
Proof.
  revert iterations labels centroids.
  induction remaining as [|r IH]; intros iterations labels centroids; [reflexivity|].
  cbn [kmeansLoop].
  pose proof (assignLabels_keeps_length centroids labels) as Hlen.
  destruct (assignLabels ops vectors centroids labels) as [labels1 changed].
  cbn [fst] in Hlen. destruct changed.
  - rewrite IH. exact Hlen.
  - exact Hlen.
Qed.

End KMeansLabels.

(** ** The clusters of the agglomerative clustering *)

Lemma split_at {A : Type} (l : list A) (j : nat) (d : A) :
  j < length l -> l = firstn j l ++ nth j l d :: skipn (j + 1) l.
Proof.
  revert j. induction l as [|x r IH]; intros j Hj; simpl in Hj; [lia|].
  destruct j as [|j]; simpl; [reflexivity|].
  f_equal. apply IH. lia.
Qed.

Lemma Forall_firstn_keep {A : Type} (P : A -> Prop) (n : nat) (l : list A) :
  Forall P l -> Forall P (firstn n l).
Proof.
  revert n. induction l as [|x r IH]; intros [|n] H; simpl; try constructor.
  - inversion H; assumption.
  - apply IH. inversion H; assumption.
Qed.

Lemma Forall_skipn_keep {A : Type} (P : A -> Prop) (n : nat) (l : list A) :
  Forall P l -> Forall P (skipn n l).
Proof.
  revert n. induction l as [|x r IH]; intros [|n] H; simpl; try assumption.
  apply IH. inversion H; assumption.
Qed.

Lemma NoDup_app_disjoint {A : Type} (l1 l2 : list A) (a : A) :
  NoDup (l1 ++ l2) -> In a l1 -> ~ In a l2.
Proof.
  induction l1 as [|x r IH]; simpl; intros Hnodup Hin; [contradiction|].
  inversion Hnodup as [|? ? Hx Hr]; subst. destruct Hin as [->|Hin].
  - intros H. apply Hx. apply in_or_app. right. exact H.
  - apply IH; assumption.
Qed.

Lemma merge_concat (front back : list (list nat)) (ci cj : list nat)
    (before after : list (list nat)) :
  before ++ after = front ++ ci :: back ->
  Permutation (concat (front ++ [ci ++ cj] ++ back)) (concat (before ++ cj :: after)).
Proof.
  intros H. apply (f_equal (@concat nat)) in H.
  rewrite !concat_app in *. simpl concat in *. rewrite app_nil_r.
  transitivity (cj ++ concat before ++ concat after).
  - rewrite H. etransitivity; [|apply Permutation_app_swap_app].
    apply Permutation_app_head. rewrite <- app_assoc. apply Permutation_app_swap_app.
  - apply Permutation_app_swap_app.
Qed.

Lemma mergeClusters_concat (clusters : list (list nat)) (bestI bestJ : nat) :
  bestI < bestJ < length clusters ->
  Permutation (concat (mergeClusters clusters bestI bestJ)) (concat clusters) /\
  (Forall (fun cluster => cluster <> []) clusters ->
   Forall (fun cluster => cluster <> []) (mergeClusters clusters bestI bestJ)).
Proof.
  intros [Hij Hj]. unfold mergeClusters.
  set (clusters1 := firstn bestJ clusters ++ skipn (bestJ + 1) clusters).
  pose proof (split_at clusters bestJ [] Hj) as Hsplit.
  assert (Hlen1 : bestI < length clusters1).
  { unfold clusters1. rewrite length_app, length_firstn. lia. }
  assert (Hnth : nth bestI clusters1 [] = nth bestI clusters []).
  { unfold clusters1. rewrite app_nth1 by (rewrite length_firstn; lia).
    rewrite nth_firstn. destruct (Nat.ltb_spec bestI bestJ); [reflexivity | lia]. }
  pose proof (split_at clusters1 bestI [] Hlen1) as Hsplit1.
  rewrite Hnth in Hsplit1.
  split.
  - etransitivity; [apply (merge_concat _ _ _ _ (firstn bestJ clusters)
                             (skipn (bestJ + 1) clusters)); exact Hsplit1|].
    rewrite <- Hsplit. reflexivity.
  - intros Hne.
    assert (Hne1 : Forall (fun cluster => cluster <> []) clusters1).
    { unfold clusters1. apply Forall_app. split.
      - apply Forall_firstn_keep. exact Hne.
      - apply Forall_skipn_keep. exact Hne. }
    apply Forall_app. split; [apply Forall_firstn_keep; exact Hne1|].
    apply Forall_app. split; [|apply Forall_skipn_keep; exact Hne1].
    constructor; [|constructor].
    rewrite Forall_forall in Hne. intros H. apply app_eq_nil in H as [H _].
    apply (Hne (nth bestI clusters [])); [apply nth_In; lia | exact H].
Qed.

Lemma mergeLoop_partition (vectors : list (list float)) (targetClusters : Z) (n fuel : nat)
    (clusters : list (list nat)) (cache : DistanceCache) :
  (1 <= targetClusters)%Z ->
  isPartition n clusters ->
  isPartition n (mergeLoop vectors fuel targetClusters clusters cache) /\
  (length clusters <= fuel ->
   Z.of_nat (length (mergeLoop vectors fuel targetClusters clusters cache))
   = Z.min targetClusters (Z.of_nat (length clusters))).
Proof.
  intros Htarget. revert clusters cache.
  induction fuel as [|fuel IH]; intros clusters cache Hpart; simpl.
  - split; [exact Hpart | lia].
  - destruct (targetClusters <? Z.of_nat (length clusters))%Z eqn:E.
    + apply Z.ltb_lt in E.
      pose proof (closestPair_bounds vectors clusters cache) as Hb.
      destruct (closestPair vectors clusters cache) as [[[bestI bestJ] d] cache'].
      specialize (Hb ltac:(lia)).
      pose proof (mergeClusters_length clusters bestI bestJ Hb) as Hlen.
      destruct (mergeClusters_concat clusters bestI bestJ Hb) as [Hperm Hne].
      destruct Hpart as [Hp1 Hp2].
      destruct (IH (mergeClusters clusters bestI bestJ) cache') as [IH1 IH2].
      { split; [etransitivity; eassumption | apply Hne; exact Hp2]. }
      split; [exact IH1|]. intros Hfuel. rewrite IH2 by lia. lia.
    + apply Z.ltb_ge in E. split; [exact Hpart | lia].
Qed.

Lemma singletons_from (A : Type) (a : list A) (i : nat) :
  Js.mapIdxFrom (fun (_ : A) idx => [idx]) i a = map (fun idx => [idx]) (seq i (length a)).
Proof.
  revert i. induction a as [|x r IH]; intros i; simpl; [reflexivity|].
  rewrite IH. reflexivity.
Qed.

Lemma concat_singletons (l : list nat) : concat (map (fun idx => [idx]) l) = l.
Proof. induction l as [|x r IH]; simpl; [reflexivity | rewrite IH; reflexivity]. Qed.

Lemma singletons_partition (A : Type) (a : list A) :
  isPartition (length a) (Js.mapIdx (fun (_ : A) idx => [idx]) a).
Proof.
  unfold Js.mapIdx. rewrite singletons_from. split.
  - rewrite concat_singletons. reflexivity.
  - apply Forall_forall. intros c Hc. apply in_map_iff in Hc as [idx [<- _]]. discriminate.
Qed.

Lemma setAll_length (cluster : list nat) (v : nat) (labels : list nat) :
  length (fold_left (fun labels nodeIdx => Js.set nodeIdx v labels) cluster labels)
  = length labels.
Proof.
  apply (fold_left_invariant (fun l : list nat => length l = length labels)).
  - reflexivity.
  - intros l x _ Hl. rewrite set_length. exact Hl.
Qed.

Lemma setAll_other (cluster : list nat) (v p : nat) (labels : list nat) :
  ~ In p cluster ->
  nth p (fold_left (fun labels nodeIdx => Js.set nodeIdx v labels) cluster labels) 0
  = nth p labels 0.
Proof.
  revert labels. induction cluster as [|x r IH]; intros labels Hnot; simpl; [reflexivity|].
  rewrite IH by (intros H; apply Hnot; right; exact H).
  rewrite set_nth. destruct (Nat.eqb p x) eqn:E; [|reflexivity].
  apply Nat.eqb_eq in E. exfalso. apply Hnot. left. congruence.
Qed.

Lemma setAll_member (cluster : list nat) (v p : nat) (labels : list nat) :
  In p cluster -> p < length labels ->
  nth p (fold_left (fun labels nodeIdx => Js.set nodeIdx v labels) cluster labels) 0 = v.
Proof.
  revert labels. induction cluster as [|x r IH]; intros labels Hin Hp; simpl; [contradiction|].
  destruct (in_dec Nat.eq_dec p r) as [Hr|Hr].
  - apply IH; [exact Hr | rewrite set_length; exact Hp].
  - rewrite setAll_other by exact Hr.
    destruct Hin as [->|Hin]; [|contradiction].
    rewrite set_nth, Nat.eqb_refl. apply Nat.ltb_lt in Hp. rewrite Hp. reflexivity.
Qed.

Lemma clusterLabels_other_from (clusters : list (list nat)) (i p : nat) (labels : list nat) :
  ~ In p (concat clusters) ->
  nth p (Js.foldIdxFrom
           (fun labels cluster clusterIdx =>
              fold_left (fun labels nodeIdx => Js.set nodeIdx clusterIdx labels) cluster labels)
           i clusters labels) 0 = nth p labels 0.
Proof.
  revert i labels. induction clusters as [|c r IH]; intros i labels Hnot; simpl; [reflexivity|].
  simpl in Hnot. rewrite IH by (intros H; apply Hnot; apply in_or_app; right; exact H).
  apply setAll_other. intros H. apply Hnot. apply in_or_app. left. exact H.
Qed.

Lemma clusterLabels_member_from (clusters : list (list nat)) (i : nat) (labels : list nat) :
  NoDup (concat clusters) ->
  Forall (fun p => p < length labels) (concat clusters) ->
  forall c p, c < length clusters -> In p (nth c clusters []) ->
    nth p (Js.foldIdxFrom
             (fun labels cluster clusterIdx =>
                fold_left (fun labels nodeIdx => Js.set nodeIdx clusterIdx labels) cluster labels)
             i clusters labels) 0 = i + c.
Proof.
  revert i labels. induction clusters as [|cl r IH]; intros i labels Hnodup Hbound c p Hc Hp;
    simpl in Hc; [lia|].
  simpl in Hnodup, Hbound. apply Forall_app in Hbound as [Hb1 Hb2].
  simpl Js.foldIdxFrom. destruct c as [|c].
  - simpl in Hp. rewrite clusterLabels_other_from.
    + rewrite setAll_member; [lia | exact Hp|].
      rewrite Forall_forall in Hb1. apply Hb1. exact Hp.
    + apply (NoDup_app_disjoint cl (concat r)); assumption.
  - simpl in Hp. rewrite (IH (S i)) with (c := c); [lia | | | lia | exact Hp].
    + apply NoDup_app_remove_l in Hnodup. exact Hnodup.
    + rewrite setAll_length. exact Hb2.
Qed.

Lemma clusterLabels_length (vectors : list (list float)) (clusters : list (list nat)) :
  length (clusterLabels vectors clusters) = length vectors.
Proof.
  unfold clusterLabels, Js.foldIdx.
  apply (foldIdxFrom_invariant (fun l : list nat => length l = length vectors)).
  - apply repeat_length.
  - intros l cluster c _ Hl. rewrite setAll_length. exact Hl.
Qed.

Lemma clusterLabels_member (vectors : list (list float)) (clusters : list (list nat))
    (c p : nat) :
  isPartition (length vectors) clusters ->
  c < length clusters -> In p (nth c clusters []) ->
  nth p (clusterLabels vectors clusters) 0 = c.
Proof.
  intros [Hperm _] Hc Hp. unfold clusterLabels, Js.foldIdx.
  rewrite clusterLabels_member_from with (c := c); [reflexivity | | | exact Hc | exact Hp].
  - apply (Permutation_NoDup (Permutation_sym Hperm)). apply seq_NoDup.
  - apply Forall_forall. intros q Hq. rewrite repeat_length.
    apply (Permutation_in _ Hperm) in Hq. apply in_seq in Hq. lia.
Qed.

Lemma extract_dimension_pos (data : list RuntimeNode) :
  vectors (extractValidEmbeddings data) <> [] -> dimension (extractValidEmbeddings data) <> 0.
Proof.
  destruct (extract_vectors data) as [Hv Hd]. rewrite Hv, Hd. intros Hne.
  apply firstDimension_pos. intros H. rewrite H in Hne. apply Hne. reflexivity.
Qed.

(** The branch of [runAgglomerative] that clusters. *)
Lemma runAgglomerative_clusters (data : list RuntimeNode) (targetClusters : Z) :
  (1 <= targetClusters)%Z ->
  vectors (extractValidEmbeddings data) <> [] ->
  let valid := extractValidEmbeddings data in
  let clusters :=
    mergeLoop (vectors valid) (length (vectors valid)) targetClusters
      (Js.mapIdx (fun _ idx => [idx]) (vectors valid)) [] in
  runAgglomerative data targetClusters =
  {| labels := fullLabels (length data) (indices valid)
                 (map Z.of_nat (clusterLabels (vectors valid) clusters));
     centroids := map (centroidOf (vectors valid) (dimension valid)) clusters;
     iterations := None; inertia := None; noiseCount := None |}.
Proof.
  intros Htarget Hne valid clusters. unfold runAgglomerative.
  destruct (Nat.eqb (length data) 0) eqn:E.
  { apply Nat.eqb_eq in E. apply length_zero_iff_nil in E. subst data.
    exfalso. apply Hne. reflexivity. }
  fold valid.
  destruct (Nat.eqb (length (vectors valid)) 0) eqn:E1.
  { apply Nat.eqb_eq in E1. apply length_zero_iff_nil in E1. contradiction. }
  destruct (Nat.eqb (dimension valid) 0) eqn:E2.
  { apply Nat.eqb_eq in E2. exfalso. apply (extract_dimension_pos data); assumption. }
  cbn [orb]. destruct (Z.ltb_spec targetClusters 1); [lia|].
  unfold Js.mapIdx. rewrite mapIdxFrom_length. reflexivity.
Qed.

Lemma runAgglomerative_no_rows (data : list RuntimeNode) (targetClusters : Z) :
  vectors (extractValidEmbeddings data) = [] ->
  labels (runAgglomerative data targetClusters) = allNoise (length data) /\
  centroids (runAgglomerative data targetClusters) = [].
Proof.
  intros Hv. unfold runAgglomerative.
  destruct (Nat.eqb (length data) 0) eqn:E.
  { apply Nat.eqb_eq in E. rewrite E. split; reflexivity. }
  rewrite Hv. simpl. split; reflexivity.
Qed.

Lemma runAgglomerative_count (data : list RuntimeNode) (targetClusters : Z) :
  (1 <= targetClusters)%Z ->
  Z.of_nat (length (centroids (runAgglomerative data targetClusters)))
  = Z.min targetClusters (Z.of_nat (length (vectors (extractValidEmbeddings data)))).
Proof.
  intros Htarget.
  destruct (vectors (extractValidEmbeddings data)) as [|row rows] eqn:Hv.
  { destruct (runAgglomerative_no_rows data targetClusters Hv) as [_ Hc].
    rewrite Hc. simpl. lia. }
  assert (Hne : vectors (extractValidEmbeddings data) <> []) by (rewrite Hv; discriminate).
  rewrite (runAgglomerative_clusters data targetClusters Htarget Hne).
  cbn [centroids]. rewrite <- Hv. rewrite length_map.
  set (valid := extractValidEmbeddings data).
  destruct (mergeLoop_partition (vectors valid) targetClusters (length (vectors valid))
              (length (vectors valid)) (Js.mapIdx (fun _ idx => [idx]) (vectors valid)) []
              Htarget (singletons_partition _ (vectors valid))) as [_ Hlen].
  unfold Js.mapIdx in Hlen at 1. rewrite mapIdxFrom_length in Hlen.
  rewrite (Hlen (Nat.le_refl _)). unfold Js.mapIdx. rewrite mapIdxFrom_length. reflexivity.
Qed.

Lemma runAgglomerative_every_cluster_used (data : list RuntimeNode) (targetClusters : Z)
    (c : nat) :
  (1 <= targetClusters)%Z ->
  c < length (centroids (runAgglomerative data targetClusters)) ->
  In (Z.of_nat c) (labels (runAgglomerative data targetClusters)).
Proof.
  intros Htarget.
  destruct (vectors (extractValidEmbeddings data)) as [|row rows] eqn:Hv.
  { destruct (runAgglomerative_no_rows data targetClusters Hv) as [_ Hc].
    rewrite Hc. simpl. lia. }
  assert (Hne : vectors (extractValidEmbeddings data) <> []) by (rewrite Hv; discriminate).
  rewrite (runAgglomerative_clusters data targetClusters Htarget Hne).
  cbn [centroids labels]. rewrite length_map.
  set (valid := extractValidEmbeddings data).
  destruct (mergeLoop_partition (vectors valid) targetClusters (length (vectors valid))
              (length (vectors valid)) (Js.mapIdx (fun _ idx => [idx]) (vectors valid)) []
              Htarget (singletons_partition _ (vectors valid))) as [Hpart _].
  intros Hc.
  set (clusters := mergeLoop _ _ _ _ _) in *.
  assert (Hcluster : nth c clusters [] <> []).
  { destruct Hpart as [_ Hall]. rewrite Forall_forall in Hall. apply Hall.
    apply nth_In. exact Hc. }
  destruct (nth c clusters []) as [|p rest] eqn:Hnth; [contradiction|].
  assert (Hp : In p (nth c clusters [])) by (rewrite Hnth; left; reflexivity).
  pose proof (clusterLabels_member (vectors valid) clusters c p Hpart Hc Hp) as Hlabel.
  apply fullLabels_covers.
  + rewrite length_map. apply clusterLabels_length.
  + apply in_map_iff. exists c. split; [reflexivity|].
    rewrite <- Hlabel. apply nth_In. rewrite clusterLabels_length.
    destruct Hpart as [Hperm _].
    assert (Hin : In p (concat clusters)).
    { apply in_concat. exists (nth c clusters []). split; [apply nth_In; exact Hc | exact Hp]. }
    apply (Permutation_in _ Hperm) in Hin. apply in_seq in Hin. lia.
Qed.

(** X5: for [targetClusters >= 1], [runAgglomerative] returns exactly
    [min(targetClusters, n)] centroids, [n] being the number of rows of the
    normalized matrix, and every cluster id below that number is the label
    of some record: no cluster is empty. *)
Theorem runAgglomerative_cluster_count (data : list RuntimeNode) (targetClusters : Z)
    (Htarget : (1 <= targetClusters)%Z) :
  Z.of_nat (length (centroids (runAgglomerative data targetClusters)))
  = Z.min targetClusters (Z.of_nat (length (vectors (extractValidEmbeddings data)))) /\
  forall c, c < length (centroids (runAgglomerative data targetClusters)) ->
            In (Z.of_nat c) (labels (runAgglomerative data targetClusters)).
Proof.
  split.
  - apply runAgglomerative_count. exact Htarget.
  - intros c Hc. apply runAgglomerative_every_cluster_used; assumption.
Qed.

Lemma runAgglomerative_cluster_count_witness :
  Z.of_nat (length (centroids (runAgglomerative
                                 (batch [[0; 0]; [1; 1]; [8; 8]; [9; 9]]%float) 2)))
  = Z.min 2 (Z.of_nat (length (vectors (extractValidEmbeddings
                                          (batch [[0; 0]; [1; 1]; [8; 8]; [9; 9]]%float))))) /\
  forall c, c < length (centroids (runAgglomerative
                                     (batch [[0; 0]; [1; 1]; [8; 8]; [9; 9]]%float) 2)) ->
            In (Z.of_nat c) (labels (runAgglomerative
                                       (batch [[0; 0]; [1; 1]; [8; 8]; [9; 9]]%float) 2)).
Proof.
  apply (runAgglomerative_cluster_count (batch [[0; 0]; [1; 1]; [8; 8]; [9; 9]]%float) 2).
  lia.
Defined.

(** X6: when at least as many clusters are requested as the matrix has
    rows, [runAgglomerative] merges nothing: the record kept as row [row] of
    the matrix is labelled [row], every kept record forming its own
    cluster. *)
Theorem runAgglomerative_enough_clusters (data : list RuntimeNode) (targetClusters : Z)
    (Htarget : (Z.of_nat (length (vectors (extractValidEmbeddings data))) <= targetClusters)%Z)
    (row idx : nat)
    (Hrow : nth_error (indices (extractValidEmbeddings data)) row = Some idx) :
  nth idx (labels (runAgglomerative data targetClusters)) (-1)%Z = Z.of_nat row.
Proof.
  set (valid := extractValidEmbeddings data) in *.
  assert (Hlt : row < length (vectors valid)).
  { unfold valid. rewrite extract_lengths. apply nth_error_Some. fold valid. congruence. }
  assert (Hne : vectors valid <> []).
  { intros H. rewrite H in Hlt. simpl in Hlt. lia. }
  rewrite (runAgglomerative_clusters data targetClusters ltac:(lia) Hne).
  cbn [labels]. fold valid.
  assert (Hloop : mergeLoop (vectors valid) (length (vectors valid)) targetClusters
                    (Js.mapIdx (fun _ idx => [idx]) (vectors valid)) []
                  = Js.mapIdx (fun _ idx => [idx]) (vectors valid)).
  { destruct (length (vectors valid)) as [|fuel] eqn:E; [reflexivity|].
    cbn [mergeLoop]. unfold Js.mapIdx at 1. rewrite mapIdxFrom_length.
    destruct (Z.ltb_spec targetClusters (Z.of_nat (length (vectors valid)))); [lia|].
    reflexivity. }
  rewrite Hloop.
  unfold fullLabels, Js.foldIdx.
  rewrite (fullLabels_nth_from _ (indices valid) 0 (repeat (-1)%Z (length data)))
    with (j := row).
  - simpl.
    rewrite (nth_indep _ (-1)%Z (Z.of_nat 0))
      by (rewrite length_map, clusterLabels_length; exact Hlt).
    rewrite map_nth. f_equal.
    apply clusterLabels_member.
    + apply singletons_partition.
    + unfold Js.mapIdx. rewrite mapIdxFrom_length. exact Hlt.
    + unfold Js.mapIdx. rewrite singletons_from.
      rewrite (nth_indep _ [] [0]) by (rewrite length_map, length_seq; exact Hlt).
      rewrite (map_nth (fun idx => [idx])). rewrite seq_nth by exact Hlt.
      left. reflexivity.
  - unfold valid. rewrite extract_indices. apply arrayPositions_NoDup.
  - unfold valid. rewrite extract_indices, repeat_length.
    pose proof (arrayPositions_bounds data 0) as Hb.
    eapply Forall_impl; [|exact Hb]. simpl. intros a Ha. lia.
  - exact Hrow.
Qed.

Lemma runAgglomerative_enough_clusters_witness :
  nth 2 (labels (runAgglomerative [Some [JsNumber 1]; None; Some [JsNumber 5]] 7)) (-1)%Z
  = Z.of_nat 1.
Proof.
  apply (runAgglomerative_enough_clusters [Some [JsNumber 1]; None; Some [JsNumber 5]] 7).
  - vm_compute. discriminate.
  - reflexivity.
Defined.

(** A label list built from cluster indices marks exactly the skipped
    records with [-1]. *)
Lemma fullLabels_noise_iff (data : list RuntimeNode) (labels' : list nat) (idx : nat) :
  length labels' = length (vectors (extractValidEmbeddings data)) ->
  idx < length data ->
  nth idx (fullLabels (length data) (indices (extractValidEmbeddings data))
             (map Z.of_nat labels')) 0%Z = (-1)%Z <->
  hasEmbedding data idx = false.
Proof.
  intros Hlen Hidx.
  destruct (fullLabels_spec data (map Z.of_nat labels') idx) as [[Hno Hl]|[Hyes Hl]].
  - rewrite length_map. exact Hlen.
  - exact Hidx.
  - rewrite Hl, Hno. split; reflexivity.
  - destruct Hl as [row [_ [Hrow Hl]]]. rewrite Hl, Hyes.
    change 0%Z with (Z.of_nat 0). rewrite map_nth. split; [lia | discriminate].
Qed.

Lemma runAgglomerative_noise_skipped (data : list RuntimeNode) (targetClusters : Z)
    (idx : nat) :
  (1 <= targetClusters)%Z -> idx < length data ->
  nth idx (labels (runAgglomerative data targetClusters)) 0%Z = (-1)%Z <->
  hasEmbedding data idx = false.
Proof.
  intros Htarget Hidx.
  destruct (vectors (extractValidEmbeddings data)) as [|r0 rows] eqn:Hv.
  { destruct (runAgglomerative_no_rows data targetClusters Hv) as [Hl _]. rewrite Hl.
    unfold allNoise. rewrite nth_repeat_lt by exact Hidx.
    split; [intros _ | reflexivity].
    destruct (hasEmbedding data idx) eqn:E; [|reflexivity].
    apply hasEmbedding_indices in E.
    pose proof (extract_lengths data) as Hlen. rewrite Hv in Hlen.
    destruct (indices (extractValidEmbeddings data)); [contradiction | discriminate]. }
  assert (Hne : vectors (extractValidEmbeddings data) <> []) by (rewrite Hv; discriminate).
  rewrite (runAgglomerative_clusters data targetClusters Htarget Hne).
  cbn [labels]. apply fullLabels_noise_iff; [apply clusterLabels_length | exact Hidx].
Qed.

(** X7: for [targetClusters >= 1], [runAgglomerative] labels a record [-1]
    exactly when its embedding is not an array or is an array without an
    element (the empty array, or an array of empty slots only such as
    [new Array(2)]); every other record gets the id of a cluster, a number
    below the number of centroids. *)
Theorem runAgglomerative_noise_iff_skipped (data : list RuntimeNode) (targetClusters : Z)
    (idx : nat) (Htarget : (1 <= targetClusters)%Z) (Hidx : idx < length data) :
  (nth idx (labels (runAgglomerative data targetClusters)) 0%Z = (-1)%Z <->
   hasEmbedding data idx = false) /\
  labelInDomain (length (centroids (runAgglomerative data targetClusters)))
    (nth idx (labels (runAgglomerative data targetClusters)) 0%Z).
Proof.
  split; [apply runAgglomerative_noise_skipped; assumption|].
  pose proof (runAgglomerative_labelsInDomain data targetClusters) as Hdom.
  unfold labelsInDomain in Hdom. rewrite Forall_forall in Hdom.
  apply Hdom. apply nth_In. rewrite runAgglomerative_labels_length. exact Hidx.
Qed.

Lemma runAgglomerative_noise_iff_skipped_witness :
  (nth 1 (labels (runAgglomerative
                    [Some [JsNumber 1]; Some [JsHole; JsHole]; Some [JsNumber 5]] 1)) 0%Z
   = (-1)%Z <->
   hasEmbedding [Some [JsNumber 1]; Some [JsHole; JsHole]; Some [JsNumber 5]] 1 = false) /\
  labelInDomain
    (length (centroids (runAgglomerative
                          [Some [JsNumber 1]; Some [JsHole; JsHole]; Some [JsNumber 5]] 1)))
    (nth 1 (labels (runAgglomerative
                      [Some [JsNumber 1]; Some [JsHole; JsHole]; Some [JsNumber 5]] 1)) 0%Z).
Proof.
  apply (runAgglomerative_noise_iff_skipped
           [Some [JsNumber 1]; Some [JsHole; JsHole]; Some [JsNumber 5]] 1 1).
  - lia.
  - simpl. lia.
Defined.

(** The branch of [runKMeans] that clusters. *)
Lemma runKMeans_labels (data : list RuntimeNode) (k : Z) (maxIterations : nat) :
  centroids (runKMeans data k maxIterations) <> [] ->
  exists labels', length labels' = length (vectors (extractValidEmbeddings data)) /\
    labels (runKMeans data k maxIterations)
    = fullLabels (length data) (indices (extractValidEmbeddings data)) (map Z.of_nat labels').
Proof.
  unfold runKMeans.
  destruct (Nat.eqb (length data) 0); [intros H; exfalso; apply H; reflexivity|].
  destruct (_ || _); [intros H; exfalso; apply H; reflexivity|].
  destruct (Nat.eqb (length (initialCentroids _ _)) 0);
    [intros H; exfalso; apply H; reflexivity|].
  pose proof (kmeansLoop_keeps_length floatOps (vectors (extractValidEmbeddings data))
                (dimension (extractValidEmbeddings data)) maxIterations 0
                (repeat 0 (length (vectors (extractValidEmbeddings data))))
                (initialCentroids (vectors (extractValidEmbeddings data)) k)) as Hlen.
  destruct (kmeansLoop _ _ _ _ _ _ _) as [[labels' centroids'] iterations'].
  cbn [fst] in Hlen. rewrite repeat_length in Hlen.
  intros _. exists labels'. split; [exact Hlen | reflexivity].
Qed.

(** X8: whenever [runKMeans] returns at least one centroid, it labels a
    record [-1] exactly when its embedding is not an array or is an array
    without an element (the empty array, or an array of empty slots only
    such as [new Array(2)]); every other record gets the index of a
    centroid, a number below the number of centroids. *)
Theorem runKMeans_noise_iff_skipped (data : list RuntimeNode) (k : Z) (maxIterations : nat)
    (idx : nat) (Hcentroids : centroids (runKMeans data k maxIterations) <> [])
    (Hidx : idx < length data) :
  (nth idx (labels (runKMeans data k maxIterations)) 0%Z = (-1)%Z <->
   hasEmbedding data idx = false) /\
  labelInDomain (length (centroids (runKMeans data k maxIterations)))
    (nth idx (labels (runKMeans data k maxIterations)) 0%Z).
Proof.
  split.
  - destruct (runKMeans_labels data k maxIterations Hcentroids) as [labels' [Hlen Heq]].
    rewrite Heq. apply fullLabels_noise_iff; assumption.
  - pose proof (runKMeans_labelsInDomain data k maxIterations) as Hdom.
    unfold labelsInDomain in Hdom. rewrite Forall_forall in Hdom.
    apply Hdom. apply nth_In. rewrite runKMeans_labels_length. exact Hidx.
Qed.

Lemma runKMeans_noise_iff_skipped_witness :
  (nth 1 (labels (runKMeans
                    [Some [JsNumber 1]; Some [JsHole; JsHole]; Some [JsNumber 5]] 2 40)) 0%Z
   = (-1)%Z <->
   hasEmbedding [Some [JsNumber 1]; Some [JsHole; JsHole]; Some [JsNumber 5]] 1 = false) /\
  labelInDomain
    (length (centroids (runKMeans
                          [Some [JsNumber 1]; Some [JsHole; JsHole]; Some [JsNumber 5]] 2 40)))
    (nth 1 (labels (runKMeans
                      [Some [JsNumber 1]; Some [JsHole; JsHole]; Some [JsNumber 5]] 2 40)) 0%Z).
Proof.
  apply (runKMeans_noise_iff_skipped
           [Some [JsNumber 1]; Some [JsHole; JsHole]; Some [JsNumber 5]] 2 40 1).
  - vm_compute. discriminate.
  - simpl. lia.
Defined.

(** ** The normalized matrix *)

Lemma arrayPositions_sorted (data : list RuntimeNode) (i : nat) :
  StronglySorted lt (arrayPositions i data).
Proof.
  revert i. induction data as [|item rest IH]; intros i; simpl; [constructor|].
  destruct (keptEntries item); try apply IH.
  constructor; [apply IH|].
  pose proof (arrayPositions_bounds rest (S i)) as Hb.
  eapply Forall_impl; [|exact Hb]. simpl. intros a Ha. lia.
Qed.

Lemma arrayPositions_embedding (data : list RuntimeNode) (i row idx : nat) :
  nth_error (arrayPositions i data) row = Some idx ->
  i <= idx /\
  exists item, nth_error data (idx - i) = Some item /\
               keptEntries item <> [] /\
               nth_error (arrayEmbeddings data) row = Some (keptEntries item).
Proof.
  revert i row. induction data as [|item rest IH]; intros i row; simpl.
  - destruct row; discriminate.
  - destruct (keptEntries item) as [|v r] eqn:Hkept.
    + intros H. destruct (IH _ _ H) as [Hle [e [H1 H2]]].
      split; [lia|]. exists e. replace (idx - i) with (S (idx - S i)) by lia.
      simpl. split; assumption.
    + destruct row as [|row]; simpl.
      * intros H. injection H as <-. split; [lia|]. exists item.
        rewrite Nat.sub_diag, Hkept. repeat split. discriminate.
      * intros H. destruct (IH _ _ H) as [Hle [e [H1 H2]]].
        split; [lia|]. exists e. replace (idx - i) with (S (idx - S i)) by lia.
        simpl. split; assumption.
Qed.

(** X9: the index map of [extractValidEmbeddings] is strictly increasing
    and stays inside [data]; the matrix is rectangular, every row having
    [dimension] entries; and row [row] of the matrix is built from the
    elements of the embedding of the record at [indices[row]], an array
    with at least one element: its empty slots are left out, the elements
    coerced, and the row cut or padded to [dimension] entries. *)
Theorem extractValidEmbeddings_index_map (data : list RuntimeNode) :
  let valid := extractValidEmbeddings data in
  StronglySorted lt (indices valid) /\
  Forall (fun idx => idx < length data) (indices valid) /\
  Forall (fun row => length row = dimension valid) (vectors valid) /\
  forall row idx, nth_error (indices valid) row = Some idx ->
    exists embedding, nth_error data idx = Some (Some embedding) /\
                      presentEntries embedding <> [] /\
                      nth_error (vectors valid) row
                      = Some (coerceRow (dimension valid) (presentEntries embedding)).
Proof.
  intros valid. unfold valid.
  destruct (extract_vectors data) as [Hv Hd].
  split; [|split; [|split]].
  - rewrite extract_indices. apply arrayPositions_sorted.
  - rewrite extract_indices. pose proof (arrayPositions_bounds data 0) as Hb.
    eapply Forall_impl; [|exact Hb]. simpl. intros a Ha. lia.
  - apply extract_rows_dimension.
  - intros row idx Hrow. rewrite extract_indices in Hrow.
    destruct (arrayPositions_embedding data 0 row idx Hrow) as [_ [item [H1 [Hne H2]]]].
    rewrite Nat.sub_0_r in H1.
    destruct item as [embedding|]; [|exfalso; apply Hne; reflexivity].
    exists embedding. split; [exact H1|]. split; [exact Hne|].
    rewrite Hv, Hd. rewrite nth_error_map, H2. reflexivity.
Qed.

Lemma presentEntries_numbers (row : list float) :
  presentEntries (map JsNumber row) = map JsNumber row.
Proof.
  unfold presentEntries. induction row as [|v r IH]; simpl; [reflexivity|].
  rewrite IH. reflexivity.
Qed.

Lemma coerceRow_clean (d : nat) (row : list float) :
  length row = d -> forallb Js.isFinite row = true ->
  coerceRow d (map JsNumber row) = row.
Proof.
  intros Hlen Hfin. unfold coerceRow.
  assert (Hmap : map coerceEntry (map JsNumber row) = row).
  { clear Hlen. induction row as [|v r IH]; simpl in *; [reflexivity|].
    apply andb_prop in Hfin as [Hv Hr]. unfold coerceEntry at 1. simpl.
    rewrite Hv, IH by exact Hr. reflexivity. }
  rewrite Hmap, Hlen, Nat.eqb_refl. reflexivity.
Qed.

Lemma batch_positions (rows : list (list float)) (i : nat) :
  Forall (fun row => row <> []) rows ->
  arrayPositions i (batch rows) = seq i (length rows) /\
  arrayEmbeddings (batch rows) = map (map JsNumber) rows.
Proof.
  unfold batch.
  revert i. induction rows as [|row rest IH]; intros i Hall; [split; reflexivity|].
  inversion Hall as [|? ? Hrow Hrest]; subst.
  destruct (IH (S i) Hrest) as [IH1 IH2].
  cbn [map arrayPositions arrayEmbeddings keptEntries].
  rewrite presentEntries_numbers.
  destruct row as [|v r]; [contradiction|].
  cbn [map length seq]. rewrite IH1, IH2. split; reflexivity.
Qed.

(** X10: a batch whose embeddings are arrays of finite numbers, all of the
    same positive length [d], passes through [extractValidEmbeddings]
    unchanged: the matrix is the list of embeddings, the index map is the
    identity and the dimension is [d] ([0] for the empty batch). *)
Theorem extractValidEmbeddings_clean_batch (rows : list (list float)) (d : nat)
    (Hd : 0 < d)
    (Hrows : Forall (fun row => length row = d /\ forallb Js.isFinite row = true) rows) :
  indices (extractValidEmbeddings (batch rows)) = seq 0 (length rows) /\
  vectors (extractValidEmbeddings (batch rows)) = rows /\
  dimension (extractValidEmbeddings (batch rows)) = match rows with [] => 0 | _ => d end.
Proof.
  assert (Hne : Forall (fun row : list float => row <> []) rows).
  { eapply Forall_impl; [|exact Hrows]. simpl. intros row [Hlen _] ->. simpl in Hlen. lia. }
  destruct (batch_positions rows 0 Hne) as [Hpos Hemb].
  destruct (extract_vectors (batch rows)) as [Hv Hdim].
  assert (Hfirst : rows <> [] -> firstDimension (batch rows) = d).
  { unfold firstDimension. rewrite Hemb. destruct rows as [|row rest]; [congruence|].
    intros _. simpl. rewrite length_map. inversion Hrows as [|? ? [Hlen _] _]. exact Hlen. }
  split; [rewrite extract_indices; exact Hpos|].
  split; [|rewrite Hdim; destruct rows; [reflexivity | apply Hfirst; discriminate]].
  rewrite Hv, Hemb, map_map.
  destruct rows as [|row0 rest0] eqn:E; [reflexivity|]. rewrite <- E in *.
  rewrite Hfirst by (rewrite E; discriminate).
  clear - Hrows. induction rows as [|row rest IH]; simpl; [reflexivity|].
  inversion Hrows as [|? ? [Hlen Hfin] Hrest]; subst.
  rewrite coerceRow_clean by (reflexivity || assumption). rewrite IH by exact Hrest.
  reflexivity.
Qed.

Lemma extractValidEmbeddings_clean_batch_witness :
  indices (extractValidEmbeddings (batch [[1; 2]; [3; 4]; [5; 6]]%float)) = seq 0 3 /\
  vectors (extractValidEmbeddings (batch [[1; 2]; [3; 4]; [5; 6]]%float))
  = [[1; 2]; [3; 4]; [5; 6]]%float /\
  dimension (extractValidEmbeddings (batch [[1; 2]; [3; 4]; [5; 6]]%float)) = 2.
Proof.
  apply (extractValidEmbeddings_clean_batch [[1; 2]; [3; 4]; [5; 6]]%float 2).
  - lia.
  - repeat constructor.
Defined.

(** ** The insights *)

Lemma pushGrouped_total (grouped : list (Z * list ProjectedNode)) (n : ProjectedNode) :
  list_sum (map (fun entry => length (snd entry)) (pushGrouped grouped n))
  = S (list_sum (map (fun entry => length (snd entry)) grouped)).
Proof.
  induction grouped as [|[k bucket] rest IH]; simpl; [reflexivity|].
  destruct (k =? clusterId n)%Z; simpl.
  - rewrite length_app. simpl. lia.
  - rewrite IH. lia.
Qed.

Lemma groupByCluster_total_from (nodes : list ProjectedNode)
    (grouped : list (Z * list ProjectedNode)) :
  list_sum (map (fun entry => length (snd entry)) (fold_left pushGrouped nodes grouped))
  = list_sum (map (fun entry => length (snd entry)) grouped) + length nodes.
Proof.
  revert grouped. induction nodes as [|n r IH]; intros grouped; simpl; [lia|].
  rewrite IH, pushGrouped_total. lia.
Qed.

Lemma list_sum_perm (l l' : list nat) : Permutation l l' -> list_sum l = list_sum l'.
Proof. induction 1; simpl; lia. Qed.

(** X11: [clusterInsights] accounts for every record exactly once: the
    sizes of the insights add up to the number of records and no insight is
    empty; the sample keys of an insight are the keys of the first four
    records carrying its label, in the order of the input. *)
Theorem clusterInsights_accounts_for_all (enriched : list ProjectedNode) :
  list_sum (map size (clusterInsights enriched)) = length enriched /\
  forall insight, In insight (clusterInsights enriched) ->
    1 <= size insight /\
    sampleKeys insight
    = map (fun n => key (node n)) (firstn 4 (withLabel (id insight) enriched)).
Proof.
  destruct (groupByCluster_spec enriched) as [Hnd [Hkeys Hbuckets]].
  unfold clusterInsights. split.
  - rewrite (list_sum_perm _ _ (Permutation_map size (sortBySizeDesc_perm _))).
    rewrite map_map. unfold groupByCluster.
    change (fun x : Z * list ProjectedNode => size (insightOf x))
      with (fun entry : Z * list ProjectedNode => length (snd entry)).
    rewrite groupByCluster_total_from. reflexivity.
  - intros insight Hin.
    apply (Permutation_in _ (sortBySizeDesc_perm _)) in Hin.
    apply in_map_iff in Hin as [[k bucket] [<- Hentry]]. simpl.
    assert (Hk : In k (map fst (groupByCluster enriched))).
    { apply in_map_iff. exists (k, bucket). auto. }
    pose proof (@bucketOf_In _ _ _ Hnd Hentry) as Hb.
    rewrite Hbuckets in Hb by exact Hk.
    injection Hb as <-. split; [|reflexivity].
    apply Hkeys in Hk. apply in_map_iff in Hk as [n [Hn Hin]].
    assert (Hmem : In n (withLabel k enriched)).
    { apply filter_In. split; [exact Hin | apply Z.eqb_eq; exact Hn]. }
    destruct (withLabel k enriched); [contradiction | simpl; lia].
Qed.

(** ** DBSCAN: which rows end as noise *)

Lemma pushNew_In (seeds currentNeighbors : list nat) (x : nat) :
  In x (pushNew seeds currentNeighbors) <-> In x seeds \/ In x currentNeighbors.
Proof.
  unfold pushNew. revert seeds.
  induction currentNeighbors as [|y r IH]; intros seeds; simpl; [tauto|].
  destruct (existsb (Nat.eqb y) seeds) eqn:E.
  - rewrite IH. apply existsb_exists in E as [z [Hz Hyz]]. apply Nat.eqb_eq in Hyz. subst z.
    split; [tauto|]. intros [H|[<-|H]]; tauto.
  - rewrite IH, in_app_iff. simpl. tauto.
Qed.

(** Writing a cluster id over a noise label. *)
Lemma label_write (labels : list Z) (current : nat) (clusterId : Z) :
  (0 <= clusterId)%Z -> current < length labels ->
  let labels2 := Js.set current clusterId labels in
  length labels2 = length labels /\
  nth current labels2 (-1)%Z <> (-1)%Z /\
  (forall p, nth p labels (-1)%Z <> (-1)%Z -> nth p labels2 (-1)%Z <> (-1)%Z) /\
  (forall p, nth p labels2 (-1)%Z <> (-1)%Z -> p = current \/ nth p labels (-1)%Z <> (-1)%Z).
Proof.
  intros Hc Hcur labels2. unfold labels2.
  assert (Hlt : Nat.ltb current (length labels) = true) by (apply Nat.ltb_lt; exact Hcur).
  split; [apply set_length|].
  split; [rewrite set_nth, Nat.eqb_refl, Hlt; simpl; lia|].
  split; intros p; rewrite set_nth, Hlt, andb_true_r;
    destruct (Nat.eqb_spec p current); intros H; auto; lia.
Qed.

Lemma label_claim (labels : list Z) (current : nat) (clusterId : Z) :
  (0 <= clusterId)%Z -> current < length labels ->
  let labels2 :=
    if (nth current labels (-1) =? -1)%Z then Js.set current clusterId labels else labels in
  length labels2 = length labels /\
  nth current labels2 (-1)%Z <> (-1)%Z /\
  (forall p, nth p labels (-1)%Z <> (-1)%Z -> nth p labels2 (-1)%Z <> (-1)%Z) /\
  (forall p, nth p labels2 (-1)%Z <> (-1)%Z -> p = current \/ nth p labels (-1)%Z <> (-1)%Z).
Proof.
  intros Hc Hcur. cbv zeta.
  destruct (Z.eqb_spec (nth current labels (-1)%Z) (-1)%Z) as [E|E].
  - apply label_write; assumption.
  - splits; auto.
Qed.

Lemma visit_write (visited : list bool) (current : nat) :
  current < length visited ->
  let visited2 := Js.set current true visited in
  length visited2 = length visited /\
  nth current visited2 false = true /\
  (forall q, nth q visited false = true -> nth q visited2 false = true) /\
  (forall q, nth q visited2 false = true -> q = current \/ nth q visited false = true).
Proof.
  intros Hcur visited2. unfold visited2.
  assert (Hlt : Nat.ltb current (length visited) = true) by (apply Nat.ltb_lt; exact Hcur).
  split; [apply set_length|].
  split; [rewrite set_nth, Nat.eqb_refl, Hlt; reflexivity|].
  split; intros q; rewrite set_nth, Hlt, andb_true_r;
    destruct (Nat.eqb_spec q current); intros H; auto.
Qed.

Section DbscanNoise.

Variable vectors : list (list float).
Variable eps : float.
Variable minPts : Z.

Lemma nearCore_iff (p : nat) :
  nearCore vectors eps minPts p = true <->
  exists q, q < length vectors /\ isCore vectors eps minPts q = true /\
            (q = p \/ In p (regionQuery vectors eps q)).
Proof.
  unfold nearCore. rewrite existsb_exists. split.
  - intros [q [Hq H]]. apply in_seq in Hq. apply andb_prop in H as [Hcore H].
    exists q. split; [lia|]. split; [exact Hcore|].
    apply orb_prop in H as [H|H].
    + left. apply Nat.eqb_eq. exact H.
    + right. apply existsb_exists in H as [z [Hz Hpz]].
      apply Nat.eqb_eq in Hpz. subst z. exact Hz.
  - intros [q [Hq [Hcore H]]]. exists q. split; [apply in_seq; lia|].
    rewrite Hcore. simpl. apply orb_true_intro. destruct H as [->|H].
    + left. apply Nat.eqb_refl.
    + right. apply existsb_exists. exists p. split; [exact H | apply Nat.eqb_refl].
Qed.

Lemma neighbours_nearCore (q : nat) :
  q < length vectors -> isCore vectors eps minPts q = true ->
  Forall (fun s => s < length vectors /\ nearCore vectors eps minPts s = true)
    (regionQuery vectors eps q).
Proof.
  intros Hq Hcore. apply Forall_forall. intros s Hs. split.
  - destruct (regionQuery_bounds vectors eps q) as [Hb _].
    rewrite Forall_forall in Hb. apply Hb. exact Hs.
  - apply nearCore_iff. exists q. auto.
Qed.

(** The [while] loop of a cluster keeps both halves of the invariant and
    ends with no seed waiting. *)
Lemma expandCluster_noise (fuel : nat) (clusterId : Z) (seeds : list nat)
    (labels : list Z) (visited : list bool) :
  (0 <= clusterId)%Z ->
  length labels = length vectors -> length visited = length vectors ->
  Forall (fun s => s < length vectors /\ nearCore vectors eps minPts s = true) seeds ->
  (forall p, nth p labels (-1)%Z <> (-1)%Z -> nth p visited false = true) ->
  dbscanSound vectors eps minPts labels ->
  dbscanComplete vectors eps minPts seeds labels visited ->
  length seeds + length vectors * unvisited visited <= fuel ->
  let result := expandCluster vectors eps minPts fuel clusterId seeds labels visited in
  length (fst result) = length vectors /\ length (snd result) = length vectors /\
  (forall p, nth p (fst result) (-1)%Z <> (-1)%Z -> nth p (snd result) false = true) /\
  dbscanSound vectors eps minPts (fst result) /\
  dbscanComplete vectors eps minPts [] (fst result) (snd result) /\
  (forall q, nth q visited false = true -> nth q (snd result) false = true).
Proof.
  intros Hc. revert seeds labels visited.
  induction fuel as [|fuel IH];
    intros seeds labels visited Hll Hlv Hseeds Hlv' Hsound Hcomplete Hfuel.
  - destruct seeds; [|simpl in Hfuel; lia]. simpl. splits; auto.
  - cbn [expandCluster]. destruct seeds as [|s0 rest]; [simpl; splits; auto|].
    assert (Hbounds : Forall (fun i => i < length vectors) (s0 :: rest)).
    { eapply Forall_impl; [|exact Hseeds]. simpl. tauto. }
    destruct (removelast_bounds vectors (s0 :: rest) ltac:(discriminate) Hbounds)
      as [Hcur [Hrest Hlen]].
    destruct (@exists_last _ (s0 :: rest) ltac:(discriminate)) as [front [current Hsplit]].
    rewrite Hsplit in *. rewrite last_last, removelast_last in *.
    apply Forall_app in Hseeds as [Hfront Hcurrent].
    inversion Hcurrent as [|? ? [_ Hnear] _]; subst.
    destruct (label_claim labels current clusterId Hc ltac:(lia)) as (L1 & L2 & L3 & L4).
    set (labels2 := if (nth current labels (-1) =? -1)%Z
                    then Js.set current clusterId labels else labels) in *.
    assert (Hsound2 : dbscanSound vectors eps minPts labels2).
    { intros p Hp Hl. destruct (L4 p Hl) as [->|H]; [exact Hnear | apply Hsound; assumption]. }
    destruct (nth current visited false) eqn:Ev.
    + apply IH; auto; try lia.
      * intros p Hl. destruct (L4 p Hl) as [->|H]; [exact Ev | apply Hlv'; exact H].
      * intros q Hq Hvq Hcore. destruct (Hcomplete q Hq Hvq Hcore) as [H1 H2].
        split; [apply L3; exact H1|]. intros p Hp.
        destruct (H2 p Hp) as [H|H]; [left; apply L3; exact H|].
        apply in_app_or in H as [H|[<-|[]]]; [right; exact H | left; exact L2].
    + destruct (visit_write visited current ltac:(lia)) as (V1 & V2 & V3 & V4).
      set (visited2 := Js.set current true visited) in *.
      pose proof (unvisited_set vectors visited current ltac:(lia) Ev) as Hu. fold visited2 in Hu.
      destruct (regionQuery_bounds vectors eps current) as [Hnb Hnl].
      destruct (pushNew_bounds vectors front (regionQuery vectors eps current) Hrest Hnb)
        as [_ Hpl].
      rewrite length_app in Hfuel. simpl in Hfuel.
      assert (Hlabelled : forall p, nth p labels2 (-1)%Z <> (-1)%Z ->
                                    nth p visited2 false = true).
      { intros p Hl. destruct (L4 p Hl) as [->|H]; [exact V2 | apply V3, Hlv'; exact H]. }
      fold (isCore vectors eps minPts current).
      destruct (isCore vectors eps minPts current) eqn:Ecore.
      * destruct (IH (pushNew front (regionQuery vectors eps current)) labels2 visited2)
          as (R1 & R2 & R3 & R4 & R5 & R6); try lia; auto.
        -- apply Forall_forall. intros s Hs. apply pushNew_In in Hs as [Hs|Hs].
           ++ rewrite Forall_forall in Hfront. apply Hfront. exact Hs.
           ++ pose proof (neighbours_nearCore current Hcur Ecore) as Hn.
              rewrite Forall_forall in Hn. apply Hn. exact Hs.
        -- intros q Hq Hvq Hcore. destruct (V4 q Hvq) as [->|Hvq'].
           ++ split; [exact L2|]. intros p Hp. right. apply pushNew_In. right. exact Hp.
           ++ destruct (Hcomplete q Hq Hvq' Hcore) as [H1 H2].
              split; [apply L3; exact H1|]. intros p Hp.
              destruct (H2 p Hp) as [H|H]; [left; apply L3; exact H|].
              apply in_app_or in H as [H|[<-|[]]]; [|left; exact L2].
              right. apply pushNew_In. left. exact H.
        -- splits; auto.
      * destruct (IH front labels2 visited2) as (R1 & R2 & R3 & R4 & R5 & R6); try lia; auto.
        -- intros q Hq Hvq Hcore. destruct (V4 q Hvq) as [->|Hvq']; [congruence|].
           destruct (Hcomplete q Hq Hvq' Hcore) as [H1 H2].
           split; [apply L3; exact H1|]. intros p Hp.
           destruct (H2 p Hp) as [H|H]; [left; apply L3; exact H|].
           apply in_app_or in H as [H|[<-|[]]]; [right; exact H | left; exact L2].
        -- splits; auto.
Qed.

(** The state between two turns of the outer loop. *)
Lemma dbscanVisit_noise (i : nat) (labels : list Z) (visited : list bool) (clusterId : Z) :
  i < length vectors ->
  (0 <= clusterId)%Z ->
  length labels = length vectors -> length visited = length vectors ->
  (forall p, nth p labels (-1)%Z <> (-1)%Z -> nth p visited false = true) ->
  dbscanSound vectors eps minPts labels ->
  dbscanComplete vectors eps minPts [] labels visited ->
  let st := dbscanVisit vectors eps minPts i (labels, visited, clusterId) in
  (0 <= snd st)%Z /\
  length (fst (fst st)) = length vectors /\ length (snd (fst st)) = length vectors /\
  (forall p, nth p (fst (fst st)) (-1)%Z <> (-1)%Z -> nth p (snd (fst st)) false = true) /\
  dbscanSound vectors eps minPts (fst (fst st)) /\
  dbscanComplete vectors eps minPts [] (fst (fst st)) (snd (fst st)) /\
  nth i (snd (fst st)) false = true /\
  (forall q, nth q visited false = true -> nth q (snd (fst st)) false = true).
Proof.
  intros Hi Hc Hll Hlv Hlv' Hsound Hcomplete. unfold dbscanVisit.
  destruct (nth i visited false) eqn:Ev; [simpl; splits; auto|].
  destruct (visit_write visited i ltac:(lia)) as (V1 & V2 & V3 & V4).
  set (visited1 := Js.set i true visited) in *.
  rewrite Z.ltb_antisym. fold (isCore vectors eps minPts i).
  assert (Hnoise : nth i labels (-1)%Z = (-1)%Z).
  { destruct (Z.eq_dec (nth i labels (-1)%Z) (-1)%Z) as [E|E]; [exact E|].
    apply Hlv' in E. congruence. }
  destruct (isCore vectors eps minPts i) eqn:Ecore; cbn [negb].
  - destruct (label_write labels i clusterId Hc ltac:(lia)) as (L1 & L2 & L3 & L4).
    set (labels1 := Js.set i clusterId labels) in *.
    pose proof (unvisited_set vectors visited i ltac:(lia) Ev) as Hu. fold visited1 in Hu.
    pose proof (unvisited_le visited) as Hle.
    destruct (regionQuery_bounds vectors eps i) as [_ Hnl]. cbv zeta in Hnl.
    destruct (expandCluster_noise (expandFuel vectors) clusterId (regionQuery vectors eps i)
                labels1 visited1) as (R1 & R2 & R3 & R4 & R5 & R6); try lia; auto.
    + apply neighbours_nearCore; assumption.
    + intros p Hl. destruct (L4 p Hl) as [->|H]; [exact V2 | apply V3, Hlv'; exact H].
    + intros p Hp Hl. destruct (L4 p Hl) as [->|H]; [|apply Hsound; assumption].
      apply nearCore_iff. exists i. auto.
    + intros q Hq Hvq Hcore. destruct (V4 q Hvq) as [->|Hvq'].
      * split; [exact L2|]. intros p Hp. right. exact Hp.
      * destruct (Hcomplete q Hq Hvq' Hcore) as [H1 H2].
        split; [apply L3; exact H1|]. intros p Hp.
        destruct (H2 p Hp) as [H|[]]. left. apply L3. exact H.
    + unfold expandFuel. nia.
    + destruct (expandCluster _ _ _ _ _ _ _ _) as [labels2 visited2]. cbn [fst snd] in *.
      splits; auto; lia.
  - cbn [fst snd].
    assert (Hsame : forall p, nth p (Js.set i (-1)%Z labels) (-1)%Z = nth p labels (-1)%Z).
    { intros p. rewrite set_nth. destruct (Nat.eqb_spec p i) as [->|]; [|reflexivity].
      destruct (Nat.ltb i (length labels)); simpl; congruence. }
    split; [exact Hc|]. split; [rewrite set_length; exact Hll|]. split; [lia|].
    split; [intros p; rewrite Hsame; intros H; apply V3, Hlv'; exact H|].
    split; [intros p Hp; rewrite Hsame; apply Hsound; exact Hp|].
    split; [|split; [exact V2 | exact V3]].
    intros q Hq Hvq Hcore. destruct (V4 q Hvq) as [->|Hvq']; [congruence|].
    destruct (Hcomplete q Hq Hvq' Hcore) as [H1 H2].
    split; [rewrite Hsame; exact H1|]. intros p Hp. rewrite Hsame. apply H2. exact Hp.
Qed.

(** After the outer loop a row is noise exactly when it is neither a core
    row nor a neighbour of one. *)
Lemma dbscanLabels_noise (p : nat) :
  p < length vectors ->
  length (fst (fst (dbscanLabels vectors eps minPts))) = length vectors /\
  (nth p (fst (fst (dbscanLabels vectors eps minPts))) (-1)%Z = (-1)%Z <->
   nearCore vectors eps minPts p = false).
Proof.
  intros Hp. unfold dbscanLabels.
  assert (Hinv :
    forall k, k <= length vectors ->
      let st := Js.forRange 0 k (dbscanVisit vectors eps minPts)
                  (repeat (-1)%Z (length vectors), repeat false (length vectors), 0%Z) in
      (0 <= snd st)%Z /\
      length (fst (fst st)) = length vectors /\ length (snd (fst st)) = length vectors /\
      (forall p, nth p (fst (fst st)) (-1)%Z <> (-1)%Z -> nth p (snd (fst st)) false = true) /\
      dbscanSound vectors eps minPts (fst (fst st)) /\
      dbscanComplete vectors eps minPts [] (fst (fst st)) (snd (fst st)) /\
      forall j, j < k -> nth j (snd (fst st)) false = true).
  { induction k as [|k IH]; intros Hk.
    - cbn [Js.forRange seq fold_left fst snd].
      assert (Hnone : forall q, nth q (repeat (-1)%Z (length vectors)) (-1)%Z = (-1)%Z).
      { intros q. destruct (Nat.lt_ge_cases q (length vectors)).
        - apply nth_repeat_lt. assumption.
        - apply nth_overflow. rewrite repeat_length. assumption. }
      assert (Hnov : forall q, nth q (repeat false (length vectors)) false = false).
      { intros q. destruct (Nat.lt_ge_cases q (length vectors)).
        - apply nth_repeat_lt. assumption.
        - apply nth_overflow. rewrite repeat_length. assumption. }
      split; [lia|]. split; [apply repeat_length|]. split; [apply repeat_length|].
      split; [intros q H; exfalso; apply H, Hnone|].
      split; [intros q _ H; exfalso; apply H, Hnone|].
      split; [intros q _ H; rewrite Hnov in H; discriminate | intros j Hj; lia].
    - unfold Js.forRange in *. rewrite seq_S, fold_left_app. cbn [fold_left Nat.add].
      specialize (IH ltac:(lia)). cbv zeta in IH.
      destruct (fold_left _ (seq 0 k) _) as [[labels visited] clusterId].
      cbn [fst snd] in IH. destruct IH as (I1 & I2 & I3 & I4 & I5 & I6 & I7).
      destruct (dbscanVisit_noise k labels visited clusterId ltac:(lia) I1 I2 I3 I4 I5 I6)
        as (S1 & S2 & S3 & S4 & S5 & S6 & S7 & S8).
      splits; auto.
      intros j Hj. destruct (Nat.eq_dec j k) as [->|Hne]; [exact S7|].
      apply S8, I7. lia. }
  destruct (Hinv (length vectors) (Nat.le_refl _)) as (_ & I2 & _ & _ & I5 & I6 & I7).
  split; [exact I2|]. split.
  - intros Hnoise. destruct (nearCore vectors eps minPts p) eqn:E; [|reflexivity].
    apply nearCore_iff in E as [q [Hq [Hcore Hnear]]].
    destruct (I6 q Hq (I7 q Hq) Hcore) as [H1 H2].
    destruct Hnear as [->|Hnear]; [contradiction|].
    destruct (H2 p Hnear) as [H|[]]. contradiction.
  - intros Hfar.
    destruct (Z.eq_dec (nth p (fst (fst (Js.forRange 0 (length vectors)
                (dbscanVisit vectors eps minPts)
                (repeat (-1)%Z (length vectors), repeat false (length vectors), 0%Z))))
                (-1)%Z) (-1)%Z) as [E|E]; [exact E|].
    apply I5 in E; [congruence | exact Hp].
Qed.

End DbscanNoise.

(** The branch of [runDbscan] that clusters. *)
Lemma runDbscan_rows (data : list RuntimeNode) (eps : float) (minPts : Z) :
  vectors (extractValidEmbeddings data) <> [] ->
  labels (runDbscan data eps minPts)
  = fullLabels (length data) (indices (extractValidEmbeddings data))
      (fst (fst (dbscanLabels (vectors (extractValidEmbeddings data)) eps minPts))).
Proof.
  intros Hne. unfold runDbscan.
  destruct (Nat.eqb (length data) 0) eqn:E.
  { apply Nat.eqb_eq in E. apply length_zero_iff_nil in E. subst data.
    exfalso. apply Hne. reflexivity. }
  destruct (Nat.eqb (length (vectors (extractValidEmbeddings data))) 0) eqn:E1.
  { apply Nat.eqb_eq in E1. apply length_zero_iff_nil in E1. contradiction. }
  destruct (Nat.eqb (dimension (extractValidEmbeddings data)) 0) eqn:E2.
  { apply Nat.eqb_eq in E2. exfalso. apply (extract_dimension_pos data); assumption. }
  cbn [orb].
  destruct (dbscanLabels _ _ _) as [[labels' visited'] clusterId']. reflexivity.
Qed.

Lemma runDbscan_row_label (data : list RuntimeNode) (eps : float) (minPts : Z)
    (row idx : nat) :
  nth_error (indices (extractValidEmbeddings data)) row = Some idx ->
  row < length (vectors (extractValidEmbeddings data)) /\
  nth idx (labels (runDbscan data eps minPts)) 0%Z
  = nth row (fst (fst (dbscanLabels (vectors (extractValidEmbeddings data)) eps minPts)))
      (-1)%Z.
Proof.
  intros Hrow.
  assert (Hlt : row < length (vectors (extractValidEmbeddings data))).
  { rewrite extract_lengths. apply nth_error_Some. congruence. }
  split; [exact Hlt|].
  assert (Hne : vectors (extractValidEmbeddings data) <> []).
  { intros H. rewrite H in Hlt. simpl in Hlt. lia. }
  rewrite (runDbscan_rows data eps minPts Hne).
  assert (Hidx : idx < length data).
  { pose proof (arrayPositions_bounds data 0) as Hb. rewrite Forall_forall in Hb.
    rewrite extract_indices in Hrow. apply nth_error_In in Hrow. apply Hb in Hrow. lia. }
  rewrite (nth_indep _ 0%Z (-1)%Z) by (rewrite fullLabels_length; exact Hidx).
  unfold fullLabels, Js.foldIdx.
  rewrite (fullLabels_nth_from _ (indices (extractValidEmbeddings data)) 0
             (repeat (-1)%Z (length data))) with (j := row).
  - reflexivity.
  - rewrite extract_indices. apply arrayPositions_NoDup.
  - rewrite extract_indices, repeat_length.
    pose proof (arrayPositions_bounds data 0) as Hb.
    eapply Forall_impl; [|exact Hb]. simpl. intros a Ha. lia.
  - exact Hrow.
Qed.

(** X12: [runDbscan] labels a kept record [-1] exactly when its row is
    neither a core row (a row with at least [minPts] rows within [eps],
    itself included) nor within [eps] of a core row. *)
Theorem runDbscan_noise_iff_far_from_core (data : list RuntimeNode) (eps : float) (minPts : Z)
    (row idx : nat)
    (Hrow : nth_error (indices (extractValidEmbeddings data)) row = Some idx) :
  nth idx (labels (runDbscan data eps minPts)) 0%Z = (-1)%Z <->
  nearCore (vectors (extractValidEmbeddings data)) eps minPts row = false.
Proof.
  destruct (runDbscan_row_label data eps minPts row idx Hrow) as [Hlt Heq].
  rewrite Heq. apply dbscanLabels_noise. exact Hlt.
Qed.

Lemma runDbscan_noise_iff_far_from_core_witness :
  nth 3 (labels (runDbscan [Some [JsNumber 0]; None; Some [JsNumber 1]; Some [JsNumber 9]]
                   2 2)) 0%Z = (-1)%Z <->
  nearCore (vectors (extractValidEmbeddings
                       [Some [JsNumber 0]; None; Some [JsNumber 1]; Some [JsNumber 9]]))
    2 2 2 = false.
Proof.
  apply (runDbscan_noise_iff_far_from_core
           [Some [JsNumber 0]; None; Some [JsNumber 1]; Some [JsNumber 9]] 2 2 2 3).
  reflexivity.
Defined.

(** X13: with [minPts <= 0] every row is a core row, and [runDbscan] puts
    every record whose embedding is an array with at least one element
    into a cluster, whatever [eps] is. *)
Theorem runDbscan_no_threshold_no_noise (data : list RuntimeNode) (eps : float) (minPts : Z)
    (idx : nat) (HminPts : (minPts <= 0)%Z) (Hkept : hasEmbedding data idx = true) :
  (0 <= nth idx (labels (runDbscan data eps minPts)) 0%Z)%Z.
Proof.
  apply hasEmbedding_indices in Hkept.
  destruct (In_nth_error _ _ Hkept) as [row Hrow].
  destruct (runDbscan_row_label data eps minPts row idx Hrow) as [Hlt Heq].
  destruct (dbscanLabels_noise (vectors (extractValidEmbeddings data)) eps minPts row Hlt)
    as [Hlen Hiff].
  assert (Hnear : nearCore (vectors (extractValidEmbeddings data)) eps minPts row = true).
  { apply nearCore_iff. exists row. split; [exact Hlt|]. split; [|left; reflexivity].
    unfold isCore. apply Z.leb_le. lia. }
  pose proof (dbscanLabels_inv (vectors (extractValidEmbeddings data)) eps minPts) as Hinv.
  destruct Hinv as (Hc & Hl & _ & Hdom & _).
  rewrite Heq. rewrite Forall_forall in Hdom.
  destruct (Hdom (nth row (fst (fst (dbscanLabels (vectors (extractValidEmbeddings data))
                                       eps minPts))) (-1)%Z)) as [E|E].
  - apply nth_In. rewrite Hlen. exact Hlt.
  - apply Hiff in E. congruence.
  - lia.
Qed.

Lemma runDbscan_no_threshold_no_noise_witness :
  (0 <= nth 2 (labels (runDbscan
                         [Some [JsNumber 0]; Some [JsHole]; Some [JsHole; JsNumber 9]] 1 0))
          0%Z)%Z.
Proof.
  apply (runDbscan_no_threshold_no_noise
           [Some [JsNumber 0]; Some [JsHole]; Some [JsHole; JsNumber 9]] 1 0 2).
  - lia.
  - reflexivity.
Defined.

(** ** K-Means: the labels when the loop stops before the cap *)

Section KMeansConverged.

Context {T : Type} (ops : NumOps T).
Variable vectors : list (list T).
Variable dimension : nat.

(** After the assignment pass every row carries the centroid the scan of
    the source picks for it. *)
Lemma assignLabels_nearest (centroids : list (list T)) (labels : list nat) (i : nat) :
  length labels = length vectors -> i < length vectors ->
  nth i (fst (assignLabels ops vectors centroids labels)) 0 =
  nearestCentroid ops vectors centroids i.
Proof.
  intros Hlen Hi. unfold assignLabels.
  assert (Hinv :
    forall k, k <= length vectors ->
      let st := Js.forRange 0 k
        (fun i (st : list nat * bool) =>
           let bestCluster := nearestCentroid ops vectors centroids i in
           if Nat.eqb (nth i (fst st) 0) bestCluster then st
           else (Js.set i bestCluster (fst st), true)) (labels, false) in
      length (fst st) = length vectors /\
      forall i', i' < k ->
        nth i' (fst st) 0 = nearestCentroid ops vectors centroids i').
  { induction k as [|k IH]; intros Hk.
    - split; [exact Hlen | intros i' Hi'; lia].
    - unfold Js.forRange in *. rewrite seq_S, fold_left_app. cbn [fold_left Nat.add].
      specialize (IH ltac:(lia)). cbv zeta in IH. destruct IH as [IHlen IHnth].
      set (st := fold_left _ (seq 0 k) (labels, false)) in *.
      destruct (Nat.eqb (nth k (fst st) 0) (nearestCentroid ops vectors centroids k)) eqn:E.
      + split; [exact IHlen|]. intros i' Hi'.
        destruct (Nat.eq_dec i' k) as [->|Hne]; [apply Nat.eqb_eq; exact E | apply IHnth; lia].
      + cbn [fst]. split; [rewrite set_length; exact IHlen|]. intros i' Hi'.
        rewrite set_nth. destruct (Nat.eq_dec i' k) as [->|Hne].
        * rewrite Nat.eqb_refl. replace (Nat.ltb k (length (fst st))) with true; [reflexivity|].
          symmetry. apply Nat.ltb_lt. lia.
        * replace (Nat.eqb i' k) with false by (symmetry; apply Nat.eqb_neq; exact Hne).
          apply IHnth. lia. }
  specialize (Hinv (length vectors) (Nat.le_refl _)). cbv zeta in Hinv. apply Hinv. exact Hi.
Qed.

Lemma kmeansLoop_converged (remaining iterations : nat) (labels : list nat)
    (centroids : list (list T)) (i : nat) :
  length labels = length vectors -> i < length vectors ->
  snd (kmeansLoop ops vectors dimension remaining iterations labels centroids)
  < iterations + remaining ->
  nth i (fst (fst (kmeansLoop ops vectors dimension remaining iterations labels centroids))) 0
  = nearestCentroid ops vectors
      (snd (fst (kmeansLoop ops vectors dimension remaining iterations labels centroids))) i.
Proof.
  revert iterations labels centroids.
  induction remaining as [|r IH]; intros iterations labels centroids Hlen Hi; simpl; [lia|].
  pose proof (assignLabels_nearest centroids labels i Hlen Hi) as Hnear.
  pose proof (assignLabels_keeps_length ops vectors centroids labels) as Hkeep.
  destruct (assignLabels ops vectors centroids labels) as [labels1 changed].
  cbn [fst] in *. destruct changed.
  - intros Hit. apply IH; [congruence | exact Hi | lia].
  - intros _. exact Hnear.
Qed.

End KMeansConverged.

(** X14: when [runKMeans] returns a centroid and stops before the cap
    [maxIterations], the labels it returns are consistent with the centroids
    it returns: every kept record carries the centroid that the assignment
    scan picks for its row among the returned centroids. *)
Theorem runKMeans_converged_labels (data : list RuntimeNode) (k : Z) (maxIterations : nat)
    (performed row idx : nat)
    (Hcentroids : centroids (runKMeans data k maxIterations) <> [])
    (Hiterations : iterations (runKMeans data k maxIterations) = Some performed)
    (Hstopped : performed < maxIterations)
    (Hrow : nth_error (indices (extractValidEmbeddings data)) row = Some idx) :
  nth idx (labels (runKMeans data k maxIterations)) (-1)%Z
  = Z.of_nat (nearestCentroid floatOps (vectors (extractValidEmbeddings data))
                (centroids (runKMeans data k maxIterations)) row).
Proof.
  assert (Hlt : row < length (vectors (extractValidEmbeddings data))).
  { rewrite extract_lengths. apply nth_error_Some. congruence. }
  revert Hcentroids Hiterations. unfold runKMeans.
  destruct (Nat.eqb (length data) 0); [intros H; exfalso; apply H; reflexivity|].
  destruct (_ || _); [intros H; exfalso; apply H; reflexivity|].
  destruct (Nat.eqb (length (initialCentroids _ _)) 0);
    [intros H; exfalso; apply H; reflexivity|].
  set (valid := extractValidEmbeddings data) in *.
  pose proof (kmeansLoop_converged floatOps (vectors valid) (dimension valid) maxIterations 0
                (repeat 0 (length (vectors valid))) (initialCentroids (vectors valid) k) row
                (repeat_length _ _) Hlt) as Hconv.
  pose proof (kmeansLoop_keeps_length floatOps (vectors valid) (dimension valid)
                maxIterations 0 (repeat 0 (length (vectors valid)))
                (initialCentroids (vectors valid) k)) as Hlen.
  destruct (kmeansLoop _ _ _ _ _ _ _) as [[labels' centroids'] iterations'].
  cbn [fst snd labels centroids iterations] in *. rewrite repeat_length in Hlen.
  intros _ Hit. injection Hit as ->.
  unfold fullLabels, Js.foldIdx.
  rewrite (fullLabels_nth_from _ (indices valid) 0 (repeat (-1)%Z (length data)))
    with (j := row).
  - simpl.
    rewrite (nth_indep _ (-1)%Z (Z.of_nat 0)) by (rewrite length_map, Hlen; exact Hlt).
    rewrite map_nth. f_equal. apply Hconv. simpl. exact Hstopped.
  - unfold valid. rewrite extract_indices. apply arrayPositions_NoDup.
  - unfold valid. rewrite extract_indices, repeat_length.
    pose proof (arrayPositions_bounds data 0) as Hb.
    eapply Forall_impl; [|exact Hb]. simpl. intros a Ha. lia.
  - exact Hrow.
Qed.

Lemma runKMeans_converged_labels_witness :
  nth 2 (labels (runKMeans (batch [[0; 0]; [1; 1]; [8; 8]; [9; 9]]%float) 2 40)) (-1)%Z
  = Z.of_nat (nearestCentroid floatOps
                (vectors (extractValidEmbeddings
                            (batch [[0; 0]; [1; 1]; [8; 8]; [9; 9]]%float)))
                (centroids (runKMeans (batch [[0; 0]; [1; 1]; [8; 8]; [9; 9]]%float) 2 40))
                2).
Proof.
  apply (runKMeans_converged_labels (batch [[0; 0]; [1; 1]; [8; 8]; [9; 9]]%float) 2 40 2 2 2).
  - vm_compute. discriminate.
  - vm_compute. reflexivity.
  - lia.
  - reflexivity.
Defined.

(** ** The cluster count shown by the Graph component *)

Lemma distinctCount_of (labels expected : list Z) :
  NoDup expected ->
  (forall c, In c labels <-> In c expected) ->
  distinctCount labels = length expected.
Proof.
  intros Hnd Hiff. unfold distinctCount.
  apply Permutation_length. apply NoDup_Permutation.
  - apply NoDup_nodup.
  - exact Hnd.
  - intros c. rewrite nodup_In. apply Hiff.
Qed.

Lemma distinctCount_le (labels allowed : list Z) :
  (forall c, In c labels -> In c allowed) ->
  distinctCount labels <= length allowed.
Proof.
  intros Hincl. unfold distinctCount. apply NoDup_incl_length.
  - apply NoDup_nodup.
  - intros c Hc. apply nodup_In in Hc. apply Hincl. exact Hc.
Qed.

Lemma clusterIds_NoDup (m : nat) : NoDup (map Z.of_nat (seq 0 m)).
Proof.
  apply Finite.Injective_map_NoDup; [|apply seq_NoDup].
  intros a b H. lia.
Qed.

Lemma clusterIds_In (m : nat) (c : Z) :
  In c (map Z.of_nat (seq 0 m)) <-> (0 <= c < Z.of_nat m)%Z.
Proof.
  rewrite in_map_iff. split.
  - intros [a [<- Ha]]. apply in_seq in Ha. lia.
  - intros H. exists (Z.to_nat c). split; [lia | apply in_seq; lia].
Qed.

Lemma skipped_record_iff (baseNodes : list SemanticNode) :
  existsb (fun n => Nat.eqb (length (embedding n)) 0) baseNodes = true <->
  exists idx, idx < length (map runtimeNode baseNodes) /\
              hasEmbedding (map runtimeNode baseNodes) idx = false.
Proof.
  unfold hasEmbedding. rewrite existsb_exists. split.
  - intros [n [Hin Hlen]]. apply In_nth_error in Hin as [idx Hidx]. exists idx.
    split; [rewrite length_map; apply nth_error_Some; congruence|].
    rewrite nth_error_map, Hidx. simpl. unfold runtimeNode.
    apply Nat.eqb_eq in Hlen. destruct (embedding n); [reflexivity | discriminate].
  - intros [idx [Hidx Hno]]. rewrite length_map in Hidx.
    destruct (nth_error baseNodes idx) as [n|] eqn:E;
      [|apply nth_error_None in E; lia].
    exists n. split; [eapply nth_error_In; exact E|].
    rewrite nth_error_map, E in Hno. simpl in Hno. unfold runtimeNode in Hno.
    destruct (embedding n); [reflexivity | discriminate].
Qed.

Lemma clusterCountDisplay_dbscan (data : list RuntimeNode) (eps : float) (minPts : Z) :
  clusterCountDisplay dbscan (runDbscan data eps minPts)
  = length (centroids (runDbscan data eps minPts)).
Proof.
  unfold clusterCountDisplay.
  destruct (runDbscan_labels data eps minPts) as [Hdom Hcover].
  unfold labelsInDomain in Hdom. rewrite Forall_forall in Hdom.
  rewrite (distinctCount_of _ (map Z.of_nat
                                 (seq 0 (length (centroids (runDbscan data eps minPts)))))).
  - rewrite length_map, length_seq. reflexivity.
  - apply clusterIds_NoDup.
  - intros c. rewrite clusterIds_In, filter_In. split.
    + intros [Hin Hc]. destruct (Hdom c Hin) as [->|H]; [discriminate | exact H].
    + intros H. split; [apply Hcover; exact H|].
      destruct (Z.eqb_spec c (-1)%Z); [lia | reflexivity].
Qed.

Lemma clusterCountDisplay_agglomerative (baseNodes : list SemanticNode) (target : Z) :
  (1 <= target)%Z ->
  clusterCountDisplay agglomerative (runAgglomerative (map runtimeNode baseNodes) target)
  = length (centroids (runAgglomerative (map runtimeNode baseNodes) target))
    + (if existsb (fun n => Nat.eqb (length (embedding n)) 0) baseNodes then 1 else 0).
Proof.
  intros Htarget. unfold clusterCountDisplay.
  set (data := map runtimeNode baseNodes).
  pose proof (runAgglomerative_labelsInDomain data target) as Hdom.
  unfold labelsInDomain in Hdom. rewrite Forall_forall in Hdom.
  set (m := length (centroids (runAgglomerative data target))) in *.
  assert (Hnoise : In (-1)%Z (labels (runAgglomerative data target)) <->
                   existsb (fun n => Nat.eqb (length (embedding n)) 0) baseNodes = true).
  { rewrite skipped_record_iff. fold data. split.
    - intros Hin. apply In_nth with (d := 0%Z) in Hin as [idx [Hidx Hnth]].
      rewrite runAgglomerative_labels_length in Hidx. exists idx. split; [exact Hidx|].
      apply (runAgglomerative_noise_skipped data target idx Htarget Hidx). exact Hnth.
    - intros [idx [Hidx Hno]].
      apply (runAgglomerative_noise_skipped data target idx Htarget Hidx) in Hno.
      rewrite <- Hno. apply nth_In. rewrite runAgglomerative_labels_length. exact Hidx. }
  destruct (existsb _ baseNodes).
  - rewrite (distinctCount_of _ ((-1)%Z :: map Z.of_nat (seq 0 m))).
    + simpl. rewrite length_map, length_seq. lia.
    + constructor; [rewrite clusterIds_In; lia | apply clusterIds_NoDup].
    + intros c. simpl. rewrite clusterIds_In. split.
      * intros Hin. destruct (Hdom c Hin) as [->|H]; [left; reflexivity | right; exact H].
      * intros [<-|H]; [apply Hnoise; reflexivity|].
        replace c with (Z.of_nat (Z.to_nat c)) by lia.
        apply runAgglomerative_every_cluster_used; [exact Htarget | fold m; lia].
  - rewrite (distinctCount_of _ (map Z.of_nat (seq 0 m))).
    + rewrite length_map, length_seq. lia.
    + apply clusterIds_NoDup.
    + intros c. rewrite clusterIds_In. split.
      * intros Hin. destruct (Hdom c Hin) as [->|H]; [|exact H].
        apply Hnoise in Hin. discriminate.
      * intros H. replace c with (Z.of_nat (Z.to_nat c)) by lia.
        apply runAgglomerative_every_cluster_used; [exact Htarget | fold m; lia].
Qed.

(** X15: the cluster count that the Graph component displays.  For DBSCAN
    it is the number of centroids.  For the agglomerative clustering it is
    the number of centroids, plus one when some record has an empty
    embedding: the label [-1] of the skipped records is counted as a
    cluster.  For K-Means it is at most the number of centroids plus
    one. *)
Theorem clusterCountDisplay_counts (baseNodes : list SemanticNode) (clusterCount : Z)
    (dbscanEps : float) (dbscanMinPts : Z) :
  let result algorithm :=
    clustering algorithm baseNodes clusterCount dbscanEps dbscanMinPts in
  clusterCountDisplay dbscan (result dbscan) = length (centroids (result dbscan)) /\
  clusterCountDisplay agglomerative (result agglomerative)
  = length (centroids (result agglomerative))
    + (if existsb (fun n => Nat.eqb (length (embedding n)) 0) baseNodes then 1 else 0) /\
  clusterCountDisplay kmeans (result kmeans) <= length (centroids (result kmeans)) + 1.
Proof.
  intros result. unfold result, clustering.
  split; [apply clusterCountDisplay_dbscan|].
  split; [apply clusterCountDisplay_agglomerative; lia|].
  unfold clusterCountDisplay.
  set (data := map runtimeNode baseNodes).
  set (target := Z.max 2 (Z.min clusterCount 24)).
  pose proof (runKMeans_labelsInDomain data target defaultMaxIterations) as Hdom.
  unfold labelsInDomain in Hdom. rewrite Forall_forall in Hdom.
  set (m := length (centroids (runKMeans data target defaultMaxIterations))) in *.
  etransitivity; [apply (distinctCount_le _ ((-1)%Z :: map Z.of_nat (seq 0 m)))|].
  - intros c Hin. simpl. rewrite clusterIds_In.
    destruct (Hdom c Hin) as [->|H]; [left; reflexivity | right; exact H].
  - simpl. rewrite length_map, length_seq. lia.
Qed.

(** ** The records drawn by the Graph component *)

Lemma enrichedNodes_from (baseNodes : list SemanticNode) (projected : list Point)
    (labels : list Z) (i j : nat) (n : ProjectedNode) :
  nth_error
    (Js.mapIdxFrom
       (fun node idx =>
          {| node := node;
             x := match nth_error projected idx with Some p => px p | None => PrimFloat.zero end;
             y := match nth_error projected idx with Some p => py p | None => PrimFloat.zero end;
             clusterId :=
               match nth_error labels idx with Some label => label | None => (-1)%Z end |})
       i baseNodes) j = Some n ->
  nth_error baseNodes j = Some (node n) /\
  x n = match nth_error projected (i + j) with Some p => px p | None => PrimFloat.zero end /\
  y n = match nth_error projected (i + j) with Some p => py p | None => PrimFloat.zero end /\
  clusterId n = match nth_error labels (i + j) with Some label => label | None => (-1)%Z end.
Proof.
  revert i j. induction baseNodes as [|b rest IH]; intros i j; simpl.
  - destruct j; discriminate.
  - destruct j as [|j]; simpl.
    + intros H. injection H as <-. simpl. rewrite Nat.add_0_r. repeat split.
    + intros H. replace (i + S j) with (S i + j) by lia. apply IH. exact H.
Qed.

(** X16: in the Graph component the fallbacks [?? 0] and [?? -1] of
    [enrichedNodes] are never taken: there is one enriched record per base
    record, in order, and record [i] carries exactly the [i]-th projected
    point and the [i]-th label of the clustering. *)
Theorem graphNodes_aligned (random : nat -> float) (algorithm : Algorithm)
    (baseNodes : list SemanticNode) (clusterCount : Z) (dbscanEps : float)
    (dbscanMinPts : Z) :
  let nodes := graphNodes random algorithm baseNodes clusterCount dbscanEps dbscanMinPts in
  map node nodes = baseNodes /\
  map (fun n => {| px := x n; py := y n |}) nodes = projected (projectTo2D random baseNodes) /\
  map clusterId nodes
  = labels (clustering algorithm baseNodes clusterCount dbscanEps dbscanMinPts).
Proof.
  intros nodes. unfold nodes, graphNodes.
  set (points := projected (projectTo2D random baseNodes)).
  set (labels' := labels (clustering algorithm baseNodes clusterCount dbscanEps dbscanMinPts)).
  assert (Hpoints : length points = length baseNodes).
  { unfold points. destruct baseNodes as [|first rest]; [reflexivity|].
    destruct (projectTo2D_shape random first rest) as (c1 & c2 & w1 & w2 & _ & _ & _ & _ & _ & H).
    exact H. }
  assert (Hlabels : length labels' = length baseNodes).
  { unfold labels', clustering. rewrite <- (length_map runtimeNode baseNodes).
    destruct algorithm.
    - apply runKMeans_labels_length.
    - apply runAgglomerative_labels_length.
    - apply runDbscan_labels_length. }
  assert (Hlen : length (enrichedNodes baseNodes points labels') = length baseNodes).
  { unfold enrichedNodes, Js.mapIdx. apply mapIdxFrom_length. }
  assert (Hnth : forall j n, nth_error (enrichedNodes baseNodes points labels') j = Some n ->
                   nth_error baseNodes j = Some (node n) /\
                   nth_error points j = Some {| px := x n; py := y n |} /\
                   nth_error labels' j = Some (clusterId n)).
  { intros j n Hn.
    assert (Hj : j < length baseNodes).
    { rewrite <- Hlen. apply nth_error_Some. congruence. }
    apply enrichedNodes_from in Hn as (H1 & H2 & H3 & H4). simpl in H2, H3, H4.
    split; [exact H1|].
    destruct (nth_error points j) as [[ppx ppy]|] eqn:Ep;
      [|apply nth_error_None in Ep; lia].
    destruct (nth_error labels' j) as [label|] eqn:El;
      [|apply nth_error_None in El; lia].
    simpl in H2, H3. subst. split; reflexivity. }
  split; [|split].
  - apply nth_error_ext. intros j. rewrite nth_error_map.
    destruct (nth_error (enrichedNodes baseNodes points labels') j) as [n|] eqn:E.
    + destruct (Hnth j n E) as [H _]. rewrite H. reflexivity.
    + apply nth_error_None in E. simpl. symmetry. apply nth_error_None. lia.
  - apply nth_error_ext. intros j. rewrite nth_error_map.
    destruct (nth_error (enrichedNodes baseNodes points labels') j) as [n|] eqn:E.
    + destruct (Hnth j n E) as [_ [H _]]. rewrite H. reflexivity.
    + apply nth_error_None in E. simpl. symmetry. apply nth_error_None. lia.
  - apply nth_error_ext. intros j. rewrite nth_error_map.
    destruct (nth_error (enrichedNodes baseNodes points labels') j) as [n|] eqn:E.
    + destruct (Hnth j n E) as [_ [_ H]]. rewrite H. reflexivity.
    + apply nth_error_None in E. simpl. symmetry. apply nth_error_None. lia.
Qed.

(** ** The generated records *)

Lemma themes_centers : Forall (fun theme => length (center theme) = 8) themes.
Proof. repeat constructor. Qed.

Section GeneratorShape.

Variable sin : float -> float.

Lemma generateEmbedding_length (theme : Theme) (themeIndex : nat) (s : Z) :
  length (fst (generateEmbedding sin theme themeIndex s)) = length (center theme).
Proof.
  unfold generateEmbedding, Js.foldIdx.
  assert (H : forall values i (acc : list float * Z),
             length (fst (Js.foldIdxFrom
                            (fun (acc : list float * Z) value dimIndex =>
                               let '(r, s') := nextRandom (snd acc) in
                               (fst acc ++ [embeddingEntry sin theme themeIndex dimIndex value r],
                                s'))
                            i values acc))
             = length (fst acc) + length values).
  { induction values as [|v r IH]; intros i acc; simpl; [lia|].
    rewrite IH. destruct (nextRandom (snd acc)) as [x s']. simpl.
    rewrite length_app. simpl. lia. }
  rewrite H. reflexivity.
Qed.

Lemma generateNode_embedding (theme : Theme) (themeIndex i : nat) (s : Z) :
  length (embedding (fst (generateNode sin theme themeIndex i s))) = length (center theme).
Proof.
  unfold generateNode.
  destruct (nextRandom s) as [r1 s1]. destruct (nextRandom s1) as [r2 s2].
  pose proof (generateEmbedding_length theme themeIndex s2) as Hlen.
  destruct (generateEmbedding sin theme themeIndex s2) as [e s3]. cbn [fst] in Hlen.
  destruct (nextRandom _) as [r4 s4]. destruct (nextRandom s4) as [r5 s5].
  destruct (nextRandom s5) as [r6 s6]. destruct (nextRandom s6) as [r7 s7].
  exact Hlen.
Qed.

(** The inner loop adds records until it has run [perTheme] times or the
    array holds [count] records. *)
Lemma generate_theme (theme : Theme) (themeIndex count turns : nat)
    (nodes : list SemanticNode) (s : Z) :
  length (center theme) = 8 ->
  length nodes <= count ->
  Forall (fun n => length (embedding n) = 8) nodes ->
  let nodes' :=
    fst (fst (Js.forRange 0 turns
                (fun i (loop : list SemanticNode * Z * bool) =>
                   let '(nodes, s, stopped) := loop in
                   if stopped then loop
                   else if count <=? length nodes then (nodes, s, true)
                   else
                     let '(node, s') := generateNode sin theme themeIndex i s in
                     (nodes ++ [node], s', false))
                (nodes, s, false))) in
  length nodes' = Nat.min count (length nodes + turns) /\
  Forall (fun n => length (embedding n) = 8) nodes'.
Proof.
  intros Hcenter Hle Hall. cbv zeta.
  pose proof (forRange_counter
                (fun j (loop : list SemanticNode * Z * bool) =>
                   Forall (fun n => length (embedding n) = 8) (fst (fst loop)) /\
                   if snd loop
                   then length (fst (fst loop)) = count /\ count <= length nodes + j
                   else length (fst (fst loop)) = length nodes + j /\
                        length (fst (fst loop)) <= count)
                0 turns
                (fun i (loop : list SemanticNode * Z * bool) =>
                   let '(nodes, s, stopped) := loop in
                   if stopped then loop
                   else if count <=? length nodes then (nodes, s, true)
                   else
                     let '(node, s') := generateNode sin theme themeIndex i s in
                     (nodes ++ [node], s', false))
                (nodes, s, false)) as Hinv.
  cbv beta in Hinv. simpl Nat.add in Hinv.
  destruct Hinv as [Hforall Hlen].
  - simpl. split; [exact Hall | lia].
  - intros i [[nodes1 s1] stopped] _ [H1 H2]. cbn [fst snd] in *.
    destruct stopped; cbn [fst snd].
    + split; [exact H1 | lia].
    + destruct (Nat.leb_spec count (length nodes1)); cbn [fst snd].
      * split; [exact H1 | lia].
      * pose proof (generateNode_embedding theme themeIndex i s1) as Hnode.
        destruct (generateNode sin theme themeIndex i s1) as [node s']. cbn [fst snd] in *.
        split.
        -- apply Forall_app. split; [exact H1|]. constructor; [congruence | constructor].
        -- rewrite length_app. simpl. lia.
  - split; [|exact Hforall].
    destruct (snd (Js.forRange 0 turns _ (nodes, s, false))); lia.
Qed.

Lemma generate_themes (count : nat) (entries : list Theme) (themeIndex : nat)
    (nodes : list SemanticNode) (s : Z) :
  Forall (fun theme => length (center theme) = 8) entries ->
  length nodes <= count ->
  Forall (fun n => length (embedding n) = 8) nodes ->
  let nodes' :=
    fst (Js.foldIdxFrom
           (fun (st : list SemanticNode * Z) theme themeIndex =>
              fst
                (Js.forRange 0 (perTheme count)
                   (fun i (loop : list SemanticNode * Z * bool) =>
                      let '(nodes, s, stopped) := loop in
                      if stopped then loop
                      else if count <=? length nodes then (nodes, s, true)
                      else
                        let '(node, s') := generateNode sin theme themeIndex i s in
                        (nodes ++ [node], s', false))
                   (st, false)))
           themeIndex entries (nodes, s)) in
  length nodes' = Nat.min count (length nodes + length entries * perTheme count) /\
  Forall (fun n => length (embedding n) = 8) nodes'.
Proof.
  revert themeIndex nodes s.
  induction entries as [|theme rest IH]; intros themeIndex nodes s Hcenters Hle Hall.
  - simpl. split; [lia | exact Hall].
  - inversion Hcenters as [|? ? Hcenter Hrest]; subst.
    destruct (generate_theme theme themeIndex count (perTheme count) nodes s Hcenter Hle Hall)
      as [Hlen Hall']. cbv zeta in *.
    cbn [Js.foldIdxFrom].
    destruct (Js.forRange 0 (perTheme count) _ (nodes, s, false)) as [[nodes1 s1] stopped].
    cbn [fst snd] in *.
    destruct (IH (S themeIndex) nodes1 s1 Hrest ltac:(lia) Hall') as [IHlen IHall].
    cbv zeta in IHlen, IHall.
    split; [|exact IHall]. rewrite IHlen, Hlen. simpl length. lia.
Qed.

Lemma generateSemanticNodes_nodes (count : nat) (seed : Z) :
  length (generateSemanticNodes sin count seed)
  = Nat.min count (length themes * perTheme count) /\
  Forall (fun n => length (embedding n) = 8) (generateSemanticNodes sin count seed).
Proof.
  unfold generateSemanticNodes, Js.foldIdx.
  apply (generate_themes count themes 0 [] (createSeededRandom seed)).
  - exact themes_centers.
  - simpl. lia.
  - constructor.
Qed.

Lemma eight_entries_kept (nodes : list SemanticNode) :
  Forall (fun n => length (embedding n) = 8) nodes ->
  indices (extractValidEmbeddings (map runtimeNode nodes)) = seq 0 (length nodes) /\
  length (vectors (extractValidEmbeddings (map runtimeNode nodes))) = length nodes /\
  existsb (fun n => Nat.eqb (length (embedding n)) 0) nodes = false.
Proof.
  intros Hall.
  assert (Hbatch : map runtimeNode nodes = batch (map embedding nodes)).
  { unfold batch. rewrite map_map. reflexivity. }
  assert (Hne : Forall (fun row : list float => row <> []) (map embedding nodes)).
  { apply Forall_forall. intros row Hrow. apply in_map_iff in Hrow as [n [<- Hn]].
    rewrite Forall_forall in Hall. intros E. apply Hall in Hn. rewrite E in Hn. discriminate. }
  destruct (batch_positions (map embedding nodes) 0 Hne) as [Hpos _].
  rewrite length_map in Hpos.
  split; [rewrite extract_indices, Hbatch; exact Hpos|].
  split; [rewrite extract_lengths, extract_indices, Hbatch, Hpos; apply length_seq|].
  destruct (existsb _ nodes) eqn:E; [|reflexivity].
  apply existsb_exists in E as [n [Hn Hlen]]. rewrite Forall_forall in Hall.
  apply Hall in Hn. rewrite Hn in Hlen. discriminate.
Qed.

End GeneratorShape.

(** X17: whatever the seed, [generateSemanticNodes(count, seed)] returns
    [min(count, themes.length * perTheme)] records, which is [count] for the
    call [generateSemanticNodes(300)] of the Graph component, and every
    record has an embedding of exactly 8 numbers. *)
Theorem generateSemanticNodes_shape (sin : float -> float) (count : nat) (seed : Z) :
  length (generateSemanticNodes sin count seed)
  = Nat.min count (length themes * perTheme count) /\
  Forall (fun n => length (embedding n) = 8) (generateSemanticNodes sin count seed) /\
  length (generateSemanticNodes sin 300 seed) = 300.
Proof.
  destruct (generateSemanticNodes_nodes sin count seed) as [Hlen Hall].
  split; [exact Hlen|]. split; [exact Hall|].
  destruct (generateSemanticNodes_nodes sin 300 seed) as [H300 _].
  rewrite H300. vm_compute. reflexivity.
Qed.

(** X18: the Graph component never loses a generated record.  For every
    seed and count, the normalizer keeps every record that
    [generateSemanticNodes] returns; the agglomerative clustering of the
    component then returns exactly [min(safeClusterCount, n)] clusters for
    the [n] records, labels no record [-1], and the cluster count displayed
    is the number of centroids. *)
Theorem generated_nodes_all_clustered (sin : float -> float) (count : nat) (seed : Z)
    (clusterCount : Z) (dbscanEps : float) (dbscanMinPts : Z) :
  let baseNodes := generateSemanticNodes sin count seed in
  let result := clustering agglomerative baseNodes clusterCount dbscanEps dbscanMinPts in
  indices (extractValidEmbeddings (map runtimeNode baseNodes)) = seq 0 (length baseNodes) /\
  Z.of_nat (length (centroids result))
  = Z.min (Z.max 2 (Z.min clusterCount 24)) (Z.of_nat (length baseNodes)) /\
  Forall (fun label => (0 <= label)%Z) (labels result) /\
  clusterCountDisplay agglomerative result = length (centroids result).
Proof.
  intros baseNodes result. unfold result, clustering.
  set (target := Z.max 2 (Z.min clusterCount 24)).
  assert (Htarget : (1 <= target)%Z) by (unfold target; lia).
  destruct (generateSemanticNodes_nodes sin count seed) as [_ Hall]. fold baseNodes in Hall.
  destruct (eight_entries_kept baseNodes Hall) as (Hidx & Hrows & Hnone).
  split; [exact Hidx|].
  split; [rewrite runAgglomerative_count by exact Htarget; rewrite Hrows; reflexivity|].
  split.
  - apply Forall_forall. intros label Hin.
    apply In_nth with (d := 0%Z) in Hin as [idx [Hlt Hnth]].
    rewrite runAgglomerative_labels_length in Hlt.
    pose proof (runAgglomerative_labelsInDomain (map runtimeNode baseNodes) target) as Hdom.
    unfold labelsInDomain in Hdom. rewrite Forall_forall in Hdom.
    destruct (Hdom label) as [E|E]; [| |lia].
    + rewrite <- Hnth. apply nth_In. rewrite runAgglomerative_labels_length. exact Hlt.
    + exfalso. rewrite E in Hnth.
      apply (runAgglomerative_noise_skipped _ target idx Htarget Hlt) in Hnth.
      assert (Hin : In idx (indices (extractValidEmbeddings (map runtimeNode baseNodes)))).
      { rewrite Hidx. apply in_seq. rewrite length_map in Hlt. lia. }
      apply hasEmbedding_indices in Hin. congruence.
  - rewrite clusterCountDisplay_agglomerative by exact Htarget. rewrite Hnone. lia.
Qed.

(** ** The Projector on ragged input *)

Lemma nan_is_nan (x : float) : Prim2SF x = S754_nan -> PrimFloat.is_nan x = true.
Proof.
  intros H. unfold PrimFloat.is_nan. rewrite eqb_spec, H. reflexivity.
Qed.

Lemma add_nan_l (x y : float) : Prim2SF x = S754_nan -> Prim2SF (PrimFloat.add x y) = S754_nan.
Proof. intros H. rewrite add_spec, H. reflexivity. Qed.

Lemma add_nan_r (x y : float) : Prim2SF y = S754_nan -> Prim2SF (PrimFloat.add x y) = S754_nan.
Proof. intros H. rewrite add_spec, H. destruct (Prim2SF x); reflexivity. Qed.

Lemma sub_nan_r (x y : float) : Prim2SF y = S754_nan -> Prim2SF (PrimFloat.sub x y) = S754_nan.
Proof. intros H. rewrite sub_spec, H. destruct (Prim2SF x); reflexivity. Qed.

Lemma mul_nan_l (x y : float) : Prim2SF x = S754_nan -> Prim2SF (PrimFloat.mul x y) = S754_nan.
Proof. intros H. rewrite mul_spec, H. reflexivity. Qed.

Lemma addAt_nth_other (i j : nat) (v : float) (a : list float) :
  j <> i -> nth j (Js.addAt i v a) PrimFloat.nan = nth j a PrimFloat.nan.
Proof.
  revert i j. induction a as [|x r IH]; intros i j Hne.
  - revert j Hne. induction i as [|i IHi]; intros j Hne; simpl.
    + destruct j as [|[|j]]; [contradiction | reflexivity | reflexivity].
    + destruct j as [|j]; [reflexivity|]. rewrite IHi by lia. destruct j; reflexivity.
  - destruct i as [|i]; destruct j as [|j]; simpl; try reflexivity; try contradiction.
    apply IH. lia.
Qed.

Lemma addAt_nth_same (i : nat) (v : float) (a : list float) :
  Prim2SF (nth i a PrimFloat.nan) = S754_nan ->
  Prim2SF (nth i (Js.addAt i v a) PrimFloat.nan) = S754_nan.
Proof.
  revert i. induction a as [|x r IH]; intros i H.
  - clear H. induction i as [|i IHi]; simpl; [reflexivity | exact IHi].
  - destruct i as [|i]; simpl in *; [apply add_nan_l; exact H | apply IH; exact H].
Qed.

(** The entries of the mean beyond [dimension] are [NaN]: they are read as
    [undefined], or created by [mean[idx] += value] on a missing entry. *)
Lemma meanVector_beyond (data : list SemanticNode) (dimension idx : nat) :
  dimension <= idx ->
  Prim2SF (nth idx (meanVector data dimension) PrimFloat.nan) = S754_nan.
Proof.
  intros Hidx. unfold meanVector.
  apply (forRange_invariant
           (fun mean : list float => Prim2SF (nth idx mean PrimFloat.nan) = S754_nan)).
  - apply (fold_left_invariant
             (fun mean : list float => Prim2SF (nth idx mean PrimFloat.nan) = S754_nan)).
    + rewrite nth_overflow by (rewrite repeat_length; exact Hidx). reflexivity.
    + intros mean node _ Hmean. unfold Js.foldIdx.
      apply (foldIdxFrom_invariant
               (fun mean : list float => Prim2SF (nth idx mean PrimFloat.nan) = S754_nan)).
      * exact Hmean.
      * intros m value j _ Hm. destruct (Nat.eq_dec idx j) as [<-|Hne].
        -- apply addAt_nth_same. exact Hm.
        -- rewrite addAt_nth_other by exact Hne. exact Hm.
  - intros i mean Hi Hmean. rewrite set_nth.
    destruct (Nat.eqb_spec idx i); [lia|]. exact Hmean.
Qed.

Lemma dotProduct_nan_from (vecB : list float) (vecA : list float) (i : nat) (acc : float) :
  Prim2SF acc = S754_nan \/ (exists val, In val vecA /\ Prim2SF val = S754_nan) ->
  Prim2SF
    (Js.foldIdxFrom
       (fun acc val idx =>
          PrimFloat.add acc
            (PrimFloat.mul val
               (match nth_error vecB idx with Some b => b | None => PrimFloat.zero end)))
       i vecA acc) = S754_nan.
Proof.
  revert i acc. induction vecA as [|v r IH]; intros i acc H; simpl.
  - destruct H as [H|[val [[] _]]]. exact H.
  - apply IH. destruct H as [H|[val [[<-|Hin] Hval]]].
    + left. apply add_nan_l. exact H.
    + left. apply add_nan_r, mul_nan_l. exact Hval.
    + right. exists val. split; assumption.
Qed.

(** X19: [projectTo2D] gives a record whose embedding has more entries than
    the embedding of the first record the coordinates [(NaN, NaN)]: the
    extra entries are centred with [undefined] entries of the mean. *)
Theorem projectTo2D_long_embedding_nan (random : nat -> float) (data : list SemanticNode)
    (i : nat) (node : SemanticNode)
    (Hnode : nth_error data i = Some node)
    (Hlong : projectorDimension data < length (embedding node)) :
  exists p, nth_error (projected (projectTo2D random data)) i = Some p /\
            PrimFloat.is_nan (px p) = true /\ PrimFloat.is_nan (py p) = true.
Proof.
  destruct data as [|first rest]; [destruct i; discriminate|].
  unfold projectorDimension in Hlong. unfold projectTo2D.
  set (dimension := length (embedding first)) in *.
  set (mean := meanVector (first :: rest) dimension).
  set (centered := centerRows (first :: rest) mean).
  destruct (powerIteration random _ [] 120 0) as [[e1 c1] drawn].
  destruct (powerIteration random _ [c1] 120 drawn) as [[e2 c2] drawn'].
  cbn [projected].
  set (row := Js.mapIdx (fun value idx => PrimFloat.sub value (nth idx mean PrimFloat.nan))
                (embedding node)).
  assert (Hrow : nth_error centered i = Some row).
  { unfold centered, centerRows. rewrite nth_error_map, Hnode. reflexivity. }
  assert (Hnan : exists val, In val row /\ Prim2SF val = S754_nan).
  { destruct (nth_error (embedding node) dimension) as [value|] eqn:E;
      [|apply nth_error_None in E; lia].
    exists (PrimFloat.sub value (nth dimension mean PrimFloat.nan)). split.
    - apply (nth_error_In row dimension). unfold row, Js.mapIdx.
      rewrite mapIdxFrom_nth_error, E. reflexivity.
    - apply sub_nan_r. apply meanVector_beyond. lia. }
  rewrite nth_error_map, Hrow. simpl.
  eexists. split; [reflexivity|]. simpl.
  split; apply nan_is_nan; unfold dotProduct, Js.foldIdx; apply dotProduct_nan_from;
    right; exact Hnan.
Qed.

Lemma projectTo2D_long_embedding_nan_witness :
  exists p, nth_error (projected (projectTo2D drawsA [record [1; 2]; record [3; 4; 5]]%float)) 1
            = Some p /\
            PrimFloat.is_nan (px p) = true /\ PrimFloat.is_nan (py p) = true.
Proof.
  apply (projectTo2D_long_embedding_nan drawsA [record [1; 2]; record [3; 4; 5]]%float 1
           (record [3; 4; 5]%float)).
  - reflexivity.
  - simpl. lia.
Defined.

Lemma mul_nan_r (x y : float) : Prim2SF y = S754_nan -> Prim2SF (PrimFloat.mul x y) = S754_nan.
Proof. intros H. rewrite mul_spec, H. destruct (Prim2SF x); reflexivity. Qed.

Lemma sub_nan_l (x y : float) : Prim2SF x = S754_nan -> Prim2SF (PrimFloat.sub x y) = S754_nan.
Proof. intros H. rewrite sub_spec, H. reflexivity. Qed.

Lemma div_nan_l (x y : float) : Prim2SF x = S754_nan -> Prim2SF (PrimFloat.div x y) = S754_nan.
Proof. intros H. rewrite div_spec, H. reflexivity. Qed.

Lemma addAt_nth_nan (i : nat) (v : float) (a : list float) :
  Prim2SF v = S754_nan -> Prim2SF (nth i (Js.addAt i v a) PrimFloat.nan) = S754_nan.
Proof.
  intros Hv. revert i. induction a as [|x r IH]; intros i.
  - induction i as [|i IHi]; simpl; [reflexivity | exact IHi].
  - destruct i as [|i]; simpl; [apply add_nan_r; exact Hv | apply IH].
Qed.

Lemma forRange_establish {S : Type} (P : S -> Prop) (lo n k : nat)
    (body : nat -> S -> S) (s : S) :
  lo <= k < lo + n ->
  (forall i st, P st -> P (body i st)) ->
  (forall st, P (body k st)) ->
  P (Js.forRange lo n body s).
Proof.
  intros Hk Hkeep Hmake. induction n as [|n IH]; [lia|].
  rewrite forRange_S. destruct (Nat.eq_dec k (lo + n)) as [->|Hne].
  - apply Hmake.
  - apply Hkeep. apply IH. lia.
Qed.

Lemma fold_left_establish {A S : Type} (P : S -> Prop) (f : S -> A -> S)
    (l : list A) (s : S) (x : A) :
  In x l ->
  (forall st y, P st -> P (f st y)) ->
  (forall st, P (f st x)) ->
  P (fold_left f l s).
Proof.
  intros Hin Hkeep Hmake. revert s. induction l as [|y r IH]; intros s; [contradiction|].
  simpl. destruct Hin as [->|Hin].
  - apply fold_left_invariant; [apply Hmake | intros st z _; apply Hkeep].
  - apply IH. exact Hin.
Qed.

Lemma addAt2_keep (a : list (list float)) (i j i0 j0 : nat) (v : float) :
  nanEntry a i0 j0 -> nanEntry (addAt2 i j v a) i0 j0.
Proof.
  unfold nanEntry, addAt2. intros H. rewrite set_nth.
  destruct (Nat.eqb_spec i0 i) as [->|Hi]; [|exact H].
  destruct (Nat.ltb i (length a)); [|exact H]. simpl.
  destruct (Nat.eq_dec j0 j) as [->|Hj].
  - apply addAt_nth_same. exact H.
  - rewrite addAt_nth_other by exact Hj. exact H.
Qed.

Lemma addAt2_make (a : list (list float)) (i j : nat) (v : float) :
  Prim2SF v = S754_nan -> nanEntry (addAt2 i j v a) i j.
Proof.
  unfold nanEntry, addAt2. intros Hv. rewrite set_nth, Nat.eqb_refl.
  destruct (Nat.ltb_spec i (length a)); simpl.
  - apply addAt_nth_nan. exact Hv.
  - rewrite (nth_overflow a) by assumption. destruct j; reflexivity.
Qed.

Lemma set2_keep (a : list (list float)) (i j i0 j0 : nat) (v : float) :
  nanEntry a i0 j0 ->
  (i = i0 -> j = j0 -> Prim2SF v = S754_nan) ->
  nanEntry (set2 i j v a) i0 j0.
Proof.
  unfold nanEntry, set2. intros H Hv. rewrite set_nth.
  destruct (Nat.eqb_spec i0 i) as [->|Hi]; [|exact H].
  destruct (Nat.ltb i (length a)); [|exact H]. simpl. rewrite set_nth.
  destruct (Nat.eqb_spec j0 j) as [->|Hj]; [|exact H].
  destruct (Nat.ltb j (length (nth i a []))); [|exact H]. simpl.
  apply Hv; reflexivity.
Qed.

(** A centered row shorter than [dimension] leaves [NaN] in the last
    column of the covariance matrix. *)
Lemma covarianceMatrix_nan (centered : list (list float)) (dimension dataLength : nat)
    (short : list float) (i : nat) :
  In short centered -> length short < dimension -> i < dimension ->
  nanEntry (covarianceMatrix centered dimension dataLength) i (dimension - 1).
Proof.
  intros Hin Hshort Hi. unfold covarianceMatrix.
  apply forRange_invariant.
  - apply fold_left_establish with (x := short); [exact Hin | |].
    + intros cov vector Hcov. apply forRange_invariant; [exact Hcov|].
      intros i1 cov1 _ Hcov1. apply forRange_invariant; [exact Hcov1|].
      intros j1 cov2 _ Hcov2. apply addAt2_keep. exact Hcov2.
    + intros cov. apply forRange_establish with (k := i); [lia | |].
      * intros i1 cov1 Hcov1. apply forRange_invariant; [exact Hcov1|].
        intros j1 cov2 _ Hcov2. apply addAt2_keep. exact Hcov2.
      * intros cov1. apply forRange_establish with (k := dimension - 1); [lia | |].
        -- intros j1 cov2 Hcov2. apply addAt2_keep. exact Hcov2.
        -- intros cov2. apply addAt2_make. apply mul_nan_r.
           rewrite nth_overflow by lia. reflexivity.
  - intros i1 cov Hi1 Hcov. apply forRange_invariant; [exact Hcov|].
    intros j1 cov1 Hj1 Hcov1.
    apply set2_keep; [apply set2_keep; [exact Hcov1|]|].
    + intros -> ->. apply div_nan_l. exact Hcov1.
    + intros -> ->. assert (i = dimension - 1) as -> by lia.
      apply div_nan_l. exact Hcov1.
Qed.

Lemma addAt_keep_nan (i i0 : nat) (v : float) (a : list float) :
  Prim2SF (nth i0 a PrimFloat.nan) = S754_nan ->
  Prim2SF (nth i0 (Js.addAt i v a) PrimFloat.nan) = S754_nan.
Proof.
  intros H. destruct (Nat.eq_dec i0 i) as [->|Hne].
  - apply addAt_nth_same. exact H.
  - rewrite addAt_nth_other by exact Hne. exact H.
Qed.

Lemma mapIdxFrom_nan (f : float -> nat -> float) (i : nat) (l : list float) :
  (forall val k, Prim2SF val = S754_nan -> Prim2SF (f val k) = S754_nan) ->
  Forall (fun val => Prim2SF val = S754_nan) l ->
  Forall (fun val => Prim2SF val = S754_nan) (Js.mapIdxFrom f i l).
Proof.
  intros Hf Hall. revert i.
  induction Hall as [|val rest Hval Hrest IH]; intros i; simpl; constructor.
  - apply Hf. exact Hval.
  - apply IH.
Qed.

(** With [NaN] in the last column of every row of the matrix, one turn of
    the power iteration returns a vector of [NaN]s. *)
Lemma powerStep_nan (matrix orthogonalTo : list (list float)) (vector : list float) :
  0 < length matrix -> length vector = length matrix ->
  (forall i, i < length matrix -> nanEntry matrix i (length matrix - 1)) ->
  Forall (fun val => Prim2SF val = S754_nan) (powerStep matrix orthogonalTo vector).
Proof.
  intros Hpos Hlen Hnan. unfold powerStep, normalize.
  apply Forall_map.
  match goal with |- Forall _ ?l => assert (Hall : Forall (fun val => Prim2SF val = S754_nan) l) end.
  { apply fold_left_invariant.
    - apply Forall_nth. intros i d Hi.
      assert (Hlength :
        length (Js.forRange 0 (length matrix)
                  (fun i next =>
                     Js.forRange 0 (length matrix)
                       (fun j next =>
                          Js.addAt i
                            (PrimFloat.mul (nth j (nth i matrix []) PrimFloat.nan)
                               (nth j vector PrimFloat.nan)) next) next)
                  (repeat PrimFloat.zero (length vector))) = length matrix).
      { apply forRange_invariant; [rewrite repeat_length; exact Hlen|].
        intros i1 next Hi1 Hnext. apply forRange_invariant; [exact Hnext|].
        intros j1 next1 _ Hnext1. rewrite addAt_length; [exact Hnext1 | lia]. }
      rewrite Hlength in Hi. rewrite (nth_indep _ d PrimFloat.nan) by (rewrite Hlength; exact Hi).
      apply forRange_establish with (k := i); [lia | |].
      + intros i1 next Hnext. apply forRange_invariant; [exact Hnext|].
        intros j1 next1 _ Hnext1. apply addAt_keep_nan. exact Hnext1.
      + intros next. apply forRange_establish with (k := length matrix - 1); [lia | |].
        * intros j1 next1 Hnext1. apply addAt_keep_nan. exact Hnext1.
        * intros next1. apply addAt_nth_nan. apply mul_nan_l. apply Hnan. exact Hi.
    - intros next basis _ Hnext. unfold Js.mapIdx.
      apply mapIdxFrom_nan; [|exact Hnext].
      intros val k Hval. apply sub_nan_l. exact Hval. }
  eapply Forall_impl; [|exact Hall]. simpl. intros val Hval. apply div_nan_l. exact Hval.
Qed.

Lemma powerIteration_nan (random : nat -> float) (matrix orthogonalTo : list (list float))
    (iterations drawn : nat) :
  0 < length matrix ->
  (forall i, i < length matrix -> nanEntry matrix i (length matrix - 1)) ->
  let vector := snd (fst (powerIteration random matrix orthogonalTo (S iterations) drawn)) in
  length vector = length matrix /\ Forall (fun val => Prim2SF val = S754_nan) vector.
Proof.
  intros Hpos Hnan. unfold powerIteration. cbn [fst snd]. rewrite forRange_S.
  set (before := Js.forRange 0 iterations _ _).
  assert (Hlen : length before = length matrix).
  { unfold before. apply forRange_invariant.
    - rewrite normalize_length. unfold initialVector. rewrite length_map, length_seq.
      reflexivity.
    - intros i vector _ Hvector. apply powerStep_length. exact Hvector. }
  split; [apply powerStep_length; exact Hlen | apply powerStep_nan; assumption].
Qed.

Lemma dotProduct_nan_component (row component : list float) :
  row <> [] -> component <> [] ->
  Forall (fun val => Prim2SF val = S754_nan) component ->
  Prim2SF (dotProduct row component) = S754_nan.
Proof.
  intros Hrow Hcomponent Hall.
  destruct row as [|r0 rest]; [contradiction|].
  destruct component as [|b others]; [contradiction|].
  inversion Hall as [|? ? Hb _]; subst.
  unfold dotProduct, Js.foldIdx. cbn [Js.foldIdxFrom nth_error].
  apply dotProduct_nan_from. left. apply add_nan_r, mul_nan_r. exact Hb.
Qed.

(** X20: [projectTo2D] validates nothing: as soon as one record has an
    embedding with fewer entries than the embedding of the first record,
    every record with a non-empty embedding gets the coordinates
    [(NaN, NaN)]. *)
Theorem projectTo2D_short_embedding_poisons (random : nat -> float)
    (data : list SemanticNode) (short : SemanticNode) (i : nat) (node : SemanticNode)
    (Hin : In short data)
    (Hshort : length (embedding short) < projectorDimension data)
    (Hnode : nth_error data i = Some node)
    (Hnonempty : embedding node <> []) :
  exists p, nth_error (projected (projectTo2D random data)) i = Some p /\
            PrimFloat.is_nan (px p) = true /\ PrimFloat.is_nan (py p) = true.
Proof.
  destruct data as [|first rest]; [destruct i; discriminate|].
  unfold projectorDimension in Hshort. unfold projectTo2D.
  set (dimension := length (embedding first)) in *.
  set (mean := meanVector (first :: rest) dimension).
  set (centered := centerRows (first :: rest) mean).
  set (covariance := covarianceMatrix centered dimension (length (first :: rest))).
  assert (Hlen : length covariance = dimension) by apply covarianceMatrix_length.
  assert (Hcov : forall k, k < length covariance ->
                           nanEntry covariance k (length covariance - 1)).
  { intros k Hk. rewrite Hlen in *. unfold covariance.
    apply covarianceMatrix_nan
      with (short := Js.mapIdx (fun value idx => PrimFloat.sub value (nth idx mean PrimFloat.nan))
                       (embedding short)).
    - unfold centered, centerRows. apply in_map_iff. exists short. split; [reflexivity | exact Hin].
    - unfold Js.mapIdx. rewrite mapIdxFrom_length. exact Hshort.
    - exact Hk. }
  assert (Hpos : 0 < length covariance) by lia.
  pose proof (powerIteration_nan random covariance [] 119 0 Hpos Hcov) as H1.
  destruct (powerIteration random covariance [] 120 0) as [[e1 c1] drawn].
  cbn [fst snd] in H1. cbv zeta in H1. destruct H1 as [Hl1 Hn1].
  pose proof (powerIteration_nan random covariance [c1] 119 drawn Hpos Hcov) as H2.
  destruct (powerIteration random covariance [c1] 120 drawn) as [[e2 c2] drawn'].
  cbn [fst snd] in H2. cbv zeta in H2. destruct H2 as [Hl2 Hn2].
  cbn [projected].
  set (row := Js.mapIdx (fun value idx => PrimFloat.sub value (nth idx mean PrimFloat.nan))
                (embedding node)).
  assert (Hrow : nth_error centered i = Some row).
  { unfold centered, centerRows. rewrite nth_error_map, Hnode. reflexivity. }
  assert (Hne : row <> []).
  { unfold row, Js.mapIdx. intros E. apply (f_equal (@length float)) in E.
    rewrite mapIdxFrom_length in E. destruct (embedding node); [contradiction | discriminate]. }
  rewrite nth_error_map, Hrow. simpl.
  eexists. split; [reflexivity|]. simpl.
  split; apply nan_is_nan; apply dotProduct_nan_component; try assumption.
  - intros E. rewrite E in Hl1. simpl in Hl1. lia.
  - intros E. rewrite E in Hl2. simpl in Hl2. lia.
Qed.

Lemma projectTo2D_short_embedding_poisons_witness :
  exists p, nth_error (projected (projectTo2D drawsA
                                    [record [1; 2]; record [3]; record [5; 6]]%float)) 2
            = Some p /\
            PrimFloat.is_nan (px p) = true /\ PrimFloat.is_nan (py p) = true.
Proof.
  apply (projectTo2D_short_embedding_poisons drawsA
           [record [1; 2]; record [3]; record [5; 6]]%float (record [3]%float) 2
           (record [5; 6]%float)).
  - right. left. reflexivity.
  - simpl. lia.
  - reflexivity.
  - discriminate.
Defined.

(** ** The series of the chart *)

Lemma pushGrouped_concat (grouped : list (Z * list ProjectedNode)) (n : ProjectedNode) :
  Permutation (concat (map snd (pushGrouped grouped n))) (n :: concat (map snd grouped)).
Proof.
  induction grouped as [|[k bucket] rest IH]; simpl; [reflexivity|].
  destruct (k =? clusterId n)%Z; simpl.
  - rewrite <- app_assoc. simpl. symmetry. apply Permutation_middle.
  - rewrite IH. symmetry. apply Permutation_middle.
Qed.

Lemma groupByCluster_concat_from (nodes : list ProjectedNode)
    (grouped : list (Z * list ProjectedNode)) :
  Permutation (concat (map snd (fold_left pushGrouped nodes grouped)))
    (concat (map snd grouped) ++ nodes).
Proof.
  revert grouped. induction nodes as [|n r IH]; intros grouped; simpl.
  - rewrite app_nil_r. reflexivity.
  - rewrite IH, pushGrouped_concat. simpl. apply Permutation_middle.
Qed.

(** X21: the chart draws every record exactly once.  The data of all series
    together are a rearrangement of the enriched records; no series is
    empty, and a series holds exactly the records of one cluster label, in
    input order, under the name and the colour of that label; there are as
    many series as insights, with the same sizes. *)
Theorem chartSeries_draws_every_record (enriched : list ProjectedNode) :
  Permutation (concat (map seriesData (chartSeries enriched))) enriched /\
  (forall series, In series (chartSeries enriched) ->
     seriesData series <> [] /\
     exists label, In label (map clusterId enriched) /\
                   seriesData series = withLabel label enriched /\
                   seriesName series = clusterName label /\
                   seriesColor series = clusterColor label) /\
  Permutation (map (fun series => length (seriesData series)) (chartSeries enriched))
    (map size (clusterInsights enriched)).
Proof.
  destruct (groupByCluster_spec enriched) as [Hnd [Hkeys Hbuckets]].
  unfold chartSeries, clusterInsights. split; [|split].
  - rewrite map_map. simpl.
    change (map (fun x : Z * list ProjectedNode => snd x) (groupByCluster enriched))
      with (map snd (groupByCluster enriched)).
    unfold groupByCluster. rewrite groupByCluster_concat_from. reflexivity.
  - intros series Hin. apply in_map_iff in Hin as [[k bucket] [<- Hentry]]. simpl.
    assert (Hk : In k (map fst (groupByCluster enriched))).
    { apply in_map_iff. exists (k, bucket). auto. }
    pose proof (@bucketOf_In _ _ _ Hnd Hentry) as Hb.
    rewrite Hbuckets in Hb by exact Hk. injection Hb as <-.
    apply Hkeys in Hk. split.
    + apply in_map_iff in Hk as [n [Hn Hin]].
      assert (Hmem : In n (withLabel k enriched)).
      { apply filter_In. split; [exact Hin | apply Z.eqb_eq; exact Hn]. }
      intros E. rewrite E in Hmem. contradiction.
    + exists k. repeat split. exact Hk.
  - rewrite (Permutation_map size (sortBySizeDesc_perm _)). rewrite !map_map. reflexivity.
Qed.

Lemma clusterColor_palette (c : Z) :
  (0 <= c < 15)%Z -> clusterColor c = nth_error palette (Z.to_nat c).
Proof.
  intros Hc. unfold clusterColor. destruct (Z.eqb_spec c (-1)); [lia|].
  change (Z.of_nat (length palette)) with 15%Z.
  rewrite Z.rem_small by lia. destruct (Z.ltb_spec c 0); [lia | reflexivity].
Qed.

Lemma palette_distinct (i j : nat) :
  i < 14 -> j < 14 -> nth_error palette i = nth_error palette j -> i = j.
Proof.
  intros Hi Hj.
  do 14 (destruct i as [|i];
         [do 14 (destruct j as [|j]; [vm_compute; intros H; try reflexivity; discriminate H|]);
          lia|]).
  lia.
Qed.

(** X22: the colours of the clusters.  The colour of cluster [c + 15] is the
    colour of cluster [c]; the clusters [0 .. 13] have pairwise different
    colours, none of them the colour of the noise series; and cluster [14]
    has the colour of cluster [1], the palette listing that colour twice. *)
Theorem clusterColor_repeats (a b c : Z)
    (Ha : (0 <= a < 14)%Z) (Hb : (0 <= b < 14)%Z) (Hc : (0 <= c)%Z) :
  clusterColor (c + 15) = clusterColor c /\
  (clusterColor a = clusterColor b <-> a = b) /\
  clusterColor a <> clusterColor (-1) /\
  clusterColor 14 = clusterColor 1.
Proof.
  split; [|split; [|split]].
  - unfold clusterColor.
    destruct (Z.eqb_spec (c + 15) (-1)); [lia|]. destruct (Z.eqb_spec c (-1)); [lia|].
    change (Z.of_nat (length palette)) with 15%Z.
    replace (Z.rem (c + 15) 15) with (Z.rem c 15); [reflexivity|].
    rewrite !Z.rem_mod_nonneg by lia.
    replace (c + 15)%Z with (c + 1 * 15)%Z by lia. rewrite Z.mod_add by lia. reflexivity.
  - split; [|intros ->; reflexivity].
    rewrite !clusterColor_palette by lia. intros H.
    apply palette_distinct in H; lia.
  - rewrite clusterColor_palette by lia.
    assert (Hi : Z.to_nat a < 14) by lia. revert Hi. generalize (Z.to_nat a). intros i Hi.
    do 14 (destruct i as [|i]; [vm_compute; discriminate|]). lia.
  - reflexivity.
Qed.

Lemma clusterColor_repeats_witness :
  clusterColor (20 + 15) = clusterColor 20 /\
  (clusterColor 3 = clusterColor 5 <-> 3%Z = 5%Z) /\
  clusterColor 3 <> clusterColor (-1) /\
  clusterColor 14 = clusterColor 1.
Proof. apply (clusterColor_repeats 3 5 20); lia. Defined.

(** ** The CSV lines of the export *)

Lemma append_empty (text : string) : (text ++ "")%string = text.
Proof. induction text as [|c r IH]; simpl; [reflexivity | rewrite IH; reflexivity]. Qed.

Lemma append_assoc_char (cell : string) (c : Ascii.ascii) (rest : string) :
  ((cell ++ String c "") ++ rest)%string = (cell ++ String c rest)%string.
Proof. induction cell as [|x y IH]; simpl; [reflexivity | rewrite IH; reflexivity]. Qed.

Lemma readCsvRow_cell (text : string) (cell : string) (cells : list string) (rest : string) :
  readCsvRow (inCell cell) cells
    (escapeQuotes text ++ String doubleQuote rest)
  = readCsvRow (afterQuote (cell ++ text)) cells rest.
Proof.
  revert cell. induction text as [|c r IH]; intros cell.
  - cbn [escapeQuotes String.append readCsvRow]. rewrite Ascii.eqb_refl, append_empty.
    reflexivity.
  - cbn [escapeQuotes]. destruct (Ascii.eqb c doubleQuote) eqn:E.
    + apply Ascii.eqb_eq in E. subst c.
      cbn [String.append readCsvRow]. rewrite !Ascii.eqb_refl.
      rewrite IH, append_assoc_char. reflexivity.
    + cbn [String.append readCsvRow]. rewrite E.
      rewrite IH, append_assoc_char. reflexivity.
Qed.

Lemma readCsvRow_cells (values : list string) (cells : list string) :
  values <> [] ->
  readCsvRow expectCell cells (csvRow values) = Some (cells ++ values).
Proof.
  unfold csvRow. revert cells.
  induction values as [|v r IH]; intros cells Hne; [contradiction|].
  destruct r as [|v' r'].
  - cbn [map String.concat]. unfold csvCell. cbn [readCsvRow]. rewrite Ascii.eqb_refl.
    rewrite (readCsvRow_cell v "" cells ""). reflexivity.
  - change (String.concat "," (map csvCell (v :: v' :: r')))
      with (csvCell v ++ String comma (String.concat "," (map csvCell (v' :: r'))))%string.
    unfold csvCell at 1. cbn [String.append readCsvRow]. rewrite Ascii.eqb_refl.
    rewrite append_assoc_char.
    rewrite (readCsvRow_cell v "" cells).
    cbn [String.append readCsvRow].
    replace (Ascii.eqb comma doubleQuote) with false by reflexivity.
    rewrite Ascii.eqb_refl.
    rewrite IH by discriminate. rewrite <- app_assoc. reflexivity.
Qed.

(** X23: a CSV line of the export loses nothing, whatever the values hold
    (commas, double quotes, line breaks): reading the line cell by cell
    gives the values back, so that two different lists of values never give
    the same line. *)
Theorem csvRow_lossless (values values' : list string) :
  readCsvRow expectCell [] (csvRow values) = Some values /\
  (csvRow values = csvRow values' -> values = values').
Proof.
  assert (Hread : forall l, readCsvRow expectCell [] (csvRow l) = Some l).
  { intros [|v r]; [reflexivity|]. apply (readCsvRow_cells (v :: r) []). discriminate. }
  split; [apply Hread|].
  intros Heq. pose proof (Hread values) as H1. rewrite Heq, Hread in H1. congruence.
Qed.

(** ** The distance is symmetric on rows of equal length *)

Lemma binary_round_aux_opp (sx : bool) (mx ex : Z) (lx : location) :
  binary_round_aux prec emax (negb sx) mx ex lx
  = SFopp (binary_round_aux prec emax sx mx ex lx).
Proof.
  unfold binary_round_aux.
  destruct (shr_fexp prec emax mx ex lx) as [mrs' e'].
  destruct (shr_fexp prec emax _ e' loc_Exact) as [mrs'' e''].
  destruct (shr_m mrs''); [reflexivity | | reflexivity].
  destruct (Z.leb e'' _); reflexivity.
Qed.

Lemma binary_normalize_opp (m e : Z) :
  binary_normalize prec emax (- m) e false = binary_normalize prec emax m e false \/
  binary_normalize prec emax (- m) e false = SFopp (binary_normalize prec emax m e false).
Proof.
  destruct m as [|p|p]; simpl.
  - left. reflexivity.
  - right. unfold binary_round.
    destruct (shl_align p e _) as [mz ez]. apply (binary_round_aux_opp false).
  - right. unfold binary_round.
    destruct (shl_align p e _) as [mz ez].
    rewrite (binary_round_aux_opp false). 
    destruct (binary_round_aux prec emax false (Z.pos mz) ez loc_Exact) as [s|s| |s m' e'];
      simpl; try destruct s; reflexivity.
Qed.

Lemma SFsub_swap_finite (sx : bool) (mx : positive) (ex : Z) (sy : bool) (my : positive)
    (ey : Z) :
  SFsub prec emax (S754_finite sy my ey) (S754_finite sx mx ex)
  = SFsub prec emax (S754_finite sx mx ex) (S754_finite sy my ey) \/
  SFsub prec emax (S754_finite sy my ey) (S754_finite sx mx ex)
  = SFopp (SFsub prec emax (S754_finite sx mx ex) (S754_finite sy my ey)).
Proof.
  cbn [SFsub]. rewrite (Z.min_comm ey ex).
  set (ez := Z.min ex ey).
  set (A := cond_Zopp sx (Z.pos (fst (shl_align mx ex ez)))).
  set (B := cond_Zopp sy (Z.pos (fst (shl_align my ey ez)))).
  replace (B - A)%Z with (- (A - B))%Z by lia.
  apply binary_normalize_opp.
Qed.

Lemma SFsub_swap (x y : spec_float) :
  SFsub prec emax y x = SFsub prec emax x y \/
  SFsub prec emax y x = SFopp (SFsub prec emax x y).
Proof.
  destruct x as [sx|sx| |sx mx ex]; destruct y as [sy|sy| |sy my ey];
    try apply SFsub_swap_finite;
    try destruct sx; try destruct sy; simpl;
    first [left; reflexivity | right; reflexivity].
Qed.

Lemma SFmul_square_opp (z : spec_float) :
  SFmul prec emax (SFopp z) (SFopp z) = SFmul prec emax z z.
Proof. destruct z as [s|s| |s m e]; simpl; try destruct s; reflexivity. Qed.

Lemma sub_square_sym (x y : float) :
  PrimFloat.mul (PrimFloat.sub x y) (PrimFloat.sub x y)
  = PrimFloat.mul (PrimFloat.sub y x) (PrimFloat.sub y x).
Proof.
  apply Prim2SF_inj. rewrite !mul_spec, !sub_spec. unfold SF64mul, SF64sub.
  destruct (SFsub_swap (Prim2SF x) (Prim2SF y)) as [H|H]; rewrite H; [reflexivity|].
  symmetry. apply SFmul_square_opp.
Qed.

Lemma euclideanDistance_sym (a b : list float) :
  length a = length b ->
  euclideanDistance floatOps a b = euclideanDistance floatOps b a.
Proof.
  intros Hlen. unfold euclideanDistance. cbn [sqrt add mul sub zero undef floatOps].
  rewrite <- Hlen. f_equal. apply forRange_ext. intros i sum. cbv zeta.
  rewrite sub_square_sym. reflexivity.
Qed.

Lemma regionQuery_sym (data : list RuntimeNode) (eps : float) (p q : nat) :
  p < length (vectors (extractValidEmbeddings data)) ->
  In q (regionQuery (vectors (extractValidEmbeddings data)) eps p) ->
  In p (regionQuery (vectors (extractValidEmbeddings data)) eps q).
Proof.
  intros Hp Hq. unfold regionQuery in *. apply filter_In in Hq as [Hq Hd].
  apply in_seq in Hq. apply filter_In. split; [apply in_seq; lia|].
  rewrite euclideanDistance_sym; [exact Hd|].
  pose proof (extract_rows_dimension data) as Hrows. rewrite Forall_forall in Hrows.
  rewrite !Hrows; [reflexivity | apply nth_In; lia | apply nth_In; lia].
Qed.

(** X24: in floating point, [euclideanDistance(a, b)] and
    [euclideanDistance(b, a)] are the same number whenever the two rows have
    the same length, as all rows of a normalized matrix have; the
    eps-neighbourhoods of [runDbscan] are therefore symmetric. *)
Theorem euclideanDistance_symmetric (data : list RuntimeNode) (eps : float) (a b : list float)
    (p q : nat) (Hlen : length a = length b)
    (Hp : p < length (vectors (extractValidEmbeddings data)))
    (Hq : In q (regionQuery (vectors (extractValidEmbeddings data)) eps p)) :
  euclideanDistance floatOps a b = euclideanDistance floatOps b a /\
  In p (regionQuery (vectors (extractValidEmbeddings data)) eps q).
Proof.
  split; [apply euclideanDistance_sym; exact Hlen | apply regionQuery_sym; assumption].
Qed.

Lemma euclideanDistance_symmetric_witness :
  euclideanDistance floatOps [1; 2]%float [4; 6]%float
  = euclideanDistance floatOps [4; 6]%float [1; 2]%float /\
  In 0 (regionQuery (vectors (extractValidEmbeddings (batch [[0]; [1]; [9]]%float))) 2 1).
Proof.
  apply (euclideanDistance_symmetric (batch [[0]; [1]; [9]]%float) 2
           [1; 2]%float [4; 6]%float 0 1).
  - reflexivity.
  - vm_compute. lia.
  - vm_compute. right. left. reflexivity.
Defined.

(** ** DBSCAN: core rows within eps of each other share a cluster *)

Lemma label_claim_eq (labels : list Z) (current : nat) (clusterId : Z) :
  current < length labels ->
  let labels2 :=
    if (nth current labels (-1) =? -1)%Z then Js.set current clusterId labels else labels in
  (forall r, nth r labels (-1)%Z <> (-1)%Z -> nth r labels2 (-1)%Z = nth r labels (-1)%Z) /\
  (nth current labels (-1)%Z = (-1)%Z -> nth current labels2 (-1)%Z = clusterId) /\
  (forall r, r <> current -> nth r labels2 (-1)%Z = nth r labels (-1)%Z).
Proof.
  intros Hcur. cbv zeta.
  assert (Hlt : Nat.ltb current (length labels) = true) by (apply Nat.ltb_lt; exact Hcur).
  destruct (Z.eqb_spec (nth current labels (-1)%Z) (-1)%Z) as [E|E].
  - split; [|split].
    + intros r Hr. rewrite set_nth. destruct (Nat.eqb_spec r current) as [->|]; [|reflexivity].
      contradiction.
    + intros _. rewrite set_nth, Nat.eqb_refl, Hlt. reflexivity.
    + intros r Hr. rewrite set_nth. destruct (Nat.eqb_spec r current); [contradiction|].
      reflexivity.
  - split; [|split]; auto. intros H. contradiction.
Qed.

Section DbscanClusters.

Variable vectors : list (list float).
Variable eps : float.
Variable minPts : Z.

Hypothesis regionQuery_symmetric :
  forall p q, p < length vectors ->
    In q (regionQuery vectors eps p) -> In p (regionQuery vectors eps q).

Lemma expandCluster_growing (labels0 : list Z) (visited0 : list bool) (fuel : nat)
    (clusterId : Z) (seeds : list nat) (labels : list Z) (visited : list bool) :
  (0 <= clusterId)%Z ->
  length labels = length vectors -> length visited = length vectors ->
  Forall (fun s => s < length vectors) seeds ->
  (forall p, nth p labels (-1)%Z <> (-1)%Z -> nth p visited false = true) ->
  dbscanGrowing vectors eps minPts clusterId labels0 visited0 seeds labels visited ->
  length seeds + length vectors * unvisited visited <= fuel ->
  dbscanGrowing vectors eps minPts clusterId labels0 visited0 []
    (fst (expandCluster vectors eps minPts fuel clusterId seeds labels visited))
    (snd (expandCluster vectors eps minPts fuel clusterId seeds labels visited)).
Proof.
  intros Hc. revert seeds labels visited.
  induction fuel as [|fuel IH]; intros seeds labels visited Hll Hlv Hseeds Hlv' Hgrow Hfuel.
  - destruct seeds; [|simpl in Hfuel; lia]. exact Hgrow.
  - cbn [expandCluster]. destruct seeds as [|s0 rest]; [exact Hgrow|].
    destruct (removelast_bounds vectors (s0 :: rest) ltac:(discriminate) Hseeds)
      as [Hcur [Hrest Hlen]].
    destruct (@exists_last _ (s0 :: rest) ltac:(discriminate)) as [front [current Hsplit]].
    rewrite Hsplit in *. rewrite last_last, removelast_last in *.
    destruct Hgrow as (E1 & E1' & E2 & E3).
    destruct (label_claim labels current clusterId Hc ltac:(lia)) as (L1 & L2 & L3 & L4).
    destruct (label_claim_eq labels current clusterId ltac:(lia)) as (M1 & M2 & M3).
    set (labels2 := if (nth current labels (-1) =? -1)%Z
                    then Js.set current clusterId labels else labels) in *.
    assert (Hsame : forall r, nth r labels (-1)%Z = clusterId ->
                              nth r labels2 (-1)%Z = clusterId).
    { intros r Hr. rewrite M1; [exact Hr | lia]. }
    assert (E2' : forall r, nth r labels0 (-1)%Z <> (-1)%Z ->
                            nth r labels2 (-1)%Z = nth r labels0 (-1)%Z).
    { intros r Hr. rewrite <- (E2 r Hr). apply M1. rewrite (E2 r Hr). exact Hr. }
    destruct (nth current visited false) eqn:Ev.
    + apply IH; auto; try lia.
      * intros p Hl. destruct (L4 p Hl) as [->|H]; [exact Ev | apply Hlv'; exact H].
      * unfold dbscanGrowing. splits; auto.
        -- intros r Hr. destruct (E1 r Hr) as [H|H]; [left; exact H | right; apply Hsame, H].
        -- intros q p Hq Hvq Hv0 Hcore Hp.
           destruct (E3 q p Hq Hvq Hv0 Hcore Hp) as [H|H]; [left; exact H|].
           apply in_app_or in H as [H|[<-|[]]]; [right; exact H | left; exact Ev].
    + destruct (visit_write visited current ltac:(lia)) as (V1 & V2 & V3 & V4).
      set (visited2 := Js.set current true visited) in *.
      pose proof (unvisited_set vectors visited current ltac:(lia) Ev) as Hu.
      fold visited2 in Hu.
      destruct (regionQuery_bounds vectors eps current) as [Hnb Hnl].
      destruct (pushNew_bounds vectors front (regionQuery vectors eps current) Hrest Hnb)
        as [Hpb Hpl].
      rewrite length_app in Hfuel. simpl in Hfuel.
      assert (Hnoise : nth current labels (-1)%Z = (-1)%Z).
      { destruct (Z.eq_dec (nth current labels (-1)%Z) (-1)%Z) as [E|E]; [exact E|].
        apply Hlv' in E. congruence. }
      assert (Hlabelled : forall p, nth p labels2 (-1)%Z <> (-1)%Z ->
                                    nth p visited2 false = true).
      { intros p Hl. destruct (L4 p Hl) as [->|H]; [exact V2 | apply V3, Hlv'; exact H]. }
      assert (E1n : forall r, nth r visited2 false = true ->
                              nth r visited0 false = true \/ nth r labels2 (-1)%Z = clusterId).
      { intros r Hr. destruct (V4 r Hr) as [->|H]; [right; apply M2; exact Hnoise|].
        destruct (E1 r H) as [H'|H']; [left; exact H' | right; apply Hsame, H']. }
      fold (isCore vectors eps minPts current).
      destruct (isCore vectors eps minPts current) eqn:Ecore.
      * apply IH; auto; try lia; try nia.
        unfold dbscanGrowing. splits; auto.
        intros q p Hq Hvq Hv0 Hcore Hp. destruct (V4 q Hvq) as [->|Hvq'].
        -- right. apply pushNew_In. right. exact Hp.
        -- destruct (E3 q p Hq Hvq' Hv0 Hcore Hp) as [H|H]; [left; apply V3; exact H|].
           apply in_app_or in H as [H|[<-|[]]]; [|left; exact V2].
           right. apply pushNew_In. left. exact H.
      * apply IH; auto; try lia; try nia.
        unfold dbscanGrowing. splits; auto.
        intros q p Hq Hvq Hv0 Hcore Hp. destruct (V4 q Hvq) as [->|Hvq']; [congruence|].
        destruct (E3 q p Hq Hvq' Hv0 Hcore Hp) as [H|H]; [left; apply V3; exact H|].
        apply in_app_or in H as [H|[<-|[]]]; [right; exact H | left; exact V2].
Qed.

(** A cluster that has stopped growing leaves the rows linked. *)
Lemma growing_linked (clusterId : Z) (labels0 labels : list Z) (visited0 visited : list bool) :
  (forall p, nth p labels0 (-1)%Z <> (-1)%Z -> nth p visited0 false = true) ->
  dbscanComplete vectors eps minPts [] labels0 visited0 ->
  dbscanLinked vectors eps minPts labels0 visited0 ->
  dbscanGrowing vectors eps minPts clusterId labels0 visited0 [] labels visited ->
  dbscanLinked vectors eps minPts labels visited.
Proof.
  intros Hlv0 Hcomplete0 Hlinked0 (E1 & E1' & E2 & E3) q p Hq Hvq Hcore Hp.
  assert (Hpn : p < length vectors).
  { destruct (regionQuery_bounds vectors eps q) as [Hb _]. rewrite Forall_forall in Hb.
    apply Hb. exact Hp. }
  destruct (nth q visited0 false) eqn:Hq0.
  - destruct (Hlinked0 q p Hq Hq0 Hcore Hp) as [Hp0 Hsame].
    split; [apply E1'; exact Hp0|]. intros Hpcore.
    destruct (Hcomplete0 q Hq Hq0 Hcore) as [Hlq _].
    destruct (Hcomplete0 p Hpn Hp0 Hpcore) as [Hlp _].
    rewrite (E2 q Hlq), (E2 p Hlp). apply Hsame. exact Hpcore.
  - destruct (E3 q p Hq Hvq Hq0 Hcore Hp) as [Hvp|[]].
    split; [exact Hvp|]. intros Hpcore.
    destruct (E1 q Hvq) as [H|Hlq]; [congruence|].
    destruct (E1 p Hvp) as [Hp0|Hlp]; [|congruence].
    exfalso. apply regionQuery_symmetric in Hp; [|exact Hq].
    destruct (Hlinked0 p q Hpn Hp0 Hpcore Hp) as [H _]. congruence.
Qed.

Lemma dbscanVisit_linked (i : nat) (labels : list Z) (visited : list bool) (clusterId : Z) :
  i < length vectors ->
  (0 <= clusterId)%Z ->
  length labels = length vectors -> length visited = length vectors ->
  (forall p, nth p labels (-1)%Z <> (-1)%Z -> nth p visited false = true) ->
  dbscanComplete vectors eps minPts [] labels visited ->
  dbscanLinked vectors eps minPts labels visited ->
  dbscanLinked vectors eps minPts
    (fst (fst (dbscanVisit vectors eps minPts i (labels, visited, clusterId))))
    (snd (fst (dbscanVisit vectors eps minPts i (labels, visited, clusterId)))).
Proof.
  intros Hi Hc Hll Hlv Hlv' Hcomplete Hlinked. unfold dbscanVisit.
  destruct (nth i visited false) eqn:Ev; [exact Hlinked|].
  destruct (visit_write visited i ltac:(lia)) as (V1 & V2 & V3 & V4).
  set (visited1 := Js.set i true visited) in *.
  rewrite Z.ltb_antisym. fold (isCore vectors eps minPts i).
  assert (Hnoise : nth i labels (-1)%Z = (-1)%Z).
  { destruct (Z.eq_dec (nth i labels (-1)%Z) (-1)%Z) as [E|E]; [exact E|].
    apply Hlv' in E. congruence. }
  destruct (isCore vectors eps minPts i) eqn:Ecore; cbn [negb].
  - destruct (label_write labels i clusterId Hc ltac:(lia)) as (L1 & L2 & L3 & L4).
    set (labels1 := Js.set i clusterId labels) in *.
    pose proof (unvisited_set vectors visited i ltac:(lia) Ev) as Hu. fold visited1 in Hu.
    pose proof (unvisited_le visited) as Hle.
    destruct (regionQuery_bounds vectors eps i) as [Hnb Hnl]. cbv zeta in Hnl.
    assert (Hstart : dbscanGrowing vectors eps minPts clusterId labels visited
                       (regionQuery vectors eps i) labels1 visited1).
    { unfold dbscanGrowing. splits.
      - intros r Hr. destruct (V4 r Hr) as [->|H]; [right | left; exact H].
        unfold labels1. rewrite set_nth, Nat.eqb_refl.
        replace (Nat.ltb i (length labels)) with true by (symmetry; apply Nat.ltb_lt; lia).
        reflexivity.
      - exact V3.
      - intros r Hr. unfold labels1. rewrite set_nth.
        destruct (Nat.eqb_spec r i) as [->|]; [contradiction | reflexivity].
      - intros q p Hq Hvq Hv0 Hcore Hp. destruct (V4 q Hvq) as [->|H]; [|congruence].
        right. exact Hp. }
    pose proof (expandCluster_growing labels visited (expandFuel vectors) clusterId
                  (regionQuery vectors eps i) labels1 visited1 Hc ltac:(lia) ltac:(lia) Hnb)
      as Hgrow.
    destruct (expandCluster _ _ _ _ _ _ _ _) as [labels2 visited2]. cbn [fst snd] in *.
    apply (growing_linked clusterId labels labels2 visited visited2); auto.
    apply Hgrow; [|exact Hstart | unfold expandFuel; nia].
      intros p Hl. destruct (L4 p Hl) as [->|H]; [exact V2 | apply V3, Hlv'; exact H].
  - cbn [fst snd].
    assert (Hsame : forall p, nth p (Js.set i (-1)%Z labels) (-1)%Z = nth p labels (-1)%Z).
    { intros p. rewrite set_nth. destruct (Nat.eqb_spec p i) as [->|]; [|reflexivity].
      destruct (Nat.ltb i (length labels)); simpl; congruence. }
    intros q p Hq Hvq Hcore Hp. rewrite !Hsame.
    destruct (V4 q Hvq) as [->|Hvq']; [congruence|].
    destruct (Hlinked q p Hq Hvq' Hcore Hp) as [H1 H2]. split; [apply V3; exact H1 | exact H2].
Qed.

Lemma dbscanLabels_linked (p q : nat) :
  p < length vectors ->
  isCore vectors eps minPts p = true -> isCore vectors eps minPts q = true ->
  In q (regionQuery vectors eps p) ->
  nth p (fst (fst (dbscanLabels vectors eps minPts))) (-1)%Z
  = nth q (fst (fst (dbscanLabels vectors eps minPts))) (-1)%Z.
Proof.
  intros Hp Hpcore Hqcore Hq. unfold dbscanLabels.
  assert (Hinv :
    forall k, k <= length vectors ->
      let st := Js.forRange 0 k (dbscanVisit vectors eps minPts)
                  (repeat (-1)%Z (length vectors), repeat false (length vectors), 0%Z) in
      ((0 <= snd st)%Z /\
       length (fst (fst st)) = length vectors /\ length (snd (fst st)) = length vectors /\
       (forall p, nth p (fst (fst st)) (-1)%Z <> (-1)%Z -> nth p (snd (fst st)) false = true) /\
       dbscanSound vectors eps minPts (fst (fst st)) /\
       dbscanComplete vectors eps minPts [] (fst (fst st)) (snd (fst st)) /\
       forall j, j < k -> nth j (snd (fst st)) false = true) /\
      dbscanLinked vectors eps minPts (fst (fst st)) (snd (fst st))).
  { induction k as [|k IH]; intros Hk.
    - cbn [Js.forRange seq fold_left fst snd].
      assert (Hnone : forall r, nth r (repeat (-1)%Z (length vectors)) (-1)%Z = (-1)%Z).
      { intros r. destruct (Nat.lt_ge_cases r (length vectors)).
        - apply nth_repeat_lt. assumption.
        - apply nth_overflow. rewrite repeat_length. assumption. }
      assert (Hnov : forall r, nth r (repeat false (length vectors)) false = false).
      { intros r. destruct (Nat.lt_ge_cases r (length vectors)).
        - apply nth_repeat_lt. assumption.
        - apply nth_overflow. rewrite repeat_length. assumption. }
      split.
      + split; [lia|]. split; [apply repeat_length|]. split; [apply repeat_length|].
        split; [intros r H; exfalso; apply H, Hnone|].
        split; [intros r _ H; exfalso; apply H, Hnone|].
        split; [intros r _ H; rewrite Hnov in H; discriminate | intros j Hj; lia].
      + intros r s _ H. rewrite Hnov in H. discriminate.
    - unfold Js.forRange in *. rewrite seq_S, fold_left_app. cbn [fold_left Nat.add].
      specialize (IH ltac:(lia)). cbv zeta in IH.
      destruct (fold_left _ (seq 0 k) _) as [[labels visited] clusterId].
      cbn [fst snd] in IH. destruct IH as [(I1 & I2 & I3 & I4 & I5 & I6 & I7) I8].
      pose proof (dbscanVisit_linked k labels visited clusterId ltac:(lia) I1 I2 I3 I4 I6 I8)
        as Hlinked.
      destruct (dbscanVisit_noise vectors eps minPts k labels visited clusterId
                  ltac:(lia) I1 I2 I3 I4 I5 I6)
        as (S1 & S2 & S3 & S4 & S5 & S6 & S7 & S8).
      split; [|exact Hlinked].
      splits; auto.
      intros j Hj. destruct (Nat.eq_dec j k) as [->|Hne]; [exact S7|].
      apply S8, I7. lia. }
  destruct (Hinv (length vectors) (Nat.le_refl _)) as [(_ & _ & _ & _ & _ & _ & I7) I8].
  cbv zeta in I8. destruct (I8 p q Hp (I7 p Hp) Hpcore Hq) as [_ H].
  symmetry. apply H. exact Hqcore.
Qed.

End DbscanClusters.

(** X25: [runDbscan] puts two core rows that lie within [eps] of each other
    into the same cluster: the records of two such rows get the same,
    non-negative, label. *)
Theorem runDbscan_core_neighbours_share_cluster (data : list RuntimeNode) (eps : float)
    (minPts : Z) (p q i j : nat)
    (Hp : nth_error (indices (extractValidEmbeddings data)) p = Some i)
    (Hq : nth_error (indices (extractValidEmbeddings data)) q = Some j)
    (Hpcore : isCore (vectors (extractValidEmbeddings data)) eps minPts p = true)
    (Hqcore : isCore (vectors (extractValidEmbeddings data)) eps minPts q = true)
    (Hnear : In q (regionQuery (vectors (extractValidEmbeddings data)) eps p)) :
  nth i (labels (runDbscan data eps minPts)) 0%Z
  = nth j (labels (runDbscan data eps minPts)) 0%Z /\
  (0 <= nth i (labels (runDbscan data eps minPts)) 0%Z)%Z.
Proof.
  destruct (runDbscan_row_label data eps minPts p i Hp) as [Hpn Hpl].
  destruct (runDbscan_row_label data eps minPts q j Hq) as [Hqn Hql].
  rewrite Hpl, Hql.
  set (rows := vectors (extractValidEmbeddings data)) in *.
  split.
  - apply dbscanLabels_linked; try assumption.
    intros a b Ha Hb. apply regionQuery_sym; assumption.
  - destruct (dbscanLabels_noise rows eps minPts p Hpn) as [Hlen Hiff].
    assert (Hcore : nearCore rows eps minPts p = true).
    { apply nearCore_iff. exists p. split; [exact Hpn|]. split; [exact Hpcore | left; reflexivity]. }
    pose proof (dbscanLabels_inv rows eps minPts) as (_ & _ & _ & Hdom & _).
    rewrite Forall_forall in Hdom.
    destruct (Hdom (nth p (fst (fst (dbscanLabels rows eps minPts))) (-1)%Z)) as [E|E].
    + apply nth_In. rewrite Hlen. exact Hpn.
    + apply Hiff in E. congruence.
    + lia.
Qed.

Lemma runDbscan_core_neighbours_share_cluster_witness :
  nth 0 (labels (runDbscan [Some [JsNumber 0]; None; Some [JsNumber 1]; Some [JsNumber 9]]
                   2 2)) 0%Z
  = nth 2 (labels (runDbscan [Some [JsNumber 0]; None; Some [JsNumber 1]; Some [JsNumber 9]]
                     2 2)) 0%Z /\
  (0 <= nth 0 (labels (runDbscan
                         [Some [JsNumber 0]; None; Some [JsNumber 1]; Some [JsNumber 9]]
                         2 2)) 0%Z)%Z.
Proof.
  apply (runDbscan_core_neighbours_share_cluster
           [Some [JsNumber 0]; None; Some [JsNumber 1]; Some [JsNumber 9]] 2 2 0 1 0 2).
  - reflexivity.
  - reflexivity.
  - vm_compute. reflexivity.
  - vm_compute. reflexivity.
  - vm_compute. right. left. reflexivity.
Defined.

(** ** DBSCAN: a border row joins the cluster of a core row next to it *)

Section DbscanBorder.

Variable vectors : list (list float).
Variable eps : float.
Variable minPts : Z.

Lemma expandCluster_attached (fuel : nat) (clusterId : Z) (seeds : list nat)
    (labels : list Z) (visited : list bool) :
  (0 <= clusterId)%Z ->
  length labels = length vectors -> length visited = length vectors ->
  seedsAttached vectors eps minPts clusterId labels seeds ->
  (forall p, nth p labels (-1)%Z <> (-1)%Z -> nth p visited false = true) ->
  dbscanAttached vectors eps minPts labels ->
  length seeds + length vectors * unvisited visited <= fuel ->
  dbscanAttached vectors eps minPts
    (fst (expandCluster vectors eps minPts fuel clusterId seeds labels visited)).
Proof.
  intros Hc. revert seeds labels visited.
  induction fuel as [|fuel IH]; intros seeds labels visited Hll Hlv Hseeds Hlv' Hatt Hfuel.
  - exact Hatt.
  - cbn [expandCluster]. destruct seeds as [|s0 rest]; [exact Hatt|].
    assert (Hbounds : Forall (fun i => i < length vectors) (s0 :: rest)).
    { apply Forall_forall. intros s Hs. apply Hseeds. exact Hs. }
    destruct (removelast_bounds vectors (s0 :: rest) ltac:(discriminate) Hbounds)
      as [Hcur [Hrest Hlen]].
    destruct (@exists_last _ (s0 :: rest) ltac:(discriminate)) as [front [current Hsplit]].
    rewrite Hsplit in *. rewrite last_last, removelast_last in *.
    destruct (label_claim labels current clusterId Hc ltac:(lia)) as (L1 & L2 & L3 & L4).
    destruct (label_claim_eq labels current clusterId ltac:(lia)) as (M1 & M2 & M3).
    set (labels2 := if (nth current labels (-1) =? -1)%Z
                    then Js.set current clusterId labels else labels) in *.
    assert (Hkeep : forall r, nth r labels (-1)%Z = clusterId ->
                              nth r labels2 (-1)%Z = clusterId).
    { intros r Hr. rewrite M1; [exact Hr | lia]. }
    assert (Hatt2 : dbscanAttached vectors eps minPts labels2).
    { intros p Hp Hl.
      destruct (Z.eq_dec (nth p labels (-1)%Z) (-1)%Z) as [E|E].
      - destruct (L4 p Hl) as [->|H]; [|contradiction].
        destruct (Hseeds current) as [_ [q (Hq & Hcore & Hin & Hlq)]];
          [apply in_or_app; right; left; reflexivity|].
        exists q. split; [exact Hq|]. split; [exact Hcore|]. split; [right; exact Hin|].
        rewrite (M2 E). apply Hkeep. exact Hlq.
      - destruct (Hatt p Hp E) as [q (Hq & Hcore & Hin & Hlq)].
        exists q. split; [exact Hq|]. split; [exact Hcore|]. split; [exact Hin|].
        rewrite (M1 p E), M1; [exact Hlq | congruence]. }
    assert (Hfront : seedsAttached vectors eps minPts clusterId labels2 front).
    { intros s Hs. destruct (Hseeds s) as [Hsn [q (Hq & Hcore & Hin & Hlq)]];
        [apply in_or_app; left; exact Hs|].
      split; [exact Hsn|]. exists q. splits; auto. }
    destruct (nth current visited false) eqn:Ev.
    + apply IH; auto; try lia.
      intros p Hl. destruct (L4 p Hl) as [->|H]; [exact Ev | apply Hlv'; exact H].
    + destruct (visit_write visited current ltac:(lia)) as (V1 & V2 & V3 & V4).
      set (visited2 := Js.set current true visited) in *.
      pose proof (unvisited_set vectors visited current ltac:(lia) Ev) as Hu.
      fold visited2 in Hu.
      destruct (regionQuery_bounds vectors eps current) as [Hnb Hnl].
      destruct (pushNew_bounds vectors front (regionQuery vectors eps current) Hrest Hnb)
        as [Hpb Hpl].
      rewrite length_app in Hfuel. simpl in Hfuel.
      assert (Hnoise : nth current labels (-1)%Z = (-1)%Z).
      { destruct (Z.eq_dec (nth current labels (-1)%Z) (-1)%Z) as [E|E]; [exact E|].
        apply Hlv' in E. congruence. }
      assert (Hlabelled : forall p, nth p labels2 (-1)%Z <> (-1)%Z ->
                                    nth p visited2 false = true).
      { intros p Hl. destruct (L4 p Hl) as [->|H]; [exact V2 | apply V3, Hlv'; exact H]. }
      fold (isCore vectors eps minPts current).
      destruct (isCore vectors eps minPts current) eqn:Ecore.
      * apply IH; auto; try lia; try nia.
        intros s Hs. apply pushNew_In in Hs as [Hs|Hs]; [apply Hfront; exact Hs|].
        split; [rewrite Forall_forall in Hnb; apply Hnb; exact Hs|].
        exists current. splits; auto.
      * apply IH; auto; try lia; try nia.
Qed.

Lemma dbscanVisit_attached (i : nat) (labels : list Z) (visited : list bool) (clusterId : Z) :
  i < length vectors ->
  (0 <= clusterId)%Z ->
  length labels = length vectors -> length visited = length vectors ->
  (forall p, nth p labels (-1)%Z <> (-1)%Z -> nth p visited false = true) ->
  dbscanAttached vectors eps minPts labels ->
  dbscanAttached vectors eps minPts
    (fst (fst (dbscanVisit vectors eps minPts i (labels, visited, clusterId)))).
Proof.
  intros Hi Hc Hll Hlv Hlv' Hatt. unfold dbscanVisit.
  destruct (nth i visited false) eqn:Ev; [exact Hatt|].
  destruct (visit_write visited i ltac:(lia)) as (V1 & V2 & V3 & V4).
  set (visited1 := Js.set i true visited) in *.
  rewrite Z.ltb_antisym. fold (isCore vectors eps minPts i).
  assert (Hnoise : nth i labels (-1)%Z = (-1)%Z).
  { destruct (Z.eq_dec (nth i labels (-1)%Z) (-1)%Z) as [E|E]; [exact E|].
    apply Hlv' in E. congruence. }
  destruct (isCore vectors eps minPts i) eqn:Ecore; cbn [negb].
  - destruct (label_write labels i clusterId Hc ltac:(lia)) as (L1 & L2 & L3 & L4).
    set (labels1 := Js.set i clusterId labels) in *.
    assert (Hi1 : nth i labels1 (-1)%Z = clusterId).
    { unfold labels1. rewrite set_nth, Nat.eqb_refl.
      replace (Nat.ltb i (length labels)) with true by (symmetry; apply Nat.ltb_lt; lia).
      reflexivity. }
    assert (Hother : forall r, r <> i -> nth r labels1 (-1)%Z = nth r labels (-1)%Z).
    { intros r Hr. unfold labels1. rewrite set_nth.
      destruct (Nat.eqb_spec r i); [contradiction | reflexivity]. }
    pose proof (unvisited_set vectors visited i ltac:(lia) Ev) as Hu. fold visited1 in Hu.
    pose proof (unvisited_le visited) as Hle.
    destruct (regionQuery_bounds vectors eps i) as [Hnb Hnl]. cbv zeta in Hnl.
    pose proof (expandCluster_attached (expandFuel vectors) clusterId
                  (regionQuery vectors eps i) labels1 visited1 Hc ltac:(lia) ltac:(lia))
      as Hexpand.
    destruct (expandCluster _ _ _ _ _ _ _ _) as [labels2 visited2]. cbn [fst snd] in *.
    apply Hexpand.
    + intros s Hs. split; [rewrite Forall_forall in Hnb; apply Hnb; exact Hs|].
      exists i. splits; auto.
    + intros p Hl. destruct (L4 p Hl) as [->|H]; [exact V2 | apply V3, Hlv'; exact H].
    + intros p Hp Hl. destruct (Nat.eq_dec p i) as [->|Hne].
      * exists i. splits; auto.
      * rewrite (Hother p Hne) in Hl. destruct (Hatt p Hp Hl) as [q (Hq & Hcore & Hin & Hlq)].
        exists q. splits; auto. rewrite (Hother p Hne).
        destruct (Nat.eq_dec q i) as [->|Hqi]; [congruence|].
        rewrite (Hother q Hqi). exact Hlq.
    + unfold expandFuel. nia.
  - cbn [fst snd].
    assert (Hsame : forall p, nth p (Js.set i (-1)%Z labels) (-1)%Z = nth p labels (-1)%Z).
    { intros p. rewrite set_nth. destruct (Nat.eqb_spec p i) as [->|]; [|reflexivity].
      destruct (Nat.ltb i (length labels)); simpl; congruence. }
    intros p Hp Hl. rewrite Hsame in Hl. destruct (Hatt p Hp Hl) as [q (Hq & Hcore & Hin & Hlq)].
    exists q. splits; auto. rewrite !Hsame. exact Hlq.
Qed.

Lemma dbscanLabels_attached :
  dbscanAttached vectors eps minPts (fst (fst (dbscanLabels vectors eps minPts))).
Proof.
  unfold dbscanLabels.
  assert (Hinv :
    forall k, k <= length vectors ->
      let st := Js.forRange 0 k (dbscanVisit vectors eps minPts)
                  (repeat (-1)%Z (length vectors), repeat false (length vectors), 0%Z) in
      ((0 <= snd st)%Z /\
       length (fst (fst st)) = length vectors /\ length (snd (fst st)) = length vectors /\
       (forall p, nth p (fst (fst st)) (-1)%Z <> (-1)%Z -> nth p (snd (fst st)) false = true) /\
       dbscanSound vectors eps minPts (fst (fst st)) /\
       dbscanComplete vectors eps minPts [] (fst (fst st)) (snd (fst st))) /\
      dbscanAttached vectors eps minPts (fst (fst st))).
  { induction k as [|k IH]; intros Hk.
    - cbn [Js.forRange seq fold_left fst snd].
      assert (Hnone : forall r, nth r (repeat (-1)%Z (length vectors)) (-1)%Z = (-1)%Z).
      { intros r. destruct (Nat.lt_ge_cases r (length vectors)).
        - apply nth_repeat_lt. assumption.
        - apply nth_overflow. rewrite repeat_length. assumption. }
      assert (Hnov : forall r, nth r (repeat false (length vectors)) false = false).
      { intros r. destruct (Nat.lt_ge_cases r (length vectors)).
        - apply nth_repeat_lt. assumption.
        - apply nth_overflow. rewrite repeat_length. assumption. }
      split.
      + split; [lia|]. split; [apply repeat_length|]. split; [apply repeat_length|].
        split; [intros r H; exfalso; apply H, Hnone|].
        split; [intros r _ H; exfalso; apply H, Hnone|].
        intros r _ H; rewrite Hnov in H; discriminate.
      + intros r _ H. exfalso. apply H, Hnone.
    - unfold Js.forRange in *. rewrite seq_S, fold_left_app. cbn [fold_left Nat.add].
      specialize (IH ltac:(lia)). cbv zeta in IH.
      destruct (fold_left _ (seq 0 k) _) as [[labels visited] clusterId].
      cbn [fst snd] in IH. destruct IH as [(I1 & I2 & I3 & I4 & I5 & I6) I8].
      pose proof (dbscanVisit_attached k labels visited clusterId ltac:(lia) I1 I2 I3 I4 I8)
        as Hatt.
      destruct (dbscanVisit_noise vectors eps minPts k labels visited clusterId
                  ltac:(lia) I1 I2 I3 I4 I5 I6)
        as (S1 & S2 & S3 & S4 & S5 & S6 & S7 & S8).
      split; [|exact Hatt]. splits; auto. }
  destruct (Hinv (length vectors) (Nat.le_refl _)) as [_ H]. exact H.
Qed.

End DbscanBorder.

(** X26: a record that [runDbscan] puts into a cluster is a core row of that
    cluster or lies within [eps] of a core row of it: some core row [q]
    with the same label has the record's row in its neighbourhood (or is
    that row). *)
Theorem runDbscan_border_joins_core (data : list RuntimeNode) (eps : float) (minPts : Z)
    (p i : nat)
    (Hp : nth_error (indices (extractValidEmbeddings data)) p = Some i)
    (Hlabelled : nth i (labels (runDbscan data eps minPts)) 0%Z <> (-1)%Z) :
  exists q j,
    nth_error (indices (extractValidEmbeddings data)) q = Some j /\
    isCore (vectors (extractValidEmbeddings data)) eps minPts q = true /\
    (q = p \/ In p (regionQuery (vectors (extractValidEmbeddings data)) eps q)) /\
    nth j (labels (runDbscan data eps minPts)) 0%Z
    = nth i (labels (runDbscan data eps minPts)) 0%Z.
Proof.
  destruct (runDbscan_row_label data eps minPts p i Hp) as [Hpn Hpl].
  rewrite Hpl in Hlabelled.
  destruct (dbscanLabels_attached (vectors (extractValidEmbeddings data)) eps minPts p Hpn
              Hlabelled) as [q (Hq & Hcore & Hin & Hlq)].
  destruct (nth_error (indices (extractValidEmbeddings data)) q) as [j|] eqn:Hj.
  - exists q, j. split; [exact Hj|]. split; [exact Hcore|]. split; [exact Hin|].
    destruct (runDbscan_row_label data eps minPts q j Hj) as [_ Hql].
    rewrite Hql, Hpl. exact Hlq.
  - apply nth_error_None in Hj. rewrite <- extract_lengths in Hj. lia.
Qed.

Lemma runDbscan_border_joins_core_witness :
  exists q j,
    nth_error (indices (extractValidEmbeddings
                          [Some [JsNumber 0]; None; Some [JsNumber 1]; Some [JsNumber 9]]))
      q = Some j /\
    isCore (vectors (extractValidEmbeddings
                       [Some [JsNumber 0]; None; Some [JsNumber 1]; Some [JsNumber 9]]))
      2 2 q = true /\
    (q = 1 \/
     In 1 (regionQuery (vectors (extractValidEmbeddings
                                   [Some [JsNumber 0]; None; Some [JsNumber 1];
                                    Some [JsNumber 9]])) 2 q)) /\
    nth j (labels (runDbscan [Some [JsNumber 0]; None; Some [JsNumber 1]; Some [JsNumber 9]]
                     2 2)) 0%Z
    = nth 2 (labels (runDbscan [Some [JsNumber 0]; None; Some [JsNumber 1]; Some [JsNumber 9]]
                       2 2)) 0%Z.
Proof.
  apply (runDbscan_border_joins_core
           [Some [JsNumber 0]; None; Some [JsNumber 1]; Some [JsNumber 9]] 2 2 1 2).
  - reflexivity.
  - vm_compute. discriminate.
Defined.

(** ** K-Means: a larger cap after convergence *)

Section KMeansCap.

Context {T : Type} (ops : NumOps T).
Variable vectors : list (list T).
Variable dimension : nat.

Lemma kmeansLoop_more (remaining extra iterations : nat) (labels : list nat)
    (centroids : list (list T)) :
  snd (kmeansLoop ops vectors dimension remaining iterations labels centroids)
  < iterations + remaining ->
  kmeansLoop ops vectors dimension (remaining + extra) iterations labels centroids
  = kmeansLoop ops vectors dimension remaining iterations labels centroids.
Proof.
  revert iterations labels centroids.
  induction remaining as [|r IH]; intros iterations labels centroids; [simpl; lia|].
  cbn [kmeansLoop Nat.add].
  destruct (assignLabels ops vectors centroids labels) as [labels1 changed].
  destruct changed; [|reflexivity].
  intros H. apply IH. lia.
Qed.

End KMeansCap.

(** X27: once [runKMeans] has stopped before its cap, the cap no longer
    matters: every larger [maxIterations] gives the same labels, centroids,
    iteration count and inertia. *)
Theorem runKMeans_converged_stable (data : list RuntimeNode) (k : Z)
    (maxIterations larger performed : nat)
    (Hiterations : iterations (runKMeans data k maxIterations) = Some performed)
    (Hstopped : performed < maxIterations)
    (Hlarger : maxIterations <= larger) :
  runKMeans data k larger = runKMeans data k maxIterations.
Proof.
  revert Hiterations. unfold runKMeans.
  destruct (Nat.eqb (length data) 0); [reflexivity|].
  destruct (_ || _); [reflexivity|].
  destruct (Nat.eqb (length (initialCentroids _ _)) 0); [reflexivity|].
  set (valid := extractValidEmbeddings data).
  pose proof (kmeansLoop_more floatOps (vectors valid) (dimension valid) maxIterations
                (larger - maxIterations) 0 (repeat 0 (length (vectors valid)))
                (initialCentroids (vectors valid) k)) as Hmore.
  replace (maxIterations + (larger - maxIterations)) with larger in Hmore by lia.
  destruct (kmeansLoop floatOps (vectors valid) (dimension valid) maxIterations 0 _ _)
    as [[labels' centroids'] iterations'] eqn:E.
  cbn [snd iterations] in *. intros Hit. injection Hit as ->.
  rewrite Hmore by (simpl; exact Hstopped). reflexivity.
Qed.

Lemma runKMeans_converged_stable_witness :
  runKMeans (batch [[0; 0]; [1; 1]; [8; 8]; [9; 9]]%float) 2 100
  = runKMeans (batch [[0; 0]; [1; 1]; [8; 8]; [9; 9]]%float) 2 40.
Proof.
  apply (runKMeans_converged_stable (batch [[0; 0]; [1; 1]; [8; 8]; [9; 9]]%float) 2 40 100 2).
  - vm_compute. reflexivity.
  - lia.
  - lia.
Defined.
